(** * padchat-sdk: key-casing helper, inbound router and command dispatcher

    A shallow embedding of [src/helper.js], [src/unnamed/part_001] (a later
    revision of the helper) and of the two revisions of [src/index.js]
    (lines 1-1764 and lines 1765-2999), with the properties of the
    correlation/demultiplexing layer stated and proved over it.

    Conventions of the embedding.
    - A decoded JSON document is a tree ([JsValue]).  Numbers are the
      integers (type codes, counters); nothing below does arithmetic on them.
    - A mapping is its list of own properties in enumeration order
      ([for ... in] order of V8: array-index keys ascending, then the other
      keys in creation order).
    - Property names are strings of code units; only ASCII units are ever
      inspected or changed by the regular expressions of the helper.
    - A call either returns, throws, runs out of the recursion budget of the
      embedding, or reaches a write of the property [__proto__] of an object
      that has no such own property (the prototype setter, which the
      embedding does not describe).
    - The objects a caller holds live in a store; a value of the store stands
      for a document when the objects reachable from it form a tree. *)

From Stdlib Require Import ZArith NArith Ascii String List Bool Lia DecimalString DecimalNat.
From Stdlib Require Import Sorted Permutation.
From stdpp Require Import base list.
Import ListNotations.

Local Open Scope string_scope.
Local Open Scope list_scope.

(** ** JSON values *)

#[local] Set Warnings "-register-all".
Inductive JsValue : Type :=
| JUndefined
| JNull
| JBool (b : bool)
| JNum (n : Z)
| JStr (s : string)
| JArr (items : list JsValue)
| JObj (props : list (string * JsValue)).

(** ** Completions *)

(** [new TypeError(msg)] and [new Error(msg + tail)]; [tail] is a value the
    source appends to the message text, kept as it is. *)
Inductive JsError : Type :=
| TypeError (msg : string)
| Error (msg : string) (tail : option JsValue).


Inductive Completion (A : Type) : Type :=
| Normal (x : A)
| Throw (e : JsError)
| Diverge
| OffModel.

Arguments Normal {A} x.
Arguments Throw {A} e.
Arguments Diverge {A}.
Arguments OffModel {A}.

Definition cbind {A B : Type} (m : Completion A) (f : A -> Completion B) : Completion B :=
  match m with
  | Normal x => f x
  | Throw e => Throw e
  | Diverge => Diverge
  | OffModel => OffModel
  end.

Declare Scope completion_scope.
Delimit Scope completion_scope with completion.
Notation "x <- m ;; k" := (cbind m (fun x => k))
  (at level 100, m at next level, right associativity) : completion_scope.
Local Open Scope completion_scope.

Fixpoint cmap {A B : Type} (f : A -> Completion B) (l : list A) : Completion (list B) :=
  match l with
  | [] => Normal []
  | x :: r => y <- f x ;; r' <- cmap f r ;; Normal (y :: r')
  end.

Fixpoint cfold {A B : Type} (f : A -> B -> Completion A) (l : list B) (a : A) : Completion A :=
  match l with
  | [] => Normal a
  | x :: r => a' <- f a x ;; cfold f r a'
  end.

Definition Props : Type := list (string * JsValue).

(** [v instanceof Object], for a value that came out of [JSON.parse]. *)
Definition instanceof_Object (v : JsValue) : bool :=
  match v with
  | JArr _ | JObj _ => true
  | _ => false
  end.

(** [if (v)]: ToBoolean. *)
Definition truthy (v : JsValue) : bool :=
  match v with
  | JUndefined | JNull => false
  | JBool b => b
  | JNum n => negb (n =? 0)%Z
  | JStr s => negb (s =? "")%string
  | JArr _ | JObj _ => true
  end.

Fixpoint depth (v : JsValue) : nat :=
  match v with
  | JArr items => S (list_max (map depth items))
  | JObj props => S (list_max (map (fun p => depth (snd p)) props))
  | _ => 0
  end.

(** ** Own properties in enumeration order *)

Module Obj.

Definition digit (c : ascii) : option N :=
  let n := N_of_ascii c in
  if ((48 <=? n) && (n <=? 57))%N then Some (n - 48)%N else None.

Fixpoint digits (s : string) (acc : N) : option N :=
  match s with
  | EmptyString => Some acc
  | String c r =>
      match digit c with
      | Some d => digits r (acc * 10 + d)%N
      | None => None
      end
  end.

(** The array index a property name denotes, if it is the canonical
    decimal form of an integer below 2^32 - 1. *)
Definition array_index (k : string) : option N :=
  match k with
  | EmptyString => None
  | String c r =>
      if (c =? "0")%char
      then match r with EmptyString => Some 0%N | _ => None end
      else match digits k 0 with
           | Some n => if (n <=? 4294967294)%N then Some n else None
           | None => None
           end
  end.

(** [before k1 k2]: a property named [k1] that exists is enumerated
    before a property named [k2] created after it (two distinct names
    never denote the same index). *)
Definition before (k1 k2 : string) : bool :=
  match array_index k1, array_index k2 with
  | Some i, Some j => (i <=? j)%N
  | Some _, None => true
  | None, None => true
  | None, Some _ => false
  end.

Fixpoint get {V : Type} (k : string) (o : list (string * V)) : option V :=
  match o with
  | [] => None
  | (k', v) :: r => if (k' =? k)%string then Some v else get k r
  end.

Definition has {V : Type} (k : string) (o : list (string * V)) : bool :=
  match get k o with Some _ => true | None => false end.

Fixpoint replace {V : Type} (k : string) (v : V) (o : list (string * V)) : list (string * V) :=
  match o with
  | [] => []
  | (k', v') :: r => if (k' =? k)%string then (k', v) :: r else (k', v') :: replace k v r
  end.

Fixpoint insert_new {V : Type} (k : string) (v : V) (o : list (string * V)) : list (string * V) :=
  match o with
  | [] => [(k, v)]
  | (k', v') :: r => if before k' k then (k', v') :: insert_new k v r else (k, v) :: o
  end.

(** [o[k] = v] on own properties (the caller rules out the prototype
    setter first, see [assign] below). *)
Definition set {V : Type} (k : string) (v : V) (o : list (string * V)) : list (string * V) :=
  if has k o then replace k v o else insert_new k v o.

(** [delete o[k]] *)
Definition delete {V : Type} (k : string) (o : list (string * V)) : list (string * V) :=
  List.filter (fun p => negb (fst p =? k)%string) o.

Definition keys {V : Type} (o : list (string * V)) : list string := map fst o.

(** The order in which an object enumerates its own property names. *)
Definition ordered (ks : list string) : Prop :=
  StronglySorted (fun a b => before a b = true) ks.

End Obj.

(** [o[k] = v] with a computed name [k]. *)
Definition assign (k : string) (v : JsValue) (o : Props) : Completion Props :=
  if Obj.has k o then Normal (Obj.replace k v o)
  else if (k =? "__proto__")%string then
    (if instanceof_Object v then OffModel
     else match v with JNull => OffModel | _ => Normal o end)
  else Normal (Obj.insert_new k v o).

(** ** The regular expressions of the helper *)

Module Key.

Definition is_lower (c : ascii) : bool :=
  let n := nat_of_ascii c in ((97 <=? n) && (n <=? 122))%nat.
Definition is_upper (c : ascii) : bool :=
  let n := nat_of_ascii c in ((65 <=? n) && (n <=? 90))%nat.
Definition is_digit (c : ascii) : bool :=
  let n := nat_of_ascii c in ((48 <=? n) && (n <=? 57))%nat.

(** The class [\w] (no unicode flag): [A-Za-z0-9_]. *)
Definition is_word (c : ascii) : bool :=
  is_lower c || is_upper c || is_digit c || (c =? "_")%char.

(** [val.toUpperCase()] for a one-unit match of [\w]. *)
Definition upper (c : ascii) : ascii :=
  if is_lower c then ascii_of_nat (nat_of_ascii c - 32) else c.

Definition lower (c : ascii) : ascii :=
  if is_upper c then ascii_of_nat (nat_of_ascii c + 32) else c.

(** [key.replace(/_(\w)/g, (match, val, offset) => val.toUpperCase())]:
    matches are found left to right and do not overlap. *)
Fixpoint camel (s : string) : string :=
  match s with
  | EmptyString => EmptyString
  | String a r =>
      if (a =? "_")%char then
        match r with
        | String c r' =>
            if is_word c then String (upper c) (camel r') else String a (camel r)
        | EmptyString => String a EmptyString
        end
      else String a (camel r)
  end.

(** [newKey.replace(/^(\w)/, (match, val, offset) => val.toUpperCase())] *)
Definition capitalize (s : string) : string :=
  match s with
  | String c r => if is_word c then String (upper c) r else s
  | EmptyString => EmptyString
  end.

(** The name a property [key] is given by [toCamelCase(obj, big)]. *)
Definition newKey (big : bool) (key : string) : string :=
  let newKey := camel key in
  if big then capitalize newKey else newKey.

End Key.

(** ** [toCamelCase] of src/helper.js *)

Module Helper.

Definition hasOwnProperty_shadowed : JsError :=
  TypeError "obj.hasOwnProperty is not a function".

(** What [for (const key in obj)] enumerates with [obj[key]], for an
    array: its indices in order. *)
Definition index_name (i : nat) : string :=
  NilZero.string_of_uint (Nat.to_uint i).

Definition entries (obj : JsValue) : Props :=
  match obj with
  | JObj props => props
  | JArr items => imap (fun i v => (index_name i, v)) items
  | _ => []
  end.

(** One turn of the loop body, [newObj] being the accumulator. *)
Definition copy_step (big : bool) (own : Props) (newObj : Props) (p : string * JsValue)
  : Completion Props :=
  if Obj.has "hasOwnProperty" own then Throw hasOwnProperty_shadowed
  else assign (Key.newKey big (fst p)) (snd p) newObj.

Definition toCamelCase (obj : JsValue) (big : bool) : Completion JsValue :=
  if negb (instanceof_Object obj) then Normal obj
  else
    newObj <- cfold (copy_step big (entries obj)) (entries obj) [] ;;
    Normal (JObj newObj).

End Helper.

(** ** [toCamelCase] of src/unnamed/part_001 *)

Module Helper2.

(** One turn of [for (const key in obj)], [o] being the properties of
    [obj] at that moment and [rec] the recursive call [toCamelCase(_)]. *)
Definition rename_step (rec : JsValue -> Completion JsValue) (big : bool)
    (o : Props) (key : string) : Completion Props :=
  match Obj.get key o with
  | None => Normal o
  | Some child =>
      if Obj.has "hasOwnProperty" o then Throw Helper.hasOwnProperty_shadowed
      else
        let newKey := Key.newKey big key in
        o1 <- (if instanceof_Object child
                  then (child' <- rec child ;; assign key child' o)
                  else Normal o) ;;
        if (newKey =? key)%string then Normal o1
        else
          match Obj.get key o1 with
          | Some v => o2 <- assign newKey v o1 ;; Normal (Obj.delete key o2)
          | None => Normal o1
          end
  end.

Fixpoint toCamelCase (fuel : nat) (obj : JsValue) (big : bool) : Completion JsValue :=
  match fuel with
  | O => Diverge
  | S fuel' =>
      match obj with
      | JArr items =>
          items' <- cmap (fun item => toCamelCase fuel' item false) items ;;
          Normal (JArr items')
      | JObj props =>
          props' <- cfold (rename_step (fun v => toCamelCase fuel' v false) big)
                             (Obj.keys props) props ;;
          Normal (JObj props')
      | _ => Normal obj
      end
  end.

(** The call as the router makes it: the recursion never goes deeper
    than the argument is nested. *)
Definition run (obj : JsValue) (big : bool) : Completion JsValue :=
  toCamelCase (S (depth obj)) obj big.

End Helper2.


(** ** Input shapes *)

Module Shape.

(** No two underscores in a row. *)
Fixpoint no_dbl (s : string) : bool :=
  match s with
  | String a r =>
      match r with
      | String b _ => negb ((a =? "_")%char && (b =? "_")%char)
      | EmptyString => true
      end && no_dbl r
  | EmptyString => true
  end.

(** No underscore followed by a word character: nothing for [/_(\w)/] to
    match. *)
Fixpoint quiet (s : string) : bool :=
  match s with
  | String a r =>
      match r with
      | String b _ => negb ((a =? "_")%char && Key.is_word b)
      | EmptyString => true
      end && quiet r
  | EmptyString => true
  end.


Fixpoint distinct (ks : list string) : bool :=
  match ks with
  | [] => true
  | k :: r => negb (existsb (String.eqb k) r) && distinct r
  end.

(** Decimal digits only, as the index of an array element is written. *)
Fixpoint numeral (s : string) : bool :=
  match s with
  | String c r => Key.is_digit c && numeral r
  | EmptyString => true
  end.

Definition tidy_key (k : string) : bool :=
  no_dbl k && negb (Key.camel k =? "hasOwnProperty")%string.

(** Every mapping of the document has pairwise distinct property names
    (as an object always has), none with two underscores in a row and
    none that is rewritten to [hasOwnProperty]. *)
Fixpoint tidy (v : JsValue) : bool :=
  match v with
  | JObj props =>
      distinct (map fst props)
      && forallb (fun p => tidy_key (fst p) && tidy (snd p)) props
  | JArr items => forallb tidy items
  | _ => true
  end.

(** A document on which [toCamelCase(_, big)] has nothing left to do. *)
Definition settled_key (big : bool) (k : string) : bool :=
  (Key.newKey big k =? k)%string && negb (k =? "hasOwnProperty")%string.

Fixpoint settled (big : bool) (v : JsValue) : bool :=
  match v with
  | JObj props =>
      distinct (map fst props)
      && forallb (fun p => settled_key big (fst p) && settled false (snd p)) props
  | JArr items => forallb (settled false) items
  | _ => true
  end.

(** Every underscore of the name is followed by a letter or a digit: the
    name is made of words that underscores separate. *)
Definition is_alnum (c : ascii) : bool :=
  Key.is_lower c || Key.is_upper c || Key.is_digit c.

Fixpoint separated (s : string) : bool :=
  match s with
  | String a r =>
      (if (a =? "_")%char
       then match r with String b _ => is_alnum b | EmptyString => false end
       else true)
      && separated r
  | EmptyString => true
  end.

(** Every property name of the document, at every depth, is so. *)
Fixpoint conventional (v : JsValue) : bool :=
  match v with
  | JObj props => forallb (fun p => separated (fst p) && conventional (snd p)) props
  | JArr items => forallb conventional items
  | _ => true
  end.

(** In every mapping of the document the rewritten names are pairwise
    distinct ([big] applies to the outermost mapping only). *)
Fixpoint collision_free (big : bool) (v : JsValue) : bool :=
  match v with
  | JObj props =>
      distinct (map (fun p => Key.newKey big (fst p)) props)
      && forallb (fun p => collision_free false (snd p)) props
  | JArr items => forallb (collision_free false) items
  | _ => true
  end.

End Shape.

(** ** The normalizer, as the specification describes it *)

Module Spec.

(** The camel convention for a name written with underscores.  The words
    of a name are what its underscores separate; the first word is kept,
    every later word gets its first letter in upper case, and the words are
    joined with nothing in between.  With the flag, the first letter of the
    result is in upper case too. *)
Definition capital (c : ascii) : ascii :=
  match String.index 0 (String c EmptyString) "abcdefghijklmnopqrstuvwxyz" with
  | Some i =>
      match String.get i "ABCDEFGHIJKLMNOPQRSTUVWXYZ" with
      | Some C => C
      | None => c
      end
  | None => c
  end.

Fixpoint words (s : string) : list string :=
  match s with
  | EmptyString => [EmptyString]
  | String c r =>
      if (c =? "_")%char then EmptyString :: words r
      else match words r with
           | w :: ws => String c w :: ws
           | [] => [String c EmptyString]
           end
  end.

Definition titled (w : string) : string :=
  match w with
  | String c r => String (capital c) r
  | EmptyString => EmptyString
  end.

Definition joined (ws : list string) : string :=
  match ws with
  | w :: rest => fold_right String.append EmptyString (w :: map titled rest)
  | [] => EmptyString
  end.

Definition camelCase (big : bool) (k : string) : string :=
  if big then titled (joined (words k)) else joined (words k).

(** [Normalized big x y]: [y] is [x] with every mapping key rewritten to
    the camel convention, at every depth, through mappings and sequences;
    scalars are unchanged and a sequence stays a sequence of the same values
    in the same order.  The flag capitalizes the names of the outermost
    mapping. *)
Inductive Normalized : bool -> JsValue -> JsValue -> Prop :=
| normalized_scalar (big : bool) (v : JsValue) :
    instanceof_Object v = false -> Normalized big v v
| normalized_sequence (big : bool) (xs ys : list JsValue) :
    Forall2 (Normalized false) xs ys -> Normalized big (JArr xs) (JArr ys)
| normalized_mapping (big : bool) (ps qs : Props) :
    (forall k v, In (k, v) ps ->
       exists v', In (camelCase big k, v') qs /\ Normalized false v v') ->
    (forall k' v', In (k', v') qs ->
       exists k v, In (k, v) ps /\ k' = camelCase big k /\ Normalized false v v') ->
    List.NoDup (Obj.keys qs) ->
    Normalized big (JObj ps) (JObj qs).

End Spec.

(** ** Objects the caller owns *)

(** Values a caller passes to [sendCmd] live in a store of objects: a value
    is a primitive or a reference, and two references to the same location
    are the same object. *)
Inductive Val : Type :=
| VUndefined
| VNull
| VBool (b : bool)
| VNum (n : Z)
| VStr (s : string)
| VRef (l : nat).

Inductive Cell : Type :=
| CObj (props : list (string * Val))
| CArr (items : list Val).

Abbreviation Heap := (list Cell).

(** ** What the platform supplies *)

Inductive Parsed : Type :=
| Parsed_ok (v : JsValue)
| SyntaxError (message : string).

Inductive WsData : Type :=
| WsText (s : string)
| WsBinary.

(** [JSON.parse], the sequence of tokens [UUID.v1()] hands out, and
    [String.prototype.toLowerCase]. *)
Record Platform : Type := {
  JSON_parse : string -> Parsed;
  UUID_v1 : nat -> string;
  toLowerCase : string -> string
}.

(** ** The emitter, the timers and the promises of one Padchat instance *)

Inductive Payload : Type :=
| PValue (v : JsValue)
| PError (e : JsError).

Definition Event : Type := (string * list Payload)%type.

(** The listener [getCmdRecv] registers with [this.once('RET#' + cmdId, ...)]. *)
Record Waiter : Type := {
  w_cmdId : string;
  w_timer : nat;
  w_promise : nat
}.

(** The callback [getCmdRecv] hands to [setTimeout]. *)
Record Timer : Type := {
  t_id : nat;
  t_due : Z;
  t_cmdId : string;
  t_promise : nat;
  t_timeout : Z
}.

Inductive PState : Type :=
| Pending
| Fulfilled (v : JsValue)
| Rejected (e : JsError).

(** The callbacks the source passes to [then]. *)
Inductive Handler : Type :=
| ResolveWithData (outer : nat)
| PassThrough
| EmitCmdRet (cmd : string).

(** [source.then(onFulfilled)] or [source.catch(e => { throw e })], with the
    promise the call returns. *)
Record Reaction : Type := {
  r_source : nat;
  r_onFulfilled : option Handler;
  r_onRejected : bool;
  r_derived : nat
}.

Record World : Type := {
  subscribed : list string;
  waiters : list Waiter;
  timers : list Timer;
  timer_seq : nat;
  promises : list PState;
  reactions : list Reaction;
  jobs : list (Reaction * PState);
  clock : Z;
  ws_fault : option string;
  outbox : list JsValue;
  uuid_seq : nat;
  heap : Heap
}.

Definition with_subscribed (x : list string) (w : World) : World :=
  {| subscribed := x; waiters := waiters w; timers := timers w; timer_seq := timer_seq w;
     promises := promises w; reactions := reactions w; jobs := jobs w; clock := clock w;
     ws_fault := ws_fault w; outbox := outbox w; uuid_seq := uuid_seq w; heap := heap w |}.

Definition with_waiters (x : list Waiter) (w : World) : World :=
  {| subscribed := subscribed w; waiters := x; timers := timers w; timer_seq := timer_seq w;
     promises := promises w; reactions := reactions w; jobs := jobs w; clock := clock w;
     ws_fault := ws_fault w; outbox := outbox w; uuid_seq := uuid_seq w; heap := heap w |}.

Definition with_timers (x : list Timer) (n : nat) (w : World) : World :=
  {| subscribed := subscribed w; waiters := waiters w; timers := x; timer_seq := n;
     promises := promises w; reactions := reactions w; jobs := jobs w; clock := clock w;
     ws_fault := ws_fault w; outbox := outbox w; uuid_seq := uuid_seq w; heap := heap w |}.

Definition with_promises (x : list PState) (w : World) : World :=
  {| subscribed := subscribed w; waiters := waiters w; timers := timers w; timer_seq := timer_seq w;
     promises := x; reactions := reactions w; jobs := jobs w; clock := clock w;
     ws_fault := ws_fault w; outbox := outbox w; uuid_seq := uuid_seq w; heap := heap w |}.

Definition with_reactions (x : list Reaction) (w : World) : World :=
  {| subscribed := subscribed w; waiters := waiters w; timers := timers w; timer_seq := timer_seq w;
     promises := promises w; reactions := x; jobs := jobs w; clock := clock w;
     ws_fault := ws_fault w; outbox := outbox w; uuid_seq := uuid_seq w; heap := heap w |}.

Definition with_jobs (x : list (Reaction * PState)) (w : World) : World :=
  {| subscribed := subscribed w; waiters := waiters w; timers := timers w; timer_seq := timer_seq w;
     promises := promises w; reactions := reactions w; jobs := x; clock := clock w;
     ws_fault := ws_fault w; outbox := outbox w; uuid_seq := uuid_seq w; heap := heap w |}.

Definition with_clock (x : Z) (w : World) : World :=
  {| subscribed := subscribed w; waiters := waiters w; timers := timers w; timer_seq := timer_seq w;
     promises := promises w; reactions := reactions w; jobs := jobs w; clock := x;
     ws_fault := ws_fault w; outbox := outbox w; uuid_seq := uuid_seq w; heap := heap w |}.

Definition with_outbox (x : list JsValue) (w : World) : World :=
  {| subscribed := subscribed w; waiters := waiters w; timers := timers w; timer_seq := timer_seq w;
     promises := promises w; reactions := reactions w; jobs := jobs w; clock := clock w;
     ws_fault := ws_fault w; outbox := x; uuid_seq := uuid_seq w; heap := heap w |}.

Definition with_uuid_seq (x : nat) (w : World) : World :=
  {| subscribed := subscribed w; waiters := waiters w; timers := timers w; timer_seq := timer_seq w;
     promises := promises w; reactions := reactions w; jobs := jobs w; clock := clock w;
     ws_fault := ws_fault w; outbox := outbox w; uuid_seq := x; heap := heap w |}.

Definition with_heap (x : Heap) (w : World) : World :=
  {| subscribed := subscribed w; waiters := waiters w; timers := timers w; timer_seq := timer_seq w;
     promises := promises w; reactions := reactions w; jobs := jobs w; clock := clock w;
     ws_fault := ws_fault w; outbox := outbox w; uuid_seq := uuid_seq w; heap := x |}.

(** A method of the instance: it reads and updates the instance, emits
    events in order, and returns or throws. *)
Definition M (A : Type) : Type := World -> (list Event * Completion A) * World.

Definition ret {A : Type} (x : A) : M A := fun w => (([], Normal x), w).

Definition liftC {A : Type} (c : Completion A) : M A := fun w => (([], c), w).

Definition mbind {A B : Type} (m : M A) (f : A -> M B) : M B :=
  fun w =>
    match m w with
    | ((es, Normal x), w1) =>
        match f x w1 with
        | ((es', r), w2) => ((es ++ es', r), w2)
        end
    | ((es, Throw e), w1) => ((es, Throw e), w1)
    | ((es, Diverge), w1) => ((es, Diverge), w1)
    | ((es, OffModel), w1) => ((es, OffModel), w1)
    end.

Notation "'let*' x ':=' m 'in' k" := (mbind m (fun x => k))
  (at level 10, x name, m at level 100, k at level 200).

(** The outcome [r], after the events [es]. *)
Definition preceded {A : Type} (es : list Event) (r : (list Event * Completion A) * World)
  : (list Event * Completion A) * World :=
  ((es ++ fst (fst r), snd (fst r)), snd r).

Definition modify (f : World -> World) : M unit := fun w => (([], Normal tt), f w).

Definition gets {A : Type} (f : World -> A) : M A := fun w => (([], Normal (f w)), w).

(** [l.forEach(f)] *)
Fixpoint forEach {A : Type} (f : A -> M unit) (l : list A) : M unit :=
  match l with
  | [] => ret tt
  | x :: r => let* _ := f x in forEach f r
  end.

(** [try { body } catch (e) { handler(e) }] *)
Definition try_catch {A : Type} (body : M A) (handler : JsError -> M A) : M A :=
  fun w =>
    match body w with
    | ((es, Throw e), w1) =>
        match handler e w1 with
        | ((es', r), w2) => ((es ++ es', r), w2)
        end
    | other => other
    end.

(** *** Promises *)

(** [resolve(v)] / [reject(e)]: the first settlement wins; the callbacks
    attached so far become jobs. *)
Definition settle (p : nat) (st : PState) (w : World) : World :=
  match promises w !! p with
  | Some Pending =>
      let w1 := with_promises (<[p := st]> (promises w)) w in
      with_jobs (jobs w1 ++ map (fun r => (r, st))
                   (List.filter (fun r => Nat.eqb (r_source r) p) (reactions w1))) w1
  | _ => w
  end.

Definition new_promise (st : PState) : M nat :=
  fun w => (([], Normal (length (promises w))), with_promises (promises w ++ [st]) w).

(** [source.then(onFulfilled)] ([onRejected] false) and
    [source.catch(e => { throw e })] ([onFulfilled] absent, [onRejected] true). *)
Definition then_ (source : nat) (onFulfilled : option Handler) (onRejected : bool) : M nat :=
  fun w =>
    let d := length (promises w) in
    let r := {| r_source := source; r_onFulfilled := onFulfilled;
                r_onRejected := onRejected; r_derived := d |} in
    let w1 := with_reactions (reactions w ++ [r]) (with_promises (promises w ++ [Pending]) w) in
    let w2 := match promises w !! source with
              | Some Pending | None => w1
              | Some st => with_jobs (jobs w1 ++ [(r, st)]) w1
              end in
    (([], Normal d), w2).

(** *** The emitter *)

(** The name a reply to [cmdId] is emitted under: ['RET#' + cmdId]. *)
Definition ret_name (cmdId : string) : string := String.append "RET#" cmdId.

Definition awaits (name : string) (x : Waiter) : bool := (ret_name (w_cmdId x) =? name)%string.

(** The consumer has a listener for [name]. *)
Definition subscribes (name : string) (w : World) : bool :=
  existsb (String.eqb name) (subscribed w).

Definition listens (name : string) (w : World) : bool :=
  subscribes name w || existsb (awaits name) (waiters w).

(** [clearTimeout(handle)] *)
Definition clearTimeout (handle : nat) (w : World) : World :=
  with_timers (List.filter (fun t => negb (Nat.eqb (t_id t) handle)) (timers w)) (timer_seq w) w.

(** The listener of [getCmdRecv]: [data => { clearTimeout(timeOutHandle); res(data) }]. *)
Definition wake (data : JsValue) (w : World) (x : Waiter) : World :=
  settle (w_promise x) (Fulfilled data) (clearTimeout (w_timer x) w).

Definition first_value (args : list Payload) : JsValue :=
  match args with
  | PValue v :: _ => v
  | _ => JUndefined
  end.

(** [this.emit(name, ...args)].  With no listener for ['error'] the emitter
    throws its argument; otherwise the listeners run (those added with
    [once] are removed first) and the result tells whether there was one.
    The listeners of the consumer are taken to return normally. *)
Definition emit (name : string) (args : list Payload) : M bool :=
  fun w =>
    if (name =? "error")%string && negb (listens name w) then
      (([], Throw (match args with
                   | PError e :: _ => e
                   | _ => Error "Unhandled error." None
                   end)), w)
    else
      let fired := List.filter (awaits name) (waiters w) in
      let w1 := with_waiters (List.filter (fun x => negb (awaits name x)) (waiters w)) w in
      (([(name, args)], Normal (listens name w)), fold_left (wake (first_value args)) fired w1).

(** [this.removeAllListeners(name)] *)
Definition removeAllListeners (name : string) (w : World) : World :=
  with_subscribed (List.filter (fun n => negb (n =? name)%string) (subscribed w))
    (with_waiters (List.filter (fun x => negb (awaits name x)) (waiters w)) w).

(** ** Reading and writing a decoded frame *)

(** [v.k] for a name [k] that no prototype defines. *)
Definition member (v : JsValue) (k : string) : Completion JsValue :=
  match v with
  | JUndefined | JNull => Throw (TypeError "Cannot read property of undefined or null")
  | JObj props => Normal (match Obj.get k props with Some x => x | None => JUndefined end)
  | _ => Normal JUndefined
  end.

(** [v.k = x] in strict mode, for a name [k] other than [__proto__]. *)
Definition put (v : JsValue) (k : string) (x : JsValue) : Completion JsValue :=
  match v with
  | JObj props => Normal (JObj (Obj.set k x props))
  | JArr _ => OffModel
  | JUndefined | JNull => Throw (TypeError "Cannot set property of undefined or null")
  | _ => Throw (TypeError "Cannot create property on a primitive")
  end.

(** [v === 'text'] and [v === n] *)
Definition is_str (v : JsValue) (text : string) : bool :=
  match v with JStr s => (s =? text)%string | _ => false end.

Definition is_num (v : JsValue) (n : Z) : bool :=
  match v with JNum m => (m =? n)%Z | _ => false end.

Definition is_undefined (v : JsValue) : bool :=
  match v with JUndefined => true | _ => false end.

(** ['RET#' + cmdId]; the embedding covers ids that are strings. *)
Definition ret_event (cmdId : JsValue) : Completion string :=
  match cmdId with
  | JStr s => Normal (ret_name s)
  | _ => OffModel
  end.

(** The [try] block of [onWsMsg]: the decoded frame, or the message of what
    was thrown. *)
Definition decode (js : Platform) (msg : WsData) : JsValue + string :=
  match msg with
  | WsText s =>
      match JSON_parse js s with
      | Parsed_ok data => inl data
      | SyntaxError message => inr message
      end
  | WsBinary => inr "ws传输的数据不是字符串格式！"
  end.

Definition lifecycle_events : list string :=
  ["qrcode"; "scan"; "login"; "loaded"; "logout"; "over"; "sns"].

(** [case 'cmdRet':] *)
Definition on_reply (data : JsValue) : M unit :=
  let* cmdId := liftC (member data "cmdId") in
  if truthy cmdId then
    let* name := liftC (ret_event cmdId) in
    let* hasOn := emit name [PValue data] in
    if negb hasOn then
      let* _ := emit "warn"
                  [PError (Error "返回执行结果没有被监听！指令ID:" (Some cmdId))] in
      ret tt
    else ret tt
  else ret tt.

(** [this.emit('error', new Error('推送数据异常！'))] *)
Definition push_anomaly : M unit :=
  let* _ := emit "error" [PError (Error "推送数据异常！" None)] in ret tt.

(** What makes a frame fail the [try] block of [onWsMsg]. *)
Definition undecodable (js : Platform) (msg : WsData) : Prop :=
  match msg with
  | WsBinary => True
  | WsText s => exists message, JSON_parse js s = SyntaxError message
  end.

(** ** Push items, as the specification describes them *)

Module PushItem.

(** The code of an item under a field name; absent reads as undefined. *)
Definition field (name : string) (item : JsValue) : JsValue :=
  match item with
  | JObj props => match Obj.get name props with Some v => v | None => JUndefined end
  | _ => JUndefined
  end.





(** The names of the events in a trace. *)
Definition names (es : list Event) : list string := map fst es.

(** The non-empty list of items a push frame carries, if it carries one. *)
Definition batch (data : JsValue) : option (list JsValue) :=
  match field "data" data with
  | JObj payload =>
      match Obj.get "list" payload with
      | Some (JArr (item :: items)) => Some (item :: items)
      | _ => None
      end
  | _ => None
  end.


End PushItem.

(** ** The store of caller-owned objects *)

Definition alloc (c : Cell) : M nat :=
  fun w => (([], Normal (length (heap w))), with_heap (heap w ++ [c]) w).

Definition dangling : JsError := TypeError "reference to no object".

(** [v.k], for a name [k] that no prototype defines. *)
Definition hget (v : Val) (k : string) : M Val :=
  fun w =>
    match v with
    | VUndefined | VNull =>
        (([], Throw (TypeError "Cannot read property of undefined or null")), w)
    | VRef l =>
        match heap w !! l with
        | Some (CObj props) =>
            (([], Normal (match Obj.get k props with Some x => x | None => VUndefined end)), w)
        | Some (CArr _) => (([], Normal VUndefined), w)
        | None => (([], OffModel), w)
        end
    | _ => (([], Normal VUndefined), w)
    end.

(** [v.k = x] in strict mode, for a name [k] other than [__proto__]. *)
Definition hset (v : Val) (k : string) (x : Val) : M unit :=
  fun w =>
    match v with
    | VUndefined | VNull =>
        (([], Throw (TypeError "Cannot set property of undefined or null")), w)
    | VRef l =>
        match heap w !! l with
        | Some (CObj props) =>
            (([], Normal tt), with_heap (<[l := CObj (Obj.set k x props)]> (heap w)) w)
        | _ => (([], OffModel), w)
        end
    | _ => (([], Throw (TypeError "Cannot create property on a primitive")), w)
    end.

(** [delete v.k], for a name [k] that is neither an index nor [length]. *)
Definition hdelete (v : Val) (k : string) : M unit :=
  fun w =>
    match v with
    | VUndefined | VNull =>
        (([], Throw (TypeError "Cannot convert undefined or null to object")), w)
    | VRef l =>
        match heap w !! l with
        | Some (CObj props) =>
            (([], Normal tt), with_heap (<[l := CObj (Obj.delete k props)]> (heap w)) w)
        | Some (CArr _) => (([], Normal tt), w)
        | None => (([], OffModel), w)
        end
    | _ => (([], Normal tt), w)
    end.

Definition vtruthy (v : Val) : bool :=
  match v with
  | VUndefined | VNull => false
  | VBool b => b
  | VNum n => negb (n =? 0)%Z
  | VStr s => negb (s =? "")%string
  | VRef _ => true
  end.

(** [typeof v === 'object'] *)
Definition typeof_object (v : Val) : bool :=
  match v with
  | VRef _ | VNull => true
  | _ => false
  end.

(** [newObj[k] = v] with a computed name [k], on the properties of [newObj]. *)
Definition hassign (k : string) (v : Val) (o : list (string * Val))
  : Completion (list (string * Val)) :=
  if Obj.has k o then Normal (Obj.replace k v o)
  else if (k =? "__proto__")%string then
    match v with
    | VRef _ | VNull => OffModel
    | _ => Normal o
    end
  else Normal (Obj.insert_new k v o).

(** [JSON.stringify(v)] followed by a decode: the tree the text denotes.  A
    chain of references longer than the store has objects runs in a cycle. *)
Fixpoint snapshot (fuel : nat) (h : Heap) (v : Val) : Completion JsValue :=
  match v with
  | VUndefined => Normal JUndefined
  | VNull => Normal JNull
  | VBool b => Normal (JBool b)
  | VNum n => Normal (JNum n)
  | VStr s => Normal (JStr s)
  | VRef l =>
      match fuel with
      | O => Throw (TypeError "Converting circular structure to JSON")
      | S fuel' =>
          match h !! l with
          | Some (CObj props) =>
              props' <- cmap (fun p => x <- snapshot fuel' h (snd p) ;; Normal (fst p, x)) props ;;
              Normal (JObj (List.filter (fun p => negb (is_undefined (snd p))) props'))
          | Some (CArr items) =>
              items' <- cmap (snapshot fuel' h) items ;;
              Normal (JArr (map (fun x => if is_undefined x then JNull else x) items'))
          | None => OffModel
          end
      end
  end.

Definition stringify (h : Heap) (v : Val) : Completion JsValue :=
  snapshot (S (length h)) h v.

(** ** The helper functions [sendCmd] applies to [rawMsgData] *)

(** [clearRawMsg] of src/index.js, lines 1754-1759 (and 2989-2994). *)
Definition clearRawMsg (obj : Val) : M Val :=
  let* _ := (if typeof_object obj then hdelete obj "data" else ret tt) in
  ret obj.

(** [key.replace(/([A-Z])/g, (match, val, offset) => (offset ? '_' : '') + val)] *)
Fixpoint underscored (offset : nat) (key : string) : string :=
  match key with
  | EmptyString => EmptyString
  | String c r =>
      if Key.is_upper c
      then (if Nat.eqb offset 0
            then String c (underscored (S offset) r)
            else String "_" (String c (underscored (S offset) r)))
      else String c (underscored (S offset) r)
  end.

Definition underKey (js : Platform) (key : string) : string :=
  toLowerCase js (underscored 0 key).

(** What [for (const key in obj)] enumerates with [obj[key]], on the store. *)
Definition hentries (c : Cell) : list (string * Val) :=
  match c with
  | CObj props => props
  | CArr items => imap (fun i v => (Helper.index_name i, v)) items
  end.

(** One turn of the loop body of [toUnderLine], [newObj] being the
    properties copied so far. *)
Definition under_step (js : Platform) (own : list (string * Val))
    (newObj : list (string * Val)) (p : string * Val) : Completion (list (string * Val)) :=
  if Obj.has "hasOwnProperty" own then Throw Helper.hasOwnProperty_shadowed
  else hassign (underKey js (fst p)) (snd p) newObj.

(** The object at a location, and its replacement by another state of it. *)
Definition read (l : nat) : M Cell :=
  fun w => (([], match heap w !! l with Some c => Normal c | None => OffModel end), w).

Definition write (l : nat) (c : Cell) : M unit :=
  modify (fun w => with_heap (<[l := c]> (heap w)) w).

(** [toUnderLine] of src/helper.js, lines 43-55 (src/unnamed/part_001, lines 50-62). *)
Definition toUnderLine (js : Platform) (obj : Val) : M Val :=
  let* newObj := alloc (CObj []) in
  match obj with
  | VRef l =>
      let* c := read l in
      let* props := liftC (cfold (under_step js (hentries c)) (hentries c) []) in
      let* _ := write newObj (CObj props) in
      ret (VRef newObj)
  | _ => ret obj
  end.

(** [l.map(f)] *)
Fixpoint mmap {A B : Type} (f : A -> M B) (l : list A) : M (list B) :=
  match l with
  | [] => ret []
  | x :: r => let* y := f x in let* r' := mmap f r in ret (y :: r')
  end.

(** ** [toCamelCase] on objects the caller owns *)

Module OnStore.

(** [obj[k] = v] with a computed name [k], [obj] being the object at [l]. *)
Definition store_assign (l : nat) (k : string) (v : Val) : M unit :=
  let* c := read l in
  match c with
  | CObj o => let* o' := liftC (hassign k v o) in write l (CObj o')
  | CArr _ => liftC OffModel
  end.

(** src/helper.js, lines 19-34: the properties are copied into a new object. *)
Definition copy_step (big : bool) (own : list (string * Val))
    (newObj : list (string * Val)) (p : string * Val) : Completion (list (string * Val)) :=
  if Obj.has "hasOwnProperty" own then Throw Helper.hasOwnProperty_shadowed
  else hassign (Key.newKey big (fst p)) (snd p) newObj.

Definition toCamelCase_copy (obj : Val) (big : bool) : M Val :=
  match obj with
  | VRef l =>
      let* c := read l in
      let* newObj := alloc (CObj []) in
      let* props := liftC (cfold (copy_step big (hentries c)) (hentries c) []) in
      let* _ := write newObj (CObj props) in
      ret (VRef newObj)
  | _ => ret obj
  end.

(** src/unnamed/part_001, lines 19-42: one turn of [for (const key in obj)],
    [obj] being the object at [l]. *)
Definition rename_turn (rec : Val -> M Val) (big : bool) (l : nat) (key : string) : M unit :=
  let* c := read l in
  match c with
  | CObj o =>
      match Obj.get key o with
      | None => ret tt
      | Some child =>
          if Obj.has "hasOwnProperty" o then liftC (Throw Helper.hasOwnProperty_shadowed)
          else
            let newKey := Key.newKey big key in
            let* _ := (match child with
                       | VRef _ => let* child' := rec child in store_assign l key child'
                       | _ => ret tt
                       end) in
            if (newKey =? key)%string then ret tt
            else
              let* v := hget (VRef l) key in
              let* _ := store_assign l newKey v in
              hdelete (VRef l) key
      end
  | CArr _ => liftC OffModel
  end.

Fixpoint toCamelCase_inplace (fuel : nat) (obj : Val) (big : bool) : M Val :=
  match fuel with
  | O => liftC Diverge
  | S fuel' =>
      match obj with
      | VRef l =>
          let* c := read l in
          match c with
          | CArr items =>
              let* items' := mmap (fun item => toCamelCase_inplace fuel' item false) items in
              let* l' := alloc (CArr items') in
              ret (VRef l')
          | CObj props =>
              let* _ := forEach (rename_turn (fun v => toCamelCase_inplace fuel' v false) big l)
                          (Obj.keys props) in
              ret (VRef l)
          end
      | _ => ret obj
      end
  end.

End OnStore.

(** ** Documents kept in the store *)

Module Stored.

(** The primitive a value is, if it is no reference. *)
Definition prim (v : Val) : option JsValue :=
  match v with
  | VUndefined => Some JUndefined
  | VNull => Some JNull
  | VBool b => Some (JBool b)
  | VNum n => Some (JNum n)
  | VStr s => Some (JStr s)
  | VRef _ => None
  end.

(** A value of the store, the document it stands for and the locations of
    the objects that make it up. *)
Record Part : Type := { p_val : Val; p_doc : JsValue; p_at : list nat }.

(** No location belongs to two of the parts. *)
Fixpoint apart (Fs : list (list nat)) : Prop :=
  match Fs with
  | [] => True
  | F :: r => (forall x, In x F -> ~ In x (concat r)) /\ apart r
  end.

(** [holds h v t F]: in the store [h] the value [v] stands for the document
    [t], which is kept in the objects at the locations [F], each object
    being part of the document at one place only. *)
Inductive holds (h : Heap) : Val -> JsValue -> list nat -> Prop :=
| holds_prim (v : Val) (t : JsValue) :
    prim v = Some t -> holds h v t []
| holds_arr (l : nat) (E : list Part) :
    h !! l = Some (CArr (map p_val E)) ->
    Forall (fun e => holds h (p_val e) (p_doc e) (p_at e)) E ->
    ~ In l (concat (map p_at E)) ->
    apart (map p_at E) ->
    holds h (VRef l) (JArr (map p_doc E)) (l :: concat (map p_at E))
| holds_obj (l : nat) (E : list (string * Part)) :
    h !! l = Some (CObj (map (fun p => (fst p, p_val (snd p))) E)) ->
    Forall (fun p => holds h (p_val (snd p)) (p_doc (snd p)) (p_at (snd p))) E ->
    ~ In l (concat (map (fun p => p_at (snd p)) E)) ->
    apart (map (fun p => p_at (snd p)) E) ->
    holds h (VRef l) (JObj (map (fun p => (fst p, p_doc (snd p))) E))
      (l :: concat (map (fun p => p_at (snd p)) E)).

(** The properties of an object of the store, of the document it stands
    for, and the locations of its parts. *)
Definition hprops (E : list (string * Part)) : list (string * Val) :=
  map (fun p => (fst p, p_val (snd p))) E.
Definition tprops (E : list (string * Part)) : Props :=
  map (fun p => (fst p, p_doc (snd p))) E.
Definition places (E : list (string * Part)) : list (list nat) :=
  map (fun p => p_at (snd p)) E.

(** A document [toCamelCase(_, big)] is proved to normalize within [n]
    nested calls. *)
Definition fit (n : nat) (big : bool) (t : JsValue) : Prop :=
  depth t < n /\ Shape.tidy t = true /\ Shape.conventional t = true
  /\ Shape.collision_free big t = true.

(** What the call [toCamelCase(v, big)] of src/unnamed/part_001 does when
    [v] stands for the document [t] kept at [F]: it returns a value that
    stands for the normalized document, the same value if [t] is a mapping;
    it changes no object outside [F], and the result is kept in objects of
    [F] or in new ones. *)
Definition normalized_inplace (n : nat) (big : bool) (w : World) (v : Val) (t : JsValue)
    (F : list nat) : Prop :=
  exists v' h' t' F',
    OnStore.toCamelCase_inplace n v big w = (([], Normal v'), with_heap h' w)
    /\ holds h' v' t' F' /\ Spec.Normalized big t t'
    /\ length (heap w) <= length h'
    /\ (forall x, x < length (heap w) -> ~ In x F -> h' !! x = heap w !! x)
    /\ (forall x, In x F' -> In x F \/ length (heap w) <= x)
    /\ (forall tps, t = JObj tps -> v' = v).

End Stored.

(** ** The command dispatcher *)

(** The delay a timer of the platform runs with: [setTimeout] sets a delay
    below 1 or above 2^31 - 1 milliseconds to 1. *)
Definition timer_delay (after : Z) : Z :=
  if ((1 <=? after) && (after <=? 2147483647))%Z then after else 1%Z.

(** [setTimeout(() => { this.removeAllListeners(cmdId); rej(...) }, timeout * 1000)] *)
Definition setTimeout (cmdId : string) (promise : nat) (timeout : Z) : M nat :=
  fun w =>
    let t := {| t_id := timer_seq w; t_due := (clock w + timer_delay (timeout * 1000))%Z;
                t_cmdId := cmdId; t_promise := promise; t_timeout := timeout |} in
    (([], Normal (timer_seq w)), with_timers (timers w ++ [t]) (S (timer_seq w)) w).

(** [this.once('RET#' + cmdId, data => { clearTimeout(timeOutHandle); res(data) })] *)
Definition once (cmdId : string) (handle promise : nat) : M unit :=
  modify (fun w => with_waiters
                     (waiters w ++ [{| w_cmdId := cmdId; w_timer := handle;
                                       w_promise := promise |}]) w).

Definition timed_out (timeout : Z) : JsError :=
  Error "等待指令操作结果超时！当前超时时间为:" (Some (JNum (timeout * 1000))).

(** [getCmdRecv] of src/index.js, lines 1619-1639: the promise it returns. *)
Definition getCmdRecv (cmdId : Val) (timeout : Z) : M nat :=
  if negb (vtruthy cmdId) then new_promise (Rejected (Error "未指定cmdID！" None))
  else
    match cmdId with
    | VStr id =>
        let* promise := new_promise Pending in
        let* timeOutHandle := setTimeout id promise timeout in
        let* _ := once id timeOutHandle promise in
        ret promise
    | _ => liftC OffModel
    end.

(** [_send] of src/index.js, lines 77-87: the promise it returns. *)
Definition _send (data : Val) : M nat :=
  let* promise := new_promise Pending in
  fun w =>
    match stringify (heap w) data with
    | Normal frame =>
        match ws_fault w with
        | Some message =>
            (([], Normal promise),
             settle promise
               (Rejected (Error (String.append "ws发送数据失败! err: " message) None)) w)
        | None =>
            (([], Normal promise),
             settle promise (Fulfilled (JBool true)) (with_outbox (outbox w ++ [frame]) w))
        end
    | Throw e => (([], Normal promise), settle promise (Rejected e) w)
    | Diverge => (([], Diverge), w)
    | OffModel => (([], OffModel), w)
    end.

(** The body of an [async] function: what it throws rejects the promise it
    returns. *)
Definition async (body : M nat) : M nat :=
  try_catch body (fun e => new_promise (Rejected e)).

(** [asyncSend] of src/index.js, lines 97-117: the promise it returns. *)
Definition asyncSend (js : Platform) (data : Val) (timeout : Z) : M nat :=
  async
    (let* cmdId := hget data "cmdId" in
     let* _ := (if negb (vtruthy cmdId)
                then
                  let* n := gets uuid_seq in
                  let* _ := modify (with_uuid_seq (S n)) in
                  hset data "cmdId" (VStr (UUID_v1 js n))
                else ret tt) in
     let* outer := new_promise Pending in
     let* _ := try_catch
                 (let* cmdId := hget data "cmdId" in
                  let* received := getCmdRecv cmdId timeout in
                  let* _ := then_ received (Some (ResolveWithData outer)) false in
                  let* sent := _send data in
                  let* _ := then_ sent (Some PassThrough) false in
                  ret tt)
                 (fun e => modify (settle outer (Rejected e))) in
     ret outer).

(** *** Timers and promise jobs *)

Fixpoint insert_by_due (t : Timer) (l : list Timer) : list Timer :=
  match l with
  | [] => [t]
  | u :: r => if (t_due t <? t_due u)%Z then t :: l else u :: insert_by_due t r
  end.

(** The callback of the timer [t]. *)
Definition fire (w : World) (t : Timer) : World :=
  settle (t_promise t) (Rejected (timed_out (t_timeout t)))
    (removeAllListeners (ret_name (t_cmdId t)) w).

(** Time passes until [now]: the timers due by then run, earliest first. *)
Definition advance (now : Z) : M unit :=
  modify (fun w =>
    let due := fold_right insert_by_due [] (List.filter (fun t => (t_due t <=? now)%Z) (timers w)) in
    let rest := List.filter (fun t => negb (t_due t <=? now)%Z) (timers w) in
    fold_left fire due (with_clock (Z.max (clock w) now) (with_timers rest (timer_seq w) w))).

Definition run_handler (h : Handler) (v : JsValue) : M JsValue :=
  match h with
  | ResolveWithData outer =>
      let* d := liftC (member v "data") in
      let* _ := modify (settle outer (Fulfilled d)) in
      ret JUndefined
  | PassThrough => ret v
  | EmitCmdRet cmd =>
      let* _ := emit "cmdRet" [PValue (JStr cmd); PValue v] in
      ret v
  end.

Definition run_job (j : Reaction * PState) : M unit :=
  match snd j with
  | Fulfilled v =>
      match r_onFulfilled (fst j) with
      | Some h =>
          try_catch
            (let* v' := run_handler h v in
             modify (settle (r_derived (fst j)) (Fulfilled v')))
            (fun e => modify (settle (r_derived (fst j)) (Rejected e)))
      | None => modify (settle (r_derived (fst j)) (Fulfilled v))
      end
  | Rejected e => modify (settle (r_derived (fst j)) (Rejected e))
  | Pending => ret tt
  end.

(** The promise jobs run until none is left. *)
Fixpoint drain (fuel : nat) : M unit :=
  match fuel with
  | O => liftC Diverge
  | S fuel' =>
      fun w =>
        match jobs w with
        | [] => (([], Normal tt), w)
        | j :: rest =>
            (let* _ := modify (with_jobs rest) in
             let* _ := run_job j in
             drain fuel') w
        end
  end.

(** ** [onWsMsg] of src/index.js, lines 1642-1751 (with src/unnamed/part_001) *)

Module IndexA.

(** The callback of [data.data.list.forEach]. *)
Definition push_item (item : JsValue) : M unit :=
  let* type := liftC (member item "msgType") in
  if is_undefined type || is_num type 2048 || is_num type 32768 then ret tt
  else
    let* mType := liftC (if is_num type 5 then member item "subType" else member item "msgType") in
    let* item' := liftC (put item "mType" mType) in
    let* _ := emit "push" [PValue item'] in
    ret tt.

(** [case 'push':] *)
Definition on_push (data : JsValue) : M unit :=
  let* d := liftC (member data "data") in
  if negb (truthy d) then push_anomaly
  else
    let* list := liftC (member d "list") in
    match list with
    | JArr (item :: items) => forEach push_item (item :: items)
    | _ => push_anomaly
    end.

(** [if (data.data) { data.data = Helper.toCamelCase(data.data) }] *)
Definition camel_payload (data : JsValue) : Completion JsValue :=
  d <- member data "data" ;;
  if truthy d
  then d' <- Helper2.run d false ;; put data "data" d'
  else Normal data.

Definition onWsMsg (js : Platform) (msg : WsData) : M unit :=
  match decode js msg with
  | inr message =>
      let* _ := emit "error" [PError (Error (String.append "解析msg数据失败: " message) None)] in
      ret tt
  | inl data =>
      let* data := liftC (camel_payload data) in
      let* _ := emit "msg" [PValue data] in
      let* type := liftC (member data "type") in
      if is_str type "cmdRet" then
        on_reply data
      else if is_str type "userEvent" then
        let* event := liftC (member data "event") in
        if is_str event "warn" then
          let* error := liftC (member data "error") in
          let* success := liftC (member data "success") in
          let* _ := emit "warn" [PError (Error "服务器返回错误提示：" (Some error)); PValue success] in
          ret tt
        else if existsb (is_str event) lifecycle_events then
          let* d := liftC (member data "data") in
          let* m := liftC (member data "msg") in
          let* _ := emit (match event with JStr s => s | _ => "" end)
                      [PValue (if truthy d then d else JObj []); PValue m] in
          ret tt
        else if is_str event "push" then
          on_push data
        else
          let* _ := emit "other" [PValue data] in ret tt
      else
        let* _ := emit "other" [PValue data] in ret tt
  end.

(** [sendCmd] of src/index.js, lines 126-146: the cleaning of
    [data.rawMsgData], then the dispatch. *)
Definition sanitize (js : Platform) (data : Val) : M unit :=
  let* raw := hget data "rawMsgData" in
  if vtruthy raw then
    let* cleared := clearRawMsg raw in
    let* _ := hset data "rawMsgData" cleared in
    let* raw := hget data "rawMsgData" in
    let* under := toUnderLine js raw in
    hset data "rawMsgData" under
  else ret tt.

Definition dispatch (js : Platform) (cmd : string) (data : Val) : M nat :=
  let* envelope := alloc (CObj [("type", VStr "user"); ("cmd", VStr cmd); ("data", data)]) in
  let* sent := asyncSend js (VRef envelope) 30000 in
  let* notified := then_ sent (Some (EmitCmdRet cmd)) false in
  then_ notified None true.

Definition sendCmd (js : Platform) (cmd : string) (data : Val) : M nat :=
  async
    (let* data := (match data with
                   | VUndefined => let* l := alloc (CObj []) in ret (VRef l)
                   | _ => ret data
                   end) in
     let* _ := sanitize js data in
     dispatch js cmd data).

End IndexA.

(** ** [onWsMsg] of src/index.js, lines 2887-2986 (with src/helper.js) *)

Module IndexB.




Definition push_item (item : JsValue) : M unit :=
  let* type := liftC (member item "msg_type") in
  if is_undefined type || is_num type 2048 || is_num type 32768 then ret tt
  else
    let* mType := liftC (if is_num type 5 then member item "sub_type" else member item "msg_type") in
    let* item' := liftC (put item "mType" mType) in
    let* item'' := liftC (Helper.toCamelCase item' false) in
    let* _ := emit "push" [PValue item''] in
    ret tt.

(** [case 'push':] *)
Definition on_push (data : JsValue) : M unit :=
  let* d := liftC (member data "data") in
  if negb (truthy d) then push_anomaly
  else
    let* list := liftC (member d "list") in
    match list with
    | JArr (item :: items) => forEach push_item (item :: items)
    | _ => push_anomaly
    end.

(** [if (data.data) { data.data = Helper.toCamelCase(data.data);
    if (data.data.data) { data.data.data = Helper.toCamelCase(data.data.data || {}) } }] *)
Definition camel_payload (data : JsValue) : Completion JsValue :=
  d <- member data "data" ;;
  if truthy d
  then
    d' <- Helper.toCamelCase d false ;;
    data <- put data "data" d' ;;
    dd <- member d' "data" ;;
    if truthy dd
    then
      dd' <- Helper.toCamelCase dd false ;;
      d'' <- put d' "data" dd' ;;
      put data "data" d''
    else Normal data
  else Normal data.

Definition onWsMsg (js : Platform) (msg : WsData) : M unit :=
  match decode js msg with
  | inr message =>
      let* _ := emit "error" [PError (Error (String.append "解析msg数据失败: " message) None)] in
      ret tt
  | inl data =>
      let* data := liftC (camel_payload data) in
      let* _ := emit "msg" [PValue data] in
      let* type := liftC (member data "type") in
      if is_str type "cmdRet" then
        on_reply data
      else if is_str type "userEvent" then
        let* event := liftC (member data "event") in
        if is_str event "warn" then
          let* m := liftC (member data "msg") in
          let* success := liftC (member data "success") in
          let* _ := emit "warn" [PError (Error "服务器返回错误提示：" (Some m)); PValue success] in
          ret tt
        else if existsb (is_str event) lifecycle_events then
          let* d := liftC (member data "data") in
          let* m := liftC (member data "msg") in
          let* _ := emit (match event with JStr s => s | _ => "" end)
                      [PValue (if truthy d then d else JObj []); PValue m] in
          ret tt
        else if is_str event "push" then
          on_push data
        else
          let* _ := emit "other" [PValue data] in ret tt
      else
        let* _ := emit "other" [PValue data] in ret tt
  end.

(** [sendCmd] of src/index.js, lines 1889-1909: the cleaning of
    [data.rawMsgData] (the result of [toUnderLine] is dropped), then the
    dispatch. *)
Definition sanitize (js : Platform) (data : Val) : M unit :=
  let* raw := hget data "rawMsgData" in
  if vtruthy raw then
    let* cleared := clearRawMsg raw in
    let* _ := hset data "rawMsgData" cleared in
    let* raw := hget data "rawMsgData" in
    let* _ := toUnderLine js raw in
    ret tt
  else ret tt.

Definition dispatch (js : Platform) (cmd : string) (data : Val) : M nat :=
  let* envelope := alloc (CObj [("type", VStr "user"); ("cmd", VStr cmd); ("data", data)]) in
  let* sent := asyncSend js (VRef envelope) 30000 in
  let* notified := then_ sent (Some (EmitCmdRet cmd)) false in
  then_ notified None true.

Definition sendCmd (js : Platform) (cmd : string) (data : Val) : M nat :=
  async
    (let* data := (match data with
                   | VUndefined => let* l := alloc (CObj []) in ret (VRef l)
                   | _ => ret data
                   end) in
     let* _ := sanitize js data in
     dispatch js cmd data).

End IndexB.

(** ** A platform, frames and instances to run the definitions on *)

Module Sample.

Definition push_frame : JsValue :=
  JObj [("type", JStr "userEvent"); ("event", JStr "push");
        ("data", JObj [("list", JArr [
           JObj [("msg_type", JNum 2048)];
           JObj [("msg_type", JNum 5); ("sub_type", JNum 7); ("from_user", JStr "wxid_001")];
           JObj [("msg_type", JNum 32768)];
           JObj [("msg_type", JNum 1); ("content", JStr "hi")]])])].

(** The items of [push_frame] as src/unnamed/part_001 leaves them. *)
Definition push_items_camel : list JsValue :=
  [JObj [("msgType", JNum 2048)];
   JObj [("msgType", JNum 5); ("subType", JNum 7); ("fromUser", JStr "wxid_001")];
   JObj [("msgType", JNum 32768)];
   JObj [("content", JStr "hi"); ("msgType", JNum 1)]].

Definition push_frame_camel : JsValue :=
  JObj [("type", JStr "userEvent"); ("event", JStr "push");
        ("data", JObj [("list", JArr push_items_camel)])].


Definition empty_push_frame : JsValue :=
  JObj [("type", JStr "userEvent"); ("event", JStr "push"); ("data", JObj [("list", JArr [])])].

(** A batch whose second item is null, and one whose item has a property
    [m_type] after a property [mType] of its own. *)
Definition gapped_push_frame : JsValue :=
  JObj [("type", JStr "userEvent"); ("event", JStr "push");
        ("data", JObj [("list", JArr [
           JObj [("msg_type", JNum 1); ("content", JStr "one")];
           JNull;
           JObj [("msg_type", JNum 1); ("content", JStr "two")]])])].


Definition clashing_push_frame : JsValue :=
  JObj [("type", JStr "userEvent"); ("event", JStr "push");
        ("data", JObj [("list", JArr [
           JObj [("mType", JNum 1); ("m_type", JNum 42); ("msg_type", JNum 3)]])])].

Definition late_reply : JsValue :=
  JObj [("type", JStr "cmdRet"); ("cmdId", JStr "b61eb250"); ("taskId", JStr "5");
        ("data", JObj [("success", JBool true); ("msg_id", JStr "1284778244346778513")])].

Definition anonymous_reply : JsValue :=
  JObj [("type", JStr "cmdRet"); ("cmdId", JStr ""); ("data", JObj [("success", JBool true)])].

(** Stands for [JSON.parse] on the texts of the frames above, named here by
    a label; any other text is not JSON. *)
Definition parse (s : string) : Parsed :=
  if (s =? "push frame")%string then Parsed_ok push_frame
  else if (s =? "empty push frame")%string then Parsed_ok empty_push_frame
  else if (s =? "gapped push frame")%string then Parsed_ok gapped_push_frame
  else if (s =? "clashing push frame")%string then Parsed_ok clashing_push_frame
  else if (s =? "late reply")%string then Parsed_ok late_reply
  else if (s =? "anonymous reply")%string then Parsed_ok anonymous_reply
  else SyntaxError "Unexpected token in JSON at position 0".

Fixpoint ascii_lower (s : string) : string :=
  match s with
  | EmptyString => EmptyString
  | String c r => String (Key.lower c) (ascii_lower r)
  end.

Definition platform : Platform :=
  {| JSON_parse := parse;
     UUID_v1 := fun n => String.append "uuid-" (Helper.index_name n);
     toLowerCase := ascii_lower |}.

(** A fresh instance nobody listens to, and one whose consumer listens to
    the channels the demo listens to. *)
Definition unattended : World :=
  {| subscribed := []; waiters := []; timers := []; timer_seq := 0;
     promises := []; reactions := []; jobs := []; clock := 0%Z;
     ws_fault := None; outbox := []; uuid_seq := 0; heap := [] |}.

Definition attended : World :=
  with_subscribed ["push"; "error"; "warn"; "cmdRet"] unattended.

(** The consumer holds one object, [{a_b: 1}], at location 0. *)
Definition ready : World := with_heap [CObj [("a_b", VNum 1)]] attended.

(** The same instance on a socket whose [send] reports a failure. *)
Definition broken : World :=
  {| subscribed := subscribed ready; waiters := []; timers := []; timer_seq := 0;
     promises := []; reactions := []; jobs := []; clock := 0%Z;
     ws_fault := Some "WebSocket is not open: readyState 3 (CLOSED)";
     outbox := []; uuid_seq := 0; heap := heap ready |}.

(** [asyncSend({type: 'user', cmd: 'echo', data: {a_b: 1}}, timeout)] with no
    reply ever coming: the promise jobs run, time passes until [now], the
    promise jobs run again.  The result is the promise handed to the caller. *)
Definition echo_unanswered (timeout now : Z) : M nat :=
  let* envelope := alloc (CObj [("type", VStr "user"); ("cmd", VStr "echo");
                                ("data", VRef 0)]) in
  let* promise := asyncSend platform (VRef envelope) timeout in
  let* _ := drain 16 in
  let* _ := advance now in
  let* _ := drain 16 in
  ret promise.

(** [sendCmd('echo', data)] for the object [data] at location 0, with no
    reply ever coming; the result is the promise handed to the caller. *)
Definition sendCmd_unanswered (sendCmd : Platform -> string -> Val -> M nat) (now : Z) : M nat :=
  let* promise := sendCmd platform "echo" (VRef 0) in
  let* _ := drain 16 in
  let* _ := advance now in
  let* _ := drain 16 in
  ret promise.

(** A consumer holding [{a_b: 1, list: [{c_d: 2}]}] at location 2, its
    list at location 1 and the item of the list at location 0; and one
    holding a push item at location 0 inside the [data] it passes to
    [sendCmd], at location 1. *)
Definition nested : World :=
  with_heap [CObj [("c_d", VNum 2)]; CArr [VRef 0];
             CObj [("a_b", VNum 1); ("list", VRef 1)]] attended.

Definition holding_push : World :=
  with_heap [CObj [("msgId", VStr "4032724472820776289"); ("data", VStr "base64 of the thumbnail");
                   ("mType", VNum 3)];
             CObj [("rawMsgData", VRef 0)]] attended.

End Sample.

(** ** Objects a method leaves alone *)

Module Frame.

(** The object at location [l] satisfies [K]. *)
Definition keeps (l : nat) (K : Cell -> Prop) (h : Heap) : Prop :=
  exists c, h !! l = Some c /\ K c.

(** A method that keeps it so, however it ends. *)
Definition stable (l : nat) (K : Cell -> Prop) {A : Type} (m : M A) : Prop :=
  forall w, keeps l K (heap w) -> keeps l K (heap (snd (m w))).

(** [K] survives the assignment of any value to the property [k]. *)
Definition closed_under_set (K : Cell -> Prop) (k : string) : Prop :=
  forall props x, K (CObj props) -> K (CObj (Obj.set k x props)).

(** A mapping without a [data] property. *)
Definition data_free (c : Cell) : Prop :=
  exists props, c = CObj props /\ Obj.get "data" props = None.

End Frame.

(** ** Loop invariants *)

Module Loop.

(** src/helper.js: what [newObj] looks like while it is being filled. *)
Definition filling (big : bool) (o : Props) : Prop :=
  List.NoDup (Obj.keys o) /\ Obj.ordered (Obj.keys o)
  /\ Forall (fun p => Shape.settled_key big (fst p) = true) o.


(** src/unnamed/part_001: a property whose turn is still to come, and one
    that needs no further change; [d] bounds the nesting of the values. *)
Definition good (d : nat) (v : JsValue) : Prop :=
  depth v <= d /\ (Shape.tidy v = true \/ Shape.settled false v = true).

Definition pending (d : nat) (rem : list string) (p : string * JsValue) : Prop :=
  In (fst p) rem /\ Shape.tidy_key (fst p) = true /\ good d (snd p).

Definition finished (big : bool) (d : nat) (p : string * JsValue) : Prop :=
  Shape.settled_key big (fst p) = true /\ Shape.settled false (snd p) = true /\ depth (snd p) <= d.

Definition renaming (big : bool) (d : nat) (rem : list string) (o : Props) : Prop :=
  List.NoDup (Obj.keys o) /\ Forall (fun p => pending d rem p \/ finished big d p) o.

(** src/unnamed/part_001 on a mapping [ps] whose rewritten names are
    distinct: the properties still to visit are as they were, those visited
    are rewritten. *)
Definition normalizing (big : bool) (ps : Props) (rem : list string) (o : Props) : Prop :=
  exists done todo,
    ps = done ++ todo /\ rem = Obj.keys todo /\ List.NoDup (Obj.keys o)
    /\ (forall k v, In (k, v) todo -> In (k, v) o)
    /\ (forall k v, In (k, v) done ->
          exists v', In (Key.newKey big k, v') o /\ Spec.Normalized false v v')
    /\ (forall k' v', In (k', v') o ->
          In (k', v') todo
          \/ exists k v, In (k, v) done /\ k' = Key.newKey big k /\ Spec.Normalized false v v').

(** src/unnamed/part_001 on a mapping of the store at [l], [E0] being its
    properties at the call and [h0] the store then: the state of the
    object, [E], and of the store, [hc], when the names [rem] are still to
    be visited.  The properties still to visit are as they were; those
    visited have their new name and a normalized value; every value is
    kept apart from the others and from the object itself, in objects of
    the document or in new ones; nothing else has changed. *)
Definition renaming_stored (big : bool) (l : nat) (E0 : list (string * Stored.Part))
    (h0 : Heap) (rem : list string) (hc : Heap) (E : list (string * Stored.Part)) : Prop :=
  exists done todo,
    E0 = done ++ todo /\ rem = Obj.keys todo /\ List.NoDup (Obj.keys E)
    /\ (forall k e, In (k, e) todo -> In (k, e) E)
    /\ (forall k e, In (k, e) done ->
          exists e', In (Key.newKey big k, e') E
                     /\ Spec.Normalized false (Stored.p_doc e) (Stored.p_doc e'))
    /\ (forall k' e', In (k', e') E ->
          In (k', e') todo
          \/ exists k e, In (k, e) done /\ k' = Key.newKey big k
                         /\ Spec.Normalized false (Stored.p_doc e) (Stored.p_doc e'))
    /\ hc !! l = Some (CObj (Stored.hprops E))
    /\ (forall k e, In (k, e) E ->
          Stored.holds hc (Stored.p_val e) (Stored.p_doc e) (Stored.p_at e)
          /\ ~ In l (Stored.p_at e)
          /\ forall x, In x (Stored.p_at e) ->
                       In x (concat (Stored.places E0)) \/ length h0 <= x)
    /\ (forall k1 e1 k2 e2, In (k1, e1) E -> In (k2, e2) E -> k1 <> k2 ->
                            forall x, In x (Stored.p_at e1) -> ~ In x (Stored.p_at e2))
    /\ length h0 <= length hc
    /\ (forall x, x < length h0 -> x <> l -> ~ In x (concat (Stored.places E0)) ->
                  hc !! x = h0 !! x).

End Loop.

(** ** Proof automation *)

(** A fact about one code unit, by running through the 256 of them. *)
Ltac by_cases_on_ascii c :=
  destruct c as [[] [] [] [] [] [] [] []]; vm_compute; try reflexivity; try discriminate; auto.

(** * The rest of the helper and of the API surface *)

(** ** Text *)

Module Text.

(** The line feed and the double quote. *)
Definition LF : string := String "010" EmptyString.
Definition quote : string := String "034" EmptyString.

(** [s.replace(/\n/g, '')] *)
Fixpoint strip_LF (s : string) : string :=
  match s with
  | EmptyString => EmptyString
  | String c r => if (c =? "010")%char then strip_LF r else String c (strip_LF r)
  end.

(** The decimal numeral of an integer, as [String(n)] writes it. *)
Definition decimal (n : Z) : string := NilZero.string_of_int (Z.to_int n).

(** ToString of a primitive, as a template literal and a computed property
    name apply it; the integers covered are those a double holds exactly. *)
Definition to_text (v : Val) : Completion string :=
  match v with
  | VUndefined => Normal "undefined"
  | VNull => Normal "null"
  | VBool b => Normal (if b then "true" else "false")
  | VNum n => if (Z.abs n <=? 9007199254740992)%Z then Normal (decimal n) else OffModel
  | VStr s => Normal s
  | VRef _ => OffModel
  end.

(** The characters of a string. *)
Definition chars (s : string) : list ascii := list_ascii_of_string s.

End Text.

(** ** [structureXml] of src/unnamed/part_001, lines 80-92 *)

(** One name of [const { appid = '', sdkver = '', ... } = obj]: the property
    of [obj], or the empty string when it is undefined.  None of the six
    names is defined by a prototype. *)
Definition destructure (h : Heap) (obj : Val) (k : string) : Completion Val :=
  match obj with
  | VUndefined | VNull =>
      Throw (TypeError "Cannot destructure property of undefined or null")
  | VRef l =>
      match h !! l with
      | Some (CObj props) =>
          Normal (match Obj.get k props with
                  | Some VUndefined | None => VStr ""
                  | Some x => x
                  end)
      | Some (CArr _) => Normal (VStr "")
      | None => OffModel
      end
  | _ => Normal (VStr "")
  end.

(** The template literal, line by line. *)
Definition appmsg (appid sdkver title des url thumburl : string) : string :=
  String.concat Text.LF
    [ "<appmsg appid=" ++ Text.quote ++ appid ++ Text.quote
        ++ " sdkver=" ++ Text.quote ++ sdkver ++ Text.quote ++ ">";
      "<title>" ++ title ++ "</title>";
      "<des>" ++ des ++ "</des>";
      "<action>view</action>";
      "<type>5</type>";
      "<showtype>0</showtype>";
      "<content></content>";
      "<url>" ++ url ++ "</url>";
      "<thumburl>" ++ thumburl ++ "</thumburl>";
      "</appmsg>" ]%string.

Definition structureXml (h : Heap) (obj : Val) : Completion string :=
  appid <- destructure h obj "appid" ;;
  sdkver <- destructure h obj "sdkver" ;;
  title <- destructure h obj "title" ;;
  des <- destructure h obj "des" ;;
  url <- destructure h obj "url" ;;
  thumburl <- destructure h obj "thumburl" ;;
  appid <- Text.to_text appid ;;
  sdkver <- Text.to_text sdkver ;;
  title <- Text.to_text title ;;
  des <- Text.to_text des ;;
  url <- Text.to_text url ;;
  thumburl <- Text.to_text thumburl ;;
  Normal (Text.strip_LF (appmsg appid sdkver title des url thumburl)).

(** The message body with nothing filled in. *)
Definition empty_appmsg : string :=
  ("<appmsg appid=" ++ Text.quote ++ Text.quote ++ " sdkver=" ++ Text.quote ++ Text.quote ++ ">"
   ++ "<title></title><des></des><action>view</action><type>5</type><showtype>0</showtype>"
   ++ "<content></content><url></url><thumburl></thumburl></appmsg>")%string.

(** A value with the line feeds of its text taken out. *)
Definition unbroken (v : Val) : Val :=
  match v with
  | VStr s => VStr (Text.strip_LF s)
  | _ => v
  end.

(** ** Shapes of property names *)

Module Case.

(** Lower-case letters and digits in groups joined by single underscores,
    every group after the first starting with a letter: [user_name],
    [msg_type], [big_head2]. *)
Fixpoint snake_tail (s : string) : bool :=
  match s with
  | EmptyString => true
  | String a r =>
      (if (a =? "_")%char
       then match r with
            | String c _ => Key.is_lower c
            | EmptyString => false
            end
       else Key.is_lower a || Key.is_digit a)
      && snake_tail r
  end.

Definition snake (s : string) : bool :=
  match s with
  | String a _ => negb (a =? "_")%char
  | EmptyString => true
  end && snake_tail s.

(** Letters and digits only: [userName], [MsgType]. *)
Fixpoint alnum (s : string) : bool :=
  match s with
  | EmptyString => true
  | String a r => (Key.is_lower a || Key.is_upper a || Key.is_digit a) && alnum r
  end.

Definition starts_upper (s : string) : bool :=
  match s with
  | String a _ => Key.is_upper a
  | EmptyString => false
  end.

(** Word characters only. *)
Fixpoint words (s : string) : bool :=
  match s with
  | EmptyString => true
  | String a r => Key.is_word a && words r
  end.

(** [toLowerCase] on a string of ASCII word characters: the letters [A-Z]
    become [a-z]. *)
Fixpoint lowered (s : string) : string :=
  match s with
  | EmptyString => EmptyString
  | String c r => String (Key.lower c) (lowered r)
  end.

Definition lowers_words (js : Platform) : Prop :=
  forall s, words s = true -> toLowerCase js s = lowered s.

End Case.

(** ** Methods of the API *)

Module Api.

(** [loginType] of src/define.js, lines 22-28. *)
Definition loginType : list (string * string) :=
  [("token", "token"); ("request", "request"); ("qrcode", "qrcode");
   ("phone", "phone"); ("user", "user")].

(** The names [loginType[type]] finds on [Object.prototype] when
    [loginType] has no such property of its own. *)
Definition inherited : list string :=
  ["constructor"; "__defineGetter__"; "__defineSetter__"; "hasOwnProperty";
   "__lookupGetter__"; "__lookupSetter__"; "isPrototypeOf"; "propertyIsEnumerable";
   "toString"; "valueOf"; "__proto__"; "toLocaleString"].

(** [v === 'text'] *)
Definition is_vstr (v : Val) (text : string) : bool :=
  match v with VStr s => (s =? text)%string | _ => false end.

(** [!data.k] *)
Definition lacks (data : Val) (k : string) : M bool :=
  let* v := hget data k in ret (negb (vtruthy v)).

(** [!data.a || !data.b] *)
Definition lacks_either (data : Val) (a b : string) : M bool :=
  let* x := lacks data a in
  if x then ret true else lacks data b.

(** What each way of logging in asks of [data], as the description of
    [login] lists it. *)
Definition credentials (type : string) : list string :=
  if (type =? "token")%string || (type =? "request")%string then ["token"; "wxData"]
  else if (type =? "phone")%string then ["phone"]
  else if (type =? "user")%string then ["username"; "password"]
  else [].

(** The property [k] of an object is set to something other than
    [undefined], [null], [false], [0] or the empty string. *)
Definition provided (props : list (string * Val)) (k : string) : bool :=
  match Obj.get k props with
  | Some x => vtruthy x
  | None => false
  end.

Definition login_type_error : JsError := Error "login type error!" None.
Definition login_data_error : JsError := Error "login data error!" None.

Section Methods.

Variable sendCmd : Platform -> string -> Val -> M nat.
Variable js : Platform.

(** [login] of src/index.js, lines 202-230 (and 1952-1980). *)
Definition login (type data : Val) : M nat :=
  async
    (let type := match type with VUndefined => VStr "qrcode" | _ => type end in
     let* data := (match data with
                   | VUndefined => let* l := alloc (CObj []) in ret (VRef l)
                   | _ => ret data
                   end) in
     let* key := liftC (Text.to_text type) in
     match Obj.get key loginType with
     | None =>
         if existsb (String.eqb key) inherited then liftC OffModel
         else liftC (Throw login_type_error)
     | Some name =>
         let* bad := (if is_vstr type "token" || is_vstr type "request"
                      then lacks_either data "token" "wxData"
                      else if is_vstr type "phone" then lacks data "phone"
                      else if is_vstr type "user" then lacks_either data "username" "password"
                      else ret false) in
         if bad then liftC (Throw login_data_error)
         else
           let* _ := hset data "loginType" (VStr name) in
           sendCmd js "login" data
     end).

(** [sendAppMsg] of src/index.js, lines 372-378 (and 2092-2098). *)
Definition sendAppMsg (toUserName object : Val) : M nat :=
  async
    (let* h := gets heap in
     let* content := liftC (structureXml h object) in
     let* data := alloc (CObj [("toUserName", toUserName); ("content", VStr content)]) in
     sendCmd js "sendAppMsg" (VRef data)).

End Methods.

End Api.

(** ** The cases of the router *)

Module Route.

(** The frames the [switch] of [onWsMsg] has a case for, by their [type]
    and [event]. *)
Definition recognised (type event : JsValue) : bool :=
  is_str type "cmdRet"
  || (is_str type "userEvent"
      && (is_str event "warn" || existsb (is_str event) lifecycle_events
          || is_str event "push")).

(** [data.data || {}] *)
Definition payload (data : JsValue) : JsValue :=
  if truthy (PushItem.field "data" data) then PushItem.field "data" data else JObj [].

End Route.

(** ** Instances between two turns of the event loop *)

Module Instance.

(** No promise job is waiting, every reaction hangs on a promise that
    exists, and every timer has a handle that was handed out. *)
Definition idle (w : World) : Prop :=
  jobs w = []
  /\ Forall (fun r => r_source r < length (promises w)) (reactions w)
  /\ Forall (fun t => t_id t < timer_seq w) (timers w).

(** What is outside the reach of the router: the socket, the store, the
    listeners of the consumer, the clock, and which promises, reactions and
    timer handles exist. *)
Definition untouched (w w' : World) : Prop :=
  outbox w' = outbox w /\ heap w' = heap w /\ uuid_seq w' = uuid_seq w
  /\ subscribed w' = subscribed w /\ clock w' = clock w /\ ws_fault w' = ws_fault w
  /\ reactions w' = reactions w /\ timer_seq w' = timer_seq w
  /\ length (promises w') = length (promises w).

(** A method that leaves all that alone, however it ends. *)
Definition inert {A : Type} (m : M A) : Prop := forall w, untouched w (snd (m w)).

End Instance.

(** ** A command and its reply *)

Module Scenario.

(** [sendCmd(cmd, data)]; the promise jobs run; the frame [reply] comes in;
    the promise jobs run.  The result is the promise handed to the caller. *)
Definition answered (sendCmd : Platform -> string -> Val -> M nat)
    (onWsMsg : Platform -> WsData -> M unit)
    (js : Platform) (cmd : string) (data : Val) (reply : WsData) : M nat :=
  let* promise := sendCmd js cmd data in
  let* _ := drain 16 in
  let* _ := onWsMsg js reply in
  let* _ := drain 16 in
  ret promise.

(** The frame [sendCmd] hands to the socket. *)
Definition envelope (cmd : string) (data : JsValue) (cmdId : string) : JsValue :=
  JObj [("type", JStr "user"); ("cmd", JStr cmd); ("data", data); ("cmdId", JStr cmdId)].

(** What a call of [asyncSend] made on the instance [w] registers: the
    listener and the timer of [getCmdRecv], and the callbacks given to
    [then].  The call creates the promises [n], ..., [n + 4], [n] being the
    number of promises of [w]: the one it returns, the one of [getCmdRecv]
    and of its [then], the one of [_send] and of its [then]. *)
Definition waiter_of (id : string) (w : World) : Waiter :=
  {| w_cmdId := id; w_timer := timer_seq w; w_promise := length (promises w) + 1 |}.

Definition timer_of (id : string) (timeout : Z) (w : World) : Timer :=
  {| t_id := timer_seq w; t_due := (clock w + timer_delay (timeout * 1000))%Z; t_cmdId := id;
     t_promise := length (promises w) + 1; t_timeout := timeout |}.

Definition on_received (w : World) : Reaction :=
  {| r_source := length (promises w) + 1;
     r_onFulfilled := Some (ResolveWithData (length (promises w)));
     r_onRejected := false; r_derived := length (promises w) + 2 |}.

Definition on_sent (w : World) : Reaction :=
  {| r_source := length (promises w) + 3; r_onFulfilled := Some PassThrough;
     r_onRejected := false; r_derived := length (promises w) + 4 |}.

(** The callbacks [sendCmd] gives to [then] and [catch], with the promises
    [n + 5] and [n + 6] they return. *)
Definition on_result (cmd : string) (w : World) : Reaction :=
  {| r_source := length (promises w); r_onFulfilled := Some (EmitCmdRet cmd);
     r_onRejected := false; r_derived := length (promises w) + 5 |}.

Definition rethrow (w : World) : Reaction :=
  {| r_source := length (promises w) + 5; r_onFulfilled := None;
     r_onRejected := true; r_derived := length (promises w) + 6 |}.

(** The instance [w] once [asyncSend] has sent [frame] for the command [id]
    on an open socket, the store being [h] by then. *)
Definition awaiting (id : string) (timeout : Z) (frame : JsValue) (h : Heap) (w : World)
  : World :=
  {| subscribed := subscribed w;
     waiters := waiters w ++ [waiter_of id w];
     timers := timers w ++ [timer_of id timeout w];
     timer_seq := S (timer_seq w);
     promises := promises w ++ [Pending; Pending; Pending; Fulfilled (JBool true); Pending];
     reactions := reactions w ++ [on_received w; on_sent w];
     jobs := jobs w ++ [(on_sent w, Fulfilled (JBool true))];
     clock := clock w;
     ws_fault := ws_fault w;
     outbox := outbox w ++ [frame];
     uuid_seq := S (uuid_seq w);
     heap := h |}.

(** The instance [w] once [sendCmd(cmd, data)] has returned. *)
Definition in_flight (cmd id : string) (frame : JsValue) (h : Heap) (w : World) : World :=
  {| subscribed := subscribed w;
     waiters := waiters w ++ [waiter_of id w];
     timers := timers w ++ [timer_of id 30000 w];
     timer_seq := S (timer_seq w);
     promises := promises w ++ [Pending; Pending; Pending; Fulfilled (JBool true); Pending;
                                Pending; Pending];
     reactions := reactions w ++ [on_received w; on_sent w; on_result cmd w; rethrow w];
     jobs := jobs w ++ [(on_sent w, Fulfilled (JBool true))];
     clock := clock w;
     ws_fault := ws_fault w;
     outbox := outbox w ++ [frame];
     uuid_seq := S (uuid_seq w);
     heap := h |}.

(** The instance [w] once the reply [reply] to that command has come in
    and the promise jobs have run: the listener and the timer are gone, and
    the promise handed to the caller, [n + 6], is fulfilled with the [data]
    of the reply. *)
Definition completed (cmd : string) (frame reply : JsValue) (h : Heap) (w : World) : World :=
  {| subscribed := subscribed w;
     waiters := waiters w;
     timers := timers w;
     timer_seq := S (timer_seq w);
     promises := promises w ++ [Fulfilled (PushItem.field "data" reply); Fulfilled reply;
                                Fulfilled JUndefined; Fulfilled (JBool true);
                                Fulfilled (JBool true);
                                Fulfilled (PushItem.field "data" reply);
                                Fulfilled (PushItem.field "data" reply)];
     reactions := reactions w ++ [on_received w; on_sent w; on_result cmd w; rethrow w];
     jobs := [];
     clock := clock w;
     ws_fault := ws_fault w;
     outbox := outbox w ++ [frame];
     uuid_seq := S (uuid_seq w);
     heap := h |}.

(** [sendCmd(cmd, data)]; the promise jobs run; no reply comes and time
    passes until [now]; the promise jobs run.  The result is the promise
    handed to the caller. *)
Definition unanswered (sendCmd : Platform -> string -> Val -> M nat)
    (js : Platform) (cmd : string) (data : Val) (now : Z) : M nat :=
  let* promise := sendCmd js cmd data in
  let* _ := drain 16 in
  let* _ := advance now in
  let* _ := drain 16 in
  ret promise.

(** The instance [w] once the timer of that command has fired, at [now],
    and the promise jobs have run: the listener and the timer are gone, the
    promise of [getCmdRecv], [n + 1], and the one of its [then], [n + 2],
    are rejected, and the promises [n], [n + 5] and [n + 6] are as they
    were. *)
Definition expired (cmd : string) (frame : JsValue) (h : Heap) (now : Z) (w : World) : World :=
  {| subscribed := subscribed w;
     waiters := waiters w;
     timers := timers w;
     timer_seq := S (timer_seq w);
     promises := promises w ++ [Pending; Rejected (timed_out 30000);
                                Rejected (timed_out 30000); Fulfilled (JBool true);
                                Fulfilled (JBool true); Pending; Pending];
     reactions := reactions w ++ [on_received w; on_sent w; on_result cmd w; rethrow w];
     jobs := [];
     clock := Z.max (clock w) now;
     ws_fault := ws_fault w;
     outbox := outbox w ++ [frame];
     uuid_seq := S (uuid_seq w);
     heap := h |}.

End Scenario.

(** ** More frames and instances to run the definitions on *)

Module Sample2.

Definition reply : JsValue :=
  JObj [("type", JStr "cmdRet"); ("cmdId", JStr "uuid-0"); ("taskId", JStr "5");
        ("data", JObj [("success", JBool true);
                       ("data", JObj [("msg_id", JStr "1284778244346778513");
                                      ("status", JNum 0)])])].

Definition logged_in : JsValue :=
  JObj [("type", JStr "userEvent"); ("event", JStr "login"); ("msg", JStr "ok")].

Definition qrcode_event : JsValue :=
  JObj [("type", JStr "userEvent"); ("event", JStr "qrcode");
        ("data", JObj [("qr_code", JStr "base64 of the picture")])].

Definition server_warning : JsValue :=
  JObj [("type", JStr "userEvent"); ("event", JStr "warn"); ("success", JBool true);
        ("error", JStr "slow down"); ("msg", JStr "too many requests")].

Definition sys_event : JsValue :=
  JObj [("type", JStr "sysEvent"); ("event", JStr "heartbeat")].

(** Stands for [JSON.parse] on the texts of the frames above, named here by
    a label; the text [null] is the JSON of null; any other text is not JSON. *)
Definition parse (s : string) : Parsed :=
  if (s =? "reply to uuid-0")%string then Parsed_ok reply
  else if (s =? "logged in")%string then Parsed_ok logged_in
  else if (s =? "qrcode")%string then Parsed_ok qrcode_event
  else if (s =? "server warning")%string then Parsed_ok server_warning
  else if (s =? "sys event")%string then Parsed_ok sys_event
  else if (s =? "null")%string then Parsed_ok JNull
  else SyntaxError "Unexpected token in JSON at position 0".

Definition platform : Platform :=
  {| JSON_parse := parse;
     UUID_v1 := fun n => String.append "uuid-" (Helper.index_name n);
     toLowerCase := Case.lowered |}.

(** A consumer holding the login data [{token: 't', wxData: 'w'}] at
    location 0, an incomplete [{token: 't'}] at location 1, and the
    description of a link [{title: 'a' LF 'b', url: 'u'}] at location 2. *)
Definition holding : World :=
  with_heap [CObj [("token", VStr "t"); ("wxData", VStr "w")];
             CObj [("token", VStr "t")];
             CObj [("title", VStr (String "a" (String "010" (String "b" EmptyString))));
                   ("url", VStr "u")]]
    Sample.attended.

End Sample2.

(** * Properties *)

(** ** Characters and property names *)

Section KeyFacts.

Import Key Shape.

Lemma upper_underscore (c : ascii) : upper c = "_"%char -> c = "_"%char.
Proof. by_cases_on_ascii c. Qed.

Lemma upper_word (c : ascii) : is_word c = true -> is_word (upper c) = true.
Proof. by_cases_on_ascii c. Qed.

Lemma upper_upper (c : ascii) : upper (upper c) = upper c.
Proof. by_cases_on_ascii c. Qed.

Lemma upper_not_h (c : ascii) : is_word c = true -> upper c <> "h"%char.
Proof. by_cases_on_ascii c. Qed.

Lemma underscore_is_word : is_word "_" = true.
Proof. reflexivity. Qed.

Lemma camel_other (a : ascii) (r : string) :
  (a =? "_")%char = false -> camel (String a r) = String a (camel r).
Proof. intros H. simpl. now rewrite H. Qed.

Lemma quiet_other (a : ascii) (r : string) :
  (a =? "_")%char = false -> quiet (String a r) = quiet r.
Proof. intros H. simpl. rewrite H. now destruct r. Qed.

Lemma no_dbl_tail (a : ascii) (r : string) : no_dbl (String a r) = true -> no_dbl r = true.
Proof. simpl. intros H. apply andb_true_iff in H. tauto. Qed.

(** A name with nothing to match is left as it is. *)
Lemma camel_quiet_id (s : string) : quiet s = true -> camel s = s.
Proof.
  induction s as [|a r IH]; [reflexivity|].
  intros H. cbn [quiet] in H. apply andb_true_iff in H as [H1 H2].
  cbn [camel]. destruct (a =? "_")%char eqn:Ea.
  - destruct r as [|c r']; [reflexivity|].
    cbn in H1. destruct (is_word c); [discriminate|].
    now rewrite (IH H2).
  - now rewrite (IH H2).
Qed.

(** One pass leaves nothing to match, if no two underscores are adjacent. *)
Lemma quiet_camel_bounded (n : nat) :
  forall s, String.length s <= n -> no_dbl s = true -> quiet (camel s) = true.
Proof.
  induction n as [|n IH]; intros s Hlen Hs.
  - destruct s; [reflexivity | cbn in Hlen; lia].
  - destruct s as [|a r]; [reflexivity|].
    cbn in Hlen. pose proof (no_dbl_tail _ _ Hs) as Hr.
    destruct (a =? "_")%char eqn:Ea.
    + destruct r as [|c r']; [cbn; now rewrite Ea|].
      cbn in Hlen. pose proof (no_dbl_tail _ _ Hr) as Hr'.
      cbn [camel]. rewrite Ea.
      destruct (is_word c) eqn:Ec.
      * assert (Hc : (c =? "_")%char = false).
        { cbn [no_dbl] in Hs. rewrite Ea in Hs. cbn in Hs.
          destruct (c =? "_")%char; [discriminate | reflexivity]. }
        rewrite quiet_other.
        -- apply IH; [lia | assumption].
        -- destruct (upper c =? "_")%char eqn:Eu; [|reflexivity].
           apply Ascii.eqb_eq, upper_underscore in Eu. subst c. discriminate.
      * assert (Hc : (c =? "_")%char = false).
        { destruct (c =? "_")%char eqn:E; [|reflexivity].
          apply Ascii.eqb_eq in E. subst c. discriminate. }
        fold (camel (String c r')).
        change (quiet (String a (camel (String c r'))) = true).
        rewrite (camel_other c r' Hc).
        cbn [quiet]. rewrite Ea, Ec. cbn [andb negb].
        change (quiet (String c (camel r')) = true).
        rewrite <- (camel_other c r' Hc). apply IH; [cbn; lia | assumption].
    + rewrite (camel_other a r Ea), (quiet_other _ _ Ea). apply IH; [lia | assumption].
Qed.

Lemma quiet_camel (s : string) : no_dbl s = true -> quiet (camel s) = true.
Proof. apply (quiet_camel_bounded (String.length s)). lia. Qed.

Lemma quiet_capitalize (s : string) : quiet s = true -> quiet (capitalize s) = true.
Proof.
  destruct s as [|c r]; [reflexivity|]. cbn [capitalize].
  destruct (is_word c) eqn:Ec; [|trivial].
  cbn [quiet]. intros H. apply andb_true_iff in H as [H1 H2]. rewrite H2, andb_true_r.
  destruct r as [|b r']; [reflexivity|].
  destruct (upper c =? "_")%char eqn:Eu; [|reflexivity].
  apply Ascii.eqb_eq, upper_underscore in Eu. subst c. exact H1.
Qed.

Lemma capitalize_capitalize (s : string) : capitalize (capitalize s) = capitalize s.
Proof.
  destruct s as [|c r]; [reflexivity|]. cbn [capitalize].
  destruct (is_word c) eqn:Ec; cbn [capitalize].
  - now rewrite (upper_word _ Ec), upper_upper.
  - now rewrite Ec.
Qed.

Lemma quiet_newKey (big : bool) (k : string) : no_dbl k = true -> quiet (newKey big k) = true.
Proof.
  intros H. unfold newKey. destruct big; [apply quiet_capitalize|]; now apply quiet_camel.
Qed.

(** The rewriting of names is idempotent on names without adjacent underscores. *)
Lemma newKey_newKey (big : bool) (k : string) :
  no_dbl k = true -> newKey big (newKey big k) = newKey big k.
Proof.
  intros H. pose proof (quiet_newKey big k H) as Hq.
  unfold newKey at 1. rewrite (camel_quiet_id _ Hq).
  destruct big; [|reflexivity]. unfold newKey. apply capitalize_capitalize.
Qed.

Lemma capitalize_not_hasOwnProperty (s : string) : capitalize s <> "hasOwnProperty".
Proof.
  destruct s as [|c r]; [discriminate|]. cbn [capitalize].
  destruct (is_word c) eqn:Ec; intros H; injection H as H1 H2.
  - now apply (upper_not_h c Ec).
  - subst c. discriminate.
Qed.

Lemma newKey_not_hasOwnProperty (big : bool) (k : string) :
  tidy_key k = true -> newKey big k <> "hasOwnProperty".
Proof.
  unfold tidy_key, newKey. intros H. apply andb_true_iff in H as [_ H].
  destruct big; [apply capitalize_not_hasOwnProperty|].
  apply negb_true_iff, String.eqb_neq in H. exact H.
Qed.

Lemma quiet_not_proto (k : string) : quiet k = true -> (k =? "__proto__")%string = false.
Proof.
  intros H. apply String.eqb_neq. intros ->. discriminate.
Qed.

Lemma tidy_key_no_dbl (k : string) : tidy_key k = true -> no_dbl k = true.
Proof. unfold tidy_key. intros H. apply andb_true_iff in H. tauto. Qed.

Lemma tidy_key_not_hasOwnProperty (k : string) : tidy_key k = true -> k <> "hasOwnProperty".
Proof.
  unfold tidy_key. intros H. apply andb_true_iff in H as [_ H].
  apply negb_true_iff, String.eqb_neq in H. intros ->. now apply H.
Qed.

(** What one pass makes of a tidy name is settled for the next pass. *)
Lemma settled_newKey (big : bool) (k : string) :
  tidy_key k = true -> settled_key big (newKey big k) = true.
Proof.
  intros H. unfold settled_key. apply andb_true_iff. split.
  - apply String.eqb_eq, newKey_newKey, tidy_key_no_dbl, H.
  - apply negb_true_iff, String.eqb_neq, newKey_not_hasOwnProperty, H.
Qed.





End KeyFacts.

(** ** The camel convention *)

Section ConventionFacts.

Import Key Shape Spec.

Lemma capital_upper (c : ascii) : capital c = upper c.
Proof. by_cases_on_ascii c. Qed.

Lemma upper_other (c : ascii) : is_word c = false -> upper c = c.
Proof. by_cases_on_ascii c. Qed.

Lemma alnum_word (c : ascii) : is_alnum c = true -> is_word c = true /\ (c =? "_")%char = false.
Proof. by_cases_on_ascii c. Qed.

Lemma titled_capitalize (s : string) : titled s = capitalize s.
Proof.
  destruct s as [|c r]; [reflexivity|]. cbn [titled capitalize]. rewrite capital_upper.
  destruct (is_word c) eqn:E; [reflexivity|]. now rewrite (upper_other c E).
Qed.

Lemma words_cons (s : string) : exists w ws, words s = w :: ws.
Proof.
  destruct s as [|c r]; cbn [words]; [eauto|].
  destruct (c =? "_")%char; [eauto|]. destruct (words r); eauto.
Qed.

Lemma words_other (a : ascii) (r : string) :
  (a =? "_")%char = false -> joined (words (String a r)) = String a (joined (words r)).
Proof.
  intros Ha. cbn [words]. rewrite Ha.
  destruct (words_cons r) as (w & ws & ->). reflexivity.
Qed.

Lemma separated_tail (a : ascii) (r : string) :
  separated (String a r) = true -> separated r = true.
Proof. cbn [separated]. intros H. apply andb_true_iff in H. tauto. Qed.

(** On a name whose underscores separate words, the regular expression of
    the helper produces the camel convention. *)
Lemma camel_joined_bounded (n : nat) :
  forall s, String.length s <= n -> separated s = true -> camel s = joined (words s).
Proof.
  induction n as [|n IH]; intros s Hlen Hs.
  - destruct s; [reflexivity | cbn in Hlen; lia].
  - destruct s as [|a r]; [reflexivity|].
    cbn in Hlen. pose proof (separated_tail _ _ Hs) as Hr.
    destruct (a =? "_")%char eqn:Ea.
    + cbn [separated] in Hs. rewrite Ea in Hs.
      destruct r as [|b r']; [discriminate|].
      apply andb_true_iff in Hs as [Hb _]. destruct (alnum_word b Hb) as [Hw Hu].
      cbn in Hlen. pose proof (separated_tail _ _ Hr) as Hr'.
      cbn [camel]. rewrite Ea, Hw. rewrite (IH r') by (auto; lia).
      cbn [words]. rewrite Ea, Hu.
      destruct (words_cons r') as (w & ws & ->).
      cbn [joined map fold_right titled String.append]. now rewrite capital_upper.
    + rewrite (camel_other a r Ea), (words_other a r Ea). f_equal. apply IH; [lia | exact Hr].
Qed.

Lemma newKey_camelCase (big : bool) (k : string) :
  separated k = true -> newKey big k = camelCase big k.
Proof.
  intros H. unfold newKey, camelCase.
  rewrite (camel_joined_bounded (String.length k) k (le_n _) H).
  destruct big; [|reflexivity]. now rewrite titled_capitalize.
Qed.

Lemma separated_no_dbl (s : string) : separated s = true -> no_dbl s = true.
Proof.
  induction s as [|a r IH]; [reflexivity|].
  intros H. pose proof (separated_tail _ _ H) as Hr. cbn [separated] in H.
  cbn [no_dbl]. rewrite (IH Hr), andb_true_r.
  destruct r as [|b r']; [reflexivity|].
  destruct (a =? "_")%char; [|reflexivity].
  apply andb_true_iff in H as [Hb _]. destruct (alnum_word b Hb) as [_ ->]. reflexivity.
Qed.

Lemma upper_digit (c : ascii) : is_digit c = true -> upper c = c.
Proof. by_cases_on_ascii c. Qed.

End ConventionFacts.

(** ** Own-property lists *)

Section ObjFacts.

Import Obj.
Context {V : Type}.
Implicit Types (o : list (string * V)) (k : string) (v : V).

Lemma get_In k o v : get k o = Some v -> In (k, v) o.
Proof.
  induction o as [|[k' v'] r IH]; cbn; [discriminate|].
  destruct (k' =? k)%string eqn:E.
  - apply String.eqb_eq in E. intros [= ->]. subst. now left.
  - intros H. right. now apply IH.
Qed.

Lemma get_None_keys k o : get k o = None <-> ~ In k (keys o).
Proof.
  induction o as [|[k' v'] r IH]; cbn; [tauto|].
  destruct (k' =? k)%string eqn:E.
  - apply String.eqb_eq in E. split; [discriminate | intros H; exfalso; apply H; now left].
  - apply String.eqb_neq in E. rewrite IH. tauto.
Qed.

Lemma has_false_keys k o : has k o = false <-> ~ In k (keys o).
Proof.
  unfold has. rewrite <- get_None_keys. destruct (get k o); split; congruence.
Qed.

Lemma has_true_get k o : has k o = true -> exists v, get k o = Some v.
Proof. unfold has. destruct (get k o); [eauto | discriminate]. Qed.

Lemma In_get_NoDup k v o : List.NoDup (keys o) -> In (k, v) o -> get k o = Some v.
Proof.
  induction o as [|[k' v'] r IH]; cbn; [tauto|].
  intros Hnd [H|H]; inversion Hnd; subst.
  - injection H as -> ->. now rewrite String.eqb_refl.
  - destruct (k' =? k)%string eqn:E; [|now apply IH].
    apply String.eqb_eq in E. subst. exfalso. apply H2.
    change k with (fst (k, v)). now apply in_map.
Qed.

Lemma keys_replace k v o : keys (replace k v o) = keys o.
Proof.
  unfold keys. induction o as [|[k' v'] r IH]; cbn; [reflexivity|].
  destruct (k' =? k)%string; cbn; [reflexivity | now rewrite IH].
Qed.

Lemma replace_get_id k v o : get k o = Some v -> replace k v o = o.
Proof.
  induction o as [|[k' v'] r IH]; cbn; [reflexivity|].
  destruct (k' =? k)%string; [now intros [= ->] | intros H; now rewrite IH].
Qed.

Lemma get_replace_eq k v o : has k o = true -> get k (replace k v o) = Some v.
Proof.
  unfold has. induction o as [|[k' v'] r IH]; cbn; [discriminate|].
  destruct (k' =? k)%string eqn:E; cbn; rewrite E; [reflexivity | exact IH].
Qed.

Lemma get_replace_ne k k' v o : k' <> k -> get k' (replace k v o) = get k' o.
Proof.
  intros Hne. induction o as [|[k0 v0] r IH]; cbn; [reflexivity|].
  destruct (k0 =? k)%string eqn:E; cbn.
  - apply String.eqb_eq in E. subst k0.
    destruct (k =? k')%string eqn:E'; [apply String.eqb_eq in E'; congruence | reflexivity].
  - destruct (k0 =? k')%string; [reflexivity | exact IH].
Qed.

Lemma Forall_replace (P : string * V -> Prop) k v o :
  Forall P o -> P (k, v) -> Forall P (replace k v o).
Proof.
  intros Ho Hp. induction Ho as [|[k' v'] r Hx Hr IH]; cbn; [constructor|].
  destruct (k' =? k)%string eqn:E.
  - apply String.eqb_eq in E. subst. now constructor.
  - now constructor.
Qed.

Lemma insert_new_perm k v o : Permutation (insert_new k v o) ((k, v) :: o).
Proof.
  induction o as [|[k' v'] r IH]; cbn; [reflexivity|].
  destruct (before k' k); [|reflexivity].
  rewrite IH. apply perm_swap.
Qed.

Lemma Forall_insert_new (P : string * V -> Prop) k v o :
  Forall P o -> P (k, v) -> Forall P (insert_new k v o).
Proof.
  intros Ho Hp. eapply Permutation_Forall; [symmetry; apply insert_new_perm|].
  now constructor.
Qed.

Lemma keys_insert_new_perm k v o : Permutation (keys (insert_new k v o)) (k :: keys o).
Proof. unfold keys. rewrite (insert_new_perm k v o). reflexivity. Qed.

Lemma NoDup_insert_new k v o :
  has k o = false -> List.NoDup (keys o) -> List.NoDup (keys (insert_new k v o)).
Proof.
  intros Hk Hnd. eapply Permutation_NoDup; [symmetry; apply keys_insert_new_perm|].
  constructor; [now apply has_false_keys | exact Hnd].
Qed.

Lemma get_insert_new_eq k v o : has k o = false -> get k (insert_new k v o) = Some v.
Proof.
  intros Hk. induction o as [|[k' v'] r IH]; cbn; [now rewrite String.eqb_refl|].
  unfold has in Hk. cbn in Hk.
  destruct (k' =? k)%string eqn:E; [discriminate|].
  destruct (before k' k); cbn.
  - rewrite E. apply IH. exact Hk.
  - now rewrite String.eqb_refl.
Qed.

Lemma get_insert_new_ne k k' v o : k' <> k -> get k' (insert_new k v o) = get k' o.
Proof.
  intros Hne. induction o as [|[k0 v0] r IH]; cbn.
  - destruct (k =? k')%string eqn:E; [apply String.eqb_eq in E; congruence | reflexivity].
  - destruct (before k0 k); cbn.
    + destruct (k0 =? k')%string; [reflexivity | exact IH].
    + destruct (k =? k')%string eqn:E; [apply String.eqb_eq in E; congruence | reflexivity].
Qed.

Lemma Forall_delete (P : string * V -> Prop) k o : Forall P o -> Forall P (delete k o).
Proof.
  intros H. unfold delete. apply List.Forall_forall. intros x Hx.
  apply filter_In in Hx as [Hx _]. rewrite List.Forall_forall in H. now apply H.
Qed.

Lemma delete_keys k o : Forall (fun p => fst p <> k) (delete k o).
Proof.
  unfold delete. apply List.Forall_forall. intros x Hx.
  apply filter_In in Hx as [_ Hx]. apply negb_true_iff, String.eqb_neq in Hx. exact Hx.
Qed.

Lemma keys_delete k o : keys (delete k o) = List.filter (fun k' => negb (k' =? k)%string) (keys o).
Proof.
  unfold delete, keys. induction o as [|[k' v'] r IH]; cbn; [reflexivity|].
  destruct (k' =? k)%string; cbn; now rewrite IH.
Qed.

Lemma NoDup_delete k o : List.NoDup (keys o) -> List.NoDup (keys (delete k o)).
Proof. intros H. rewrite keys_delete. now apply List.NoDup_filter. Qed.

Lemma get_delete_eq k o : get k (delete k o) = None.
Proof.
  apply get_None_keys. rewrite keys_delete. intros H.
  apply filter_In in H as [_ H]. now rewrite String.eqb_refl in H.
Qed.

Lemma get_delete_ne k k' o : k' <> k -> get k' (delete k o) = get k' o.
Proof.
  intros Hne. unfold delete. induction o as [|[k0 v0] r IH]; cbn; [reflexivity|].
  destruct (k0 =? k)%string eqn:E; cbn.
  - apply String.eqb_eq in E. subst k0.
    destruct (k =? k')%string eqn:E'; [apply String.eqb_eq in E'; congruence | exact IH].
  - destruct (k0 =? k')%string; [reflexivity | exact IH].
Qed.

(** *** Enumeration order *)

Lemma before_total (a b : string) : before a b = false -> before b a = true.
Proof.
  unfold before. destruct (array_index a), (array_index b); try discriminate; try reflexivity.
  intros H. apply N.leb_gt in H. apply N.leb_le. lia.
Qed.

Lemma before_trans (a b c : string) :
  before a b = true -> before b c = true -> before a c = true.
Proof.
  unfold before.
  destruct (array_index a), (array_index b), (array_index c); try discriminate; try reflexivity.
  intros H1 H2. apply N.leb_le in H1, H2. apply N.leb_le. lia.
Qed.

Lemma ordered_insert_new k v o : ordered (keys o) -> ordered (keys (insert_new k v o)).
Proof.
  unfold ordered. induction o as [|[k' v'] r IH]; cbn.
  - intros _. repeat constructor.
  - intros H. inversion H as [|? ? Hr Hall]; subst.
    destruct (before k' k) eqn:E; cbn.
    + constructor; [now apply IH|].
      eapply Permutation_Forall; [symmetry; apply keys_insert_new_perm|].
      now constructor.
    + constructor; [exact H|]. apply before_total in E.
      constructor; [exact E|].
      eapply List.Forall_impl; [|exact Hall]. cbn. intros c Hc. now apply (before_trans k k' c).
Qed.

Lemma insert_new_last k v o :
  Forall (fun k' => before k' k = true) (keys o) -> insert_new k v o = o ++ [(k, v)].
Proof.
  induction o as [|[k' v'] r IH]; cbn; [reflexivity|].
  intros H. inversion H; subst. rewrite H2. now rewrite IH.
Qed.

Lemma ordered_app_before (ks1 ks2 : list string) k :
  ordered (ks1 ++ k :: ks2) -> Forall (fun k' => before k' k = true) ks1.
Proof.
  unfold ordered. induction ks1 as [|a r IH]; cbn; [constructor|].
  intros H. inversion H as [|? ? Hr Hall]; subst. constructor.
  - rewrite List.Forall_forall in Hall. apply Hall. apply in_or_app. right. now left.
  - now apply IH.
Qed.

End ObjFacts.

(** ** Shapes *)

Section ShapeFacts.

Import Key Shape.

Lemma distinct_NoDup (ks : list string) : distinct ks = true -> List.NoDup ks.
Proof.
  induction ks as [|k r IH]; cbn; [constructor|].
  intros H. apply andb_true_iff in H as [H1 H2]. constructor; [|now apply IH].
  intros Hin. apply negb_true_iff in H1.
  assert (existsb (String.eqb k) r = true); [|congruence].
  apply existsb_exists. exists k. split; [exact Hin | apply String.eqb_refl].
Qed.

Lemma NoDup_distinct (ks : list string) : List.NoDup ks -> distinct ks = true.
Proof.
  induction 1 as [|k r Hk Hr IH]; cbn; [reflexivity|].
  rewrite IH, andb_true_r. apply negb_true_iff.
  destruct (existsb (String.eqb k) r) eqn:E; [|reflexivity].
  apply existsb_exists in E as (k' & Hin & E). apply String.eqb_eq in E. subst. contradiction.
Qed.

Lemma digit_not_underscore (c : ascii) : is_digit c = true -> (c =? "_")%char = false.
Proof. destruct c as [[] [] [] [] [] [] [] []]; vm_compute; congruence. Qed.

Lemma digit_not_h (c : ascii) : is_digit c = true -> c <> "h"%char.
Proof. destruct c as [[] [] [] [] [] [] [] []]; vm_compute; congruence. Qed.

Lemma numeral_quiet (s : string) : numeral s = true -> quiet s = true /\ no_dbl s = true.
Proof.
  induction s as [|c r IH]; cbn [numeral]; [now split|].
  intros H. apply andb_true_iff in H as [Hc Hr]. destruct (IH Hr) as [Hq Hn].
  pose proof (digit_not_underscore c Hc) as Hu.
  cbn [quiet no_dbl]. rewrite Hu, Hq, Hn. cbn. now destruct r.
Qed.

Lemma numeral_tidy (s : string) : numeral s = true -> tidy_key s = true.
Proof.
  intros H. destruct (numeral_quiet s H) as [Hq Hn].
  unfold tidy_key. rewrite Hn, (camel_quiet_id s Hq). cbn.
  apply negb_true_iff, String.eqb_neq. intros ->.
  cbn in H. discriminate.
Qed.

Lemma numeral_of_uint (d : Decimal.uint) : numeral (NilEmpty.string_of_uint d) = true.
Proof. induction d; cbn; auto. Qed.

Lemma index_name_tidy (i : nat) : tidy_key (Helper.index_name i) = true.
Proof.
  apply numeral_tidy. unfold Helper.index_name, NilZero.string_of_uint.
  destruct (Nat.to_uint i) eqn:E; try reflexivity; rewrite <- E; apply numeral_of_uint.
Qed.

Lemma Forall_imap {A B : Type} (P : B -> Prop) (f : nat -> A -> B) (l : list A) :
  (forall i x, P (f i x)) -> Forall P (imap f l).
Proof.
  revert f. induction l as [|x r IH]; intros f H; cbn; constructor; [apply H|].
  apply IH. intros i y. apply H.
Qed.

Lemma tidy_entries (x : JsValue) :
  tidy x = true -> Forall (fun p => tidy_key (fst p) = true) (Helper.entries x).
Proof.
  destruct x; cbn [Helper.entries]; try constructor.
  - intros _. apply Forall_imap. intros i v. apply index_name_tidy.
  - cbn [tidy]. intros H. apply andb_true_iff in H as [_ H].
    rewrite forallb_forall in H. apply List.Forall_forall. intros p Hp.
    specialize (H p Hp). apply andb_true_iff in H. tauto.
Qed.

Lemma settled_key_stable (big : bool) (k : string) :
  settled_key big k = true -> newKey big k = k /\ k <> "hasOwnProperty" /\ (k =? "__proto__")%string = false.
Proof.
  unfold settled_key. intros H. apply andb_true_iff in H as [H1 H2].
  apply String.eqb_eq in H1. apply negb_true_iff, String.eqb_neq in H2.
  repeat split; auto. apply String.eqb_neq. intros ->. destruct big; discriminate.
Qed.

Lemma no_hasOwnProperty {V : Type} (P : string -> Prop) (o : list (string * V)) :
  (forall k, P k -> k <> "hasOwnProperty") ->
  Forall (fun p => P (fst p)) o -> Obj.has "hasOwnProperty" o = false.
Proof.
  intros HP Ho. apply has_false_keys. intros Hin.
  apply in_map_iff in Hin as (p & Hp & Hin).
  rewrite List.Forall_forall in Ho. apply (HP (fst p)); auto.
Qed.

End ShapeFacts.

(** ** [toCamelCase] of src/helper.js *)

Section HelperFacts.

Import Key Shape Obj.
Variable big : bool.
Local Abbreviation filling := (Loop.filling big).

Lemma assign_present (k : string) (v : JsValue) (o : Props) :
  has k o = true -> assign k v o = Normal (replace k v o).
Proof. unfold assign. now intros ->. Qed.

Lemma assign_fresh (k : string) (v : JsValue) (o : Props) :
  has k o = false -> (k =? "__proto__")%string = false -> assign k v o = Normal (insert_new k v o).
Proof. unfold assign. now intros -> ->. Qed.

Lemma filling_assign (k : string) (v : JsValue) (o : Props) :
  tidy_key k = true -> filling o ->
  exists o', assign (newKey big k) v o = Normal o' /\ filling o'.
Proof.
  intros Hk (Hnd & Hord & Hall).
  pose proof (settled_newKey big k Hk) as Hs.
  destruct (has (newKey big k) o) eqn:E.
  - rewrite (assign_present _ _ _ E). eexists; split; [reflexivity|].
    unfold Loop.filling. rewrite keys_replace. repeat split; auto.
    now apply Forall_replace.
  - rewrite (assign_fresh _ _ _ E); [|apply quiet_not_proto, quiet_newKey, tidy_key_no_dbl, Hk].
    eexists; split; [reflexivity|]. repeat split.
    + now apply NoDup_insert_new.
    + now apply ordered_insert_new.
    + now apply Forall_insert_new.
Qed.

Lemma copy_first_pass (own : Props) (todo : Props) :
  has "hasOwnProperty" own = false ->
  Forall (fun p => tidy_key (fst p) = true) todo ->
  forall newObj, filling newObj ->
  exists r, cfold (Helper.copy_step big own) todo newObj = Normal r /\ filling r.
Proof.
  intros Hown. induction 1 as [|[k v] todo Hk Htodo IH]; intros newObj Hf; cbn [cfold].
  - eauto.
  - unfold Helper.copy_step at 1. rewrite Hown. cbn [fst snd].
    destruct (filling_assign k v newObj Hk Hf) as (o' & -> & Hf'). cbn [cbind].
    now apply IH.
Qed.

Lemma copy_second_pass (r : Props) :
  filling r ->
  forall todo newObj, r = newObj ++ todo ->
  cfold (Helper.copy_step big r) todo newObj = Normal r.
Proof.
  intros (Hnd & Hord & Hall).
  assert (Hown : has "hasOwnProperty" r = false).
  { apply (no_hasOwnProperty (fun k => settled_key big k = true)); [|exact Hall].
    intros k Hk. now apply (settled_key_stable big k). }
  induction todo as [|[k v] todo IH]; intros newObj Hr; cbn [cfold].
  - now rewrite app_nil_r in Hr; subst.
  - unfold Helper.copy_step at 1. rewrite Hown. cbn [fst snd].
    assert (Hk : settled_key big k = true).
    { rewrite List.Forall_forall in Hall. apply (Hall (k, v)). subst r.
      apply in_or_app. right. now left. }
    destruct (settled_key_stable big k Hk) as (Hst & _ & Hproto). rewrite Hst.
    assert (Hkeys : keys r = keys newObj ++ k :: keys todo).
    { subst r. unfold keys. now rewrite map_app. }
    rewrite assign_fresh; [|apply has_false_keys|exact Hproto].
    + cbn [cbind]. rewrite insert_new_last.
      * apply IH. subst r. now rewrite <- app_assoc.
      * apply (ordered_app_before _ (keys todo)). now rewrite <- Hkeys.
    + rewrite Hkeys in Hnd. apply NoDup_remove_2 in Hnd.
      intros Hin. apply Hnd. apply in_or_app. now left.
Qed.

Lemma filling_nil : filling [].
Proof. repeat split; constructor. Qed.

(** On a tidy document the call returns, and a second call on what it
    returned gives the same document back. *)
Lemma helper_toCamelCase_twice (x : JsValue) :
  tidy x = true ->
  exists y, Helper.toCamelCase x big = Normal y /\ Helper.toCamelCase y big = Normal y.
Proof.
  intros Hx. unfold Helper.toCamelCase at 1.
  destruct (instanceof_Object x) eqn:Ex; cbn [negb].
  - pose proof (tidy_entries x Hx) as Hent.
    assert (Hown : has "hasOwnProperty" (Helper.entries x) = false).
    { apply (no_hasOwnProperty (fun k => tidy_key k = true)); [|exact Hent].
      intros k. apply tidy_key_not_hasOwnProperty. }
    destruct (copy_first_pass _ _ Hown Hent [] filling_nil) as (r & -> & Hr).
    cbn [cbind]. eexists; split; [reflexivity|].
    unfold Helper.toCamelCase. cbn [instanceof_Object negb Helper.entries].
    now rewrite (copy_second_pass r Hr r []).
  - exists x. split; [reflexivity|]. unfold Helper.toCamelCase. now rewrite Ex.
Qed.

End HelperFacts.

(** ** [toCamelCase] of src/unnamed/part_001 *)

Section Helper2Facts.

Import Key Shape Obj Loop.

Lemma cmap_id {A : Type} (f : A -> Completion A) (l : list A) :
  Forall (fun x => f x = Normal x) l -> cmap f l = Normal l.
Proof.
  induction 1 as [|x r Hx Hr IH]; cbn; [reflexivity|]. now rewrite Hx, IH.
Qed.

Lemma cmap_Forall2 {A B : Type} (f : A -> Completion B) (R : A -> B -> Prop) (l : list A) :
  Forall (fun x => exists y, f x = Normal y /\ R x y) l ->
  exists l', cmap f l = Normal l' /\ Forall2 R l l'.
Proof.
  induction 1 as [|x r (y & Hy & Hxy) Hr (r' & Hr' & IH)]; cbn.
  - exists []. split; [reflexivity | constructor].
  - rewrite Hy, Hr'. cbn. exists (y :: r'). split; [reflexivity | now constructor].
Qed.

Lemma cfold_id {A B : Type} (f : A -> B -> Completion A) (l : list B) (a : A) :
  (forall b, f a b = Normal a) -> cfold f l a = Normal a.
Proof.
  intros H. induction l as [|b r IH]; cbn; [reflexivity|]. now rewrite H.
Qed.

Lemma cfold_invariant {A B : Type} (f : A -> B -> Completion A) (I : list B -> A -> Prop) :
  (forall b rem a, I (b :: rem) a -> exists a', f a b = Normal a' /\ I rem a') ->
  forall l a, I l a -> exists a', cfold f l a = Normal a' /\ I [] a'.
Proof.
  intros Hstep. induction l as [|b r IH]; intros a Ha; cbn.
  - eauto.
  - destruct (Hstep b r a Ha) as (a' & -> & Ha'). cbn. now apply IH.
Qed.

Lemma depth_item (items : list JsValue) (v : JsValue) :
  In v items -> depth v <= list_max (map depth items).
Proof.
  intros H. pose proof (proj1 (list_max_le (map depth items) _) (Nat.le_refl _)) as Hall.
  rewrite List.Forall_forall in Hall. apply Hall. now apply in_map.
Qed.

Lemma depth_prop (props : Props) (p : string * JsValue) :
  In p props -> depth (snd p) <= list_max (map (fun p => depth (snd p)) props).
Proof.
  intros H.
  pose proof (proj1 (list_max_le (map (fun p => depth (snd p)) props) _) (Nat.le_refl _)) as Hall.
  rewrite List.Forall_forall in Hall. apply Hall.
  apply (in_map (fun p => depth (snd p))). exact H.
Qed.

Lemma scalar_settled (v : JsValue) : instanceof_Object v = false -> settled false v = true.
Proof. destruct v; cbn; congruence. Qed.

Lemma settled_props (big : bool) (props : Props) :
  settled big (JObj props) = true ->
  List.NoDup (keys props)
  /\ Forall (fun p => settled_key big (fst p) = true /\ settled false (snd p) = true) props.
Proof.
  cbn [settled]. intros H. apply andb_true_iff in H as [H1 H2]. split.
  - now apply distinct_NoDup.
  - rewrite forallb_forall in H2. apply List.Forall_forall. intros p Hp.
    specialize (H2 p Hp). now apply andb_true_iff in H2.
Qed.

(** A settled document is returned as it is. *)
Lemma helper2_settled_fixed (n : nat) :
  forall (y : JsValue) (big : bool),
    depth y < n -> settled big y = true -> Helper2.toCamelCase n y big = Normal y.
Proof.
  induction n as [|n IH]; intros y big Hd Hy; [lia|].
  destruct y as [| | b | z | s | items | props]; try reflexivity.
  - cbn [Helper2.toCamelCase]. rewrite cmap_id; [reflexivity|].
    apply List.Forall_forall. intros v Hv. apply IH.
    + pose proof (depth_item items v Hv). cbn [depth] in Hd. lia.
    + cbn [settled] in Hy. rewrite forallb_forall in Hy. now apply Hy.
  - cbn [Helper2.toCamelCase]. rewrite cfold_id; [reflexivity|].
    destruct (settled_props big props Hy) as [Hnd Hall].
    intros key. unfold Helper2.rename_step.
    destruct (get key props) as [child|] eqn:Eg; [|reflexivity].
    pose proof (get_In _ _ _ Eg) as Hin.
    rewrite List.Forall_forall in Hall. destruct (Hall _ Hin) as [Hk Hc]. cbn [fst snd] in Hk, Hc.
    rewrite (no_hasOwnProperty (fun k => settled_key big k = true)).
    + destruct (settled_key_stable big key Hk) as (Hst & _ & _).
      cbv beta. destruct (instanceof_Object child).
      * rewrite IH; [|pose proof (depth_prop props _ Hin); cbn [depth snd] in *; lia | exact Hc].
        cbn [cbind]. rewrite assign_present; [|unfold has; now rewrite Eg].
        rewrite (replace_get_id _ _ _ Eg). cbn [cbind]. rewrite Hst. now rewrite String.eqb_refl.
      * cbn [cbind]. rewrite Hst. now rewrite String.eqb_refl.
    + intros k Hk'. now apply (settled_key_stable big k).
    + apply List.Forall_forall. intros p Hp. now apply Hall.
Qed.

Lemma Forall_replace_others {V : Type} (P : string * V -> Prop) (k : string) (v : V)
    (o : list (string * V)) :
  List.NoDup (keys o) -> Forall (fun p => fst p <> k -> P p) o -> P (k, v) ->
  Forall P (replace k v o).
Proof.
  intros Hnd Ho Hp. induction Ho as [|[k' v'] r Hx Hr IH]; cbn; [constructor|].
  inversion Hnd as [|? ? Hk' Hnd']; subst.
  destruct (k' =? k)%string eqn:E.
  - apply String.eqb_eq in E. subst k'. constructor; [exact Hp|].
    apply List.Forall_forall. intros q Hq. rewrite List.Forall_forall in Hr. apply Hr; [exact Hq|].
    intros Heq. apply Hk'. rewrite <- Heq. now apply in_map.
  - apply String.eqb_neq in E. constructor; [now apply Hx | now apply IH].
Qed.

Lemma pending_tail (d : nat) (key : string) (rem : list string) (p : string * JsValue) :
  fst p <> key -> pending d (key :: rem) p -> pending d rem p.
Proof.
  intros Hne (Hin & Ht & Hg). split; [|split; [exact Ht | exact Hg]].
  destruct Hin as [Heq|Hin]; [congruence | exact Hin].
Qed.

Lemma renaming_no_hasOwnProperty (big : bool) (d : nat) (rem : list string) (o : Props) :
  renaming big d rem o -> has "hasOwnProperty" o = false.
Proof.
  intros [_ Hall]. apply (no_hasOwnProperty (fun k => k <> "hasOwnProperty")); [auto|].
  eapply List.Forall_impl; [|exact Hall]. cbn. intros p [(_ & Ht & _)|(Hs & _)].
  - now apply tidy_key_not_hasOwnProperty.
  - now apply (settled_key_stable big).
Qed.

(** One turn of the loop of src/unnamed/part_001 keeps the invariant. *)
Lemma rename_step_renaming (rec : JsValue -> Completion JsValue) (big : bool) (d : nat) :
  (forall v, good d v ->
     exists v', rec v = Normal v' /\ settled false v' = true /\ depth v' <= d) ->
  forall (key : string) (rem : list string) (o : Props),
    renaming big d (key :: rem) o ->
    exists o', Helper2.rename_step rec big o key = Normal o' /\ renaming big d rem o'.
Proof.
  intros Hrec key rem o Hinv. pose proof (renaming_no_hasOwnProperty _ _ _ _ Hinv) as Hown.
  destruct Hinv as [Hnd Hall]. unfold Helper2.rename_step.
  destruct (get key o) as [child|] eqn:Eg.
  - rewrite Hown.
    pose proof (get_In _ _ _ Eg) as Hin.
    assert (Hhas : has key o = true) by (unfold has; now rewrite Eg).
    assert (Hstat : pending d (key :: rem) (key, child) \/ finished big d (key, child)).
    { rewrite List.Forall_forall in Hall. now apply Hall. }
    assert (Hgood : good d child).
    { destruct Hstat as [(_ & _ & Hg)|(_ & Hs & Hd)]; [exact Hg | split; auto]. }
    assert (H1 : exists child',
               (if instanceof_Object child
                then child' <- rec child ;; assign key child' o
                else Normal o) = Normal (replace key child' o)
               /\ settled false child' = true /\ depth child' <= d).
    { destruct (instanceof_Object child) eqn:Ec.
      - destruct (Hrec child Hgood) as (child' & -> & Hs & Hd). exists child'.
        cbn [cbind]. now rewrite (assign_present _ _ _ Hhas).
      - exists child. rewrite (replace_get_id _ _ _ Eg).
        repeat split; [now apply scalar_settled | apply Hgood]. }
    destruct H1 as (child' & -> & Hs' & Hd'). cbn [cbind].
    set (o1 := replace key child' o).
    assert (Hg1 : get key o1 = Some child') by (now apply get_replace_eq).
    assert (Hnd1 : List.NoDup (keys o1)) by (unfold o1; now rewrite keys_replace).
    destruct (newKey big key =? key)%string eqn:Enk.
    + apply String.eqb_eq in Enk. eexists; split; [reflexivity|]. split; [exact Hnd1|].
      apply Forall_replace_others; [exact Hnd| |].
      * eapply List.Forall_impl; [|exact Hall]. cbn. intros p [Hp|Hp] Hne; [left|now right].
        now apply (pending_tail d key).
      * right. split; [|split; [exact Hs' | exact Hd']]. unfold settled_key. cbn [fst].
        rewrite Enk, String.eqb_refl. cbn.
        apply negb_true_iff, String.eqb_neq. intros ->.
        unfold has in Hown. now rewrite Eg in Hown.
    + apply String.eqb_neq in Enk. rewrite Hg1.
      assert (Ht : tidy_key key = true).
      { destruct Hstat as [(_ & Ht & _)|(Hs & _)]; [exact Ht|].
        cbn [fst] in Hs. now destruct (settled_key_stable big key Hs) as (Hst & _). }
      assert (Hall1 : Forall (fun p => pending d (key :: rem) p \/ finished big d p) o1).
      { apply Forall_replace; [exact Hall|]. left.
        split; [now left|]. split; [exact Ht|]. split; [exact Hd' | now right]. }
      assert (Hfin : finished big d (newKey big key, child')).
      { split; [now apply settled_newKey|]. split; [exact Hs' | exact Hd']. }
      assert (H2 : exists o2, assign (newKey big key) child' o1 = Normal o2
                   /\ List.NoDup (keys o2)
                   /\ Forall (fun p => pending d (key :: rem) p \/ finished big d p) o2).
      { destruct (has (newKey big key) o1) eqn:E.
        - rewrite (assign_present _ _ _ E). eexists; split; [reflexivity|]. split.
          + now rewrite keys_replace.
          + apply Forall_replace; [exact Hall1 | now right].
        - rewrite (assign_fresh _ _ _ E);
            [|apply quiet_not_proto, quiet_newKey, tidy_key_no_dbl, Ht].
          eexists; split; [reflexivity|]. split.
          + now apply NoDup_insert_new.
          + apply Forall_insert_new; [exact Hall1 | now right]. }
      destruct H2 as (o2 & -> & Hnd2 & Hall2). cbn [cbind].
      eexists; split; [reflexivity|]. split; [now apply NoDup_delete|].
      pose proof (Forall_delete _ key o2 Hall2) as Ha.
      pose proof (delete_keys key o2) as Hb.
      rewrite List.Forall_forall in Ha, Hb. apply List.Forall_forall. intros p Hp.
      destruct (Ha p Hp) as [Hpend|Hf]; [left|now right].
      apply (pending_tail d key); [now apply Hb | exact Hpend].
  - exists o. split; [reflexivity|]. split; [exact Hnd|].
    apply get_None_keys in Eg.
    rewrite List.Forall_forall in Hall. apply List.Forall_forall. intros p Hp.
    destruct (Hall p Hp) as [Hpend|Hf]; [left|now right].
    apply (pending_tail d key); [|exact Hpend].
    intros Heq. apply Eg. rewrite <- Heq. now apply in_map.
Qed.

Lemma list_max_depth_Forall2 (l l' : list JsValue) :
  Forall2 (fun x y => settled false y = true /\ depth y <= depth x) l l' ->
  forallb (settled false) l' = true /\ list_max (map depth l') <= list_max (map depth l).
Proof.
  induction 1 as [|x y l l' [Hs Hd] Hr [IH1 IH2]]; [split; [reflexivity | apply Nat.le_refl]|].
  cbn [forallb map]. rewrite Hs, IH1. split; [reflexivity|].
  change (list_max (depth y :: map depth l')) with (Nat.max (depth y) (list_max (map depth l'))).
  change (list_max (depth x :: map depth l)) with (Nat.max (depth x) (list_max (map depth l))).
  lia.
Qed.

(** On a tidy document the call returns a settled one. *)
Lemma helper2_first_pass (n : nat) :
  forall (x : JsValue) (big : bool),
    depth x < n -> tidy x = true ->
    exists y, Helper2.toCamelCase n x big = Normal y
              /\ settled big y = true /\ depth y <= depth x.
Proof.
  induction n as [|n IH]; intros x big Hd Hx; [lia|].
  destruct x as [| | b | z | s | items | props];
    try (eexists; split; [reflexivity | split; [reflexivity | lia]]).
  - cbn [Helper2.toCamelCase].
    destruct (cmap_Forall2 (fun item => Helper2.toCamelCase n item false)
                (fun x y => settled false y = true /\ depth y <= depth x) items)
      as (items' & -> & H2).
    { apply List.Forall_forall. intros v Hv. apply IH.
      - pose proof (depth_item items v Hv). cbn [depth] in Hd. lia.
      - cbn [tidy] in Hx. rewrite forallb_forall in Hx. now apply Hx. }
    cbn [cbind]. eexists; split; [reflexivity|].
    destruct (list_max_depth_Forall2 _ _ H2) as [Hs Hm]. cbn [settled depth]. split; [exact Hs|lia].
  - cbn [Helper2.toCamelCase]. cbn [depth] in Hd.
    set (d := list_max (map (fun p => depth (snd p)) props)) in *.
    cbn [tidy] in Hx. apply andb_true_iff in Hx as [Hx1 Hx2]. rewrite forallb_forall in Hx2.
    destruct (cfold_invariant
                (Helper2.rename_step (fun v => Helper2.toCamelCase n v false) big)
                (renaming big d)) with (l := keys props) (a := props)
      as (props' & -> & Hnd & Hall).
    + apply rename_step_renaming. intros v [Hdv [Hv|Hv]].
      * destruct (IH v false) as (v' & Hv' & Hs & Hd'); [lia | exact Hv|].
        exists v'. repeat split; auto. lia.
      * exists v. repeat split; auto. apply helper2_settled_fixed; [lia | exact Hv].
    + split; [now apply distinct_NoDup|].
      apply List.Forall_forall. intros p Hp. left. specialize (Hx2 p Hp).
      apply andb_true_iff in Hx2 as [Hk Hv]. repeat split.
      * now apply in_map.
      * exact Hk.
      * now apply depth_prop.
      * now left.
    + cbn [cbind]. eexists; split; [reflexivity|].
      assert (Hfin : Forall (fun p => finished big d p) props').
      { eapply List.Forall_impl; [|exact Hall]. cbn.
        intros p [(Hin & _)|Hf]; [destruct Hin | exact Hf]. }
      rewrite List.Forall_forall in Hfin. split.
      * cbn [settled]. apply andb_true_iff. split; [now apply NoDup_distinct|].
        apply forallb_forall. intros p Hp. destruct (Hfin p Hp) as (Hk & Hv & _).
        now rewrite Hk, Hv.
      * cbn [depth]. apply le_n_S. apply list_max_le.
        apply List.Forall_forall. intros m Hm. apply in_map_iff in Hm as (p & <- & Hp).
        now destruct (Hfin p Hp) as (_ & _ & Hdp).
Qed.

(** On a tidy document the call returns, and a second call on what it
    returned gives the same document back. *)
Lemma helper2_toCamelCase_twice (x : JsValue) (big : bool) :
  tidy x = true ->
  exists y, Helper2.run x big = Normal y /\ Helper2.run y big = Normal y.
Proof.
  intros Hx. unfold Helper2.run.
  destruct (helper2_first_pass (S (depth x)) x big) as (y & Hy & Hs & Hd); [lia | exact Hx|].
  exists y. split; [exact Hy|]. apply helper2_settled_fixed; [lia | exact Hs].
Qed.

End Helper2Facts.

(** ** Idempotence of the key-casing normalizer *)

(** C4 (as stated, refuted).  [toCamelCase(toCamelCase(x))] differs from
    [toCamelCase(x)] for [x = {a__b: 1}], in both revisions of the helper:
    the first pass yields [{a_b: 1}], the second [{aB: 1}]. *)
Lemma C4_toCamelCase_not_idempotent :
  let x := JObj [("a__b", JNum 1)] in
  Helper.toCamelCase x false = Normal (JObj [("a_b", JNum 1)])
  /\ (y <- Helper.toCamelCase x false ;; Helper.toCamelCase y false)
     = Normal (JObj [("aB", JNum 1)])
  /\ Helper2.run x false = Normal (JObj [("a_b", JNum 1)])
  /\ (y <- Helper2.run x false ;; Helper2.run y false)
     = Normal (JObj [("aB", JNum 1)])
  /\ (y <- Helper.toCamelCase x false ;; Helper.toCamelCase y false)
     <> Helper.toCamelCase x false
  /\ (y <- Helper2.run x false ;; Helper2.run y false) <> Helper2.run x false.
Proof. vm_compute. repeat split; discriminate. Qed.

(** C4 (amended).  On every document whose mappings have no property name
    with two underscores in a row and none that is rewritten to
    [hasOwnProperty], [toCamelCase] returns, and applying it to its own
    result returns that result unchanged; this holds for src/helper.js and
    for src/unnamed/part_001, with either value of the flag [big]. *)
Theorem C4_toCamelCase_idempotent_on_tidy (x : JsValue) (big : bool) :
  Shape.tidy x = true ->
  (exists y, Helper.toCamelCase x big = Normal y /\ Helper.toCamelCase y big = Normal y)
  /\ (exists y, Helper2.run x big = Normal y /\ Helper2.run y big = Normal y).
Proof.
  intros Hx. split.
  - now apply helper_toCamelCase_twice.
  - now apply helper2_toCamelCase_twice.
Qed.

Lemma C4_toCamelCase_idempotent_on_tidy_witness :
  let x := JObj [("msg_type", JNum 5); ("sub_type", JNum 7);
                 ("from_user", JStr "wxid_001");
                 ("member_list", JArr [JObj [("nick_name", JStr "a")]; JNull])] in
  Shape.tidy x = true
  /\ (exists y, Helper.toCamelCase x false = Normal y /\ Helper.toCamelCase y false = Normal y)
  /\ (exists y, Helper2.run x false = Normal y /\ Helper2.run y false = Normal y).
Proof.
  split; [reflexivity|].
  apply (C4_toCamelCase_idempotent_on_tidy
           (JObj [("msg_type", JNum 5); ("sub_type", JNum 7);
                  ("from_user", JStr "wxid_001");
                  ("member_list", JArr [JObj [("nick_name", JStr "a")]; JNull])]) false).
  reflexivity.
Defined.

(** ** The emitter *)

Section EmitterFacts.

Lemma with_waiters_same (w : World) : with_waiters (waiters w) w = w.
Proof. now destruct w. Qed.

Lemma filter_none {A : Type} (f : A -> bool) (l : list A) :
  (forall x, In x l -> f x = false) -> List.filter f l = [].
Proof.
  induction l as [|a r IH]; cbn; [reflexivity|]. intros H.
  rewrite (H a) by now left. apply IH. intros x Hx. apply H. now right.
Qed.

Lemma filter_all {A : Type} (f : A -> bool) (l : list A) :
  (forall x, In x l -> f x = false) -> List.filter (fun x => negb (f x)) l = l.
Proof.
  induction l as [|a r IH]; cbn; [reflexivity|]. intros H.
  rewrite (H a) by now left. cbn. f_equal. apply IH. intros x Hx. apply H. now right.
Qed.

Lemma existsb_none {A : Type} (f : A -> bool) (l : list A) :
  existsb f l = false -> forall x, In x l -> f x = false.
Proof.
  intros H x Hx. destruct (f x) eqn:E; [|reflexivity].
  assert (existsb f l = true) by (apply existsb_exists; eauto). congruence.
Qed.

(** An event no pending command waits for only reaches the consumer. *)
Lemma emit_unawaited (name : string) (args : list Payload) (w : World) :
  existsb (awaits name) (waiters w) = false ->
  (name =? "error")%string && negb (subscribes name w) = false ->
  emit name args w = (([(name, args)], Normal (subscribes name w)), w).
Proof.
  intros Hw He. unfold emit, listens. rewrite Hw, orb_false_r, He.
  pose proof (existsb_none _ _ Hw) as Hnone.
  rewrite (filter_none _ _ Hnone), (filter_all _ _ Hnone). cbn [fold_left].
  now rewrite with_waiters_same.
Qed.

Lemma plain_unawaited (name : string) (w : World) :
  (forall c, (ret_name c =? name)%string = false) ->
  existsb (awaits name) (waiters w) = false.
Proof.
  intros H. induction (waiters w) as [|x r IH]; [reflexivity|].
  cbn [existsb]. unfold awaits at 1. now rewrite H.
Qed.

Lemma emit_plain (name : string) (args : list Payload) (w : World) :
  (forall c, (ret_name c =? name)%string = false) ->
  (name =? "error")%string = false ->
  emit name args w = (([(name, args)], Normal (subscribes name w)), w).
Proof.
  intros H He. apply emit_unawaited; [now apply plain_unawaited | now rewrite He].
Qed.

Lemma emit_error_heard (args : list Payload) (w : World) :
  subscribes "error" w = true ->
  emit "error" args w = (([("error", args)], Normal true), w).
Proof.
  intros H. rewrite emit_unawaited; [now rewrite H | now apply plain_unawaited | now rewrite H].
Qed.

Lemma emit_error_unheard (e : JsError) (args : list Payload) (w : World) :
  subscribes "error" w = false ->
  emit "error" (PError e :: args) w = (([], Throw e), w).
Proof.
  intros H. unfold emit, listens. rewrite H.
  now rewrite (plain_unawaited "error" w) by (intros; reflexivity).
Qed.

Lemma ret_name_not_error (c : string) : (ret_name c =? "error")%string = false.
Proof. reflexivity. Qed.

End EmitterFacts.

(** ** Frames that cannot be decoded *)

Section DecodeFacts.

Variable js : Platform.

Lemma undecodable_decode (msg : WsData) :
  undecodable js msg -> exists message, decode js msg = inr message.
Proof.
  destruct msg as [s|]; cbn.
  - intros [m ->]. eauto.
  - eauto.
Qed.

End DecodeFacts.

(** C9 (as stated, refuted).  On an instance whose consumer has no
    listener for ['error'], a frame that is not a string makes [onWsMsg]
    throw: [this.emit('error', ...)] throws its argument when nobody
    listens. *)
Lemma C9_decode_error_thrown_when_unattended :
  IndexA.onWsMsg Sample.platform WsBinary Sample.unattended
  = (([], Throw (Error "解析msg数据失败: ws传输的数据不是字符串格式！" None)), Sample.unattended)
  /\ IndexB.onWsMsg Sample.platform (WsText "not json") Sample.unattended
     = (([], Throw (Error "解析msg数据失败: Unexpected token in JSON at position 0" None)),
        Sample.unattended).
Proof. split; reflexivity. Qed.

(** C9 (amended).  When the consumer listens to ['error'], a frame that is
    not a string or not valid JSON makes [onWsMsg] emit one ['error'] event
    and nothing else, return normally and leave the instance as it was, so
    that every later frame is routed as if the bad frame had not come. *)
Theorem C9_decode_error_is_contained (js : Platform) (msg : WsData) (w : World) :
  undecodable js msg ->
  subscribes "error" w = true ->
  exists e,
    IndexA.onWsMsg js msg w = (([("error", [PError e])], Normal tt), w)
    /\ IndexB.onWsMsg js msg w = (([("error", [PError e])], Normal tt), w)
    /\ forall next,
         IndexA.onWsMsg js next (snd (IndexA.onWsMsg js msg w)) = IndexA.onWsMsg js next w
         /\ IndexB.onWsMsg js next (snd (IndexB.onWsMsg js msg w)) = IndexB.onWsMsg js next w.
Proof.
  intros Hmsg Hsub. destruct (undecodable_decode js msg Hmsg) as [m Hm].
  exists (Error (String.append "解析msg数据失败: " m) None).
  assert (HA : IndexA.onWsMsg js msg w
               = (([("error", [PError (Error (String.append "解析msg数据失败: " m) None)])],
                   Normal tt), w)).
  { unfold IndexA.onWsMsg. rewrite Hm. unfold mbind. now rewrite (emit_error_heard _ _ Hsub). }
  assert (HB : IndexB.onWsMsg js msg w
               = (([("error", [PError (Error (String.append "解析msg数据失败: " m) None)])],
                   Normal tt), w)).
  { unfold IndexB.onWsMsg. rewrite Hm. unfold mbind. now rewrite (emit_error_heard _ _ Hsub). }
  split; [exact HA|]. split; [exact HB|].
  intros next. now rewrite HA, HB.
Qed.

Lemma C9_decode_error_is_contained_witness :
  undecodable Sample.platform (WsText "not json")
  /\ subscribes "error" Sample.attended = true
  /\ exists e,
       IndexA.onWsMsg Sample.platform (WsText "not json") Sample.attended
       = (([("error", [PError e])], Normal tt), Sample.attended)
       /\ IndexB.onWsMsg Sample.platform (WsText "not json") Sample.attended
          = (([("error", [PError e])], Normal tt), Sample.attended)
       /\ forall next,
            IndexA.onWsMsg Sample.platform next
              (snd (IndexA.onWsMsg Sample.platform (WsText "not json") Sample.attended))
            = IndexA.onWsMsg Sample.platform next Sample.attended
            /\ IndexB.onWsMsg Sample.platform next
                 (snd (IndexB.onWsMsg Sample.platform (WsText "not json") Sample.attended))
               = IndexB.onWsMsg Sample.platform next Sample.attended.
Proof.
  assert (H : undecodable Sample.platform (WsText "not json")).
  { cbn. eexists. reflexivity. }
  split; [exact H|]. split; [reflexivity|].
  exact (C9_decode_error_is_contained Sample.platform (WsText "not json") Sample.attended
           H eq_refl).
Defined.

(** ** Routing of decoded frames *)

Section RouterFacts.

Import PushItem.

Lemma mbind_run {A B : Type} (m : M A) (f : A -> M B) (w w1 : World) (es : list Event) (x : A) :
  m w = ((es, Normal x), w1) -> mbind m f w = preceded es (f x w1).
Proof.
  intros H. unfold mbind, preceded. rewrite H. now destruct (f x w1) as [[es' r] w2].
Qed.

Lemma mbind_liftC_Normal {A B : Type} (x : A) (f : A -> M B) (w : World) :
  mbind (liftC (Normal x)) f w = f x w.
Proof. unfold mbind, liftC. now destruct (f x w) as [[es' r] w2]. Qed.

Lemma mbind_ret {A B : Type} (x : A) (f : A -> M B) (w : World) :
  mbind (ret x) f w = f x w.
Proof. unfold mbind, ret. now destruct (f x w) as [[es' r] w2]. Qed.

Lemma preceded_nil {A : Type} (r : (list Event * Completion A) * World) : preceded [] r = r.
Proof. now destruct r as [[es c] w]. Qed.

Lemma hget_obj (l : nat) (props : list (string * Val)) (k : string) (w : World) :
  heap w !! l = Some (CObj props) ->
  hget (VRef l) k w
  = (([], Normal (match Obj.get k props with Some x => x | None => VUndefined end)), w).
Proof. intros H. unfold hget. now rewrite H. Qed.

Lemma get_set_ne {V : Type} (k k' : string) (v : V) (o : list (string * V)) :
  k' <> k -> Obj.get k' (Obj.set k v o) = Obj.get k' o.
Proof.
  intros H. unfold Obj.set. destruct (Obj.has k o).
  - now apply get_replace_ne.
  - now apply get_insert_new_ne.
Qed.

Lemma get_set_eq {V : Type} (k : string) (v : V) (o : list (string * V)) :
  Obj.get k (Obj.set k v o) = Some v.
Proof.
  unfold Obj.set. destruct (Obj.has k o) eqn:E.
  - now apply get_replace_eq.
  - now apply get_insert_new_eq.
Qed.

Lemma member_put_ne (v v' x : JsValue) (k k' : string) :
  put v k x = Normal v' -> k' <> k -> member v' k' = member v k'.
Proof.
  destruct v; cbn; try discriminate. intros [= <-] H. cbn. now rewrite get_set_ne.
Qed.

Lemma truthy_member (v d : JsValue) (k : string) :
  member v k = Normal d -> truthy d = true -> exists props, v = JObj props.
Proof.
  destruct v; cbn; try discriminate; try (intros [= <-]; discriminate). eauto.
Qed.

(** Normalizing the payload leaves the other fields of the frame alone. *)
Lemma camel_payload_A_member (data data' : JsValue) (k : string) :
  IndexA.camel_payload data = Normal data' -> k <> "data" -> member data' k = member data k.
Proof.
  unfold IndexA.camel_payload. destruct (member data "data") as [d| | |]; cbn [cbind]; try discriminate.
  destruct (truthy d); [|now intros [= <-]].
  destruct (Helper2.run d false) as [d'| | |]; cbn [cbind]; try discriminate.
  intros H Hk. now apply (member_put_ne _ _ _ _ _ H).
Qed.

Lemma camel_payload_B_member (data data' : JsValue) (k : string) :
  IndexB.camel_payload data = Normal data' -> k <> "data" -> member data' k = member data k.
Proof.
  unfold IndexB.camel_payload. destruct (member data "data") as [d| | |]; cbn [cbind]; try discriminate.
  destruct (truthy d); [|now intros [= <-]].
  destruct (Helper.toCamelCase d false) as [d'| | |]; cbn [cbind]; try discriminate.
  destruct (put data "data" d') as [data1| | |] eqn:E1; cbn [cbind]; try discriminate.
  destruct (member d' "data") as [dd| | |]; cbn [cbind]; try discriminate.
  destruct (truthy dd).
  - destruct (Helper.toCamelCase dd false) as [dd'| | |]; cbn [cbind]; try discriminate.
    destruct (put d' "data" dd') as [d''| | |]; cbn [cbind]; try discriminate.
    intros H Hk. rewrite (member_put_ne _ _ _ _ _ H Hk). now apply (member_put_ne _ _ _ _ _ E1).
  - intros [= <-] Hk. now apply (member_put_ne _ _ _ _ _ E1).
Qed.

(** A reply nobody waits for: the frame is offered under its reply name,
    nobody takes it, and one ['warn'] follows. *)
Lemma on_reply_unmonitored (data : JsValue) (c : string) (w : World) :
  member data "cmdId" = Normal (JStr c) -> c <> "" ->
  listens (ret_name c) w = false ->
  on_reply data w
  = (([(ret_name c, [PValue data]);
       ("warn", [PError (Error "返回执行结果没有被监听！指令ID:" (Some (JStr c)))])],
      Normal tt), w).
Proof.
  intros Hc Hne Hl. unfold on_reply. rewrite Hc, mbind_liftC_Normal.
  cbn [truthy]. apply String.eqb_neq in Hne. rewrite Hne. cbn [negb ret_event].
  rewrite mbind_liftC_Normal.
  unfold listens in Hl. apply orb_false_iff in Hl as [Hs Hw].
  rewrite (mbind_run _ _ w w _ _ (emit_unawaited (ret_name c) _ w Hw
             ltac:(now rewrite ret_name_not_error))).
  rewrite Hs. cbn [negb].
  rewrite (mbind_run _ _ w w _ _ (emit_plain "warn" _ w ltac:(intros; reflexivity) eq_refl)).
  reflexivity.
Qed.

Lemma on_reply_anonymous (data : JsValue) (c : JsValue) (w : World) :
  member data "cmdId" = Normal c -> truthy c = false ->
  on_reply data w = (([], Normal tt), w).
Proof.
  intros Hc Ht. unfold on_reply. now rewrite Hc, mbind_liftC_Normal, Ht.
Qed.

End RouterFacts.

(** C2 (as stated, refuted).  A [cmdRet] frame whose [cmdId] is the empty
    string has no waiter, and the router emits no ['warn'] for it: the
    guard [data.cmdId] skips the whole branch. *)
Lemma C2_reply_without_id_is_silent :
  JSON_parse Sample.platform "anonymous reply" = Parsed_ok Sample.anonymous_reply
  /\ member Sample.anonymous_reply "cmdId" = Normal (JStr "")
  /\ listens (ret_name "") Sample.attended = false
  /\ IndexA.onWsMsg Sample.platform (WsText "anonymous reply") Sample.attended
     = (([("msg", [PValue Sample.anonymous_reply])], Normal tt), Sample.attended)
  /\ IndexB.onWsMsg Sample.platform (WsText "anonymous reply") Sample.attended
     = (([("msg", [PValue Sample.anonymous_reply])], Normal tt), Sample.attended).
Proof. repeat split; reflexivity. Qed.

(** C2 (amended).  For every inbound [cmdRet] frame whose [cmdId] is a
    non-empty string with no listener registered under ['RET#' + cmdId], and
    whose payload the key-casing normalizer accepts, the router emits
    ['msg'], offers the frame under the reply name, emits exactly one
    ['warn'], returns normally, and leaves the instance (its promises, its
    pending table, its timers) as it was. *)
Theorem C2_unmonitored_reply_warns_once
    (js : Platform) (s : string) (data dataA dataB : JsValue) (c : string) (w : World) :
  JSON_parse js s = Parsed_ok data ->
  member data "type" = Normal (JStr "cmdRet") ->
  member data "cmdId" = Normal (JStr c) ->
  c <> "" ->
  listens (ret_name c) w = false ->
  IndexA.camel_payload data = Normal dataA ->
  IndexB.camel_payload data = Normal dataB ->
  let warning := ("warn", [PError (Error "返回执行结果没有被监听！指令ID:" (Some (JStr c)))]) in
  IndexA.onWsMsg js (WsText s) w
  = (([("msg", [PValue dataA]); (ret_name c, [PValue dataA]); warning], Normal tt), w)
  /\ IndexB.onWsMsg js (WsText s) w
     = (([("msg", [PValue dataB]); (ret_name c, [PValue dataB]); warning], Normal tt), w)
  /\ count_occ string_dec
       (PushItem.names (fst (fst (IndexA.onWsMsg js (WsText s) w)))) "warn" = 1
  /\ count_occ string_dec
       (PushItem.names (fst (fst (IndexB.onWsMsg js (WsText s) w)))) "warn" = 1.
Proof.
  intros Hp Hty Hc Hne Hl HA HB warning.
  assert (EA : IndexA.onWsMsg js (WsText s) w
               = (([("msg", [PValue dataA]); (ret_name c, [PValue dataA]); warning],
                   Normal tt), w)).
  { unfold IndexA.onWsMsg, decode. rewrite Hp, HA, mbind_liftC_Normal.
    rewrite (mbind_run _ _ w w _ _ (emit_plain "msg" _ w ltac:(intros; reflexivity) eq_refl)).
    rewrite (camel_payload_A_member _ _ "type" HA) by discriminate.
    rewrite Hty, mbind_liftC_Normal. cbn [is_str String.eqb Ascii.eqb Bool.eqb].
    rewrite (on_reply_unmonitored dataA c w); auto.
    rewrite (camel_payload_A_member _ _ "cmdId" HA) by discriminate. exact Hc. }
  assert (EB : IndexB.onWsMsg js (WsText s) w
               = (([("msg", [PValue dataB]); (ret_name c, [PValue dataB]); warning],
                   Normal tt), w)).
  { unfold IndexB.onWsMsg, decode. rewrite Hp, HB, mbind_liftC_Normal.
    rewrite (mbind_run _ _ w w _ _ (emit_plain "msg" _ w ltac:(intros; reflexivity) eq_refl)).
    rewrite (camel_payload_B_member _ _ "type" HB) by discriminate.
    rewrite Hty, mbind_liftC_Normal. cbn [is_str String.eqb Ascii.eqb Bool.eqb].
    rewrite (on_reply_unmonitored dataB c w); auto.
    rewrite (camel_payload_B_member _ _ "cmdId" HB) by discriminate. exact Hc. }
  split; [exact EA|]. split; [exact EB|]. rewrite EA, EB.
  unfold PushItem.names, warning, ret_name. cbn [fst map String.append].
  split; cbn [count_occ];
    repeat (destruct (string_dec _ _) as [E|E]; try discriminate E; try contradiction);
    try reflexivity.
Qed.

Lemma C2_unmonitored_reply_warns_once_witness :
  let c := "b61eb250" in
  let dataA := JObj [("type", JStr "cmdRet"); ("cmdId", JStr "b61eb250"); ("taskId", JStr "5");
                     ("data", JObj [("success", JBool true);
                                    ("msgId", JStr "1284778244346778513")])] in
  let warning := ("warn", [PError (Error "返回执行结果没有被监听！指令ID:" (Some (JStr c)))]) in
  IndexA.onWsMsg Sample.platform (WsText "late reply") Sample.attended
  = (([("msg", [PValue dataA]); (ret_name c, [PValue dataA]); warning], Normal tt),
     Sample.attended)
  /\ IndexB.onWsMsg Sample.platform (WsText "late reply") Sample.attended
     = (([("msg", [PValue dataA]); (ret_name c, [PValue dataA]); warning], Normal tt),
        Sample.attended)
  /\ count_occ string_dec
       (PushItem.names
          (fst (fst (IndexA.onWsMsg Sample.platform (WsText "late reply") Sample.attended))))
       "warn" = 1
  /\ count_occ string_dec
       (PushItem.names
          (fst (fst (IndexB.onWsMsg Sample.platform (WsText "late reply") Sample.attended))))
       "warn" = 1.
Proof.
  refine (C2_unmonitored_reply_warns_once Sample.platform "late reply" Sample.late_reply
            _ _ "b61eb250" Sample.attended eq_refl eq_refl eq_refl _ eq_refl eq_refl eq_refl).
  discriminate.
Defined.

(** ** Push frames *)

Section PushFacts.

Import PushItem.

Lemma member_mapping (props : Props) (k : string) :
  member (JObj props) k = Normal (field k (JObj props)).
Proof. reflexivity. Qed.

Lemma member_type_mapping (v : JsValue) (t k : string) :
  member v k = Normal (JStr t) -> exists props, v = JObj props.
Proof. destruct v; cbn; try discriminate; eauto. Qed.

Lemma push_anomaly_heard (w : World) :
  subscribes "error" w = true ->
  push_anomaly w = (([("error", [PError (Error "推送数据异常！" None)])], Normal tt), w).
Proof.
  intros H. unfold push_anomaly. now rewrite (mbind_run _ _ w w _ _ (emit_error_heard _ w H)).
Qed.

Lemma on_push_A_anomaly (props : Props) (w : World) :
  batch (JObj props) = None -> IndexA.on_push (JObj props) w = push_anomaly w.
Proof.
  unfold batch, IndexA.on_push. rewrite member_mapping, mbind_liftC_Normal.
  destruct (field "data" (JObj props)) as [| | b | n | t | items | payload]; intros H;
    cbn [truthy member]; try reflexivity.
  - destruct b; cbn [negb]; rewrite ?mbind_liftC_Normal; reflexivity.
  - destruct (negb (n =? 0)%Z); cbn [negb]; rewrite ?mbind_liftC_Normal; reflexivity.
  - destruct (negb (t =? "")%string); cbn [negb]; rewrite ?mbind_liftC_Normal; reflexivity.
  - cbn [negb]. now rewrite mbind_liftC_Normal.
  - cbn [negb]. rewrite mbind_liftC_Normal.
    destruct (Obj.get "list" payload) as [[| | | | | [|item items] |]|];
      try discriminate; reflexivity.
Qed.

Lemma on_push_B_anomaly (props : Props) (w : World) :
  batch (JObj props) = None -> IndexB.on_push (JObj props) w = push_anomaly w.
Proof.
  unfold batch, IndexB.on_push. rewrite member_mapping, mbind_liftC_Normal.
  destruct (field "data" (JObj props)) as [| | b | n | t | items | payload]; intros H;
    cbn [truthy member]; try reflexivity.
  - destruct b; cbn [negb]; rewrite ?mbind_liftC_Normal; reflexivity.
  - destruct (negb (n =? 0)%Z); cbn [negb]; rewrite ?mbind_liftC_Normal; reflexivity.
  - destruct (negb (t =? "")%string); cbn [negb]; rewrite ?mbind_liftC_Normal; reflexivity.
  - cbn [negb]. now rewrite mbind_liftC_Normal.
  - cbn [negb]. rewrite mbind_liftC_Normal.
    destruct (Obj.get "list" payload) as [[| | | | | [|item items] |]|];
      try discriminate; reflexivity.
Qed.

End PushFacts.

(** C8 (as stated, refuted).  A push frame with an empty list is reported
    with [this.emit('error', ...)]: the trace has an ['error'] event and no
    ['warn'] event; on an instance without an ['error'] listener the call
    throws. *)
Lemma C8_push_anomaly_not_on_warn :
  IndexA.onWsMsg Sample.platform (WsText "empty push frame") Sample.attended
  = (([("msg", [PValue Sample.empty_push_frame]);
       ("error", [PError (Error "推送数据异常！" None)])], Normal tt), Sample.attended)
  /\ IndexB.onWsMsg Sample.platform (WsText "empty push frame") Sample.attended
     = (([("msg", [PValue Sample.empty_push_frame]);
          ("error", [PError (Error "推送数据异常！" None)])], Normal tt), Sample.attended)
  /\ ~ In "warn" (PushItem.names (fst (fst
         (IndexA.onWsMsg Sample.platform (WsText "empty push frame") Sample.attended))))
  /\ ~ In "warn" (PushItem.names (fst (fst
         (IndexB.onWsMsg Sample.platform (WsText "empty push frame") Sample.attended))))
  /\ snd (fst (IndexA.onWsMsg Sample.platform (WsText "empty push frame") Sample.unattended))
     = Throw (Error "推送数据异常！" None).
Proof.
  repeat split; try reflexivity; vm_compute; intros [H|[H|[]]]; discriminate.
Qed.

(** C8 (amended).  For every inbound [userEvent] frame on the push channel
    whose normalized payload lacks a list, or whose list is not a non-empty
    sequence, the router emits ['msg'] and then one event on the ['error']
    channel, emits no push event, and, the consumer listening to ['error'],
    returns normally and leaves the instance as it was. *)
Theorem C8_push_anomaly_on_error_channel
    (js : Platform) (s : string) (data dataA dataB : JsValue) (w : World) :
  JSON_parse js s = Parsed_ok data ->
  member data "type" = Normal (JStr "userEvent") ->
  member data "event" = Normal (JStr "push") ->
  subscribes "error" w = true ->
  IndexA.camel_payload data = Normal dataA -> PushItem.batch dataA = None ->
  IndexB.camel_payload data = Normal dataB -> PushItem.batch dataB = None ->
  IndexA.onWsMsg js (WsText s) w
  = (([("msg", [PValue dataA]); ("error", [PError (Error "推送数据异常！" None)])],
      Normal tt), w)
  /\ IndexB.onWsMsg js (WsText s) w
     = (([("msg", [PValue dataB]); ("error", [PError (Error "推送数据异常！" None)])],
         Normal tt), w).
Proof.
  intros Hp Hty Hev Hsub HA HnA HB HnB. split.
  - unfold IndexA.onWsMsg, decode. rewrite Hp, HA, mbind_liftC_Normal.
    rewrite (mbind_run _ _ w w _ _ (emit_plain "msg" _ w ltac:(intros; reflexivity) eq_refl)).
    pose proof (camel_payload_A_member _ _ "type" HA ltac:(discriminate)) as Ety.
    pose proof (camel_payload_A_member _ _ "event" HA ltac:(discriminate)) as Eev.
    rewrite Hty in Ety. rewrite Hev in Eev.
    destruct (member_type_mapping _ _ _ Ety) as [props ->].
    rewrite Ety, mbind_liftC_Normal. cbn [is_str String.eqb Ascii.eqb Bool.eqb].
    rewrite Eev, mbind_liftC_Normal.
    cbn [is_str String.eqb Ascii.eqb Bool.eqb existsb lifecycle_events orb].
    now rewrite on_push_A_anomaly, push_anomaly_heard.
  - unfold IndexB.onWsMsg, decode. rewrite Hp, HB, mbind_liftC_Normal.
    rewrite (mbind_run _ _ w w _ _ (emit_plain "msg" _ w ltac:(intros; reflexivity) eq_refl)).
    pose proof (camel_payload_B_member _ _ "type" HB ltac:(discriminate)) as Ety.
    pose proof (camel_payload_B_member _ _ "event" HB ltac:(discriminate)) as Eev.
    rewrite Hty in Ety. rewrite Hev in Eev.
    destruct (member_type_mapping _ _ _ Ety) as [props ->].
    rewrite Ety, mbind_liftC_Normal. cbn [is_str String.eqb Ascii.eqb Bool.eqb].
    rewrite Eev, mbind_liftC_Normal.
    cbn [is_str String.eqb Ascii.eqb Bool.eqb existsb lifecycle_events orb].
    now rewrite on_push_B_anomaly, push_anomaly_heard.
Qed.

Lemma C8_push_anomaly_on_error_channel_witness :
  IndexA.onWsMsg Sample.platform (WsText "empty push frame") Sample.attended
  = (([("msg", [PValue Sample.empty_push_frame]);
       ("error", [PError (Error "推送数据异常！" None)])], Normal tt), Sample.attended)
  /\ IndexB.onWsMsg Sample.platform (WsText "empty push frame") Sample.attended
     = (([("msg", [PValue Sample.empty_push_frame]);
          ("error", [PError (Error "推送数据异常！" None)])], Normal tt), Sample.attended).
Proof.
  exact (C8_push_anomaly_on_error_channel Sample.platform "empty push frame"
           Sample.empty_push_frame Sample.empty_push_frame Sample.empty_push_frame
           Sample.attended eq_refl eq_refl eq_refl eq_refl eq_refl eq_refl eq_refl eq_refl).
Defined.

(** ** What src/helper.js makes of a mapping *)

Section HelperLookup.

Import Key Shape Obj.
Variable big : bool.

Lemma keys_app {V : Type} (a b : list (string * V)) : keys (a ++ b) = keys a ++ keys b.
Proof. unfold keys. apply map_app. Qed.

Lemma copy_lookup (own : Props) :
  has "hasOwnProperty" own = false ->
  forall (todo done newObj : Props),
    List.NoDup (map (newKey big) (keys (done ++ todo))) ->
    Forall (fun p => tidy_key (fst p) = true) todo ->
    (forall k v, In (k, v) done -> get (newKey big k) newObj = Some v) ->
    (forall k' v', In (k', v') newObj -> exists k, In (k, v') done /\ k' = newKey big k) ->
    exists r,
      cfold (Helper.copy_step big own) todo newObj = Normal r
      /\ (forall k v, In (k, v) (done ++ todo) -> get (newKey big k) r = Some v)
      /\ (forall k' v', In (k', v') r ->
            exists k, In (k, v') (done ++ todo) /\ k' = newKey big k).
Proof.
  intros Hown. induction todo as [|[k v] todo IH]; intros done newObj Hnd Htidy Hget Hin.
  - exists newObj. rewrite app_nil_r. auto.
  - inversion Htidy as [|? ? Hk Htidy']; subst. cbn [fst] in Hk.
    cbn [cfold]. unfold Helper.copy_step at 1. rewrite Hown. cbn [fst snd].
    assert (Hfresh : ~ In (newKey big k) (map (newKey big) (keys done))).
    { rewrite keys_app, map_app in Hnd. cbn in Hnd. apply NoDup_remove_2 in Hnd.
      intros H. apply Hnd. apply in_or_app. now left. }
    assert (Hhas : has (newKey big k) newObj = false).
    { destruct (has (newKey big k) newObj) eqn:E; [|reflexivity].
      apply has_true_get in E as [v0 E]. apply get_In in E.
      destruct (Hin _ _ E) as (k0 & Hk0 & Heq). exfalso. apply Hfresh.
      rewrite Heq. apply in_map. change k0 with (fst (k0, v0)). now apply in_map. }
    rewrite (assign_fresh _ _ _ Hhas)
      by (apply quiet_not_proto, quiet_newKey, tidy_key_no_dbl, Hk).
    cbn [cbind].
    destruct (IH (done ++ [(k, v)]) (insert_new (newKey big k) v newObj)) as (r & Hr & H1 & H2).
    + now rewrite <- app_assoc.
    + exact Htidy'.
    + intros k1 v1 H. apply in_app_or in H as [H|[H|[]]].
      * rewrite get_insert_new_ne; [now apply Hget|].
        intros Heq. apply Hfresh. rewrite <- Heq. apply in_map.
        change k1 with (fst (k1, v1)). now apply in_map.
      * injection H as <- <-. now apply get_insert_new_eq.
    + intros k' v' H.
      apply (Permutation_in _ (insert_new_perm (newKey big k) v newObj)) in H.
      destruct H as [H|H].
      * injection H as <- <-. exists k. split; [|reflexivity]. apply in_or_app. right. now left.
      * destruct (Hin _ _ H) as (k0 & Hk0 & Heq). exists k0. split; [|exact Heq].
        apply in_or_app. now left.
    + exists r. rewrite <- app_assoc in H1, H2. cbn [app] in H1, H2. auto.
Qed.

(** On a mapping whose names are tidy and stay distinct, src/helper.js
    returns a mapping with every top-level name rewritten and every value
    as it was. *)
Lemma helper_rewrites_top_level (props : Props) :
  Forall (fun p => tidy_key (fst p) = true) props ->
  List.NoDup (map (newKey big) (keys props)) ->
  exists r,
    Helper.toCamelCase (JObj props) big = Normal (JObj r)
    /\ (forall k v, In (k, v) props -> get (newKey big k) r = Some v)
    /\ (forall k' v', In (k', v') r -> exists k, In (k, v') props /\ k' = newKey big k).
Proof.
  intros Ht Hnd. unfold Helper.toCamelCase. cbn [instanceof_Object negb Helper.entries].
  destruct (copy_lookup props) with (todo := props) (done := @nil (string * JsValue))
    (newObj := @nil (string * JsValue)) as (r & -> & H1 & H2); auto.
  - apply (no_hasOwnProperty (fun k => tidy_key k = true)); [|exact Ht].
    intros k. apply tidy_key_not_hasOwnProperty.
  - intros k v [].
  - intros k v [].
  - exists r. auto.
Qed.

Lemma index_name_inj (i j : nat) : Helper.index_name i = Helper.index_name j -> i = j.
Proof.
  assert (Hnil : forall n, Nat.to_uint n <> Decimal.Nil).
  { intros n H. pose proof (Unsigned.of_to n) as E. rewrite H in E. cbn in E. subst n.
    discriminate. }
  unfold Helper.index_name. intros H.
  apply (f_equal NilZero.uint_of_string) in H.
  rewrite !NilZero.usu in H by apply Hnil.
  injection H as H. now apply Unsigned.to_uint_inj.
Qed.

Lemma index_name_numeral (i : nat) : numeral (Helper.index_name i) = true.
Proof.
  unfold Helper.index_name, NilZero.string_of_uint.
  destruct (Nat.to_uint i) eqn:E; try reflexivity; rewrite <- E; apply numeral_of_uint.
Qed.

(** The name of an index is rewritten to itself. *)
Lemma newKey_numeral (s : string) : numeral s = true -> newKey big s = s.
Proof.
  intros H. destruct (numeral_quiet s H) as [Hq _]. unfold newKey.
  rewrite (camel_quiet_id s Hq). destruct big; [|reflexivity].
  destruct s as [|c r]; [reflexivity|]. cbn [numeral] in H.
  apply andb_true_iff in H as [Hc _]. cbn [capitalize].
  rewrite (upper_digit c Hc). now destruct (is_word c).
Qed.

Lemma In_indexed (items : list JsValue) (k : string) (v : JsValue) :
  In (k, v) (imap (fun i v => (Helper.index_name i, v)) items)
  <-> exists i, k = Helper.index_name i /\ items !! i = Some v.
Proof.
  rewrite <- list_elem_of_In, elem_of_lookup_imap. split.
  - intros (i & y & [= -> ->] & Hl). eauto.
  - intros (i & -> & Hl). eauto.
Qed.

Lemma NoDup_indexed (items : list JsValue) :
  List.NoDup (map (newKey big) (keys (imap (fun i v => (Helper.index_name i, v)) items))).
Proof.
  apply NoDup_ListNoDup, NoDup_alt. intros i j k Hi Hj.
  unfold keys in Hi, Hj. rewrite !list_lookup_fmap in Hi, Hj.
  rewrite !list_lookup_imap in Hi, Hj.
  destruct (items !! i) as [x|]; [|discriminate].
  destruct (items !! j) as [y|]; [|discriminate].
  cbn in Hi, Hj. injection Hi as <-. injection Hj as Hj.
  rewrite !newKey_numeral in Hj by apply index_name_numeral.
  now apply index_name_inj in Hj.
Qed.

(** src/helper.js returns a sequence as a mapping indexed by position. *)
Lemma helper_indexes_sequence (items : list JsValue) :
  exists r,
    Helper.toCamelCase (JArr items) big = Normal (JObj r)
    /\ (forall i v, items !! i = Some v -> get (Helper.index_name i) r = Some v)
    /\ (forall k v, In (k, v) r -> exists i, k = Helper.index_name i /\ items !! i = Some v).
Proof.
  unfold Helper.toCamelCase. cbn [instanceof_Object negb Helper.entries].
  set (ents := imap (fun i v => (Helper.index_name i, v)) items).
  assert (Ht : Forall (fun p => tidy_key (fst p) = true) ents).
  { apply Forall_imap. intros i v. apply index_name_tidy. }
  destruct (copy_lookup ents) with (todo := ents) (done := @nil (string * JsValue))
    (newObj := @nil (string * JsValue)) as (r & -> & H1 & H2); auto.
  - apply (no_hasOwnProperty (fun k => tidy_key k = true)); [|exact Ht].
    intros k. apply tidy_key_not_hasOwnProperty.
  - apply NoDup_indexed.
  - intros k v [].
  - intros k v [].
  - exists r. split; [reflexivity|]. cbn [app] in H1, H2. split.
    + intros i v Hl.
      rewrite <- (newKey_numeral (Helper.index_name i)) by apply index_name_numeral.
      apply H1. apply In_indexed. eauto.
    + intros k v Hin. destruct (H2 _ _ Hin) as (k0 & Hk0 & ->).
      apply In_indexed in Hk0 as (i & -> & Hl). exists i.
      rewrite newKey_numeral by apply index_name_numeral. auto.
Qed.



End HelperLookup.

Section PushBatchFacts.

Import PushItem.


















End PushBatchFacts.




(** The two events of the sample batch, lines 1730-1740: primary type 5
    with sub-type 7 yields effective type 7. *)
Example push_frame_trace_A :
  fst (fst (IndexA.onWsMsg Sample.platform (WsText "push frame") Sample.attended))
  = [("msg", [PValue Sample.push_frame_camel]);
     ("push", [PValue (JObj [("msgType", JNum 5); ("subType", JNum 7);
                             ("fromUser", JStr "wxid_001"); ("mType", JNum 7)])]);
     ("push", [PValue (JObj [("content", JStr "hi"); ("msgType", JNum 1);
                             ("mType", JNum 1)])])].
Proof. reflexivity. Qed.

Example push_frame_trace_B :
  fst (fst (IndexB.onWsMsg Sample.platform (WsText "push frame") Sample.attended))
  = [("msg", [PValue Sample.push_frame]);
     ("push", [PValue (JObj [("msgType", JNum 5); ("subType", JNum 7);
                             ("fromUser", JStr "wxid_001"); ("mType", JNum 7)])]);
     ("push", [PValue (JObj [("msgType", JNum 1); ("content", JStr "hi");
                             ("mType", JNum 1)])])].
Proof. reflexivity. Qed.

(** ** Commands whose reply never comes *)

(** Whatever the timeout and however long one waits, the promise
    [asyncSend] handed to the caller stays pending. *)
Lemma asyncSend_unanswered_stays_pending (timeout now : Z) :
  snd (fst (Sample.echo_unanswered timeout now Sample.ready)) = Normal 0
  /\ promises (snd (Sample.echo_unanswered timeout now Sample.ready)) !! 0 = Some Pending.
Proof.
  unfold Sample.echo_unanswered.
  cbv -[Z.leb Z.mul Z.max Z.add Z.ltb timer_delay].
  destruct (0 + timer_delay (timeout * 1000) <=? now)%Z eqn:E;
    cbv -[Z.leb Z.mul Z.max Z.add Z.ltb timer_delay];
    rewrite ?E; cbv -[Z.leb Z.mul Z.max Z.add Z.ltb timer_delay]; split; reflexivity.
Qed.

(** C1 (the code at the failing input).  [asyncSend] of
    [{type: 'user', cmd: 'echo', data: {a_b: 1}}] with timeout 1000 and no
    reply: the timer is set for 1000 * 1000 ms, so at 1050 ms nothing has
    happened and the waiter is still registered; at 1000000 ms the timer
    removes the waiter and rejects the promise of [getCmdRecv] (promise 1)
    and the promise its [then] returned (promise 2), while the promise
    handed to the caller (promise 0) is pending then and ever after.  With
    [sendCmd] the timer is set for 30000 * 1000 ms and the promise handed to
    the caller (promise 6) stays pending as well. *)
Lemma C1_timeout_is_not_delivered :
  let at_1050 := snd (Sample.echo_unanswered 1000 1050 Sample.ready) in
  let at_1000000 := snd (Sample.echo_unanswered 1000 1000000 Sample.ready) in
  let much_later := snd (Sample.echo_unanswered 1000 (10 ^ 12) Sample.ready) in
  map t_due (timers at_1050) = [1000000%Z]
  /\ listens (ret_name "uuid-0") at_1050 = true
  /\ promises at_1050 !! 0 = Some Pending
  /\ promises at_1050 !! 1 = Some Pending
  /\ listens (ret_name "uuid-0") at_1000000 = false
  /\ promises at_1000000 !! 1 = Some (Rejected (timed_out 1000))
  /\ promises at_1000000 !! 2 = Some (Rejected (timed_out 1000))
  /\ promises at_1000000 !! 0 = Some Pending
  /\ promises much_later !! 0 = Some Pending
  /\ (let w := snd (Sample.sendCmd_unanswered IndexA.sendCmd 30000 Sample.ready) in
      snd (fst (Sample.sendCmd_unanswered IndexA.sendCmd 30000 Sample.ready)) = Normal 6
      /\ map t_due (timers w) = [30000000%Z]
      /\ promises w !! 6 = Some Pending)
  /\ (let w := snd (Sample.sendCmd_unanswered IndexB.sendCmd (10 ^ 12) Sample.ready) in
      snd (fst (Sample.sendCmd_unanswered IndexB.sendCmd (10 ^ 12) Sample.ready)) = Normal 6
      /\ promises w !! 1 = Some (Rejected (timed_out 30000))
      /\ promises w !! 6 = Some Pending).
Proof. vm_compute. repeat split; reflexivity. Qed.

(** C3 (the code at the failing input).  On a socket whose [send] reports
    a failure, [_send] rejects its own promise (promise 3) and the promise
    its [then] returned (promise 4); nothing is sent, and the promise handed
    to the caller (promise 0 for [asyncSend], promise 6 for [sendCmd]) is
    not rejected: it is pending, and still pending after the timeout has
    passed. *)
Lemma C3_send_failure_is_not_delivered :
  let failure :=
    Error "ws发送数据失败! err: WebSocket is not open: readyState 3 (CLOSED)" None in
  let soon := snd (Sample.echo_unanswered 1000 1050 Sample.broken) in
  let late := snd (Sample.echo_unanswered 1000 (10 ^ 12) Sample.broken) in
  outbox soon = []
  /\ promises soon !! 3 = Some (Rejected failure)
  /\ promises soon !! 4 = Some (Rejected failure)
  /\ promises soon !! 0 = Some Pending
  /\ promises late !! 0 = Some Pending
  /\ (let w := snd (Sample.sendCmd_unanswered IndexA.sendCmd (10 ^ 12) Sample.broken) in
      snd (fst (Sample.sendCmd_unanswered IndexA.sendCmd (10 ^ 12) Sample.broken)) = Normal 6
      /\ outbox w = []
      /\ promises w !! 3 = Some (Rejected failure)
      /\ promises w !! 6 = Some Pending)
  /\ (let w := snd (Sample.sendCmd_unanswered IndexB.sendCmd (10 ^ 12) Sample.broken) in
      outbox w = []
      /\ promises w !! 3 = Some (Rejected failure)
      /\ promises w !! 6 = Some Pending).
Proof. vm_compute. repeat split; reflexivity. Qed.

(** ** What a method does to the objects of its caller *)

Section FrameFacts.

Import Frame.
Variable lr : nat.
Variable K : Cell -> Prop.

Local Abbreviation keeps := (Frame.keeps lr K).
Local Abbreviation stable := (Frame.stable lr K).

Lemma stable_same_heap {A : Type} (m : M A) :
  (forall w, heap (snd (m w)) = heap w) -> stable m.
Proof. intros H w Hw. now rewrite H. Qed.

Lemma stable_ret {A : Type} (x : A) : stable (ret x).
Proof. now apply stable_same_heap. Qed.

Lemma stable_liftC {A : Type} (c : Completion A) : stable (liftC c).
Proof. now apply stable_same_heap. Qed.

Lemma stable_gets {A : Type} (f : World -> A) : stable (gets f).
Proof. now apply stable_same_heap. Qed.

Lemma stable_modify (f : World -> World) :
  (forall w, heap (f w) = heap w) -> stable (modify f).
Proof. intros H. now apply stable_same_heap. Qed.

Lemma keeps_mbind {A B : Type} (m : M A) (f : A -> M B) (w : World) :
  keeps (heap (snd (m w))) -> (forall x, stable (f x)) ->
  keeps (heap (snd (mbind m f w))).
Proof.
  intros Hm Hf. unfold mbind. destruct (m w) as [[es [x|e| |]] w1]; cbn [snd] in *; auto.
  specialize (Hf x w1 Hm). now destruct (f x w1) as [[es' r] w2].
Qed.

Lemma stable_bind {A B : Type} (m : M A) (f : A -> M B) :
  stable m -> (forall x, stable (f x)) -> stable (mbind m f).
Proof. intros Hm Hf w Hw. apply keeps_mbind; auto. Qed.

Lemma keeps_try_catch {A : Type} (body : M A) (handler : JsError -> M A) (w : World) :
  keeps (heap (snd (body w))) -> (forall e, stable (handler e)) ->
  keeps (heap (snd (try_catch body handler w))).
Proof.
  intros Hb Hh. unfold try_catch. destruct (body w) as [[es [x|e| |]] w1]; cbn [snd] in *; auto.
  specialize (Hh e w1 Hb). now destruct (handler e w1) as [[es' r] w2].
Qed.

Lemma stable_try_catch {A : Type} (body : M A) (handler : JsError -> M A) :
  stable body -> (forall e, stable (handler e)) -> stable (try_catch body handler).
Proof. intros Hb Hh w Hw. apply keeps_try_catch; auto. Qed.

Lemma stable_forEach {A : Type} (f : A -> M unit) (l : list A) :
  (forall x, stable (f x)) -> stable (forEach f l).
Proof.
  intros Hf. induction l as [|x r IH]; cbn [forEach]; [apply stable_ret|].
  apply stable_bind; auto.
Qed.

Lemma keeps_alloc (c : Cell) (w : World) :
  keeps (heap w) -> keeps (heap w ++ [c]) /\ lr <> length (heap w).
Proof.
  intros (c0 & Hc0 & Hk). split.
  - exists c0. split; [|exact Hk]. rewrite lookup_app_l; [exact Hc0|].
    now apply lookup_lt_Some in Hc0.
  - apply lookup_lt_Some in Hc0. lia.
Qed.

(** A new object is never the one at [lr]. *)
Lemma stable_alloc_then {B : Type} (c : Cell) (f : nat -> M B) :
  (forall l, l <> lr -> stable (f l)) -> stable (mbind (alloc c) f).
Proof.
  intros Hf w Hw. destruct (keeps_alloc c w Hw) as [Hk Hne].
  unfold mbind, alloc.
  assert (H := Hf (length (heap w)) ltac:(auto) (with_heap (heap w ++ [c]) w) Hk).
  now destruct (f (length (heap w)) (with_heap (heap w ++ [c]) w)) as [[es' r] w2].
Qed.

Lemma stable_read (l : nat) : stable (read l).
Proof. now apply stable_same_heap. Qed.

Lemma stable_write (l : nat) (c : Cell) : l <> lr \/ K c -> stable (write l c).
Proof.
  intros H w (c0 & Hc0 & Hk). unfold write, modify. cbn [snd heap with_heap].
  destruct (Nat.eq_dec l lr) as [->|Hne].
  - destruct H as [H|H]; [contradiction|]. exists c. split; [|exact H].
    apply list_lookup_insert_eq. now apply lookup_lt_Some in Hc0.
  - exists c0. split; [|exact Hk]. now rewrite list_lookup_insert_ne.
Qed.

Lemma stable_hget (v : Val) (k : string) : stable (hget v k).
Proof.
  apply stable_same_heap. intros w. unfold hget.
  destruct v; try reflexivity. destruct (heap w !! l) as [[|]|]; reflexivity.
Qed.

Lemma stable_hset (v : Val) (k : string) (x : Val) :
  v <> VRef lr \/ closed_under_set K k -> stable (hset v k x).
Proof.
  intros H w (c0 & Hc0 & Hk). unfold hset. destruct v; try (exists c0; now split).
  destruct (heap w !! l) as [[props|items]|] eqn:El; try (exists c0; now split).
  cbn [snd heap with_heap]. destruct (Nat.eq_dec l lr) as [->|Hne].
  - destruct H as [H|H]; [congruence|].
    rewrite El in Hc0. injection Hc0 as <-.
    exists (CObj (Obj.set k x props)). split; [|now apply H].
    apply list_lookup_insert_eq. now apply lookup_lt_Some in El.
  - exists c0. split; [|exact Hk]. now rewrite list_lookup_insert_ne.
Qed.

Lemma heap_settle (p : nat) (st : PState) (w : World) : heap (settle p st w) = heap w.
Proof. unfold settle. now destruct (promises w !! p) as [[| |]|]. Qed.

Lemma heap_clearTimeout (n : nat) (w : World) : heap (clearTimeout n w) = heap w.
Proof. reflexivity. Qed.

Lemma heap_wake_all (data : JsValue) (fired : list Waiter) (w : World) :
  heap (fold_left (wake data) fired w) = heap w.
Proof.
  revert w. induction fired as [|x r IH]; intros w; cbn [fold_left]; [reflexivity|].
  rewrite IH. unfold wake. now rewrite heap_settle.
Qed.

Lemma stable_emit (name : string) (args : list Payload) : stable (emit name args).
Proof.
  apply stable_same_heap. intros w. unfold emit.
  destruct (_ && _); [reflexivity|]. cbn [snd]. now rewrite heap_wake_all.
Qed.

Lemma stable_new_promise (st : PState) : stable (new_promise st).
Proof. now apply stable_same_heap. Qed.

Lemma stable_then (source : nat) (h : option Handler) (r : bool) : stable (then_ source h r).
Proof.
  apply stable_same_heap. intros w. unfold then_. cbn [snd].
  now destruct (promises w !! source) as [[| |]|].
Qed.

Lemma stable_getCmdRecv (cmdId : Val) (timeout : Z) : stable (getCmdRecv cmdId timeout).
Proof.
  unfold getCmdRecv. destruct (negb (vtruthy cmdId)); [apply stable_new_promise|].
  destruct cmdId; try apply stable_liftC.
  apply stable_bind; [apply stable_new_promise|]. intros p.
  apply stable_bind; [now apply stable_same_heap|]. intros h.
  apply stable_bind; [now apply stable_modify | intros; apply stable_ret].
Qed.

Lemma stable_send (data : Val) : stable (_send data).
Proof.
  unfold _send. apply stable_bind; [apply stable_new_promise|]. intros p.
  apply stable_same_heap. intros w.
  destruct (stringify (heap w) data); try reflexivity.
  - destruct (ws_fault w); cbn [snd]; now rewrite heap_settle.
  - cbn [snd]. now rewrite heap_settle.
Qed.

Lemma stable_asyncSend (js : Platform) (data : Val) (timeout : Z) :
  data <> VRef lr \/ closed_under_set K "cmdId" -> stable (asyncSend js data timeout).
Proof.
  intros H. unfold asyncSend, async.
  apply stable_try_catch; [|intros; apply stable_new_promise].
  apply stable_bind; [apply stable_hget|]. intros cmdId.
  apply stable_bind.
  { destruct (negb (vtruthy cmdId)); [|apply stable_ret].
    apply stable_bind; [apply stable_gets|]. intros n.
    apply stable_bind; [now apply stable_modify|]. intros _. now apply stable_hset. }
  intros _. apply stable_bind; [apply stable_new_promise|]. intros outer.
  apply stable_bind; [|intros; apply stable_ret].
  apply stable_try_catch.
  - apply stable_bind; [apply stable_hget|]. intros c.
    apply stable_bind; [apply stable_getCmdRecv|]. intros g.
    apply stable_bind; [apply stable_then|]. intros _.
    apply stable_bind; [apply stable_send|]. intros s.
    apply stable_bind; [apply stable_then | intros; apply stable_ret].
  - intros e. apply stable_modify. intros w. apply heap_settle.
Qed.

Lemma stable_dispatch_A (js : Platform) (cmd : string) (data : Val) :
  stable (IndexA.dispatch js cmd data).
Proof.
  unfold IndexA.dispatch. apply stable_alloc_then. intros l Hl.
  apply stable_bind; [apply stable_asyncSend; left; congruence|]. intros p.
  apply stable_bind; [apply stable_then | intros; apply stable_then].
Qed.

Lemma stable_dispatch_B (js : Platform) (cmd : string) (data : Val) :
  stable (IndexB.dispatch js cmd data).
Proof.
  unfold IndexB.dispatch. apply stable_alloc_then. intros l Hl.
  apply stable_bind; [apply stable_asyncSend; left; congruence|]. intros p.
  apply stable_bind; [apply stable_then | intros; apply stable_then].
Qed.

(** [toUnderLine] writes to the object it creates and to no other. *)
Lemma stable_toUnderLine (js : Platform) (obj : Val) : stable (toUnderLine js obj).
Proof.
  unfold toUnderLine. apply stable_alloc_then. intros l Hl.
  destruct obj; try apply stable_ret.
  apply stable_bind; [apply stable_read|]. intros c.
  apply stable_bind; [apply stable_liftC|]. intros props.
  apply stable_bind; [apply stable_write; now left | intros; apply stable_ret].
Qed.

End FrameFacts.

(** ** [sendCmd] and the [rawMsgData] of its caller *)

Section SanitizeFacts.

Import Frame.
Variable js : Platform.
Variables ld lr : nat.
Variables dprops rprops : list (string * Val).
Variable K : Cell -> Prop.
Variable w : World.
Hypothesis Hdata : heap w !! ld = Some (CObj dprops).
Hypothesis Hraw : Obj.get "rawMsgData" dprops = Some (VRef lr).
Hypothesis Hitem : heap w !! lr = Some (CObj rprops).
Hypothesis Hcleared : K (CObj (Obj.delete "data" rprops)).
Hypothesis Hrelink : ld <> lr \/ closed_under_set K "rawMsgData".

Lemma hget_rawMsgData : hget (VRef ld) "rawMsgData" w = (([], Normal (VRef lr)), w).
Proof. unfold hget. now rewrite Hdata, Hraw. Qed.

Lemma clearRawMsg_item :
  clearRawMsg (VRef lr) w
  = (([], Normal (VRef lr)),
     with_heap (<[lr := CObj (Obj.delete "data" rprops)]> (heap w)) w).
Proof. unfold clearRawMsg, mbind, hdelete, ret. cbn [typeof_object]. now rewrite Hitem. Qed.

Lemma keeps_cleared :
  keeps lr K (heap (with_heap (<[lr := CObj (Obj.delete "data" rprops)]> (heap w)) w)).
Proof.
  exists (CObj (Obj.delete "data" rprops)). split; [|exact Hcleared].
  cbn [heap with_heap]. apply list_lookup_insert_eq. now apply lookup_lt_Some in Hitem.
Qed.

Lemma relink_target : VRef ld <> VRef lr \/ closed_under_set K "rawMsgData".
Proof. destruct Hrelink as [H|H]; [left; congruence | now right]. Qed.

Lemma sanitize_A_keeps : keeps lr K (heap (snd (IndexA.sanitize js (VRef ld) w))).
Proof.
  unfold IndexA.sanitize. rewrite (mbind_run _ _ _ _ _ _ hget_rawMsgData).
  cbn [vtruthy]. rewrite (mbind_run _ _ _ _ _ _ clearRawMsg_item).
  unfold preceded. cbn [snd].
  apply stable_bind; [apply stable_hset, relink_target | | apply keeps_cleared]. intros _.
  apply stable_bind; [apply stable_hget|]. intros raw.
  apply stable_bind; [apply stable_toUnderLine|]. intros under.
  apply stable_hset, relink_target.
Qed.

Lemma sanitize_B_keeps : keeps lr K (heap (snd (IndexB.sanitize js (VRef ld) w))).
Proof.
  unfold IndexB.sanitize. rewrite (mbind_run _ _ _ _ _ _ hget_rawMsgData).
  cbn [vtruthy]. rewrite (mbind_run _ _ _ _ _ _ clearRawMsg_item).
  unfold preceded. cbn [snd].
  apply stable_bind; [apply stable_hset, relink_target | | apply keeps_cleared]. intros _.
  apply stable_bind; [apply stable_hget|]. intros raw.
  apply stable_bind; [apply stable_toUnderLine | intros; apply stable_ret].
Qed.

Lemma sendCmd_A_keeps (cmd : string) :
  keeps lr K (heap (snd (IndexA.sendCmd js cmd (VRef ld) w))).
Proof.
  unfold IndexA.sendCmd, async. apply keeps_try_catch; [|intros; apply stable_new_promise].
  rewrite mbind_ret. apply keeps_mbind; [apply sanitize_A_keeps|].
  intros _. apply stable_dispatch_A.
Qed.

Lemma sendCmd_B_keeps (cmd : string) :
  keeps lr K (heap (snd (IndexB.sendCmd js cmd (VRef ld) w))).
Proof.
  unfold IndexB.sendCmd, async. apply keeps_try_catch; [|intros; apply stable_new_promise].
  rewrite mbind_ret. apply keeps_mbind; [apply sanitize_B_keeps|].
  intros _. apply stable_dispatch_B.
Qed.

End SanitizeFacts.

Lemma data_free_cleared (rprops : list (string * Val)) :
  Frame.data_free (CObj (Obj.delete "data" rprops)).
Proof. exists (Obj.delete "data" rprops). split; [reflexivity | apply get_delete_eq]. Qed.

Lemma data_free_closed (k : string) :
  k <> "data" -> Frame.closed_under_set Frame.data_free k.
Proof.
  intros Hk props x (p & [= <-] & Hp). exists (Obj.set k x props). split; [reflexivity|].
  rewrite get_set_ne; auto.
Qed.

(** C10.  When [data.rawMsgData] is an object, [sendCmd(cmd, data)] deletes
    the property [data] of that very object: the deletion is done by the
    cleaning step, before the envelope is built and sent, and after the
    call the caller's object has no [data] property; when it is not [data]
    itself, its other properties are as they were.  Both revisions. *)
Theorem C10_sendCmd_strips_caller_rawMsgData
    (js : Platform) (cmd : string) (ld lr : nat)
    (dprops rprops : list (string * Val)) (w : World) :
  heap w !! ld = Some (CObj dprops) ->
  Obj.get "rawMsgData" dprops = Some (VRef lr) ->
  heap w !! lr = Some (CObj rprops) ->
  (Frame.keeps lr Frame.data_free (heap (snd (IndexA.sanitize js (VRef ld) w)))
   /\ Frame.keeps lr Frame.data_free (heap (snd (IndexA.sendCmd js cmd (VRef ld) w)))
   /\ (ld <> lr ->
       heap (snd (IndexA.sendCmd js cmd (VRef ld) w)) !! lr
       = Some (CObj (Obj.delete "data" rprops))))
  /\ (Frame.keeps lr Frame.data_free (heap (snd (IndexB.sanitize js (VRef ld) w)))
      /\ Frame.keeps lr Frame.data_free (heap (snd (IndexB.sendCmd js cmd (VRef ld) w)))
      /\ (ld <> lr ->
          heap (snd (IndexB.sendCmd js cmd (VRef ld) w)) !! lr
          = Some (CObj (Obj.delete "data" rprops)))).
Proof.
  intros Hd Hr Hi.
  assert (Hweak : ld <> lr \/ Frame.closed_under_set Frame.data_free "rawMsgData").
  { right. apply data_free_closed. discriminate. }
  split; (split; [|split]).
  - apply (sanitize_A_keeps js ld lr dprops rprops _ w Hd Hr Hi (data_free_cleared _) Hweak).
  - apply (sendCmd_A_keeps js ld lr dprops rprops _ w Hd Hr Hi (data_free_cleared _) Hweak).
  - intros Hne.
    destruct (sendCmd_A_keeps js ld lr dprops rprops
                (fun c => c = CObj (Obj.delete "data" rprops)) w Hd Hr Hi eq_refl
                (or_introl Hne) cmd) as (c & Hc & ->).
    exact Hc.
  - apply (sanitize_B_keeps js ld lr dprops rprops _ w Hd Hr Hi (data_free_cleared _) Hweak).
  - apply (sendCmd_B_keeps js ld lr dprops rprops _ w Hd Hr Hi (data_free_cleared _) Hweak).
  - intros Hne.
    destruct (sendCmd_B_keeps js ld lr dprops rprops
                (fun c => c = CObj (Obj.delete "data" rprops)) w Hd Hr Hi eq_refl
                (or_introl Hne) cmd) as (c & Hc & ->).
    exact Hc.
Qed.

Lemma C10_sendCmd_strips_caller_rawMsgData_witness :
  let item := [("msgId", VStr "4032724472820776289"); ("data", VStr "base64 of the thumbnail");
               ("mType", VNum 3)] in
  let w := Sample.holding_push in
  (Frame.keeps 0 Frame.data_free (heap (snd (IndexA.sanitize Sample.platform (VRef 1) w)))
   /\ Frame.keeps 0 Frame.data_free
        (heap (snd (IndexA.sendCmd Sample.platform "getMsgImage" (VRef 1) w)))
   /\ (1 <> 0 ->
       heap (snd (IndexA.sendCmd Sample.platform "getMsgImage" (VRef 1) w)) !! 0
       = Some (CObj (Obj.delete "data" item))))
  /\ (Frame.keeps 0 Frame.data_free (heap (snd (IndexB.sanitize Sample.platform (VRef 1) w)))
      /\ Frame.keeps 0 Frame.data_free
           (heap (snd (IndexB.sendCmd Sample.platform "getMsgImage" (VRef 1) w)))
      /\ (1 <> 0 ->
          heap (snd (IndexB.sendCmd Sample.platform "getMsgImage" (VRef 1) w)) !! 0
          = Some (CObj (Obj.delete "data" item)))).
Proof.
  exact (C10_sendCmd_strips_caller_rawMsgData Sample.platform "getMsgImage" 1 0
           [("rawMsgData", VRef 0)]
           [("msgId", VStr "4032724472820776289"); ("data", VStr "base64 of the thumbnail");
            ("mType", VNum 3)]
           Sample.holding_push eq_refl eq_refl eq_refl).
Defined.

(** The frame [sendCmd] hands to the socket for the sample item, and the
    item the caller is left with (lines 126-146). *)
Example sendCmd_getMsgImage_A :
  let w := snd (IndexA.sendCmd Sample.platform "getMsgImage" (VRef 1) Sample.holding_push) in
  heap w !! 0 = Some (CObj [("msgId", VStr "4032724472820776289"); ("mType", VNum 3)])
  /\ outbox w
     = [JObj [("type", JStr "user"); ("cmd", JStr "getMsgImage");
              ("data", JObj [("rawMsgData",
                             JObj [("msg_id", JStr "4032724472820776289");
                                   ("m_type", JNum 3)])]);
              ("cmdId", JStr "uuid-0")]].
Proof. split; reflexivity. Qed.

(** ** What src/unnamed/part_001 makes of a document *)

Section NormalizeFacts.

Import Key Shape Obj Loop Spec.

Lemma In_replace_new {V : Type} (k : string) (x : V) (o : list (string * V)) :
  has k o = true -> In (k, x) (replace k x o).
Proof. intros H. apply get_In. now apply get_replace_eq. Qed.

Lemma In_replace_other {V : Type} (k k' : string) (x v : V) (o : list (string * V)) :
  k' <> k -> In (k', v) o -> In (k', v) (replace k x o).
Proof.
  intros Hne. induction o as [|[k0 v0] r IH]; cbn; [tauto|].
  destruct (k0 =? k)%string eqn:E.
  - apply String.eqb_eq in E. subst k0. intros [H|H]; [congruence | now right].
  - intros [H|H]; [now left | right; now apply IH].
Qed.

Lemma In_replace_inv {V : Type} (k k' : string) (x v : V) (o : list (string * V)) :
  List.NoDup (keys o) -> In (k', v) (replace k x o) ->
  (k' = k /\ v = x) \/ (k' <> k /\ In (k', v) o).
Proof.
  induction o as [|[k0 v0] r IH]; cbn; [tauto|].
  intros Hnd. inversion Hnd as [|? ? Hk0 Hnd']; subst.
  destruct (k0 =? k)%string eqn:E.
  - apply String.eqb_eq in E. subst k0. intros [H|H].
    + injection H as <- <-. now left.
    + right. split; [|now right]. intros ->. apply Hk0.
      change k with (fst (k, v)). now apply in_map.
  - apply String.eqb_neq in E. intros [H|H].
    + injection H as <- <-. right. split; [exact E | now left].
    + destruct (IH Hnd' H) as [H'|[H1 H2]]; [now left | right; split; [exact H1 | now right]].
Qed.

Lemma In_delete {V : Type} (k k' : string) (v : V) (o : list (string * V)) :
  In (k', v) (delete k o) <-> k' <> k /\ In (k', v) o.
Proof.
  unfold delete. rewrite filter_In. cbn [fst]. rewrite negb_true_iff, String.eqb_neq. tauto.
Qed.

Lemma In_insert_new {V : Type} (k : string) (x : V) (p : string * V) (o : list (string * V)) :
  In p (insert_new k x o) <-> p = (k, x) \/ In p o.
Proof.
  split; intros H.
  - apply (Permutation_in _ (insert_new_perm k x o)) in H. destruct H; auto.
  - apply (Permutation_in _ (Permutation_sym (insert_new_perm k x o))).
    destruct H; [left; auto | now right].
Qed.

Lemma NoDup_map_injective {A B : Type} (f : A -> B) (l : list A) (a b : A) :
  List.NoDup (map f l) -> In a l -> In b l -> f a = f b -> a = b.
Proof.
  induction l as [|x r IH]; cbn; [tauto|].
  intros Hnd Ha Hb Hf. inversion Hnd as [|? ? Hx Hnd']; subst.
  destruct Ha as [->|Ha], Hb as [->|Hb]; auto.
  - exfalso. apply Hx. rewrite Hf. now apply in_map.
  - exfalso. apply Hx. rewrite <- Hf. now apply in_map.
Qed.

Lemma In_keys {V : Type} (k : string) (v : V) (o : list (string * V)) :
  In (k, v) o -> In k (keys o).
Proof. intros H. change k with (fst (k, v)). now apply in_map. Qed.

Section Step.

Variable big : bool.
Variable ps : Props.
Variable rec : JsValue -> Completion JsValue.
Hypothesis Htidy : forall k v, In (k, v) ps -> tidy_key k = true.
Hypothesis Hdistinct : List.NoDup (map (newKey big) (keys ps)).
Hypothesis Hrec :
  forall k v, In (k, v) ps -> instanceof_Object v = true ->
              exists v', rec v = Normal v' /\ Normalized false v v'.

Lemma same_rewriting (k1 k2 : string) (v1 v2 : JsValue) :
  In (k1, v1) ps -> In (k2, v2) ps -> newKey big k1 = newKey big k2 -> k1 = k2.
Proof.
  intros H1 H2. apply (NoDup_map_injective (newKey big) (keys ps)); eauto using In_keys.
Qed.

Lemma keys_distinct : List.NoDup (keys ps).
Proof. exact (NoDup_map_inv _ _ Hdistinct). Qed.

Lemma rename_step_normalizing (key : string) (rem : list string) (o : Props) :
  normalizing big ps (key :: rem) o ->
  exists o', Helper2.rename_step rec big o key = Normal o' /\ normalizing big ps rem o'.
Proof.
  intros (done & todo & Hps & Hrem & Hnd & Htodo & Hdone & Hmem).
  destruct todo as [|[key' v0] todo']; [discriminate|].
  cbn in Hrem. injection Hrem as <- ->.
  assert (Hin_ps : forall k v, In (k, v) done \/ In (k, v) ((key, v0) :: todo') -> In (k, v) ps).
  { intros k v H. rewrite Hps. apply in_or_app. tauto. }
  assert (Hkey_ps : In (key, v0) ps) by (apply Hin_ps; right; now left).
  assert (Hkey_o : In (key, v0) o) by (apply Htodo; now left).
  assert (Hget : get key o = Some v0) by (now apply In_get_NoDup).
  assert (Hhas : has key o = true) by (unfold has; now rewrite Hget).
  assert (Hown : has "hasOwnProperty" o = false).
  { apply (no_hasOwnProperty (fun k => k <> "hasOwnProperty")); [auto|].
    apply List.Forall_forall. intros [k' v'] Hp. cbn [fst].
    destruct (Hmem _ _ Hp) as [H|(k & v & H & -> & _)].
    - apply tidy_key_not_hasOwnProperty, (Htidy k' v'), Hin_ps. now right.
    - apply newKey_not_hasOwnProperty, (Htidy k v), Hin_ps. now left. }
  assert (Hother : forall k v, In (k, v) todo' -> k <> key).
  { intros k v H ->. pose proof keys_distinct as Hk. rewrite Hps, keys_app in Hk.
    apply NoDup_app_remove_l in Hk. cbn in Hk. inversion Hk as [|? ? Hn _]; subst.
    apply Hn. eauto using In_keys. }
  assert (Hdone_other : forall k v, In (k, v) done -> k <> key).
  { intros k v H ->. pose proof keys_distinct as Hk. rewrite Hps, keys_app in Hk.
    cbn in Hk. apply NoDup_remove_2 in Hk. apply Hk. apply in_or_app. left.
    eauto using In_keys. }
  unfold Helper2.rename_step. rewrite Hget, Hown.
  assert (H1 : exists v0',
             (if instanceof_Object v0
              then child' <- rec v0 ;; assign key child' o
              else Normal o) = Normal (replace key v0' o)
             /\ Normalized false v0 v0').
  { destruct (instanceof_Object v0) eqn:Ev.
    - destruct (Hrec key v0 Hkey_ps Ev) as (v0' & -> & Hn). exists v0'.
      cbn [cbind]. now rewrite (assign_present _ _ _ Hhas).
    - exists v0. rewrite (replace_get_id _ _ _ Hget). split; [reflexivity|].
      now apply normalized_scalar. }
  destruct H1 as (v0' & -> & Hn0). cbn [cbind].
  set (o1 := replace key v0' o).
  assert (Hnd1 : List.NoDup (keys o1)) by (unfold o1; now rewrite keys_replace).
  assert (Hg1 : get key o1 = Some v0') by (now apply get_replace_eq).
  destruct (newKey big key =? key)%string eqn:Enk.
  - apply String.eqb_eq in Enk. exists o1. split; [reflexivity|].
    exists (done ++ [(key, v0)]), todo'. repeat split.
    + now rewrite <- app_assoc.
    + exact Hnd1.
    + intros k v H. apply In_replace_other; [now apply (Hother k v) | apply Htodo; now right].
    + intros k v H. apply in_app_or in H as [H|[H|[]]].
      * destruct (Hdone _ _ H) as (v' & Hv' & Hn). exists v'. split; [|exact Hn].
        apply In_replace_other; [|exact Hv'].
        intros Heq. apply (Hdone_other k v H).
        apply (same_rewriting k key v v0); [apply Hin_ps; now left | exact Hkey_ps | congruence].
      * injection H as <- <-. exists v0'. split; [|exact Hn0].
        rewrite Enk. now apply In_replace_new.
    + intros k' v' H. apply In_replace_inv in H; [|exact Hnd]. destruct H as [[-> ->]|[Hne H]].
      * right. exists key, v0. split; [apply in_or_app; right; now left|]. now split.
      * destruct (Hmem _ _ H) as [[H'|H']|(k & v & H' & Hk & Hn)].
        -- injection H' as <- <-. contradiction.
        -- now left.
        -- right. exists k, v. split; [apply in_or_app; now left | now split].
  - apply String.eqb_neq in Enk. rewrite Hg1.
    pose proof (Htidy key v0 Hkey_ps) as Htk.
    assert (Hfresh : has (newKey big key) o1 = false).
    { destruct (has (newKey big key) o1) eqn:E; [|reflexivity]. exfalso.
      apply has_true_get in E as [v E]. apply get_In in E.
      apply In_replace_inv in E; [|exact Hnd]. destruct E as [[E _]|[_ E]]; [congruence|].
      destruct (Hmem _ _ E) as [[H'|H']|(k & v1 & H' & Hk & _)].
      - injection H' as H' _. congruence.
      - apply (Hother _ _ H').
        apply (same_rewriting (newKey big key) key v v0);
          [apply Hin_ps; right; now right | exact Hkey_ps|].
        now apply newKey_newKey, tidy_key_no_dbl.
      - apply (Hdone_other k v1 H').
        apply (same_rewriting k key v1 v0); [apply Hin_ps; now left | exact Hkey_ps | congruence]. }
    rewrite (assign_fresh _ _ _ Hfresh)
      by (apply quiet_not_proto, quiet_newKey, tidy_key_no_dbl, Htk).
    cbn [cbind]. eexists. split; [reflexivity|].
    exists (done ++ [(key, v0)]), todo'. repeat split.
    + now rewrite <- app_assoc.
    + apply NoDup_delete. now apply NoDup_insert_new.
    + intros k v H. apply In_delete. split; [now apply (Hother k v)|].
      apply In_insert_new. right.
      apply In_replace_other; [now apply (Hother k v) | apply Htodo; now right].
    + intros k v H. apply in_app_or in H as [H|[H|[]]].
      * destruct (Hdone _ _ H) as (v' & Hv' & Hn). exists v'. split; [|exact Hn].
        assert (Hne : newKey big k <> key).
        { intros Heq. apply Enk. rewrite <- Heq.
          apply newKey_newKey, tidy_key_no_dbl, (Htidy k v), Hin_ps. now left. }
        apply In_delete. split; [exact Hne|]. apply In_insert_new. right.
        now apply In_replace_other.
      * injection H as <- <-. exists v0'. split; [|exact Hn0].
        apply In_delete. split; [exact Enk|]. apply In_insert_new. now left.
    + intros k' v' H. apply In_delete in H as [Hne H]. apply In_insert_new in H as [H|H].
      * injection H as -> ->. right. exists key, v0.
        split; [apply in_or_app; right; now left|]. now split.
      * apply In_replace_inv in H; [|exact Hnd]. destruct H as [[-> _]|[_ H]]; [contradiction|].
        destruct (Hmem _ _ H) as [[H'|H']|(k & v & H' & Hk & Hn)].
        -- injection H' as <- <-. contradiction.
        -- now left.
        -- right. exists k, v. split; [apply in_or_app; now left | now split].
Qed.

End Step.

Lemma cmap_Forall2_In {A B : Type} (f : A -> Completion B) (R : A -> B -> Prop) (l : list A) :
  (forall x, In x l -> exists y, f x = Normal y /\ R x y) ->
  exists l', cmap f l = Normal l' /\ Forall2 R l l'.
Proof.
  intros H. apply cmap_Forall2. apply List.Forall_forall. exact H.
Qed.

(** On a tidy document whose rewritten names stay distinct, the call
    returns the document the specification describes. *)
Lemma helper2_normalizes (n : nat) :
  forall (x : JsValue) (big : bool),
    depth x < n -> tidy x = true -> conventional x = true -> collision_free big x = true ->
    exists y, Helper2.toCamelCase n x big = Normal y /\ Normalized big x y.
Proof.
  induction n as [|n IH]; intros x big Hd Hx Hcv Hc; [lia|].
  destruct x as [| | b | z | s | items | props];
    try (eexists; split; [reflexivity | now apply normalized_scalar]).
  - cbn [Helper2.toCamelCase].
    destruct (cmap_Forall2_In (fun item => Helper2.toCamelCase n item false)
                (Normalized false) items) as (items' & -> & H2).
    { intros v Hv. apply IH.
      - pose proof (depth_item items v Hv). cbn [depth] in Hd. lia.
      - cbn [tidy] in Hx. rewrite forallb_forall in Hx. now apply Hx.
      - cbn [conventional] in Hcv. rewrite forallb_forall in Hcv. now apply Hcv.
      - cbn [collision_free] in Hc. rewrite forallb_forall in Hc. now apply Hc. }
    cbn [cbind]. eexists. split; [reflexivity | now apply normalized_sequence].
  - cbn [Helper2.toCamelCase]. cbn [depth] in Hd.
    cbn [tidy] in Hx. apply andb_true_iff in Hx as [Hx1 Hx2]. rewrite forallb_forall in Hx2.
    cbn [collision_free] in Hc. apply andb_true_iff in Hc as [Hc1 Hc2].
    rewrite forallb_forall in Hc2.
    cbn [conventional] in Hcv. rewrite forallb_forall in Hcv.
    assert (Hname : forall k v, In (k, v) props -> newKey big k = camelCase big k).
    { intros k v H. apply newKey_camelCase. specialize (Hcv _ H).
      apply andb_true_iff in Hcv. tauto. }
    destruct (cfold_invariant
                (Helper2.rename_step (fun v => Helper2.toCamelCase n v false) big)
                (normalizing big props)) with (l := keys props) (a := props)
      as (props' & -> & (done & todo & Hps & Hrem & Hnd & _ & Hdone & Hmem)).
    + apply rename_step_normalizing.
      * intros k v H. specialize (Hx2 _ H). apply andb_true_iff in Hx2. tauto.
      * unfold keys. rewrite map_map. now apply distinct_NoDup.
      * intros k v H _. apply IH.
        -- pose proof (depth_prop props _ H). cbn [snd] in *. lia.
        -- specialize (Hx2 _ H). apply andb_true_iff in Hx2. tauto.
        -- specialize (Hcv _ H). apply andb_true_iff in Hcv. tauto.
        -- now apply (Hc2 _ H).
    + exists [], props. repeat split.
      * now apply distinct_NoDup.
      * auto.
      * intros k v [].
      * intros k' v' H. now left.
    + destruct todo; [|discriminate]. rewrite app_nil_r in Hps. subst done.
      cbn [cbind]. eexists. split; [reflexivity|].
      apply normalized_mapping; [| | exact Hnd].
      * intros k v H. rewrite <- (Hname k v H). now apply Hdone.
      * intros k' v' H. destruct (Hmem _ _ H) as [[]|(k & v & Hin & -> & Hn)].
        exists k, v. split; [exact Hin|]. split; [now apply (Hname k v) | exact Hn].
Qed.

End NormalizeFacts.

(** ** Rewriting of the keys *)

(** C5 (as stated, refuted).  [toCamelCase] of src/helper.js does not
    descend: in [{a: {b_c: 1}}] the nested key [b_c] is returned as it is;
    and it returns the sequence [[1, 2]] as the mapping [{0: 1, 1: 2}].
    Neither result is the normalized document. *)
Lemma C5_helper_js_does_not_descend :
  let x := JObj [("a", JObj [("b_c", JNum 1)])] in
  let s := JArr [JNum 1; JNum 2] in
  Helper.toCamelCase x false = Normal x
  /\ ~ Spec.Normalized false x x
  /\ Helper.toCamelCase s false = Normal (JObj [("0", JNum 1); ("1", JNum 2)])
  /\ ~ Spec.Normalized false s (JObj [("0", JNum 1); ("1", JNum 2)]).
Proof.
  cbv zeta. split; [reflexivity|]. split; [|split; [reflexivity|]].
  - intros H. inversion H; subst; [discriminate|].
    match goal with
    | Hx : forall k v, In (k, v) _ -> exists v', In (Spec.camelCase _ k, v') _ /\ _ |- _ =>
        destruct (Hx "a" _ (or_introl eq_refl)) as (v' & Hin & Hn)
    end.
    destruct Hin as [Hin|[]]. injection Hin as <-.
    inversion Hn; subst; [discriminate|].
    match goal with
    | Hx : forall k v, In (k, v) [("b_c", _)] ->
                       exists v', In (Spec.camelCase _ k, v') _ /\ _ |- _ =>
        destruct (Hx "b_c" _ (or_introl eq_refl)) as (v'' & Hin' & _)
    end.
    destruct Hin' as [Hin'|[]]. vm_compute in Hin'. discriminate.
  - intros H. inversion H; subst; discriminate.
Qed.

(** C5 (amended).  On a document whose property names, at every depth,
    have each underscore followed by a letter or a digit, are not rewritten
    to [hasOwnProperty] and stay pairwise distinct when rewritten,
    [toCamelCase] of src/unnamed/part_001 returns the normalized document:
    every mapping key in the camel convention (the words its underscores
    separate joined, each word after the first with its first letter in
    upper case), at every depth, through mappings and sequences; scalars
    unchanged; sequences kept as sequences in their order.  [toCamelCase]
    of src/helper.js returns a scalar unchanged; for a mapping, a mapping
    with the top-level keys in the camel convention and every value as it
    was; and for a sequence, a mapping from the positions to the items. *)
Theorem C5_toCamelCase_rewrites_keys (x : JsValue) (big : bool) :
  Shape.tidy x = true ->
  Shape.conventional x = true ->
  Shape.collision_free big x = true ->
  (exists y, Helper2.run x big = Normal y /\ Spec.Normalized big x y)
  /\ match x with
     | JObj props =>
         exists r,
           Helper.toCamelCase x big = Normal (JObj r)
           /\ (forall k v, In (k, v) props -> Obj.get (Spec.camelCase big k) r = Some v)
           /\ (forall k' v', In (k', v') r ->
                 exists k, In (k, v') props /\ k' = Spec.camelCase big k)
     | JArr items =>
         exists r,
           Helper.toCamelCase x big = Normal (JObj r)
           /\ (forall i v, items !! i = Some v -> Obj.get (Helper.index_name i) r = Some v)
           /\ (forall k v, In (k, v) r ->
                 exists i, k = Helper.index_name i /\ items !! i = Some v)
     | _ => Helper.toCamelCase x big = Normal x
     end.
Proof.
  intros Hx Hv Hc. split.
  - apply helper2_normalizes; [lia | exact Hx | exact Hv | exact Hc].
  - destruct x as [| | b | z | s | items | props]; try reflexivity.
    + apply helper_indexes_sequence.
    + assert (Hname : forall k v, In (k, v) props -> Key.newKey big k = Spec.camelCase big k).
      { intros k v H. apply newKey_camelCase. cbn [Shape.conventional] in Hv.
        rewrite forallb_forall in Hv. specialize (Hv _ H). apply andb_true_iff in Hv. tauto. }
      destruct (helper_rewrites_top_level big props) as (r & Hr & H1 & H2).
      * exact (tidy_entries _ Hx).
      * cbn [Shape.collision_free] in Hc. apply andb_true_iff in Hc as [Hc _].
        unfold Obj.keys. rewrite map_map. now apply distinct_NoDup.
      * exists r. split; [exact Hr|]. split.
        -- intros k v H. rewrite <- (Hname k v H). now apply H1.
        -- intros k' v' H. destruct (H2 _ _ H) as (k & Hk & ->). exists k.
           split; [exact Hk | now apply (Hname k v')].
Qed.

Lemma C5_toCamelCase_rewrites_keys_witness :
  let x := JObj [("msg_type", JNum 5); ("sub_type", JNum 7);
                 ("from_user", JStr "wxid_001");
                 ("member_list", JArr [JObj [("nick_name", JStr "a")]; JNull])] in
  (exists y, Helper2.run x false = Normal y /\ Spec.Normalized false x y)
  /\ exists r,
       Helper.toCamelCase x false = Normal (JObj r)
       /\ (forall k v,
             In (k, v) [("msg_type", JNum 5); ("sub_type", JNum 7);
                        ("from_user", JStr "wxid_001");
                        ("member_list", JArr [JObj [("nick_name", JStr "a")]; JNull])] ->
             Obj.get (Spec.camelCase false k) r = Some v)
       /\ (forall k' v', In (k', v') r ->
             exists k,
               In (k, v') [("msg_type", JNum 5); ("sub_type", JNum 7);
                           ("from_user", JStr "wxid_001");
                           ("member_list", JArr [JObj [("nick_name", JStr "a")]; JNull])]
               /\ k' = Spec.camelCase false k).
Proof.
  exact (C5_toCamelCase_rewrites_keys
           (JObj [("msg_type", JNum 5); ("sub_type", JNum 7);
                  ("from_user", JStr "wxid_001");
                  ("member_list", JArr [JObj [("nick_name", JStr "a")]; JNull])])
           false eq_refl eq_refl eq_refl).
Defined.

(** The sample document, through both revisions. *)
Example toCamelCase_sample :
  let x := JObj [("msg_type", JNum 5); ("member_list", JArr [JObj [("nick_name", JStr "a")]])] in
  Helper2.run x false
  = Normal (JObj [("msgType", JNum 5); ("memberList", JArr [JObj [("nickName", JStr "a")]])])
  /\ Helper.toCamelCase x false
     = Normal (JObj [("msgType", JNum 5); ("memberList", JArr [JObj [("nick_name", JStr "a")]])])
  /\ Helper.toCamelCase x true
     = Normal (JObj [("MsgType", JNum 5); ("MemberList", JArr [JObj [("nick_name", JStr "a")]])]).
Proof. repeat split. Qed.

(** ** [toCamelCase] and the structure of its caller *)

Section OnStoreFacts.

Lemma toCamelCase_copy_frame (obj : Val) (big : bool) (l : nat) (c : Cell) (w : World) :
  heap w !! l = Some c ->
  heap (snd (OnStore.toCamelCase_copy obj big w)) !! l = Some c.
Proof.
  intros Hc.
  assert (Hs : Frame.stable l (fun c' => c' = c) (OnStore.toCamelCase_copy obj big)).
  { unfold OnStore.toCamelCase_copy. destruct obj; try apply stable_ret.
    apply stable_bind; [apply stable_read|]. intros c0.
    apply stable_alloc_then. intros newObj Hne.
    apply stable_bind; [apply stable_liftC|]. intros props.
    apply stable_bind; [apply stable_write; now left | intros; apply stable_ret]. }
  destruct (Hs w) as (c' & Hc' & ->); [now exists c | exact Hc'].
Qed.

End OnStoreFacts.

Section StoreSteps.

Import Obj.

Lemma with_heap_twice (h h' : Heap) (w : World) : with_heap h' (with_heap h w) = with_heap h' w.
Proof. now destruct w. Qed.

Lemma heap_with_heap (h : Heap) (w : World) : heap (with_heap h w) = h.
Proof. now destruct w. Qed.

Lemma with_heap_same (w : World) : with_heap (heap w) w = w.
Proof. now destruct w. Qed.

(** [obj[newKey] = obj[key]; delete obj[key]] on the object at [l]. *)
Lemma move_property (l : nat) (o : list (string * Val)) (key newKey : string) (v : Val)
    (h : Heap) (w : World) :
  h !! l = Some (CObj o) ->
  get key o = Some v ->
  has newKey o = false ->
  (newKey =? "__proto__")%string = false ->
  (let* x := hget (VRef l) key in
   let* _ := OnStore.store_assign l newKey x in
   hdelete (VRef l) key) (with_heap h w)
  = (([], Normal tt), with_heap (<[l := CObj (delete key (insert_new newKey v o))]> h) w).
Proof.
  intros Hl Hget Hfresh Hproto.
  assert (Hl0 : heap (with_heap h w) !! l = Some (CObj o)) by now rewrite heap_with_heap.
  rewrite (mbind_run _ _ _ _ _ _ (hget_obj l o key _ Hl0)), preceded_nil. rewrite Hget.
  assert (Hread : read l (with_heap h w) = (([], Normal (CObj o)), with_heap h w))
    by (unfold read; now rewrite Hl0).
  assert (Hassign : OnStore.store_assign l newKey v (with_heap h w)
                    = (([], Normal tt),
                       with_heap (<[l := CObj (insert_new newKey v o)]> h) w)).
  { unfold OnStore.store_assign. rewrite (mbind_run _ _ _ _ _ _ Hread), preceded_nil.
    unfold hassign. rewrite Hfresh, Hproto, mbind_liftC_Normal.
    unfold write, modify. now rewrite heap_with_heap, with_heap_twice. }
  rewrite (mbind_run _ _ _ _ _ _ Hassign), preceded_nil.
  unfold hdelete. rewrite heap_with_heap.
  rewrite list_lookup_insert_eq by (now apply lookup_lt_Some in Hl).
  now rewrite with_heap_twice, list_insert_insert_eq.
Qed.

(** [obj[key] = child] for a property the object has. *)
Lemma store_assign_present (l : nat) (o : list (string * Val)) (key : string) (v : Val)
    (h : Heap) (w : World) :
  h !! l = Some (CObj o) ->
  has key o = true ->
  OnStore.store_assign l key v (with_heap h w)
  = (([], Normal tt), with_heap (<[l := CObj (replace key v o)]> h) w).
Proof.
  intros Hl Hhas.
  assert (Hread : read l (with_heap h w) = (([], Normal (CObj o)), with_heap h w))
    by (unfold read; now rewrite heap_with_heap, Hl).
  unfold OnStore.store_assign. rewrite (mbind_run _ _ _ _ _ _ Hread), preceded_nil.
  unfold hassign. rewrite Hhas, mbind_liftC_Normal.
  unfold write, modify. now rewrite heap_with_heap, with_heap_twice.
Qed.

End StoreSteps.


Section StoredFacts.

Import Stored.

Lemma holds_induction (h : Heap) (P : Val -> JsValue -> list nat -> Prop) :
  (forall v t, prim v = Some t -> P v t []) ->
  (forall l E,
     h !! l = Some (CArr (map p_val E)) ->
     Forall (fun e => holds h (p_val e) (p_doc e) (p_at e)) E ->
     Forall (fun e => P (p_val e) (p_doc e) (p_at e)) E ->
     ~ In l (concat (map p_at E)) ->
     apart (map p_at E) ->
     P (VRef l) (JArr (map p_doc E)) (l :: concat (map p_at E))) ->
  (forall l E,
     h !! l = Some (CObj (map (fun p => (fst p, p_val (snd p))) E)) ->
     Forall (fun p => holds h (p_val (snd p)) (p_doc (snd p)) (p_at (snd p))) E ->
     Forall (fun p => P (p_val (snd p)) (p_doc (snd p)) (p_at (snd p))) E ->
     ~ In l (concat (map (fun p => p_at (snd p)) E)) ->
     apart (map (fun p => p_at (snd p)) E) ->
     P (VRef l) (JObj (map (fun p => (fst p, p_doc (snd p))) E))
       (l :: concat (map (fun p => p_at (snd p)) E))) ->
  forall v t F, holds h v t F -> P v t F.
Proof.
  intros Hp Ha Ho. fix IH 4. intros v t F H. destruct H as [v t Hv | l E Hl HE Hn Hs | l E Hl HE Hn Hs].
  - now apply Hp.
  - apply Ha; auto. clear Hl Hn Hs. induction HE as [|e r He Hr IHr]; [constructor|].
    constructor; [now apply IH | exact IHr].
  - apply Ho; auto. clear Hl Hn Hs. induction HE as [|e r He Hr IHr]; [constructor|].
    constructor; [now apply IH | exact IHr].
Qed.

(** The locations of a document are locations of the store. *)
Lemma holds_bounded (h : Heap) (v : Val) (t : JsValue) (F : list nat) :
  holds h v t F -> forall x, In x F -> x < length h.
Proof.
  intros H. induction H as [v t Hv | l E Hl HE IH Hn Hs | l E Hl HE IH Hn Hs] using holds_induction.
  - intros x [].
  - intros x [<-|Hx]; [now apply lookup_lt_Some in Hl|].
    apply in_concat in Hx as (F & HF & Hx). apply in_map_iff in HF as (e & <- & He).
    rewrite List.Forall_forall in IH. now apply (IH e He).
  - intros x [<-|Hx]; [now apply lookup_lt_Some in Hl|].
    apply in_concat in Hx as (F & HF & Hx). apply in_map_iff in HF as (e & <- & He).
    rewrite List.Forall_forall in IH. now apply (IH e He).
Qed.

(** A document depends on its own objects only. *)
Lemma holds_frame (h h' : Heap) (v : Val) (t : JsValue) (F : list nat) :
  holds h v t F -> (forall x, In x F -> h' !! x = h !! x) -> holds h' v t F.
Proof.
  intros H. induction H as [v t Hv | l E Hl HE IH Hn Hs | l E Hl HE IH Hn Hs] using holds_induction;
    intros Hsame.
  - now constructor.
  - constructor; auto.
    + rewrite Hsame; [exact Hl | now left].
    + rewrite List.Forall_forall in IH |- *. intros e He. apply (IH e He).
      intros x Hx. apply Hsame. right. apply in_concat. exists (p_at e). split; [|exact Hx].
      now apply in_map.
  - constructor; auto.
    + rewrite Hsame; [exact Hl | now left].
    + rewrite List.Forall_forall in IH |- *. intros e He. apply (IH e He).
      intros x Hx. apply Hsame. right. apply in_concat. exists (p_at (snd e)). split; [|exact Hx].
      now apply (in_map (fun p => p_at (snd p))).
Qed.

Lemma prim_scalar (v : Val) (t : JsValue) : prim v = Some t -> instanceof_Object t = false.
Proof. destruct v; intros [= <-]; reflexivity. Qed.

End StoredFacts.

Section VmapFacts.

Import Obj.
Context {A B : Type} (f : A -> B).
Local Abbreviation vmap := (map (fun p : string * A => (fst p, f (snd p)))).

Lemma get_vmap (k : string) (o : list (string * A)) :
  get k (vmap o) = option_map f (get k o).
Proof.
  induction o as [|[k' v'] r IH]; cbn; [reflexivity|]. now destruct (k' =? k)%string.
Qed.

Lemma has_vmap (k : string) (o : list (string * A)) : has k (vmap o) = has k o.
Proof. unfold has. rewrite get_vmap. now destruct (get k o). Qed.

Lemma keys_vmap (o : list (string * A)) : keys (vmap o) = keys o.
Proof. unfold keys. rewrite map_map. reflexivity. Qed.

Lemma replace_vmap (k : string) (x : A) (o : list (string * A)) :
  replace k (f x) (vmap o) = vmap (replace k x o).
Proof.
  induction o as [|[k' v'] r IH]; cbn; [reflexivity|].
  destruct (k' =? k)%string; cbn; [reflexivity | now rewrite IH].
Qed.

Lemma insert_new_vmap (k : string) (x : A) (o : list (string * A)) :
  insert_new k (f x) (vmap o) = vmap (insert_new k x o).
Proof.
  induction o as [|[k' v'] r IH]; cbn; [reflexivity|].
  destruct (before k' k); cbn; [now rewrite IH | reflexivity].
Qed.

Lemma delete_vmap (k : string) (o : list (string * A)) :
  delete k (vmap o) = vmap (delete k o).
Proof.
  unfold delete. induction o as [|[k' v'] r IH]; cbn; [reflexivity|].
  destruct (negb (k' =? k)%string); cbn; now rewrite IH.
Qed.

End VmapFacts.

Section ApartFacts.

Import Stored Obj.

Lemma apart_pairwise (E : list (string * Part)) :
  List.NoDup (keys E) -> apart (places E) ->
  forall k1 e1 k2 e2, In (k1, e1) E -> In (k2, e2) E -> k1 <> k2 ->
                      forall x, In x (p_at e1) -> ~ In x (p_at e2).
Proof.
  induction E as [|[k e] r IH]; cbn; [tauto|].
  intros Hnd [Hh Hr] k1 e1 k2 e2 H1 H2 Hne x Hx1 Hx2.
  inversion Hnd as [|? ? Hk Hnd']; subst.
  assert (Hin : forall k' e', In (k', e') r -> forall y, In y (p_at e') -> In y (concat (places r))).
  { intros k' e' H y Hy. apply in_concat. exists (p_at e'). split; [|exact Hy].
    apply (in_map (fun p => p_at (snd p)) r (k', e')). exact H. }
  destruct H1 as [H1|H1], H2 as [H2|H2].
  - congruence.
  - injection H1 as <- <-. apply (Hh x Hx1). now apply (Hin k2 e2).
  - injection H2 as <- <-. apply (Hh x Hx2). now apply (Hin k1 e1).
  - now apply (IH Hnd' Hr k1 e1 k2 e2 H1 H2 Hne x).
Qed.

Lemma pairwise_apart (E : list (string * Part)) :
  List.NoDup (keys E) ->
  (forall k1 e1 k2 e2, In (k1, e1) E -> In (k2, e2) E -> k1 <> k2 ->
                       forall x, In x (p_at e1) -> ~ In x (p_at e2)) ->
  apart (places E).
Proof.
  induction E as [|[k e] r IH]; cbn; [tauto|].
  intros Hnd Hp. inversion Hnd as [|? ? Hk Hnd']; subst. split.
  - intros x Hx Hc. apply in_concat in Hc as (F & HF & Hc).
    apply in_map_iff in HF as ([k' e'] & <- & He'). cbn [snd] in Hc.
    apply (Hp k e k' e' (or_introl eq_refl) (or_intror He')) with (x := x); auto.
    intros ->. apply Hk. now apply (In_keys k' e').
  - apply IH; [exact Hnd'|]. intros k1 e1 k2 e2 H1 H2. apply Hp; now right.
Qed.

Lemma fit_item (n : nat) (big : bool) (items : list JsValue) (v : JsValue) :
  fit (S n) big (JArr items) -> In v items -> fit n false v.
Proof.
  intros (Hd & Ht & Hc & Hf) Hv. cbn [depth] in Hd.
  cbn [Shape.tidy] in Ht. cbn [Shape.conventional] in Hc. cbn [Shape.collision_free] in Hf.
  rewrite forallb_forall in Ht, Hc, Hf. pose proof (depth_item items v Hv).
  repeat split; auto. lia.
Qed.

Lemma fit_prop (n : nat) (big : bool) (props : Props) (k : string) (v : JsValue) :
  fit (S n) big (JObj props) -> In (k, v) props ->
  fit n false v /\ Shape.tidy_key k = true /\ Shape.separated k = true.
Proof.
  intros (Hd & Ht & Hc & Hf) Hv. cbn [depth] in Hd.
  cbn [Shape.tidy] in Ht. cbn [Shape.conventional] in Hc. cbn [Shape.collision_free] in Hf.
  apply andb_true_iff in Ht as [_ Ht]. apply andb_true_iff in Hf as [_ Hf].
  rewrite forallb_forall in Ht, Hc, Hf. pose proof (depth_prop props _ Hv) as Hle.
  specialize (Ht _ Hv). specialize (Hc _ Hv). specialize (Hf _ Hv). cbn [fst snd] in *.
  apply andb_true_iff in Ht as [Ht1 Ht2]. apply andb_true_iff in Hc as [Hc1 Hc2].
  repeat split; auto. lia.
Qed.

Lemma fit_names (n : nat) (big : bool) (props : Props) :
  fit n big (JObj props) -> List.NoDup (map (Key.newKey big) (keys props)).
Proof.
  intros (_ & _ & _ & Hf). cbn [Shape.collision_free] in Hf.
  apply andb_true_iff in Hf as [Hf _]. unfold keys. rewrite map_map. now apply distinct_NoDup.
Qed.

End ApartFacts.

Section SequenceFacts.

Import Stored.

Variable n : nat.
Hypothesis IHn :
  forall v t F w, holds (heap w) v t F -> fit n false t -> normalized_inplace n false w v t F.

Lemma in_places (E : list Part) (e : Part) (x : nat) :
  In e E -> In x (p_at e) -> In x (concat (map p_at E)).
Proof. intros He Hx. apply in_concat. exists (p_at e). split; [now apply in_map | exact Hx]. Qed.

Lemma mmap_parts (E : list Part) :
  forall w,
    Forall (fun e => holds (heap w) (p_val e) (p_doc e) (p_at e)) E ->
    apart (map p_at E) ->
    Forall (fun e => fit n false (p_doc e)) E ->
    exists E' h',
      mmap (fun item => OnStore.toCamelCase_inplace n item false) (map p_val E) w
      = (([], Normal (map p_val E')), with_heap h' w)
      /\ Forall (fun e => holds h' (p_val e) (p_doc e) (p_at e)) E'
      /\ Forall2 (Spec.Normalized false) (map p_doc E) (map p_doc E')
      /\ apart (map p_at E')
      /\ length (heap w) <= length h'
      /\ (forall x, x < length (heap w) -> ~ In x (concat (map p_at E)) -> h' !! x = heap w !! x)
      /\ (forall x, In x (concat (map p_at E')) ->
            In x (concat (map p_at E)) \/ length (heap w) <= x).
Proof.
  induction E as [|e r IH]; intros w Hh Ha Hf.
  - exists [], (heap w). cbn. rewrite with_heap_same. repeat split; auto; constructor.
  - inversion Hh as [|? ? He Hr]; subst. inversion Hf as [|? ? Hfe Hfr]; subst.
    cbn [map apart] in Ha. destruct Ha as [Hae Har].
    destruct (IHn _ _ _ w He Hfe) as (v1 & h1 & t1 & F1 & Hrun1 & Hh1 & Hn1 & Hlen1 & Hfr1 & HF1 & _).
    assert (Hr1 : Forall (fun e => holds (heap (with_heap h1 w)) (p_val e) (p_doc e) (p_at e)) r).
    { rewrite heap_with_heap. rewrite List.Forall_forall in Hr |- *. intros e' He'.
      apply (holds_frame (heap w)); [now apply Hr|].
      intros x Hx. apply Hfr1.
      - exact (holds_bounded _ _ _ _ (Hr e' He') x Hx).
      - intros Hc. apply (Hae x Hc). now apply (in_places r e'). }
    destruct (IH (with_heap h1 w) Hr1 Har Hfr)
      as (E' & h' & Hrun & Hh' & Hn' & Ha' & Hlen' & Hfr' & HF').
    rewrite heap_with_heap in Hlen', Hfr', HF'. rewrite with_heap_twice in Hrun.
    exists ({| p_val := v1; p_doc := t1; p_at := F1 |} :: E'), h'.
    assert (HF1r : forall x, In x F1 -> ~ In x (concat (map p_at r))).
    { intros x Hx Hc. destruct (HF1 x Hx) as [H|H]; [now apply (Hae x H)|].
      apply in_concat in Hc as (F & HF & Hc). apply in_map_iff in HF as (e' & <- & He').
      rewrite List.Forall_forall in Hr.
      pose proof (holds_bounded _ _ _ _ (Hr e' He') x Hc). lia. }
    split; [|split; [|split; [|split; [|split; [|split]]]]].
    + cbn [map mmap]. rewrite (mbind_run _ _ _ _ _ _ Hrun1), preceded_nil.
      rewrite (mbind_run _ _ _ _ _ _ Hrun), preceded_nil. reflexivity.
    + constructor; [|exact Hh']. cbn [p_val p_doc p_at].
      apply (holds_frame h1); [exact Hh1|]. intros x Hx. apply Hfr'.
      * exact (holds_bounded _ _ _ _ Hh1 x Hx).
      * now apply HF1r.
    + cbn [map]. constructor; [exact Hn1 | exact Hn'].
    + cbn [map apart p_at]. split; [|exact Ha'].
      intros x Hx Hc. destruct (HF' x Hc) as [H|H]; [now apply (HF1r x Hx)|].
      pose proof (holds_bounded _ _ _ _ Hh1 x Hx). lia.
    + lia.
    + intros x Hx Hc. cbn [map concat] in Hc. rewrite Hfr'; [apply Hfr1; auto| lia |].
      * intros H. apply Hc. apply in_or_app. now left.
      * intros H. apply Hc. apply in_or_app. now right.
    + intros x Hx. cbn [map concat p_at] in Hx |- *. apply in_app_or in Hx as [Hx|Hx].
      * destruct (HF1 x Hx) as [H|H]; [left; apply in_or_app; now left | now right].
      * destruct (HF' x Hx) as [H|H]; [left; apply in_or_app; now right | right; lia].
Qed.

(** A sequence: the items are normalized from left to right and collected
    in a new array. *)
Lemma sequence_inplace (big : bool) (l : nat) (E : list Part) (w : World) :
  holds (heap w) (VRef l) (JArr (map p_doc E)) (l :: concat (map p_at E)) ->
  heap w !! l = Some (CArr (map p_val E)) ->
  Forall (fun e => holds (heap w) (p_val e) (p_doc e) (p_at e)) E ->
  apart (map p_at E) ->
  fit (S n) big (JArr (map p_doc E)) ->
  normalized_inplace (S n) big w (VRef l) (JArr (map p_doc E)) (l :: concat (map p_at E)).
Proof.
  intros _ Hl Hh Ha Hfit.
  assert (Hf : Forall (fun e => fit n false (p_doc e)) E).
  { apply List.Forall_forall. intros e He. apply (fit_item n big (map p_doc E)); [exact Hfit|].
    now apply in_map. }
  destruct (mmap_parts E w Hh Ha Hf) as (E' & h' & Hrun & Hh' & Hn' & Ha' & Hlen' & Hfr' & HF').
  assert (Hb' : forall x, In x (concat (map p_at E')) -> x < length h').
  { intros x Hx. apply in_concat in Hx as (F & HF & Hx). apply in_map_iff in HF as (e & <- & He).
    rewrite List.Forall_forall in Hh'. exact (holds_bounded _ _ _ _ (Hh' e He) x Hx). }
  exists (VRef (length h')), (h' ++ [CArr (map p_val E')]), (JArr (map p_doc E')),
    (length h' :: concat (map p_at E')).
  split; [|split; [|split; [|split; [|split; [|split]]]]].
  - cbn [OnStore.toCamelCase_inplace].
    assert (Hread : read l w = (([], Normal (CArr (map p_val E))), w))
      by (unfold read; now rewrite Hl).
    rewrite (mbind_run _ _ _ _ _ _ Hread), preceded_nil.
    rewrite (mbind_run _ _ _ _ _ _ Hrun), preceded_nil.
    unfold mbind, alloc, ret. rewrite heap_with_heap, with_heap_twice. reflexivity.
  - constructor.
    + now rewrite list_lookup_middle.
    + rewrite List.Forall_forall in Hh' |- *. intros e He.
      apply (holds_frame h'); [now apply Hh'|]. intros x Hx.
      apply lookup_app_l. exact (holds_bounded _ _ _ _ (Hh' e He) x Hx).
    + intros Hc. pose proof (Hb' _ Hc). lia.
    + exact Ha'.
  - now apply Spec.normalized_sequence.
  - rewrite length_app. cbn. lia.
  - intros x Hx Hc. rewrite lookup_app_l by lia. apply Hfr'; [exact Hx|].
    intros H. apply Hc. now right.
  - intros x [<-|Hx]; [right; lia|]. destruct (HF' x Hx) as [H|H]; [left; now right | now right].
  - discriminate.
Qed.

End SequenceFacts.

Section MappingFacts.

Import Stored Key Shape Obj.

Variable n : nat.
Variable big : bool.
Variable l : nat.
Variable E0 : list (string * Part).
Variable h0 : Heap.
Variable w : World.
Hypothesis IHn :
  forall v t F w, holds (heap w) v t F -> fit n false t -> normalized_inplace n false w v t F.
Hypothesis Hfit0 :
  forall k e, In (k, e) E0 -> fit n false (p_doc e) /\ tidy_key k = true.
Hypothesis Hdistinct : List.NoDup (map (newKey big) (keys E0)).

Local Abbreviation rec := (fun v => OnStore.toCamelCase_inplace n v false).

Lemma same_name_stored (k1 k2 : string) (e1 e2 : Part) :
  In (k1, e1) E0 -> In (k2, e2) E0 -> newKey big k1 = newKey big k2 -> k1 = k2.
Proof.
  intros H1 H2. apply (NoDup_map_injective (newKey big) (keys E0)); eauto using In_keys.
Qed.

Lemma names_distinct_stored : List.NoDup (keys E0).
Proof. exact (NoDup_map_inv _ _ Hdistinct). Qed.

Lemma has_replace {V : Type} (k k' : string) (x : V) (o : list (string * V)) :
  has k' (replace k x o) = has k' o.
Proof.
  destruct (has k' o) eqn:E.
  - destruct (has k' (replace k x o)) eqn:E'; [reflexivity|].
    apply has_false_keys in E'. rewrite keys_replace in E'.
    apply has_true_get in E as [v E]. apply get_In in E. exfalso. apply E'.
    now apply (In_keys k' v).
  - apply has_false_keys. rewrite keys_replace. now apply has_false_keys.
Qed.

(** The recursive call on the value of a property, and the assignment of
    its result. *)
Lemma child_inplace (key : string) (e0 : Part) (hc : Heap) (E : list (string * Part)) :
  List.NoDup (keys E) ->
  In (key, e0) E ->
  hc !! l = Some (CObj (hprops E)) ->
  holds hc (p_val e0) (p_doc e0) (p_at e0) ->
  ~ In l (p_at e0) ->
  fit n false (p_doc e0) ->
  exists e0' h2,
    (forall k : unit -> M unit,
        mbind (match p_val e0 with
               | VRef _ => let* child' := rec (p_val e0) in
                           OnStore.store_assign l key child'
               | _ => ret tt
               end) k (with_heap hc w)
        = k tt (with_heap h2 w))
    /\ h2 !! l = Some (CObj (hprops (replace key e0' E)))
    /\ holds h2 (p_val e0') (p_doc e0') (p_at e0')
    /\ Spec.Normalized false (p_doc e0) (p_doc e0')
    /\ length hc <= length h2
    /\ (forall x, x < length hc -> x <> l -> ~ In x (p_at e0) -> h2 !! x = hc !! x)
    /\ (forall x, In x (p_at e0') -> In x (p_at e0) \/ length hc <= x).
Proof.
  intros Hnd Hin Hcell Hh Hnl Hfit.
  assert (HgetE : get key E = Some e0) by (now apply In_get_NoDup).
  assert (Hprim : (forall lc, p_val e0 <> VRef lc) ->
            exists e0' h2,
              (forall k : unit -> M unit,
                  mbind (match p_val e0 with
                         | VRef _ => let* child' := rec (p_val e0) in
                                     OnStore.store_assign l key child'
                         | _ => ret tt
                         end) k (with_heap hc w)
                  = k tt (with_heap h2 w))
              /\ h2 !! l = Some (CObj (hprops (replace key e0' E)))
              /\ holds h2 (p_val e0') (p_doc e0') (p_at e0')
              /\ Spec.Normalized false (p_doc e0) (p_doc e0')
              /\ length hc <= length h2
              /\ (forall x, x < length hc -> x <> l -> ~ In x (p_at e0) -> h2 !! x = hc !! x)
              /\ (forall x, In x (p_at e0') -> In x (p_at e0) \/ length hc <= x)).
  { intros Hv. exists e0, hc. repeat split; auto.
    - intros k. destruct (p_val e0) eqn:Ev; try apply mbind_ret. now destruct (Hv l0).
    - now rewrite (replace_get_id _ _ _ HgetE).
    - apply Spec.normalized_scalar. inversion Hh as [v t Hp | |]; subst.
      + exact (prim_scalar _ _ Hp).
      + exfalso. apply (Hv l0). congruence.
      + exfalso. apply (Hv l0). congruence. }
  destruct (p_val e0) as [| | | | |lc] eqn:Ev; try (apply Hprim; intros; discriminate).
  clear Hprim.
  assert (Hhc : holds (heap (with_heap hc w)) (VRef lc) (p_doc e0) (p_at e0))
    by now rewrite heap_with_heap.
  destruct (IHn _ _ _ _ Hhc Hfit) as (v' & h1 & t' & F1 & Hrun & Hh1 & Hn1 & Hlen1 & Hfr1 & HF1 & _).
  rewrite heap_with_heap in Hlen1, Hfr1, HF1. rewrite with_heap_twice in Hrun.
  assert (Hlt : l < length hc) by (now apply lookup_lt_Some in Hcell).
  assert (Hcell1 : h1 !! l = Some (CObj (hprops E))) by (rewrite Hfr1; auto).
  assert (Hhas : has key (hprops E) = true).
  { unfold hprops. rewrite has_vmap. unfold has. now rewrite HgetE. }
  exists {| p_val := v'; p_doc := t'; p_at := F1 |},
    (<[l := CObj (replace key v' (hprops E))]> h1).
  assert (HF1l : forall x, In x F1 -> x <> l).
  { intros x Hx ->. destruct (HF1 l Hx) as [H|H]; [contradiction | lia]. }
  split; [|split; [|split; [|split; [|split; [|split]]]]].
  - intros k.
    assert (Hinner : (let* child' := rec (VRef lc) in OnStore.store_assign l key child')
                       (with_heap hc w)
                     = (([], Normal tt),
                        with_heap (<[l := CObj (replace key v' (hprops E))]> h1) w)).
    { rewrite (mbind_run _ _ _ _ _ _ Hrun), preceded_nil.
      exact (store_assign_present l (hprops E) key v' h1 w Hcell1 Hhas). }
    now rewrite (mbind_run _ _ _ _ _ _ Hinner), preceded_nil.
  - rewrite list_lookup_insert_eq by lia. do 2 f_equal. unfold hprops.
    now rewrite <- (replace_vmap p_val key {| p_val := v'; p_doc := t'; p_at := F1 |}).
  - cbn [p_val p_doc p_at]. apply (holds_frame h1); [exact Hh1|].
    intros x Hx. apply list_lookup_insert_ne. intros Heq. now apply (HF1l x Hx).
  - exact Hn1.
  - rewrite length_insert. lia.
  - intros x Hx Hxl Hxe. rewrite list_lookup_insert_ne by congruence. now apply Hfr1.
  - exact HF1.
Qed.

(** One turn of the loop on the object at [l]. *)
Lemma rename_turn_stored (key : string) (rem : list string) (hc : Heap)
    (E : list (string * Part)) :
  Loop.renaming_stored big l E0 h0 (key :: rem) hc E ->
  exists hc' E',
    OnStore.rename_turn rec big l key (with_heap hc w) = (([], Normal tt), with_heap hc' w)
    /\ Loop.renaming_stored big l E0 h0 rem hc' E'.
Proof.
  intros (done & todo & HE0 & Hrem & Hnd & Htodo & Hdone & Hmem & Hcell & Hpart & Hpair
          & Hlen & Hframe).
  destruct todo as [|[key' e0] todo']; [discriminate|].
  cbn in Hrem. injection Hrem as <- ->.
  assert (Hin0 : forall k e, In (k, e) done \/ In (k, e) ((key, e0) :: todo') -> In (k, e) E0).
  { intros k e H. rewrite HE0. apply in_or_app. tauto. }
  assert (Hkey0 : In (key, e0) E0) by (apply Hin0; right; now left).
  assert (HkeyE : In (key, e0) E) by (apply Htodo; now left).
  assert (HgetE : get key E = Some e0) by (now apply In_get_NoDup).
  assert (Hget : get key (hprops E) = Some (p_val e0)).
  { unfold hprops. now rewrite get_vmap, HgetE. }
  assert (Hown : has "hasOwnProperty" (hprops E) = false).
  { unfold hprops. rewrite has_vmap. apply has_false_keys. intros Hin.
    apply in_map_iff in Hin as ([k' e'] & Hk & Hp). cbn [fst] in Hk. subst k'.
    destruct (Hmem _ _ Hp) as [H|(k & e & H & Hk & _)].
    - apply (tidy_key_not_hasOwnProperty "hasOwnProperty"); [|reflexivity].
      apply (Hfit0 _ e'), Hin0. now right.
    - symmetry in Hk. revert Hk. apply newKey_not_hasOwnProperty, (Hfit0 k e), Hin0. now left. }
  assert (Hother : forall k e, In (k, e) todo' -> k <> key).
  { intros k e H ->. pose proof names_distinct_stored as Hk. rewrite HE0, keys_app in Hk.
    apply NoDup_app_remove_l in Hk. cbn in Hk. inversion Hk as [|? ? Hn _]; subst.
    apply Hn. eauto using In_keys. }
  assert (Hdone_other : forall k e, In (k, e) done -> k <> key).
  { intros k e H ->. pose proof names_distinct_stored as Hk. rewrite HE0, keys_app in Hk.
    cbn in Hk. apply NoDup_remove_2 in Hk. apply Hk. apply in_or_app. left.
    eauto using In_keys. }
  destruct (Hfit0 key e0 Hkey0) as [Hfit Htk].
  destruct (Hpart key e0 HkeyE) as (Hh0 & Hnl0 & Hb0).
  assert (Hlt : l < length hc) by (now apply lookup_lt_Some in Hcell).
  destruct (child_inplace key e0 hc E Hnd HkeyE Hcell Hh0 Hnl0 Hfit)
    as (e0' & h2 & Hrun2 & Hcell2 & Hh2 & Hn2 & Hlen2 & Hfr2 & HF2).
  set (E1 := replace key e0' E) in *.
  assert (HhasE : has key E = true) by (unfold has; now rewrite HgetE).
  assert (Hnd1 : List.NoDup (keys E1)) by (unfold E1; now rewrite keys_replace).
  assert (Hfresh : (newKey big key =? key)%string = false -> has (newKey big key) E = false).
  { intros Enk. apply String.eqb_neq in Enk.
    destruct (has (newKey big key) E) eqn:Eh; [|reflexivity]. exfalso.
    apply has_true_get in Eh as [e Eh]. apply get_In in Eh.
    destruct (Hmem _ _ Eh) as [[H'|H']|(k & e1 & H' & Hk & _)].
    - injection H' as H' _. congruence.
    - apply (Hother _ _ H').
      apply (same_name_stored (newKey big key) key e e0);
        [apply Hin0; right; now right | exact Hkey0|].
      now apply newKey_newKey, tidy_key_no_dbl.
    - apply (Hdone_other k e1 H').
      apply (same_name_stored k key e1 e0); [apply Hin0; now left | exact Hkey0 | congruence]. }
  (* the object once the turn is over *)
  assert (Hfinal : exists hc' E',
             (if (newKey big key =? key)%string then ret tt
              else let* x := hget (VRef l) key in
                   let* _ := OnStore.store_assign l (newKey big key) x in
                   hdelete (VRef l) key) (with_heap h2 w)
             = (([], Normal tt), with_heap hc' w)
             /\ List.NoDup (keys E')
             /\ In (newKey big key, e0') E'
             /\ (forall k' e', In (k', e') E -> k' <> key -> In (k', e') E')
             /\ (forall k' e', In (k', e') E' ->
                   (k' = newKey big key /\ e' = e0') \/ (k' <> key /\ In (k', e') E))
             /\ hc' !! l = Some (CObj (hprops E'))
             /\ (forall x, x <> l -> hc' !! x = h2 !! x)
             /\ length hc' = length h2).
  { destruct (newKey big key =? key)%string eqn:Enk.
    - apply String.eqb_eq in Enk. exists h2, E1. rewrite Enk. repeat split; auto.
      + unfold E1. now apply In_replace_new.
      + intros k' e' H Hne. unfold E1. now apply In_replace_other.
      + intros k' e' H. unfold E1 in H. apply In_replace_inv in H; [|exact Hnd].
        destruct H as [[-> ->]|[Hne H]]; auto.
    - pose proof (Hfresh eq_refl) as Hf. apply String.eqb_neq in Enk.
      exists (<[l := CObj (hprops (delete key (insert_new (newKey big key) e0' E1)))]> h2),
        (delete key (insert_new (newKey big key) e0' E1)).
      assert (Hf1 : has (newKey big key) E1 = false) by (unfold E1; now rewrite has_replace).
      split; [|split; [|split; [|split; [|split; [|split; [|split]]]]]].
      + rewrite (move_property l (hprops E1) key (newKey big key) (p_val e0') h2 w Hcell2).
        * unfold hprops.
          now rewrite (insert_new_vmap p_val (newKey big key) e0'), (delete_vmap p_val).
        * unfold hprops, E1. rewrite get_vmap, get_replace_eq by exact HhasE. reflexivity.
        * unfold hprops. now rewrite has_vmap.
        * apply quiet_not_proto, quiet_newKey, tidy_key_no_dbl, Htk.
      + apply NoDup_delete. now apply NoDup_insert_new.
      + apply In_delete. split; [exact Enk|]. apply In_insert_new. now left.
      + intros k' e' H Hne. apply In_delete. split; [exact Hne|]. apply In_insert_new. right.
        unfold E1. now apply In_replace_other.
      + intros k' e' H. apply In_delete in H as [Hne H]. apply In_insert_new in H as [H|H].
        * injection H as -> ->. now left.
        * unfold E1 in H. apply In_replace_inv in H; [|exact Hnd].
          destruct H as [[-> _]|[_ H]]; [contradiction | now right].
      + apply list_lookup_insert_eq. apply lookup_lt_Some in Hcell2. exact Hcell2.
      + intros x Hx. apply list_lookup_insert_ne. congruence.
      + apply length_insert. }
  destruct Hfinal as (hc' & E' & Hrun' & Hnd' & Hnew & Hkeep & Hchar & Hcell' & Hsame' & Hlen').
  exists hc', E'. split.
  - unfold OnStore.rename_turn.
    assert (Hread : read l (with_heap hc w) = (([], Normal (CObj (hprops E))), with_heap hc w))
      by (unfold read; now rewrite heap_with_heap, Hcell).
    rewrite (mbind_run _ _ _ _ _ _ Hread), preceded_nil.
    rewrite Hget, Hown. rewrite Hrun2. exact Hrun'.
  - assert (Hold : forall k' e', In (k', e') E -> k' <> key ->
                     holds hc' (p_val e') (p_doc e') (p_at e')).
    { intros k' e' H Hne. destruct (Hpart k' e' H) as (Hh & Hnl & _).
      apply (holds_frame hc); [exact Hh|]. intros x Hx.
      assert (Hxl : x <> l) by (intros ->; contradiction).
      rewrite (Hsame' x Hxl). apply Hfr2; [|exact Hxl|].
      - exact (holds_bounded _ _ _ _ Hh x Hx).
      - intros Hc. now apply (Hpair k' e' key e0 H HkeyE Hne x). }
    assert (HF2l : forall x, In x (p_at e0') -> x <> l).
    { intros x Hx ->. destruct (HF2 l Hx) as [H|H]; [contradiction | lia]. }
    exists (done ++ [(key, e0)]), todo'.
    split; [|split; [|split; [|split; [|split; [|split; [|split; [|split; [|split; [|split]]]]]]]]].
    + now rewrite <- app_assoc.
    + reflexivity.
    + exact Hnd'.
    + intros k e H. apply Hkeep; [apply Htodo; now right | now apply (Hother k e)].
    + intros k e H. apply in_app_or in H as [H|[H|[]]].
      * destruct (Hdone _ _ H) as (e' & He' & Hn). exists e'. split; [|exact Hn].
        apply Hkeep; [exact He'|]. intros Heq.
        apply (Hdone_other k e H).
        apply (same_name_stored k key e e0); [apply Hin0; now left | exact Hkey0|].
        rewrite <- Heq. symmetry. apply newKey_newKey, tidy_key_no_dbl, (Hfit0 k e), Hin0.
        now left.
      * injection H as <- <-. exists e0'. split; [exact Hnew | exact Hn2].
    + intros k' e' H. destruct (Hchar _ _ H) as [[-> ->]|[Hne H']].
      * right. exists key, e0. split; [apply in_or_app; right; now left|]. now split.
      * destruct (Hmem _ _ H') as [[H''|H'']|(k & e & H'' & Hk & Hn)].
        -- injection H'' as <- <-. contradiction.
        -- now left.
        -- right. exists k, e. split; [apply in_or_app; now left | now split].
    + exact Hcell'.
    + intros k' e' H. destruct (Hchar _ _ H) as [[-> ->]|[Hne H']].
      * split; [|split].
        -- apply (holds_frame h2); [exact Hh2|]. intros x Hx. apply Hsame'. now apply HF2l.
        -- intros Hc. now apply (HF2l l Hc).
        -- intros x Hx. destruct (HF2 x Hx) as [Hc|Hc]; [now apply Hb0 | right; lia].
      * destruct (Hpart k' e' H') as (_ & Hnl & Hb). split; [now apply (Hold k' e')|]. now split.
    + intros k1 e1 k2 e2 H1 H2 Hne x Hx1 Hx2.
      destruct (Hchar _ _ H1) as [[-> ->]|[Hne1 H1']], (Hchar _ _ H2) as [[-> ->]|[Hne2 H2']].
      * congruence.
      * destruct (HF2 x Hx1) as [Hc|Hc].
        -- now apply (Hpair key e0 k2 e2 HkeyE H2' (not_eq_sym Hne2) x).
        -- destruct (Hpart k2 e2 H2') as (Hh & _ & _).
           pose proof (holds_bounded _ _ _ _ Hh x Hx2). lia.
      * destruct (HF2 x Hx2) as [Hc|Hc].
        -- now apply (Hpair k1 e1 key e0 H1' HkeyE Hne1 x).
        -- destruct (Hpart k1 e1 H1') as (Hh & _ & _).
           pose proof (holds_bounded _ _ _ _ Hh x Hx1). lia.
      * now apply (Hpair k1 e1 k2 e2 H1' H2' Hne x).
    + lia.
    + intros x Hx Hxl Hxn. rewrite (Hsame' x Hxl). rewrite Hfr2; [now apply Hframe | lia | exact Hxl |].
      intros Hc. destruct (Hb0 x Hc) as [H|H]; [contradiction | lia].
Qed.

(** The whole loop. *)
Lemma forEach_rename_stored (rem : list string) :
  forall (hc : Heap) (E : list (string * Part)),
    Loop.renaming_stored big l E0 h0 rem hc E ->
    exists hc' E',
      forEach (OnStore.rename_turn rec big l) rem (with_heap hc w)
      = (([], Normal tt), with_heap hc' w)
      /\ Loop.renaming_stored big l E0 h0 [] hc' E'.
Proof.
  induction rem as [|key rem IH]; intros hc E Hinv.
  - exists hc, E. split; [reflexivity | exact Hinv].
  - destruct (rename_turn_stored key rem hc E Hinv) as (h1 & E1 & Hrun & Hinv1).
    destruct (IH h1 E1 Hinv1) as (hc' & E' & Hrun' & Hinv').
    exists hc', E'. split; [|exact Hinv'].
    cbn [forEach]. now rewrite (mbind_run _ _ _ _ _ _ Hrun), preceded_nil.
Qed.

End MappingFacts.

Section InPlaceNormalizes.

Import Stored Key Shape Obj.

Lemma in_places_stored (E : list (string * Part)) (k : string) (e : Part) (x : nat) :
  In (k, e) E -> In x (p_at e) -> In x (concat (places E)).
Proof.
  intros He Hx. apply in_concat. exists (p_at e). split; [|exact Hx].
  apply (in_map (fun p => p_at (snd p)) E (k, e)). exact He.
Qed.

Lemma in_tprops (E : list (string * Part)) (k : string) (v : JsValue) :
  In (k, v) (tprops E) <-> exists e, In (k, e) E /\ v = p_doc e.
Proof.
  unfold tprops. rewrite in_map_iff. split.
  - intros ([k' e] & [= <- <-] & H). eauto.
  - intros (e & H & ->). exists (k, e). auto.
Qed.

(** A mapping: its names are rewritten in the object itself. *)
Lemma mapping_inplace (n : nat) (big : bool) (l : nat) (E : list (string * Part)) (w : World) :
  (forall v t F w, holds (heap w) v t F -> fit n false t -> normalized_inplace n false w v t F) ->
  heap w !! l = Some (CObj (hprops E)) ->
  Forall (fun p => holds (heap w) (p_val (snd p)) (p_doc (snd p)) (p_at (snd p))) E ->
  ~ In l (concat (places E)) ->
  apart (places E) ->
  fit (S n) big (JObj (tprops E)) ->
  normalized_inplace (S n) big w (VRef l) (JObj (tprops E)) (l :: concat (places E)).
Proof.
  intros IHn Hl Hh Hnl Ha Hfit. rewrite List.Forall_forall in Hh.
  assert (Hprop : forall k e, In (k, e) E ->
            fit n false (p_doc e) /\ tidy_key k = true /\ separated k = true).
  { intros k e H. apply (fit_prop n big (tprops E)); [exact Hfit|]. apply in_tprops. eauto. }
  assert (Hname : forall k e, In (k, e) E -> newKey big k = Spec.camelCase big k).
  { intros k e H. apply newKey_camelCase. now destruct (Hprop k e H) as (_ & _ & ?). }
  assert (Hdistinct : List.NoDup (map (newKey big) (keys E))).
  { pose proof (fit_names _ _ _ Hfit) as H. unfold tprops in H. now rewrite keys_vmap in H. }
  assert (Hinv : Loop.renaming_stored big l E (heap w) (keys E) (heap w) E).
  { exists [], E.
    split; [reflexivity|]. split; [reflexivity|]. split; [exact (NoDup_map_inv _ _ Hdistinct)|].
    split; [auto|]. split; [intros k e []|]. split; [intros k' e' H; now left|].
    split; [exact Hl|]. split; [|split; [|split; [lia | auto]]].
    - intros k e H. split; [exact (Hh _ H)|]. split.
      + intros Hc. apply Hnl. now apply (in_places_stored E k e).
      + intros x Hx. left. now apply (in_places_stored E k e).
    - apply apart_pairwise; [exact (NoDup_map_inv _ _ Hdistinct) | exact Ha]. }
  destruct (forEach_rename_stored n big l E (heap w) w IHn
              ltac:(intros k e H; destruct (Hprop k e H) as (? & ? & _); now split)
              Hdistinct (keys E) (heap w) E Hinv)
    as (hc' & E' & Hrun & (done & todo & HE0 & Hrem & Hnd & _ & Hdone & Hmem & Hcell & Hpart
                           & Hpair & Hlen & Hframe)).
  destruct todo; [|discriminate]. rewrite app_nil_r in HE0. subst done.
  rewrite with_heap_same in Hrun.
  exists (VRef l), hc', (JObj (tprops E')), (l :: concat (places E')).
  split; [|split; [|split; [|split; [|split; [|split]]]]].
  - cbn [OnStore.toCamelCase_inplace].
    assert (Hread : read l w = (([], Normal (CObj (hprops E))), w)) by (unfold read; now rewrite Hl).
    rewrite (mbind_run _ _ _ _ _ _ Hread), preceded_nil.
    unfold hprops at 1. rewrite keys_vmap.
    now rewrite (mbind_run _ _ _ _ _ _ Hrun), preceded_nil.
  - constructor.
    + exact Hcell.
    + apply List.Forall_forall. intros [k e] H. now destruct (Hpart k e H).
    + intros Hc. apply in_concat in Hc as (F & HF & Hc).
      apply in_map_iff in HF as ([k e] & <- & He). now destruct (Hpart k e He) as (_ & ? & _).
    + now apply pairwise_apart.
  - apply Spec.normalized_mapping.
    + intros k v H. apply in_tprops in H as (e & H & ->).
      destruct (Hdone k e H) as (e' & He' & Hn). exists (p_doc e'). split; [|exact Hn].
      rewrite <- (Hname k e H). apply in_tprops. eauto.
    + intros k' v' H. apply in_tprops in H as (e' & H & ->).
      destruct (Hmem k' e' H) as [[]|(k & e & Hk & -> & Hn)].
      exists k, (p_doc e). split; [apply in_tprops; eauto|]. split; [now apply (Hname k e) | exact Hn].
    + unfold tprops. now rewrite keys_vmap.
  - exact Hlen.
  - intros x Hx Hc. apply Hframe; [exact Hx | |]; intros H; apply Hc; [now left | now right].
  - intros x [<-|Hx]; [left; now left|].
    apply in_concat in Hx as (F & HF & Hx). apply in_map_iff in HF as ([k e] & <- & He).
    destruct (Hpart k e He) as (_ & _ & Hb). destruct (Hb x Hx) as [H|H]; [left; now right | now right].
  - reflexivity.
Qed.

(** Whatever the document, as long as it is kept as a tree. *)
Lemma inplace_normalizes (n : nat) :
  forall (big : bool) (v : Val) (t : JsValue) (F : list nat) (w : World),
    holds (heap w) v t F -> fit n big t -> normalized_inplace n big w v t F.
Proof.
  induction n as [|n IH]; intros big v t F w Hh Hfit.
  - destruct Hfit as [Hd _]. lia.
  - inversion Hh as [v0 t0 Hp | l E Hl HE Hn Hs | l E Hl HE Hn Hs]; subst.
    + exists v, (heap w), t, []. rewrite with_heap_same.
      split; [|split; [|split; [|split; [|split; [|split]]]]].
      * destruct v; try reflexivity. discriminate.
      * now constructor.
      * apply Spec.normalized_scalar. exact (prim_scalar _ _ Hp).
      * apply Nat.le_refl.
      * reflexivity.
      * intros x [].
      * intros tps ->. destruct v; discriminate.
    + apply sequence_inplace; auto.
    + apply mapping_inplace; auto.
Qed.

End InPlaceNormalizes.

(** C6 (as stated, refuted).  The consumer holds [{a_b: 1, list: [{c_d: 2}]}]
    at location 2; [toCamelCase] of src/unnamed/part_001 returns that very
    object, and after the call the consumer's object has the properties
    [list] and [aB] (its [list] being a new array), and the item of the
    list, at location 0, has [cD] in place of [c_d]. *)
Lemma C6_toCamelCase_rewrites_the_argument :
  let before := heap Sample.nested in
  let run := OnStore.toCamelCase_inplace 8 (VRef 2) false Sample.nested in
  let after := heap (snd run) in
  before !! 2 = Some (CObj [("a_b", VNum 1); ("list", VRef 1)])
  /\ before !! 0 = Some (CObj [("c_d", VNum 2)])
  /\ snd (fst run) = Normal (VRef 2)
  /\ after !! 2 = Some (CObj [("list", VRef 3); ("aB", VNum 1)])
  /\ after !! 0 = Some (CObj [("cD", VNum 2)])
  /\ after !! 2 <> before !! 2.
Proof. vm_compute. repeat split; try reflexivity. discriminate. Qed.

(** C6 (amended).  [toCamelCase] of src/helper.js leaves every object that
    exists before the call as it is, whatever the argument: it fills and
    returns a new mapping.  [toCamelCase] of src/unnamed/part_001 does not.
    Called on a value that stands for a document kept as a tree in the
    store (no object used twice), whose property names, at every depth,
    have each underscore followed by a letter or a digit, are not rewritten
    to [hasOwnProperty] and stay distinct when rewritten, it returns a value
    that stands for the normalized document, kept in objects of the
    document or in new ones, and changes no object outside the document.
    For a mapping that value is the argument itself: after the call the
    object of the caller stands for the normalized document, and its names
    are, up to their order, the names it had in the camel convention. *)
Theorem C6_toCamelCase_and_the_argument
    (obj : Val) (big : bool) (t : JsValue) (F : list nat) (fuel : nat) (w : World) :
  Stored.holds (heap w) obj t F ->
  depth t < fuel ->
  Shape.tidy t = true ->
  Shape.conventional t = true ->
  Shape.collision_free big t = true ->
  (forall arg flag w0 l c, heap w0 !! l = Some c ->
     heap (snd (OnStore.toCamelCase_copy arg flag w0)) !! l = Some c)
  /\ exists v' h' t' F',
       OnStore.toCamelCase_inplace fuel obj big w = (([], Normal v'), with_heap h' w)
       /\ Stored.holds h' v' t' F'
       /\ Spec.Normalized big t t'
       /\ (forall x, x < length (heap w) -> ~ In x F -> h' !! x = heap w !! x)
       /\ (forall x, In x F' -> In x F \/ length (heap w) <= x)
       /\ (forall tps, t = JObj tps ->
             v' = obj
             /\ exists l props',
                  obj = VRef l /\ h' !! l = Some (CObj props')
                  /\ Permutation (Obj.keys props')
                       (map (Spec.camelCase big) (Obj.keys tps))).
Proof.
  intros Hh Hd Ht Hv Hc.
  split; [intros arg flag w0 l c Hl; now apply toCamelCase_copy_frame|].
  destruct (inplace_normalizes fuel big obj t F w Hh ltac:(repeat split; assumption))
    as (v' & h' & t' & F' & Hrun & Hh' & Hn & _ & Hfr & HF & Hsame).
  exists v', h', t', F'. repeat (split; [assumption|]).
  intros tps ->. specialize (Hsame tps eq_refl). subst v'. split; [reflexivity|].
  inversion Hn as [? ? Hs | |? ps qs H1 H2 Hnd]; subst; [discriminate|].
  inversion Hh' as [? ? Hp | |l E' Hl' HE' Hn' Hs']; subst; [destruct obj; discriminate|].
  exists l, (Stored.hprops E'). split; [reflexivity|]. split; [exact Hl'|].
  assert (Hkeys : Obj.keys (Stored.hprops E')
                  = Obj.keys (map (fun p => (fst p, Stored.p_doc (snd p))) E')).
  { unfold Stored.hprops. now rewrite !keys_vmap. }
  rewrite Hkeys. apply Permutation.NoDup_Permutation.
  - exact Hnd.
  - cbn [Shape.collision_free] in Hc. apply andb_true_iff in Hc as [Hc _].
    apply distinct_NoDup in Hc. rewrite <- map_map in Hc.
    replace (map (Spec.camelCase big) (Obj.keys tps))
      with (map (Key.newKey big) (Obj.keys tps)); [exact Hc|].
    apply map_ext_in. intros k Hk. apply newKey_camelCase.
    unfold Obj.keys in Hk. apply in_map_iff in Hk as ([k0 v0] & <- & Hin).
    cbn [Shape.conventional] in Hv. rewrite forallb_forall in Hv.
    specialize (Hv _ Hin). apply andb_true_iff in Hv. tauto.
  - intros k'. split.
    + intros Hk'. unfold Obj.keys in Hk'. apply in_map_iff in Hk' as ([k0 v0] & Hk0 & Hin).
      cbn [fst] in Hk0. subst k'.
      destruct (H2 _ _ Hin) as (k & v & Hkv & Hk & _). rewrite Hk. apply in_map.
      now apply (In_keys k v).
    + intros Hk'. apply in_map_iff in Hk' as (k & Hk0 & Hk). subst k'.
      unfold Obj.keys in Hk. apply in_map_iff in Hk as ([k0 v0] & Hk0 & Hin).
      cbn [fst] in Hk0. subst k.
      destruct (H1 _ _ Hin) as (v' & Hv' & _). now apply (In_keys _ v').
Qed.

Lemma C6_toCamelCase_and_the_argument_witness :
  let t := JObj [("a_b", JNum 1); ("list", JArr [JObj [("c_d", JNum 2)]])] in
  let w := Sample.nested in
  (forall arg flag w0 l c, heap w0 !! l = Some c ->
     heap (snd (OnStore.toCamelCase_copy arg flag w0)) !! l = Some c)
  /\ exists v' h' t' F',
       OnStore.toCamelCase_inplace 8 (VRef 2) false w = (([], Normal v'), with_heap h' w)
       /\ Stored.holds h' v' t' F'
       /\ Spec.Normalized false t t'
       /\ (forall x, x < length (heap w) -> ~ In x [2; 1; 0] -> h' !! x = heap w !! x)
       /\ (forall x, In x F' -> In x [2; 1; 0] \/ length (heap w) <= x)
       /\ (forall tps, t = JObj tps ->
             v' = VRef 2
             /\ exists l props',
                  VRef 2 = VRef l /\ h' !! l = Some (CObj props')
                  /\ Permutation (Obj.keys props')
                       (map (Spec.camelCase false) (Obj.keys tps))).
Proof.
  refine (C6_toCamelCase_and_the_argument (VRef 2) false
            (JObj [("a_b", JNum 1); ("list", JArr [JObj [("c_d", JNum 2)]])])
            [2; 1; 0] 8 Sample.nested _ _ eq_refl eq_refl eq_refl).
  - apply (Stored.holds_obj (heap Sample.nested) 2
             [("a_b", {| Stored.p_val := VNum 1; Stored.p_doc := JNum 1; Stored.p_at := [] |});
              ("list", {| Stored.p_val := VRef 1;
                          Stored.p_doc := JArr [JObj [("c_d", JNum 2)]];
                          Stored.p_at := [1; 0] |})]).
    + reflexivity.
    + repeat constructor.
      apply (Stored.holds_arr (heap Sample.nested) 1
               [{| Stored.p_val := VRef 0; Stored.p_doc := JObj [("c_d", JNum 2)];
                   Stored.p_at := [0] |}]).
      * reflexivity.
      * repeat constructor.
        apply (Stored.holds_obj (heap Sample.nested) 0
                 [("c_d", {| Stored.p_val := VNum 2; Stored.p_doc := JNum 2;
                             Stored.p_at := [] |})]).
        -- reflexivity.
        -- repeat constructor.
        -- cbn. tauto.
        -- cbn. tauto.
      * cbn. intuition discriminate.
      * cbn. tauto.
    + cbn. intuition discriminate.
    + cbn. tauto.
  - cbn. lia.
Defined.

(** * The rest of the helper and of the API surface: properties *)

(** ** [toUnderLine] against [toCamelCase], name by name *)

Section CaseFacts.

Import Key Case.

Lemma lower_upper (c : ascii) : is_lower c = true -> lower (upper c) = c.
Proof. by_cases_on_ascii c. Qed.

Lemma upper_lower (c : ascii) : is_upper c = true -> upper (lower c) = c.
Proof. by_cases_on_ascii c. Qed.

Lemma upper_is_upper (c : ascii) : is_lower c = true -> is_upper (upper c) = true.
Proof. by_cases_on_ascii c. Qed.

Lemma lower_is_word (c : ascii) : is_upper c = true -> is_word (lower c) = true.
Proof. by_cases_on_ascii c. Qed.

Lemma lower_plain (c : ascii) : is_upper c = false -> lower c = c.
Proof. unfold lower. now intros ->. Qed.

Lemma lower_not_underscore (c : ascii) :
  (c =? "_")%char = false -> (lower c =? "_")%char = false.
Proof. by_cases_on_ascii c. Qed.

Lemma small_not_upper (c : ascii) :
  is_lower c || is_digit c = true -> is_upper c = false /\ (c =? "_")%char = false.
Proof. by_cases_on_ascii c. Qed.

Lemma small_is_word (c : ascii) : is_lower c || is_digit c = true -> is_word c = true.
Proof. by_cases_on_ascii c. Qed.

Lemma lower_is_lower (c : ascii) : is_lower c = true -> is_word c = true.
Proof. by_cases_on_ascii c. Qed.

Lemma alnum_not_underscore (c : ascii) :
  is_lower c || is_upper c || is_digit c = true -> (c =? "_")%char = false.
Proof. by_cases_on_ascii c. Qed.

Lemma alnum_is_word (c : ascii) :
  is_lower c || is_upper c || is_digit c = true -> is_word c = true.
Proof. by_cases_on_ascii c. Qed.

Lemma upper_keeps_word (c : ascii) : is_word c = true -> is_word (upper c) = true.
Proof. by_cases_on_ascii c. Qed.

(** Past the first character, the offset of a match makes no difference. *)
Lemma underscored_later (n : nat) (s : string) :
  underscored (S n) s = underscored 1 s.
Proof.
  revert n. induction s as [|c r IH]; intros n; [reflexivity|].
  cbn [underscored Nat.eqb]. rewrite (IH (S n)), (IH 1). reflexivity.
Qed.

Lemma words_camel (s : string) : words s = true -> words (camel s) = true.
Proof.
  remember (String.length s) as n eqn:Hn. revert s Hn.
  induction n as [n IH] using lt_wf_ind. intros s Hn Hw.
  destruct s as [|a r]; [reflexivity|].
  cbn [words] in Hw. apply andb_true_iff in Hw as [Ha Hr].
  cbn [camel]. destruct (a =? "_")%char eqn:E.
  - destruct r as [|c r']; [cbn; now rewrite Ha|].
    cbn [words] in Hr. apply andb_true_iff in Hr as [Hc Hr'].
    rewrite Hc. cbn [words]. rewrite (upper_keeps_word _ Hc). cbn [andb].
    apply (IH (String.length r')); [subst n; cbn; lia | reflexivity | exact Hr'].
  - cbn [words]. rewrite Ha. cbn [andb].
    apply (IH (String.length r)); [subst n; cbn; lia | reflexivity | exact Hr].
Qed.

Lemma words_underscored (n : nat) (s : string) :
  words s = true -> words (underscored n s) = true.
Proof.
  revert n. induction s as [|c r IH]; intros n Hw; [reflexivity|].
  cbn [words] in Hw. apply andb_true_iff in Hw as [Hc Hr].
  cbn [underscored]. destruct (is_upper c), (Nat.eqb n 0); cbn [words];
    rewrite ?Hc, ?(IH _ Hr); reflexivity.
Qed.

Lemma snake_tail_words (s : string) : snake_tail s = true -> words s = true.
Proof.
  induction s as [|a r IH]; [reflexivity|]. cbn [snake_tail words].
  intros H. apply andb_true_iff in H as [Ha Hr]. rewrite (IH Hr), andb_true_r.
  destruct (a =? "_")%char eqn:E.
  - apply Ascii.eqb_eq in E. now subst a.
  - now apply small_is_word.
Qed.

Lemma alnum_words (s : string) : alnum s = true -> words s = true.
Proof.
  induction s as [|a r IH]; [reflexivity|]. cbn [alnum words].
  intros H. apply andb_true_iff in H as [Ha Hr]. now rewrite (alnum_is_word _ Ha), (IH Hr).
Qed.

(** The two rewritings undo each other after the first character. *)
Lemma under_camel_tail (s : string) :
  snake_tail s = true -> lowered (underscored 1 (camel s)) = s.
Proof.
  remember (String.length s) as n eqn:Hn. revert s Hn.
  induction n as [n IH] using lt_wf_ind. intros s Hn Hs.
  destruct s as [|a r]; [reflexivity|].
  cbn [snake_tail] in Hs. apply andb_true_iff in Hs as [Ha Hr].
  cbn [camel]. destruct (a =? "_")%char eqn:E.
  - apply Ascii.eqb_eq in E. subst a.
    destruct r as [|c r']; [discriminate|].
    rewrite (lower_is_lower _ Ha).
    cbn [snake_tail] in Hr. apply andb_true_iff in Hr as [Hc Hr'].
    cbn [underscored Nat.eqb]. rewrite (upper_is_upper _ Ha).
    cbn [lowered]. rewrite (lower_upper _ Ha), underscored_later.
    change (lower "_") with "_"%char. do 2 f_equal.
    apply (IH (String.length r')); [subst n; cbn; lia | reflexivity | exact Hr'].
  - destruct (small_not_upper _ Ha) as [Hu _].
    cbn [underscored]. rewrite Hu. cbn [lowered]. rewrite (lower_plain _ Hu), underscored_later.
    f_equal. apply (IH (String.length r)); [subst n; cbn; lia | reflexivity | exact Hr].
Qed.

Lemma camel_under_tail (s : string) :
  alnum s = true -> camel (lowered (underscored 1 s)) = s.
Proof.
  induction s as [|a r IH]; [reflexivity|]. cbn [alnum].
  intros H. apply andb_true_iff in H as [Ha Hr].
  cbn [underscored Nat.eqb]. rewrite underscored_later.
  pose proof (alnum_not_underscore _ Ha) as Hn.
  destruct (is_upper a) eqn:Hu.
  - cbn [lowered]. change (lower "_") with "_"%char. cbn [camel].
    change ("_" =? "_")%char with true. cbv iota.
    now rewrite (lower_is_word _ Hu), (upper_lower _ Hu), (IH Hr).
  - cbn [lowered]. rewrite (lower_plain _ Hu). cbn [camel].
    now rewrite Hn, (IH Hr).
Qed.

End CaseFacts.

(** A name in snake case comes back. *)
Lemma snake_comes_back (js : Platform) (k : string) :
  Case.lowers_words js ->
  Case.snake k = true ->
  underKey js (Key.camel k) = k.
Proof.
  intros Hjs Hk. unfold Case.snake in Hk. apply andb_true_iff in Hk as [Hfirst Htail].
  unfold underKey.
  rewrite Hjs by (apply words_underscored, words_camel, snake_tail_words, Htail).
  destruct k as [|a r]; [reflexivity|].
  apply negb_true_iff in Hfirst.
  cbn [Case.snake_tail] in Htail. rewrite Hfirst in Htail.
  apply andb_true_iff in Htail as [Ha Hr].
  destruct (small_not_upper _ Ha) as [Hu _].
  cbn [Key.camel]. rewrite Hfirst. cbn [underscored]. rewrite Hu.
  cbn [Case.lowered]. rewrite (lower_plain _ Hu).
  f_equal. now apply under_camel_tail.
Qed.

(** X1.  On a platform whose [toLowerCase] lowers the letters [A-Z],
    [toUnderLine] gives back the name [toCamelCase] has rewritten, for every
    name in snake case: [underKey (camel k) = k]. *)
Theorem toUnderLine_undoes_toCamelCase (js : Platform) (k : string) :
  Case.lowers_words js ->
  Case.snake k = true ->
  underKey js (Key.newKey false k) = k.
Proof.
  intros Hjs Hk. unfold Key.newKey.
  exact (snake_comes_back js k Hjs Hk).
Qed.

Lemma toUnderLine_undoes_toCamelCase_witness :
  Case.lowers_words Sample2.platform
  /\ Case.snake "chatroom_nick_name" = true
  /\ underKey Sample2.platform (Key.newKey false "chatroom_nick_name") = "chatroom_nick_name".
Proof.
  assert (H : Case.lowers_words Sample2.platform) by (intros s _; reflexivity).
  split; [exact H|]. split; [reflexivity|].
  exact (toUnderLine_undoes_toCamelCase Sample2.platform "chatroom_nick_name" H eq_refl).
Defined.

(** X2.  The other way round: [toCamelCase] gives back the name
    [toUnderLine] has rewritten, for every name made of letters and digits;
    with the flag [big] when the name starts with a capital, without it
    otherwise. *)
Theorem toCamelCase_undoes_toUnderLine (js : Platform) (k : string) :
  Case.lowers_words js ->
  Case.alnum k = true ->
  Key.newKey (Case.starts_upper k) (underKey js k) = k.
Proof.
  intros Hjs Hk. unfold underKey, Key.newKey.
  rewrite Hjs by (apply words_underscored, alnum_words, Hk).
  destruct k as [|a r]; [reflexivity|].
  cbn [Case.alnum] in Hk. apply andb_true_iff in Hk as [Ha Hr].
  cbn [Case.starts_upper underscored Nat.eqb].
  pose proof (alnum_not_underscore _ Ha) as Hn.
  assert (Hcamel : Key.camel (Case.lowered (String a (underscored 1 r)))
                   = String (Key.lower a) r).
  { cbn [Case.lowered Key.camel].
    rewrite (lower_not_underscore _ Hn).
    now rewrite (camel_under_tail _ Hr). }
  destruct (Key.is_upper a) eqn:Hu; rewrite Hcamel.
  - cbn [Key.capitalize]. now rewrite (lower_is_word _ Hu), (upper_lower _ Hu).
  - now rewrite (lower_plain _ Hu).
Qed.

Lemma toCamelCase_undoes_toUnderLine_witness :
  Case.lowers_words Sample2.platform
  /\ Case.alnum "chatroomNickName" = true
  /\ Key.newKey (Case.starts_upper "chatroomNickName")
       (underKey Sample2.platform "chatroomNickName") = "chatroomNickName".
Proof.
  assert (H : Case.lowers_words Sample2.platform) by (intros s _; reflexivity).
  split; [exact H|]. split; [reflexivity|].
  exact (toCamelCase_undoes_toUnderLine Sample2.platform "chatroomNickName" H eq_refl).
Defined.

(** ** [toUnderLine] on an object *)

Section UnderFacts.

Import Obj.
Variable js : Platform.

Lemma hassign_fresh (k : string) (v : Val) (o : list (string * Val)) :
  has k o = false -> k <> "__proto__" -> hassign k v o = Normal (insert_new k v o).
Proof.
  intros Hh Hk. unfold hassign. rewrite Hh. apply String.eqb_neq in Hk. now rewrite Hk.
Qed.

Lemma under_lookup (own : list (string * Val)) :
  has "hasOwnProperty" own = false ->
  forall (todo done newObj : list (string * Val)),
    List.NoDup (map (underKey js) (keys (done ++ todo))) ->
    Forall (fun p => underKey js (fst p) <> "__proto__") todo ->
    (forall k v, In (k, v) done -> get (underKey js k) newObj = Some v) ->
    (forall k' v', In (k', v') newObj -> exists k, In (k, v') done /\ k' = underKey js k) ->
    exists r,
      cfold (under_step js own) todo newObj = Normal r
      /\ (forall k v, In (k, v) (done ++ todo) -> get (underKey js k) r = Some v)
      /\ (forall k' v', In (k', v') r ->
            exists k, In (k, v') (done ++ todo) /\ k' = underKey js k).
Proof.
  intros Hown. induction todo as [|[k v] todo IH]; intros done newObj Hnd Hproto Hget Hin.
  - exists newObj. rewrite app_nil_r. auto.
  - inversion Hproto as [|? ? Hk Hproto']; subst. cbn [fst] in Hk.
    cbn [cfold]. unfold under_step at 1. rewrite Hown. cbn [fst snd].
    assert (Hfresh : ~ In (underKey js k) (map (underKey js) (keys done))).
    { rewrite keys_app, map_app in Hnd. cbn in Hnd. apply NoDup_remove_2 in Hnd.
      intros H. apply Hnd. apply in_or_app. now left. }
    assert (Hhas : has (underKey js k) newObj = false).
    { destruct (has (underKey js k) newObj) eqn:E; [|reflexivity].
      apply has_true_get in E as [v0 E]. apply get_In in E.
      destruct (Hin _ _ E) as (k0 & Hk0 & Heq). exfalso. apply Hfresh.
      rewrite Heq. apply in_map. change k0 with (fst (k0, v0)). now apply in_map. }
    rewrite (hassign_fresh _ _ _ Hhas Hk). cbn [cbind].
    destruct (IH (done ++ [(k, v)]) (insert_new (underKey js k) v newObj)) as (r & Hr & H1 & H2).
    + now rewrite <- app_assoc.
    + exact Hproto'.
    + intros k1 v1 H. apply in_app_or in H as [H|[H|[]]].
      * rewrite get_insert_new_ne; [now apply Hget|].
        intros Heq. apply Hfresh. rewrite <- Heq. apply in_map.
        change k1 with (fst (k1, v1)). now apply in_map.
      * injection H as <- <-. now apply get_insert_new_eq.
    + intros k' v' H.
      apply (Permutation_in _ (insert_new_perm (underKey js k) v newObj)) in H.
      destruct H as [H|H].
      * injection H as <- <-. exists k. split; [|reflexivity]. apply in_or_app. right. now left.
      * destruct (Hin _ _ H) as (k0 & Hk0 & Heq). exists k0. split; [|exact Heq].
        apply in_or_app. now left.
    + exists r. rewrite <- app_assoc in H1, H2. cbn [app] in H1, H2. auto.
Qed.

Lemma insert_last {A : Type} (h : list A) (x y : A) :
  <[length h := y]> (h ++ [x]) = h ++ [y].
Proof.
  replace (length h) with (length h + 0) by lia. now rewrite insert_app_r.
Qed.

Lemma lookup_old {A : Type} (h h' : list A) (l : nat) (c : A) :
  h !! l = Some c -> (h ++ h') !! l = Some c.
Proof. intros H. now apply lookup_app_l_Some. Qed.

End UnderFacts.

(** What [toUnderLine] does to an object and to the store. *)
Lemma toUnderLine_run
    (js : Platform) (l : nat) (props : list (string * Val)) (w : World) :
  heap w !! l = Some (CObj props) ->
  Obj.has "hasOwnProperty" props = false ->
  List.NoDup (map (underKey js) (Obj.keys props)) ->
  Forall (fun p => underKey js (fst p) <> "__proto__") props ->
  exists r,
    toUnderLine js (VRef l) w
    = (([], Normal (VRef (length (heap w)))), with_heap (heap w ++ [CObj r]) w)
    /\ (forall k v, In (k, v) props -> Obj.get (underKey js k) r = Some v)
    /\ (forall k' v', In (k', v') r -> exists k, In (k, v') props /\ k' = underKey js k).
Proof.
  intros Hl Hown Hnd Hproto.
  destruct (under_lookup js props Hown props [] []) as (r & Hr & H1 & H2); auto.
  - intros k v [].
  - intros k v [].
  - exists r. split; [|auto].
    unfold toUnderLine, mbind, alloc, read, write, modify, liftC, ret.
    destruct w as [sub wt tm ts ps rs jb ck wf ob us hp]. cbn in Hl |- *.
    rewrite (lookup_old _ _ _ _ Hl). cbn [hentries]. rewrite Hr. cbn.
    now rewrite insert_last.
Qed.

(** X3.  [toUnderLine(obj)] of an object whose rewritten names are pairwise
    distinct returns a new object and changes no object that existed: the
    new object holds, for every property of [obj], the same value under the
    rewritten name, and nothing else. *)
Theorem toUnderLine_copies_into_new_object
    (js : Platform) (l : nat) (props : list (string * Val)) (w : World) :
  heap w !! l = Some (CObj props) ->
  Obj.has "hasOwnProperty" props = false ->
  List.NoDup (map (underKey js) (Obj.keys props)) ->
  Forall (fun p => underKey js (fst p) <> "__proto__") props ->
  exists r,
    toUnderLine js (VRef l) w
    = (([], Normal (VRef (length (heap w)))), with_heap (heap w ++ [CObj r]) w)
    /\ (forall k v, In (k, v) props -> Obj.get (underKey js k) r = Some v)
    /\ (forall k' v', In (k', v') r -> exists k, In (k, v') props /\ k' = underKey js k).
Proof.
  intros Hl Hown Hnd Hproto.
  destruct (toUnderLine_run js l props w Hl Hown Hnd Hproto) as (r & Hr & H1 & H2).
  exists r. auto.
Qed.

Lemma toUnderLine_copies_into_new_object_witness :
  let item := [("msgId", VStr "4032724472820776289"); ("data", VStr "base64 of the thumbnail");
               ("mType", VNum 3)] in
  exists r,
    toUnderLine Sample2.platform (VRef 0) Sample.holding_push
    = (([], Normal (VRef (length (heap Sample.holding_push)))),
       with_heap (heap Sample.holding_push ++ [CObj r]) Sample.holding_push)
    /\ (forall k v, In (k, v) item -> Obj.get (underKey Sample2.platform k) r = Some v)
    /\ (forall k' v', In (k', v') r ->
          exists k, In (k, v') item /\ k' = underKey Sample2.platform k).
Proof.
  refine (toUnderLine_copies_into_new_object Sample2.platform 0 _ Sample.holding_push
            eq_refl eq_refl _ _).
  - repeat constructor; cbn; intuition discriminate.
  - repeat constructor; discriminate.
Defined.

(** ** [structureXml] *)

Section XmlFacts.

Import Text.
Local Open Scope string_scope.

Lemma Normal_inj {A : Type} (x y : A) : Normal x = Normal y -> x = y.
Proof. now intros [= ->]. Qed.

Lemma append_assoc (a b c : string) : (a ++ b) ++ c = a ++ (b ++ c).
Proof. induction a as [|x a IH]; [reflexivity|]. cbn. now rewrite IH. Qed.

Lemma strip_LF_app (a b : string) : strip_LF (a ++ b) = strip_LF a ++ strip_LF b.
Proof.
  induction a as [|x a IH]; [reflexivity|]. cbn.
  destruct (x =? "010")%char; cbn; now rewrite IH.
Qed.

Lemma strip_LF_strip_LF (s : string) : strip_LF (strip_LF s) = strip_LF s.
Proof.
  induction s as [|x s IH]; [reflexivity|]. cbn.
  destruct (x =? "010")%char eqn:E; [exact IH|]. cbn. now rewrite E, IH.
Qed.

Lemma strip_LF_clean (s : string) : ~ In "010"%char (chars (strip_LF s)).
Proof.
  induction s as [|x s IH]; [intros []|]. cbn.
  destruct (x =? "010")%char eqn:E; [exact IH|].
  cbn. intros [H|H]; [|now apply IH]. subst x. discriminate.
Qed.

(** What the text of a message body is made of: the texts of the six
    fields with their line feeds taken out. *)
Lemma strip_appmsg (a s t d u h : string) :
  strip_LF (appmsg a s t d u h)
  = "<appmsg appid=" ++ quote ++ strip_LF a ++ quote
      ++ " sdkver=" ++ quote ++ strip_LF s ++ quote ++ ">"
      ++ "<title>" ++ strip_LF t ++ "</title>"
      ++ "<des>" ++ strip_LF d ++ "</des>"
      ++ "<action>view</action><type>5</type><showtype>0</showtype><content></content>"
      ++ "<url>" ++ strip_LF u ++ "</url>"
      ++ "<thumburl>" ++ strip_LF h ++ "</thumburl>"
      ++ "</appmsg>".
Proof.
  unfold appmsg. cbn [String.concat].
  rewrite !strip_LF_app, !append_assoc. reflexivity.
Qed.

Lemma destructure_mapping (h : Heap) (l : nat) (props : list (string * Val)) (k : string) :
  h !! l = Some (CObj props) ->
  destructure h (VRef l) k
  = Normal (match Obj.get k props with
            | Some VUndefined | None => VStr ""
            | Some x => x
            end).
Proof. intros H. unfold destructure. now rewrite H. Qed.

Lemma get_map_values {V : Type} (f : V -> V) (k : string) (o : list (string * V)) :
  Obj.get k (map (fun p => (fst p, f (snd p))) o) = option_map f (Obj.get k o).
Proof.
  induction o as [|[k' v] o IH]; [reflexivity|]. cbn.
  destruct (k' =? k); [reflexivity | exact IH].
Qed.

Lemma to_text_unbroken (v : Val) :
  match to_text v with
  | Normal s => exists s', to_text (unbroken v) = Normal s' /\ strip_LF s' = strip_LF s
  | other => to_text (unbroken v) = other
  end.
Proof.
  destruct v as [| |b|n|s|l]; cbn; eauto.
  - destruct (Z.abs n <=? 9007199254740992)%Z; eauto.
  - eexists. split; [reflexivity|]. apply strip_LF_strip_LF.
Qed.

End XmlFacts.

(** X4.  Whatever [structureXml] returns has no line feed in it: those of
    the template and those of the fields are all taken out. *)
Theorem structureXml_has_no_line_feed (h : Heap) (obj : Val) (s : string) :
  structureXml h obj = Normal s ->
  ~ In "010"%char (Text.chars s).
Proof.
  unfold structureXml.
  repeat (match goal with
          | |- context [cbind ?m _] =>
              destruct m as [?| | |]; cbn [cbind]; try discriminate
          end).
  intros H. apply Normal_inj in H. subst s. apply strip_LF_clean.
Qed.

Lemma structureXml_has_no_line_feed_witness :
  structureXml (heap Sample2.holding) (VRef 2)
  = Normal (Text.strip_LF (appmsg "" "" (String "a" (String "010" (String "b" EmptyString)))
                             "" "u" ""))
  /\ ~ In "010"%char
       (Text.chars (Text.strip_LF
                      (appmsg "" "" (String "a" (String "010" (String "b" EmptyString)))
                         "" "u" ""))).
Proof.
  split; [reflexivity|].
  exact (structureXml_has_no_line_feed (heap Sample2.holding) (VRef 2) _ eq_refl).
Defined.

(** X5.  A field the object does not have is written as the empty string:
    for an object with none of the six properties, for an array and for a
    number, a boolean or a string, [structureXml] returns the message body
    with nothing filled in. *)
Theorem structureXml_defaults (h : Heap) (obj : Val) :
  match obj with
  | VRef l =>
      match h !! l with
      | Some (CObj props) =>
          Forall (fun k => Obj.get k props = None)
            ["appid"; "sdkver"; "title"; "des"; "url"; "thumburl"]
      | Some (CArr _) => True
      | None => False
      end
  | VUndefined | VNull => False
  | _ => True
  end ->
  structureXml h obj = Normal empty_appmsg.
Proof.
  destruct obj as [| |b|n|s|l]; try contradiction; try reflexivity.
  destruct (h !! l) as [[props|items]|] eqn:E; try contradiction.
  - intros H. unfold structureXml. rewrite !(destructure_mapping _ _ _ _ E).
    rewrite !Forall_cons in H. destruct H as (H1 & H2 & H3 & H4 & H5 & H6 & _).
    cbv beta in *. rewrite H1, H2, H3, H4, H5, H6. reflexivity.
  - intros _. unfold structureXml, destructure. rewrite E. reflexivity.
Qed.

Lemma structureXml_defaults_witness :
  structureXml (heap Sample2.holding) (VRef 0) = Normal empty_appmsg.
Proof.
  apply (structureXml_defaults (heap Sample2.holding) (VRef 0)).
  cbn. repeat constructor.
Defined.

(** X6.  Nothing is escaped.  A title that contains a closing tag is
    written as it is, so two different descriptions of a link give the same
    message body: the text [</title><des>] inside the title reads like the
    boundary between title and description. *)
Theorem structureXml_does_not_escape
    (h h' : Heap) (l l' : nat) (props props' : list (string * Val)) (t x y : string) :
  h !! l = Some (CObj props) ->
  h' !! l' = Some (CObj props') ->
  Obj.get "title" props = Some (VStr (t ++ "</title><des>" ++ x)) ->
  Obj.get "des" props = Some (VStr y) ->
  Obj.get "title" props' = Some (VStr t) ->
  Obj.get "des" props' = Some (VStr (x ++ "</title><des>" ++ y)) ->
  Forall (fun k => Obj.get k props' = Obj.get k props) ["appid"; "sdkver"; "url"; "thumburl"] ->
  structureXml h' (VRef l') = structureXml h (VRef l).
Proof.
  intros Hl Hl' Ht Hd Ht' Hd' Hrest.
  unfold structureXml.
  rewrite !(destructure_mapping _ _ _ _ Hl), !(destructure_mapping _ _ _ _ Hl').
  rewrite !Forall_cons in Hrest. destruct Hrest as (H1 & H2 & H3 & H4 & _).
  cbv beta in *. rewrite H1, H2, H3, H4, Ht, Hd, Ht', Hd'. cbn [cbind Text.to_text].
  repeat (match goal with
          | |- context [cbind (Text.to_text ?v) _] =>
              destruct (Text.to_text v) as [?| | |]; cbn [cbind]; try reflexivity
          end).
  f_equal. rewrite !strip_appmsg, !strip_LF_app, !append_assoc. reflexivity.
Qed.

Lemma structureXml_does_not_escape_witness :
  structureXml [CObj [("title", VStr "a"); ("des", VStr ("b" ++ "</title><des>" ++ "c"))]] (VRef 0)
  = structureXml [CObj [("title", VStr ("a" ++ "</title><des>" ++ "b")); ("des", VStr "c")]]
      (VRef 0).
Proof.
  apply (structureXml_does_not_escape
           [CObj [("title", VStr ("a" ++ "</title><des>" ++ "b")); ("des", VStr "c")]]
           [CObj [("title", VStr "a"); ("des", VStr ("b" ++ "</title><des>" ++ "c"))]]
           0 0 _ _ "a" "b" "c" eq_refl eq_refl eq_refl eq_refl eq_refl eq_refl).
  repeat constructor.
Defined.

(** X7.  A line feed inside a field is dropped with those of the template:
    the object with the line feeds taken out of its texts gives the same
    message body. *)
Theorem structureXml_drops_line_feeds_of_fields
    (h : Heap) (l : nat) (props : list (string * Val)) :
  h !! l = Some (CObj props) ->
  structureXml (<[l := CObj (map (fun p => (fst p, unbroken (snd p))) props)]> h) (VRef l)
  = structureXml h (VRef l).
Proof.
  intros Hl.
  assert (Hl' : <[l := CObj (map (fun p => (fst p, unbroken (snd p))) props)]> h !! l
                = Some (CObj (map (fun p => (fst p, unbroken (snd p))) props))).
  { apply list_lookup_insert_eq. now apply lookup_lt_Some in Hl. }
  unfold structureXml.
  rewrite !(destructure_mapping _ _ _ _ Hl), !(destructure_mapping _ _ _ _ Hl').
  rewrite !get_map_values. cbn [cbind].
  assert (Hfield : forall k,
             match option_map unbroken (Obj.get k props) with
             | Some VUndefined | None => VStr ""
             | Some x => x
             end
             = unbroken match Obj.get k props with
                        | Some VUndefined | None => VStr ""
                        | Some x => x
                        end).
  { intros k. destruct (Obj.get k props) as [[| |b|n|s|r]|]; reflexivity. }
  rewrite !Hfield.
  repeat (match goal with
          | |- context [cbind (Text.to_text (unbroken ?v)) _] =>
              let H := fresh "H" in
              pose proof (to_text_unbroken v) as H;
              destruct (Text.to_text v) as [?| | |];
              [destruct H as (? & -> & ?) | rewrite H; reflexivity ..];
              cbn [cbind]
          end).
  f_equal. rewrite !strip_appmsg. congruence.
Qed.

Lemma structureXml_drops_line_feeds_of_fields_witness :
  structureXml (<[2 := CObj [("title", VStr "ab"); ("url", VStr "u")]]> (heap Sample2.holding))
    (VRef 2)
  = structureXml (heap Sample2.holding) (VRef 2).
Proof.
  exact (structureXml_drops_line_feeds_of_fields (heap Sample2.holding) 2 _ eq_refl).
Defined.

(** ** [login] *)

Section LoginFacts.

Variable sendCmd : Platform -> string -> Val -> M nat.
Variable js : Platform.

Lemma lacks_run (ld : nat) (dprops : list (string * Val)) (k : string) (w : World) :
  heap w !! ld = Some (CObj dprops) ->
  Api.lacks (VRef ld) k w = (([], Normal (negb (Api.provided dprops k))), w).
Proof.
  intros H. unfold Api.lacks, mbind, hget, ret, Api.provided. rewrite H.
  now destruct (Obj.get k dprops).
Qed.

Lemma lacks_either_run (ld : nat) (dprops : list (string * Val)) (a b : string) (w : World) :
  heap w !! ld = Some (CObj dprops) ->
  Api.lacks_either (VRef ld) a b w
  = (([], Normal (negb (Api.provided dprops a && Api.provided dprops b))), w).
Proof.
  intros H. unfold Api.lacks_either.
  rewrite (mbind_run _ _ _ _ _ _ (lacks_run ld dprops a w H)). unfold preceded.
  destruct (Api.provided dprops a); cbn [negb andb].
  - now rewrite (lacks_run ld dprops b w H).
  - reflexivity.
Qed.

(** The five ways of logging in. *)
Lemma loginType_cases (type name : string) :
  Obj.get type Api.loginType = Some name ->
  name = type
  /\ (type = "token" \/ type = "request" \/ type = "qrcode" \/ type = "phone" \/ type = "user").
Proof.
  unfold Api.loginType. cbn [Obj.get].
  repeat (match goal with
          | |- context [if (?k =? type)%string then _ else _] =>
              let E := fresh "E" in
              destruct (k =? type)%string eqn:E;
              [apply String.eqb_eq in E; subst type; intros [= <-]; split; auto 6 |]
          end).
  discriminate.
Qed.

(** The check of [data] that [login] makes, for an object. *)
Lemma login_check (type : string) (ld : nat) (dprops : list (string * Val)) (w : World) :
  heap w !! ld = Some (CObj dprops) ->
  (if Api.is_vstr (VStr type) "token" || Api.is_vstr (VStr type) "request"
   then Api.lacks_either (VRef ld) "token" "wxData"
   else if Api.is_vstr (VStr type) "phone" then Api.lacks (VRef ld) "phone"
   else if Api.is_vstr (VStr type) "user" then Api.lacks_either (VRef ld) "username" "password"
   else ret false) w
  = (([], Normal (negb (forallb (Api.provided dprops) (Api.credentials type)))), w).
Proof.
  intros H. unfold Api.credentials, Api.is_vstr.
  destruct ((type =? "token")%string || (type =? "request")%string).
  - rewrite (lacks_either_run _ _ _ _ _ H). cbn [forallb]. now rewrite andb_true_r.
  - destruct (type =? "phone")%string.
    + rewrite (lacks_run _ _ _ _ H). cbn [forallb]. now rewrite andb_true_r.
    + destruct (type =? "user")%string.
      * rewrite (lacks_either_run _ _ _ _ _ H). cbn [forallb]. now rewrite andb_true_r.
      * reflexivity.
Qed.

End LoginFacts.

(** X8.  [login] with a type that is none of [token], [request], [qrcode],
    [phone], [user] (and no name of [Object.prototype]) returns a promise
    that is already rejected with [login type error!]: [sendCmd] is not
    called, nothing is sent, and [data] is not read or written. *)
Theorem login_rejects_unknown_type
    (sendCmd : Platform -> string -> Val -> M nat) (js : Platform)
    (type data : Val) (key : string) (w : World) :
  Text.to_text (match type with VUndefined => VStr "qrcode" | _ => type end) = Normal key ->
  Obj.get key Api.loginType = None ->
  existsb (String.eqb key) Api.inherited = false ->
  Api.login sendCmd js type data w
  = (([], Normal (length (promises w))),
     with_promises (promises w ++ [Rejected Api.login_type_error])
       (match data with
        | VUndefined => with_heap (heap w ++ [CObj []]) w
        | _ => w
        end)).
Proof.
  intros Hkey Hget Hinh. unfold Api.login, async, try_catch.
  destruct data; cbn -[Text.to_text Obj.get existsb];
    rewrite Hkey; cbn -[Obj.get existsb]; rewrite Hget, Hinh; reflexivity.
Qed.

Lemma login_rejects_unknown_type_witness :
  Api.login IndexA.sendCmd Sample2.platform (VStr "sms") (VRef 0) Sample2.holding
  = (([], Normal (length (promises Sample2.holding))),
     with_promises (promises Sample2.holding ++ [Rejected Api.login_type_error])
       Sample2.holding).
Proof.
  exact (login_rejects_unknown_type IndexA.sendCmd Sample2.platform (VStr "sms") (VRef 0)
           "sms" Sample2.holding eq_refl eq_refl eq_refl).
Defined.

(** X9.  [login] with one of the five types and a [data] object that lacks
    one of the credentials the type asks for returns a promise that is
    already rejected with [login data error!]: [sendCmd] is not called,
    nothing is sent, and the object is left as it was. *)
Theorem login_rejects_missing_credentials
    (sendCmd : Platform -> string -> Val -> M nat) (js : Platform)
    (type name : string) (ld : nat) (dprops : list (string * Val)) (w : World) :
  Obj.get type Api.loginType = Some name ->
  heap w !! ld = Some (CObj dprops) ->
  forallb (Api.provided dprops) (Api.credentials type) = false ->
  Api.login sendCmd js (VStr type) (VRef ld) w
  = (([], Normal (length (promises w))),
     with_promises (promises w ++ [Rejected Api.login_data_error]) w).
Proof.
  intros Hty Hl Hcred. unfold Api.login, async, try_catch.
  rewrite mbind_ret. cbn [Text.to_text]. rewrite mbind_liftC_Normal, Hty.
  rewrite (mbind_run _ _ _ _ _ _ (login_check type ld dprops w Hl)).
  rewrite Hcred. reflexivity.
Qed.

Lemma login_rejects_missing_credentials_witness :
  Api.login IndexA.sendCmd Sample2.platform (VStr "request") (VRef 1) Sample2.holding
  = (([], Normal (length (promises Sample2.holding))),
     with_promises (promises Sample2.holding ++ [Rejected Api.login_data_error])
       Sample2.holding).
Proof.
  exact (login_rejects_missing_credentials IndexA.sendCmd Sample2.platform "request" "request"
           1 [("token", VStr "t")] Sample2.holding eq_refl eq_refl eq_refl).
Defined.

(** X10.  [login] with one of the five types and a [data] object that has
    the credentials the type asks for writes the type into that very
    object, under [loginType], and hands the object to [sendCmd] with the
    command [login]; what [sendCmd] throws rejects the promise returned. *)
Theorem login_hands_over_to_sendCmd
    (sendCmd : Platform -> string -> Val -> M nat) (js : Platform)
    (type name : string) (ld : nat) (dprops : list (string * Val)) (w : World) :
  Obj.get type Api.loginType = Some name ->
  heap w !! ld = Some (CObj dprops) ->
  forallb (Api.provided dprops) (Api.credentials type) = true ->
  Api.login sendCmd js (VStr type) (VRef ld) w
  = async (sendCmd js "login" (VRef ld))
      (with_heap (<[ld := CObj (Obj.set "loginType" (VStr type) dprops)]> (heap w)) w).
Proof.
  intros Hty Hl Hcred. destruct (loginType_cases _ _ Hty) as [-> _].
  unfold Api.login, async, try_catch.
  match goal with
  | |- match ?b w with _ => _ end = _ =>
      assert (Hbody : b w = sendCmd js "login" (VRef ld)
                              (with_heap (<[ld := CObj (Obj.set "loginType" (VStr type) dprops)]>
                                            (heap w)) w))
  end.
  { rewrite mbind_ret. cbn [Text.to_text]. rewrite mbind_liftC_Normal, Hty.
    rewrite (mbind_run _ _ _ _ _ _ (login_check type ld dprops w Hl)).
    rewrite Hcred, preceded_nil. cbn [negb].
    assert (Hset : hset (VRef ld) "loginType" (VStr type) w
                   = (([], Normal tt),
                      with_heap (<[ld := CObj (Obj.set "loginType" (VStr type) dprops)]>
                                   (heap w)) w))
      by (unfold hset; now rewrite Hl).
    now rewrite (mbind_run _ _ _ _ _ _ Hset), preceded_nil. }
  now rewrite Hbody.
Qed.

Lemma login_hands_over_to_sendCmd_witness :
  Api.login IndexA.sendCmd Sample2.platform (VStr "request") (VRef 0) Sample2.holding
  = async (IndexA.sendCmd Sample2.platform "login" (VRef 0))
      (with_heap (<[0 := CObj (Obj.set "loginType" (VStr "request")
                                [("token", VStr "t"); ("wxData", VStr "w")])]>
                    (heap Sample2.holding)) Sample2.holding).
Proof.
  exact (login_hands_over_to_sendCmd IndexA.sendCmd Sample2.platform "request" "request"
           0 [("token", VStr "t"); ("wxData", VStr "w")] Sample2.holding
           eq_refl eq_refl eq_refl).
Defined.

(** ** The other cases of the router *)

Section RouteFacts.

Import PushItem.

Lemma lifecycle_plain (e : string) :
  In e lifecycle_events ->
  (forall c, (ret_name c =? e)%string = false) /\ (e =? "error")%string = false
  /\ existsb (is_str (JStr e)) lifecycle_events = true
  /\ is_str (JStr e) "warn" = false.
Proof.
  unfold lifecycle_events. cbn [In].
  intros H. repeat (destruct H as [<-|H]; [repeat split; intros; reflexivity|]).
  contradiction.
Qed.

End RouteFacts.

(** The common start of every case: the frame is decoded, its payload is
    normalized, ['msg'] is emitted, and the [type] is read. *)
Ltac route_start onWsMsg camel_member Hp Hc :=
  unfold onWsMsg, decode; rewrite Hp, Hc, mbind_liftC_Normal;
  rewrite (mbind_run _ _ _ _ _ _ (emit_plain "msg" _ _ ltac:(intros; reflexivity) eq_refl)).

(** X11.  A frame whose text is the JSON of [null] is decoded without
    error and then makes [onWsMsg] throw a TypeError, on reading
    [data.data]: no event is emitted, not even ['error'], whoever listens. *)
Theorem null_frame_makes_router_throw (js : Platform) (s : string) (w : World) :
  JSON_parse js s = Parsed_ok JNull ->
  IndexA.onWsMsg js (WsText s) w
  = (([], Throw (TypeError "Cannot read property of undefined or null")), w)
  /\ IndexB.onWsMsg js (WsText s) w
     = (([], Throw (TypeError "Cannot read property of undefined or null")), w).
Proof.
  intros Hp. split.
  - unfold IndexA.onWsMsg, decode. now rewrite Hp.
  - unfold IndexB.onWsMsg, decode. now rewrite Hp.
Qed.

Lemma null_frame_makes_router_throw_witness :
  IndexA.onWsMsg Sample2.platform (WsText "null") Sample.attended
  = (([], Throw (TypeError "Cannot read property of undefined or null")), Sample.attended)
  /\ IndexB.onWsMsg Sample2.platform (WsText "null") Sample.attended
     = (([], Throw (TypeError "Cannot read property of undefined or null")), Sample.attended).
Proof.
  exact (null_frame_makes_router_throw Sample2.platform "null" Sample.attended eq_refl).
Defined.

(** X12.  A frame the [switch] has no case for (a [type] other than
    [cmdRet] and [userEvent], or a [userEvent] with an [event] the router
    does not know) is emitted as ['msg'] and then as ['other'], and changes
    nothing.  Stated for a frame whose payload [toCamelCase] returns on. *)
Theorem unrecognised_frame_goes_to_other
    (js : Platform) (s : string) (data dataA dataB type event : JsValue) (w : World) :
  JSON_parse js s = Parsed_ok data ->
  member data "type" = Normal type ->
  member data "event" = Normal event ->
  Route.recognised type event = false ->
  IndexA.camel_payload data = Normal dataA ->
  IndexB.camel_payload data = Normal dataB ->
  IndexA.onWsMsg js (WsText s) w
  = (([("msg", [PValue dataA]); ("other", [PValue dataA])], Normal tt), w)
  /\ IndexB.onWsMsg js (WsText s) w
     = (([("msg", [PValue dataB]); ("other", [PValue dataB])], Normal tt), w).
Proof.
  intros Hp Hty Hev Hrec HA HB. unfold Route.recognised in Hrec.
  apply orb_false_iff in Hrec as [Hret Huser].
  split.
  - route_start IndexA.onWsMsg camel_payload_A_member Hp HA.
    rewrite (camel_payload_A_member _ _ "type" HA) by discriminate.
    rewrite Hty, mbind_liftC_Normal, Hret.
    destruct (is_str type "userEvent").
    + cbn [andb] in Huser. apply orb_false_iff in Huser as [Huser Hpush].
      apply orb_false_iff in Huser as [Hwarn Hlife].
      rewrite (camel_payload_A_member _ _ "event" HA) by discriminate.
      rewrite Hev, mbind_liftC_Normal, Hwarn, Hlife, Hpush.
      now rewrite (mbind_run _ _ _ _ _ _
                     (emit_plain "other" _ _ ltac:(intros; reflexivity) eq_refl)).
    + now rewrite (mbind_run _ _ _ _ _ _
                     (emit_plain "other" _ _ ltac:(intros; reflexivity) eq_refl)).
  - route_start IndexB.onWsMsg camel_payload_B_member Hp HB.
    rewrite (camel_payload_B_member _ _ "type" HB) by discriminate.
    rewrite Hty, mbind_liftC_Normal, Hret.
    destruct (is_str type "userEvent").
    + cbn [andb] in Huser. apply orb_false_iff in Huser as [Huser Hpush].
      apply orb_false_iff in Huser as [Hwarn Hlife].
      rewrite (camel_payload_B_member _ _ "event" HB) by discriminate.
      rewrite Hev, mbind_liftC_Normal, Hwarn, Hlife, Hpush.
      now rewrite (mbind_run _ _ _ _ _ _
                     (emit_plain "other" _ _ ltac:(intros; reflexivity) eq_refl)).
    + now rewrite (mbind_run _ _ _ _ _ _
                     (emit_plain "other" _ _ ltac:(intros; reflexivity) eq_refl)).
Qed.

Lemma unrecognised_frame_goes_to_other_witness :
  IndexA.onWsMsg Sample2.platform (WsText "sys event") Sample.attended
  = (([("msg", [PValue Sample2.sys_event]); ("other", [PValue Sample2.sys_event])], Normal tt),
     Sample.attended)
  /\ IndexB.onWsMsg Sample2.platform (WsText "sys event") Sample.attended
     = (([("msg", [PValue Sample2.sys_event]); ("other", [PValue Sample2.sys_event])],
         Normal tt), Sample.attended).
Proof.
  exact (unrecognised_frame_goes_to_other Sample2.platform "sys event" Sample2.sys_event
           Sample2.sys_event Sample2.sys_event (JStr "sysEvent") (JStr "heartbeat")
           Sample.attended eq_refl eq_refl eq_refl eq_refl eq_refl eq_refl).
Defined.

(** X13.  A [userEvent] frame whose [event] is one of [qrcode], [scan],
    [login], [loaded], [logout], [over], [sns] is emitted as ['msg'] and then
    under the name of the event, with the normalized payload and the [msg]
    of the frame; a frame without payload is given the empty object, so the
    listener never receives [undefined].  Stated for a frame whose payload
    [toCamelCase] returns on. *)
Theorem lifecycle_event_is_forwarded
    (js : Platform) (s : string) (data dataA dataB : JsValue) (e : string) (w : World) :
  JSON_parse js s = Parsed_ok data ->
  member data "type" = Normal (JStr "userEvent") ->
  member data "event" = Normal (JStr e) ->
  In e lifecycle_events ->
  IndexA.camel_payload data = Normal dataA ->
  IndexB.camel_payload data = Normal dataB ->
  IndexA.onWsMsg js (WsText s) w
  = (([("msg", [PValue dataA]);
       (e, [PValue (Route.payload dataA); PValue (PushItem.field "msg" dataA)])],
      Normal tt), w)
  /\ IndexB.onWsMsg js (WsText s) w
     = (([("msg", [PValue dataB]);
          (e, [PValue (Route.payload dataB); PValue (PushItem.field "msg" dataB)])],
         Normal tt), w)
  /\ Route.payload dataA <> JUndefined /\ Route.payload dataB <> JUndefined.
Proof.
  intros Hp Hty Hev He HA HB.
  destruct (lifecycle_plain e He) as (Hret & Herr & Hlife & Hwarn).
  assert (Hdef : forall d, Route.payload d <> JUndefined).
  { intros d. unfold Route.payload.
    destruct (PushItem.field "data" d); cbn; try discriminate.
    - destruct b; discriminate.
    - destruct (negb (n =? 0)%Z); discriminate.
    - destruct (negb (s0 =? "")%string); discriminate. }
  split; [|split; [|split; apply Hdef]].
  - route_start IndexA.onWsMsg camel_payload_A_member Hp HA.
    pose proof (camel_payload_A_member _ _ "type" HA ltac:(discriminate)) as Ety.
    pose proof (camel_payload_A_member _ _ "event" HA ltac:(discriminate)) as Eev.
    rewrite Hty in Ety. rewrite Hev in Eev.
    destruct (member_type_mapping _ _ _ Ety) as [props ->].
    rewrite Ety, mbind_liftC_Normal. cbn [is_str String.eqb Ascii.eqb Bool.eqb].
    rewrite Eev, mbind_liftC_Normal, Hwarn, Hlife.
    rewrite !member_mapping, !mbind_liftC_Normal.
    now rewrite (mbind_run _ _ _ _ _ _ (emit_plain e _ _ Hret Herr)).
  - route_start IndexB.onWsMsg camel_payload_B_member Hp HB.
    pose proof (camel_payload_B_member _ _ "type" HB ltac:(discriminate)) as Ety.
    pose proof (camel_payload_B_member _ _ "event" HB ltac:(discriminate)) as Eev.
    rewrite Hty in Ety. rewrite Hev in Eev.
    destruct (member_type_mapping _ _ _ Ety) as [props ->].
    rewrite Ety, mbind_liftC_Normal. cbn [is_str String.eqb Ascii.eqb Bool.eqb].
    rewrite Eev, mbind_liftC_Normal, Hwarn, Hlife.
    rewrite !member_mapping, !mbind_liftC_Normal.
    now rewrite (mbind_run _ _ _ _ _ _ (emit_plain e _ _ Hret Herr)).
Qed.

Lemma lifecycle_event_is_forwarded_witness :
  IndexA.onWsMsg Sample2.platform (WsText "logged in") Sample.attended
  = (([("msg", [PValue Sample2.logged_in]); ("login", [PValue (JObj []); PValue (JStr "ok")])],
      Normal tt), Sample.attended)
  /\ IndexB.onWsMsg Sample2.platform (WsText "logged in") Sample.attended
     = (([("msg", [PValue Sample2.logged_in]);
          ("login", [PValue (JObj []); PValue (JStr "ok")])],
         Normal tt), Sample.attended)
  /\ Route.payload Sample2.logged_in <> JUndefined
  /\ Route.payload Sample2.logged_in <> JUndefined.
Proof.
  refine (lifecycle_event_is_forwarded Sample2.platform "logged in" Sample2.logged_in
            Sample2.logged_in Sample2.logged_in "login" Sample.attended
            eq_refl eq_refl eq_refl _ eq_refl eq_refl).
  cbn. auto.
Defined.

(** X14.  A [userEvent] frame whose [event] is [warn] is emitted as ['msg']
    and then as ['warn'], with an error and the [success] flag of the
    frame.  The text of the error ends with the [error] of the frame in
    lines 1-1764 and with its [msg] in lines 1765-2999.  Stated for a frame
    whose payload [toCamelCase] returns on. *)
Theorem server_warning_is_forwarded
    (js : Platform) (s : string) (data dataA dataB : JsValue) (w : World) :
  JSON_parse js s = Parsed_ok data ->
  member data "type" = Normal (JStr "userEvent") ->
  member data "event" = Normal (JStr "warn") ->
  IndexA.camel_payload data = Normal dataA ->
  IndexB.camel_payload data = Normal dataB ->
  IndexA.onWsMsg js (WsText s) w
  = (([("msg", [PValue dataA]);
       ("warn", [PError (Error "服务器返回错误提示：" (Some (PushItem.field "error" data)));
                 PValue (PushItem.field "success" data)])],
      Normal tt), w)
  /\ IndexB.onWsMsg js (WsText s) w
     = (([("msg", [PValue dataB]);
          ("warn", [PError (Error "服务器返回错误提示：" (Some (PushItem.field "msg" data)));
                    PValue (PushItem.field "success" data)])],
         Normal tt), w).
Proof.
  intros Hp Hty Hev HA HB.
  destruct (member_type_mapping _ _ _ Hty) as [props ->].
  split.
  - route_start IndexA.onWsMsg camel_payload_A_member Hp HA.
    rewrite (camel_payload_A_member _ _ "type" HA) by discriminate.
    rewrite Hty, mbind_liftC_Normal. cbn [is_str String.eqb Ascii.eqb Bool.eqb].
    rewrite (camel_payload_A_member _ _ "event" HA) by discriminate.
    rewrite Hev, mbind_liftC_Normal. cbn [is_str String.eqb Ascii.eqb Bool.eqb].
    rewrite (camel_payload_A_member _ _ "error" HA) by discriminate.
    rewrite (camel_payload_A_member _ _ "success" HA) by discriminate.
    rewrite !member_mapping, !mbind_liftC_Normal.
    now rewrite (mbind_run _ _ _ _ _ _
                   (emit_plain "warn" _ _ ltac:(intros; reflexivity) eq_refl)).
  - route_start IndexB.onWsMsg camel_payload_B_member Hp HB.
    rewrite (camel_payload_B_member _ _ "type" HB) by discriminate.
    rewrite Hty, mbind_liftC_Normal. cbn [is_str String.eqb Ascii.eqb Bool.eqb].
    rewrite (camel_payload_B_member _ _ "event" HB) by discriminate.
    rewrite Hev, mbind_liftC_Normal. cbn [is_str String.eqb Ascii.eqb Bool.eqb].
    rewrite (camel_payload_B_member _ _ "msg" HB) by discriminate.
    rewrite (camel_payload_B_member _ _ "success" HB) by discriminate.
    rewrite !member_mapping, !mbind_liftC_Normal.
    now rewrite (mbind_run _ _ _ _ _ _
                   (emit_plain "warn" _ _ ltac:(intros; reflexivity) eq_refl)).
Qed.

Lemma server_warning_is_forwarded_witness :
  IndexA.onWsMsg Sample2.platform (WsText "server warning") Sample.attended
  = (([("msg", [PValue Sample2.server_warning]);
       ("warn", [PError (Error "服务器返回错误提示：" (Some (JStr "slow down")));
                 PValue (JBool true)])],
      Normal tt), Sample.attended)
  /\ IndexB.onWsMsg Sample2.platform (WsText "server warning") Sample.attended
     = (([("msg", [PValue Sample2.server_warning]);
          ("warn", [PError (Error "服务器返回错误提示：" (Some (JStr "too many requests")));
                    PValue (JBool true)])],
         Normal tt), Sample.attended).
Proof.
  exact (server_warning_is_forwarded Sample2.platform "server warning" Sample2.server_warning
           Sample2.server_warning Sample2.server_warning Sample.attended
           eq_refl eq_refl eq_refl eq_refl eq_refl).
Defined.

(** ** What the router leaves alone *)

Section InertFacts.

Import Instance.

Lemma untouched_refl (w : World) : untouched w w.
Proof. unfold untouched. tauto. Qed.

Lemma untouched_trans (a b c : World) : untouched a b -> untouched b c -> untouched a c.
Proof. unfold untouched. intros H1 H2. intuition congruence. Qed.

Lemma inert_same {A : Type} (m : M A) : (forall w, snd (m w) = w) -> inert m.
Proof. intros H w. rewrite H. apply untouched_refl. Qed.

Lemma inert_ret {A : Type} (x : A) : inert (ret x).
Proof. now apply inert_same. Qed.

Lemma inert_liftC {A : Type} (c : Completion A) : inert (liftC c).
Proof. now apply inert_same. Qed.

Lemma inert_bind {A B : Type} (m : M A) (f : A -> M B) :
  inert m -> (forall x, inert (f x)) -> inert (mbind m f).
Proof.
  intros Hm Hf w. specialize (Hm w). unfold mbind.
  destruct (m w) as [[es [x|e| |]] w1]; cbn [snd] in *; auto.
  specialize (Hf x w1). destruct (f x w1) as [[es' r] w2]. cbn [snd] in *.
  eapply untouched_trans; eauto.
Qed.

Lemma inert_forEach {A : Type} (f : A -> M unit) (l : list A) :
  (forall x, inert (f x)) -> inert (forEach f l).
Proof.
  intros Hf. induction l as [|x r IH]; cbn [forEach]; [apply inert_ret|].
  apply inert_bind; auto.
Qed.

Lemma untouched_settle (p : nat) (st : PState) (w : World) : untouched w (settle p st w).
Proof.
  unfold settle. destruct (promises w !! p) as [[| |]|]; try apply untouched_refl.
  unfold untouched. cbn. rewrite length_insert. tauto.
Qed.

Lemma untouched_wake (data : JsValue) (x : Waiter) (w : World) : untouched w (wake data w x).
Proof.
  unfold wake. eapply untouched_trans; [|apply untouched_settle].
  unfold untouched, clearTimeout. cbn. tauto.
Qed.

Lemma untouched_wake_all (data : JsValue) (fired : list Waiter) (w : World) :
  untouched w (fold_left (wake data) fired w).
Proof.
  revert w. induction fired as [|x r IH]; intros w; cbn [fold_left]; [apply untouched_refl|].
  eapply untouched_trans; [apply untouched_wake | apply IH].
Qed.

Lemma inert_emit (name : string) (args : list Payload) : inert (emit name args).
Proof.
  intros w. unfold emit. destruct (_ && _); [apply untouched_refl|]. cbn [snd].
  eapply untouched_trans; [|apply untouched_wake_all].
  unfold untouched. cbn. tauto.
Qed.

Lemma inert_on_reply (data : JsValue) : inert (on_reply data).
Proof.
  unfold on_reply. apply inert_bind; [apply inert_liftC|]. intros c.
  destruct (truthy c); [|apply inert_ret].
  apply inert_bind; [apply inert_liftC|]. intros name.
  apply inert_bind; [apply inert_emit|]. intros hasOn.
  destruct (negb hasOn); [|apply inert_ret].
  apply inert_bind; [apply inert_emit | intros; apply inert_ret].
Qed.

Lemma inert_push_anomaly : inert push_anomaly.
Proof. apply inert_bind; [apply inert_emit | intros; apply inert_ret]. Qed.

Lemma inert_push_item_A (item : JsValue) : inert (IndexA.push_item item).
Proof.
  unfold IndexA.push_item. apply inert_bind; [apply inert_liftC|]. intros t.
  destruct (_ || _); [apply inert_ret|].
  apply inert_bind; [apply inert_liftC|]. intros m.
  apply inert_bind; [apply inert_liftC|]. intros i.
  apply inert_bind; [apply inert_emit | intros; apply inert_ret].
Qed.

Lemma inert_push_item_B (item : JsValue) : inert (IndexB.push_item item).
Proof.
  unfold IndexB.push_item. apply inert_bind; [apply inert_liftC|]. intros t.
  destruct (_ || _); [apply inert_ret|].
  apply inert_bind; [apply inert_liftC|]. intros m.
  apply inert_bind; [apply inert_liftC|]. intros i.
  apply inert_bind; [apply inert_liftC|]. intros i'.
  apply inert_bind; [apply inert_emit | intros; apply inert_ret].
Qed.

Lemma inert_on_push_A (data : JsValue) : inert (IndexA.on_push data).
Proof.
  unfold IndexA.on_push. apply inert_bind; [apply inert_liftC|]. intros d.
  destruct (negb (truthy d)); [apply inert_push_anomaly|].
  apply inert_bind; [apply inert_liftC|]. intros l.
  destruct l as [| | | | | [|item items] |]; try apply inert_push_anomaly.
  apply inert_forEach, inert_push_item_A.
Qed.

Lemma inert_on_push_B (data : JsValue) : inert (IndexB.on_push data).
Proof.
  unfold IndexB.on_push. apply inert_bind; [apply inert_liftC|]. intros d.
  destruct (negb (truthy d)); [apply inert_push_anomaly|].
  apply inert_bind; [apply inert_liftC|]. intros l.
  destruct l as [| | | | | [|item items] |]; try apply inert_push_anomaly.
  apply inert_forEach, inert_push_item_B.
Qed.

End InertFacts.

(** X15.  Whatever frame comes in and however the call ends, [onWsMsg]
    writes nothing to the socket, changes no object of the caller, draws no
    identifier, adds and removes no listener of the consumer, and creates no
    promise, no reaction and no timer: it only emits events, and settles
    the promises and clears the timers of the commands it wakes. *)
Theorem router_only_emits_and_wakes (js : Platform) (msg : WsData) (w : World) :
  Instance.untouched w (snd (IndexA.onWsMsg js msg w))
  /\ Instance.untouched w (snd (IndexB.onWsMsg js msg w)).
Proof.
  split.
  - revert w. change (Instance.inert (IndexA.onWsMsg js msg)).
    unfold IndexA.onWsMsg. destruct (decode js msg) as [data|message].
    + apply inert_bind; [apply inert_liftC|]. intros d.
      apply inert_bind; [apply inert_emit|]. intros _.
      apply inert_bind; [apply inert_liftC|]. intros t.
      destruct (is_str t "cmdRet"); [apply inert_on_reply|].
      destruct (is_str t "userEvent");
        [|apply inert_bind; [apply inert_emit | intros; apply inert_ret]].
      apply inert_bind; [apply inert_liftC|]. intros e.
      destruct (is_str e "warn").
      { repeat (apply inert_bind; [apply inert_liftC|]; intros ?).
        apply inert_bind; [apply inert_emit | intros; apply inert_ret]. }
      destruct (existsb (is_str e) lifecycle_events).
      { repeat (apply inert_bind; [apply inert_liftC|]; intros ?).
        apply inert_bind; [apply inert_emit | intros; apply inert_ret]. }
      destruct (is_str e "push"); [apply inert_on_push_A|].
      apply inert_bind; [apply inert_emit | intros; apply inert_ret].
    + apply inert_bind; [apply inert_emit | intros; apply inert_ret].
  - revert w. change (Instance.inert (IndexB.onWsMsg js msg)).
    unfold IndexB.onWsMsg. destruct (decode js msg) as [data|message].
    + apply inert_bind; [apply inert_liftC|]. intros d.
      apply inert_bind; [apply inert_emit|]. intros _.
      apply inert_bind; [apply inert_liftC|]. intros t.
      destruct (is_str t "cmdRet"); [apply inert_on_reply|].
      destruct (is_str t "userEvent");
        [|apply inert_bind; [apply inert_emit | intros; apply inert_ret]].
      apply inert_bind; [apply inert_liftC|]. intros e.
      destruct (is_str e "warn").
      { repeat (apply inert_bind; [apply inert_liftC|]; intros ?).
        apply inert_bind; [apply inert_emit | intros; apply inert_ret]. }
      destruct (existsb (is_str e) lifecycle_events).
      { repeat (apply inert_bind; [apply inert_liftC|]; intros ?).
        apply inert_bind; [apply inert_emit | intros; apply inert_ret]. }
      destruct (is_str e "push"); [apply inert_on_push_B|].
      apply inert_bind; [apply inert_emit | intros; apply inert_ret].
    + apply inert_bind; [apply inert_emit | intros; apply inert_ret].
Qed.

(** ** A command on its way *)

Section DispatchFacts.

Import Scenario Instance.

Lemma lookup_plus {A : Type} (l r : list A) (i : nat) : (l ++ r) !! (length l + i) = r !! i.
Proof. rewrite lookup_app_r by lia. f_equal. lia. Qed.

Lemma lookup_plus_0 {A : Type} (l r : list A) : (l ++ r) !! (length l) = r !! 0.
Proof. rewrite <- (lookup_plus l r 0). f_equal. lia. Qed.

Lemma insert_plus {A : Type} (l r : list A) (i : nat) (x : A) :
  <[length l + i := x]> (l ++ r) = l ++ <[i := x]> r.
Proof. apply insert_app_r. Qed.

Lemma insert_plus_0 {A : Type} (l r : list A) (x : A) :
  <[length l := x]> (l ++ r) = l ++ <[0 := x]> r.
Proof. rewrite <- (insert_plus l r 0 x). f_equal. lia. Qed.

Lemma filter_old_reactions (rs : list Reaction) (n p : nat) :
  Forall (fun r => r_source r < n) rs -> n <= p ->
  List.filter (fun r => Nat.eqb (r_source r) p) rs = [].
Proof.
  intros H Hp. apply filter_none. intros r Hr.
  rewrite List.Forall_forall in H. specialize (H r Hr). apply Nat.eqb_neq. lia.
Qed.

Lemma filter_old_timers (tm : list Timer) (n : nat) :
  Forall (fun t => t_id t < n) tm ->
  List.filter (fun t => negb (Nat.eqb (t_id t) n)) tm = tm.
Proof.
  intros H. apply filter_all. intros t Ht.
  rewrite List.Forall_forall in H. specialize (H t Ht). apply Nat.eqb_neq. lia.
Qed.

Lemma cmap_Normal_ext {A B : Type} (f g : A -> Completion B) (l : list A) (ys : list B) :
  (forall x y, f x = Normal y -> g x = Normal y) ->
  cmap f l = Normal ys -> cmap g l = Normal ys.
Proof.
  intros H. revert ys. induction l as [|a l IH]; intros ys; cbn [cmap]; [auto|].
  destruct (f a) as [y| | |] eqn:E; cbn [cbind]; try discriminate.
  rewrite (H _ _ E). cbn [cbind].
  destruct (cmap f l) as [r| | |]; cbn [cbind]; try discriminate.
  now rewrite (IH r eq_refl).
Qed.

(** Objects added to the store do not change the JSON of those that were there. *)
Lemma snapshot_extend (n : nat) (h h' : Heap) (v : Val) (d : JsValue) :
  snapshot n h v = Normal d -> snapshot n (h ++ h') v = Normal d.
Proof.
  revert v d. induction n as [|n IH]; intros v d; destruct v; cbn [snapshot]; auto.
  destruct (h !! l) as [c|] eqn:E; [|discriminate].
  rewrite (lookup_old _ h' _ _ E). destruct c as [props|items].
  - destruct (cmap _ props) as [props'| | |] eqn:Ec; cbn [cbind]; try discriminate.
    intros H.
    assert (Hext : forall (p : string * Val) (y : string * JsValue),
               (x <- snapshot n h (snd p) ;; Normal (fst p, x)) = Normal y ->
               (x <- snapshot n (h ++ h') (snd p) ;; Normal (fst p, x)) = Normal y).
    { intros p y. destruct (snapshot n h (snd p)) as [x| | |] eqn:Ex; cbn [cbind];
        try discriminate.
      now rewrite (IH _ _ Ex). }
    now rewrite (cmap_Normal_ext _ _ _ _ Hext Ec).
  - destruct (cmap _ items) as [items'| | |] eqn:Ec; cbn [cbind]; try discriminate.
    intros H. now rewrite (cmap_Normal_ext _ (snapshot n (h ++ h')) _ _ (IH) Ec).
Qed.

Lemma eqb_plus (n a b : nat) : Nat.eqb (n + a) (n + b) = Nat.eqb a b.
Proof. destruct (Nat.eqb_spec a b); [subst; apply Nat.eqb_refl | apply Nat.eqb_neq; lia]. Qed.

Lemma eqb_plus_0 (n a : nat) : Nat.eqb n (n + S a) = false.
Proof. apply Nat.eqb_neq; lia. Qed.

Lemma eqb_0_plus (n a : nat) : Nat.eqb (n + S a) n = false.
Proof. apply Nat.eqb_neq; lia. Qed.

Ltac norm :=
  rewrite <- ?app_assoc; cbn [app];
  rewrite ?length_app; cbn [length];
  rewrite <- ?Nat.add_assoc; cbn [Nat.add].

Lemma asyncSend_run (js : Platform) (le : nat) (eprops : list (string * Val)) (timeout : Z)
    (frame : JsValue) (w : World) :
  heap w !! le = Some (CObj eprops) ->
  Obj.get "cmdId" eprops = None ->
  UUID_v1 js (uuid_seq w) <> "" ->
  ws_fault w = None ->
  Forall (fun r => r_source r < length (promises w)) (reactions w) ->
  stringify (<[le := CObj (Obj.set "cmdId" (VStr (UUID_v1 js (uuid_seq w))) eprops)]> (heap w))
    (VRef le) = Normal frame ->
  asyncSend js (VRef le) timeout w
  = (([], Normal (length (promises w))),
     awaiting (UUID_v1 js (uuid_seq w)) timeout frame
       (<[le := CObj (Obj.set "cmdId" (VStr (UUID_v1 js (uuid_seq w))) eprops)]> (heap w)) w).
Proof.
  intros Hl Hc Hid Hf Hwf Hs.
  destruct w as [sub wt tm ts ps rs jb ck wf ob us hp].
  cbn -[stringify] in Hl, Hid, Hf, Hwf, Hs. subst wf.
  apply String.eqb_neq in Hid.
  assert (Hl' : <[le := CObj (Obj.set "cmdId" (VStr (UUID_v1 js us)) eprops)]> hp !! le
                = Some (CObj (Obj.set "cmdId" (VStr (UUID_v1 js us)) eprops))).
  { apply list_lookup_insert_eq. now apply lookup_lt_Some in Hl. }
  unfold asyncSend, async, getCmdRecv, _send, then_, new_promise, setTimeout, once, try_catch, mbind,
    modify, gets, hget, hset, ret, liftC, awaiting, waiter_of, timer_of, on_received, on_sent.
  cbn -[stringify]. rewrite Hl. cbn -[stringify]. rewrite Hc. cbn -[stringify].
  rewrite Hl. cbn -[stringify]. rewrite Hl'. rewrite get_set_eq. cbn -[stringify].
  rewrite Hid. cbn -[stringify].
  norm. rewrite (lookup_plus ps _ 1). cbn -[stringify].
  rewrite Hs. cbn -[stringify]. unfold settle. cbn -[stringify]. norm.
  rewrite (lookup_plus ps _ 3). cbn -[stringify].
  rewrite List.filter_app, (filter_old_reactions _ _ _ Hwf) by lia.
  cbn -[stringify]. rewrite eqb_plus. cbn -[stringify].
  rewrite (insert_plus ps _ 3). cbn -[stringify].
  rewrite (lookup_plus ps _ 3). cbn -[stringify].
  norm. rewrite app_nil_r. reflexivity.
Qed.

Lemma snapshot_defined (n : nat) (h : Heap) (v : Val) :
  snapshot n h v = Normal JUndefined -> v = VUndefined.
Proof.
  destruct n, v as [| |b|z|s|l]; cbn [snapshot]; try discriminate; auto.
  destruct (h !! l) as [[props|items]|]; try discriminate.
  - destruct (cmap _ props); cbn [cbind]; discriminate.
  - destruct (cmap _ items); cbn [cbind]; discriminate.
Qed.

Lemma snapshot_mapping (n : nat) (h : Heap) (l : nat) (props : list (string * Val))
    (props' : list (string * JsValue)) :
  h !! l = Some (CObj props) ->
  cmap (fun p => x <- snapshot n h (snd p) ;; Normal (fst p, x)) props = Normal props' ->
  snapshot (S n) h (VRef l)
  = Normal (JObj (List.filter (fun p => negb (is_undefined (snd p))) props')).
Proof. intros Hl Hc. cbn [snapshot]. now rewrite Hl, Hc. Qed.

Lemma snapshot_text (n : nat) (h : Heap) (s : string) :
  snapshot (S n) h (VStr s) = Normal (JStr s).
Proof. reflexivity. Qed.

(** The JSON of the envelope of a command. *)
Lemma envelope_json (h : Heap) (cmd id : string) (data : Val) (d : JsValue) :
  stringify h data = Normal d -> data <> VUndefined ->
  stringify
    (<[length h := CObj (Obj.set "cmdId" (VStr id)
                           [("type", VStr "user"); ("cmd", VStr cmd); ("data", data)])]>
       (h ++ [CObj [("type", VStr "user"); ("cmd", VStr cmd); ("data", data)]]))
    (VRef (length h))
  = Normal (envelope cmd d id).
Proof.
  intros Hd Hne. rewrite insert_last. unfold stringify in *.
  rewrite length_app. cbn [length]. rewrite Nat.add_1_r.
  change (Obj.set "cmdId" (VStr id) [("type", VStr "user"); ("cmd", VStr cmd); ("data", data)])
    with [("type", VStr "user"); ("cmd", VStr cmd); ("data", data); ("cmdId", VStr id)].
  erewrite snapshot_mapping; [|now apply list_lookup_middle|].
  2:{ cbn [cmap fst snd]. rewrite !snapshot_text. cbn [cbind].
      rewrite (snapshot_extend _ _ _ _ _ Hd). cbn [cbind]. reflexivity. }
  cbn [List.filter snd is_undefined negb].
  destruct d; try reflexivity.
  exfalso. apply Hne. eapply snapshot_defined, Hd.
Qed.

(** [sendCmd] after the cleaning of [data.rawMsgData]. *)
Lemma dispatch_run (js : Platform) (cmd : string) (data : Val) (d : JsValue) (w : World) :
  stringify (heap w) data = Normal d -> data <> VUndefined ->
  UUID_v1 js (uuid_seq w) <> "" ->
  ws_fault w = None ->
  Forall (fun r => r_source r < length (promises w)) (reactions w) ->
  IndexA.dispatch js cmd data w
  = (([], Normal (length (promises w) + 6)),
     in_flight cmd (UUID_v1 js (uuid_seq w))
       (envelope cmd d (UUID_v1 js (uuid_seq w)))
       (heap w ++ [CObj [("type", VStr "user"); ("cmd", VStr cmd); ("data", data);
                         ("cmdId", VStr (UUID_v1 js (uuid_seq w)))]]) w).
Proof.
  intros Hd Hne Hid Hf Hwf. unfold IndexA.dispatch.
  rewrite (mbind_run _ _ w (with_heap (heap w ++ [CObj [("type", VStr "user"); ("cmd", VStr cmd);
                                                         ("data", data)]]) w)
             [] (length (heap w)) eq_refl), preceded_nil.
  erewrite mbind_run;
    [|apply (asyncSend_run js (length (heap w))
               [("type", VStr "user"); ("cmd", VStr cmd); ("data", data)] 30000
               (envelope cmd d (UUID_v1 js (uuid_seq w))));
      cbn [heap uuid_seq ws_fault promises reactions with_heap];
      [now apply list_lookup_middle | reflexivity | exact Hid | exact Hf | exact Hwf
      | now apply envelope_json]].
  rewrite preceded_nil. cbn [heap uuid_seq with_heap promises].
  rewrite insert_last.
  change (Obj.set "cmdId" (VStr (UUID_v1 js (uuid_seq w)))
            [("type", VStr "user"); ("cmd", VStr cmd); ("data", data)])
    with [("type", VStr "user"); ("cmd", VStr cmd); ("data", data);
          ("cmdId", VStr (UUID_v1 js (uuid_seq w)))].
  destruct w as [sub wt tm ts ps rs jb ck wf ob us hp].
  unfold then_, mbind, awaiting, in_flight, waiter_of, timer_of, on_received, on_sent,
    on_result, rethrow.
  cbn. norm. rewrite (lookup_plus_0 ps). cbn. norm. rewrite (lookup_plus ps _ 5). cbn.
  norm. reflexivity.
Qed.

Lemma sanitize_nothing_A (js : Platform) (ld : nat) (dprops : list (string * Val)) (w : World) :
  heap w !! ld = Some (CObj dprops) -> Obj.get "rawMsgData" dprops = None ->
  IndexA.sanitize js (VRef ld) w = (([], Normal tt), w).
Proof. intros Hl Hr. unfold IndexA.sanitize, mbind, hget. now rewrite Hl, Hr. Qed.

Lemma sanitize_nothing_B (js : Platform) (ld : nat) (dprops : list (string * Val)) (w : World) :
  heap w !! ld = Some (CObj dprops) -> Obj.get "rawMsgData" dprops = None ->
  IndexB.sanitize js (VRef ld) w = (([], Normal tt), w).
Proof. intros Hl Hr. unfold IndexB.sanitize, mbind, hget. now rewrite Hl, Hr. Qed.

Section SendCmdRun.

Variable js : Platform.
Variable cmd : string.
Variable ld : nat.
Variable dprops : list (string * Val).
Variable d : JsValue.
Variable w : World.
Hypothesis Hl : heap w !! ld = Some (CObj dprops).
Hypothesis Hraw : Obj.get "rawMsgData" dprops = None.
Hypothesis Hd : stringify (heap w) (VRef ld) = Normal d.
Hypothesis Hid : UUID_v1 js (uuid_seq w) <> "".
Hypothesis Hf : ws_fault w = None.
Hypothesis Hwf : Forall (fun r => r_source r < length (promises w)) (reactions w).

Local Abbreviation id := (UUID_v1 js (uuid_seq w)).
Local Abbreviation sent :=
  (in_flight cmd id (envelope cmd d id)
     (heap w ++ [CObj [("type", VStr "user"); ("cmd", VStr cmd); ("data", VRef ld);
                       ("cmdId", VStr id)]]) w).

Lemma sendCmd_run_A :
  IndexA.sendCmd js cmd (VRef ld) w = (([], Normal (length (promises w) + 6)), sent).
Proof.
  unfold IndexA.sendCmd, async, try_catch. rewrite mbind_ret.
  rewrite (mbind_run _ _ _ _ _ _ (sanitize_nothing_A js ld dprops w Hl Hraw)), preceded_nil.
  now rewrite (dispatch_run js cmd (VRef ld) d w Hd ltac:(discriminate) Hid Hf Hwf).
Qed.

Lemma sendCmd_run_B :
  IndexB.sendCmd js cmd (VRef ld) w = (([], Normal (length (promises w) + 6)), sent).
Proof.
  unfold IndexB.sendCmd, async, try_catch. rewrite mbind_ret.
  rewrite (mbind_run _ _ _ _ _ _ (sanitize_nothing_B js ld dprops w Hl Hraw)), preceded_nil.
  change (IndexB.dispatch js cmd (VRef ld)) with (IndexA.dispatch js cmd (VRef ld)).
  now rewrite (dispatch_run js cmd (VRef ld) d w Hd ltac:(discriminate) Hid Hf Hwf).
Qed.

End SendCmdRun.

Lemma drain_done (n : nat) (w : World) : jobs w = [] -> drain (S n) w = (([], Normal tt), w).
Proof. intros H. cbn [drain]. now rewrite H. Qed.

Lemma drain_job (n : nat) (w w' : World) (j : Reaction * PState) (rest : list (Reaction * PState))
    (es : list Event) :
  jobs w = j :: rest ->
  run_job j (with_jobs rest w) = ((es, Normal tt), w') ->
  drain (S n) w = preceded es (drain n w').
Proof.
  intros Hj Hr. cbn [drain]. rewrite Hj.
  rewrite (mbind_run _ _ w (with_jobs rest w) [] tt eq_refl), preceded_nil.
  now rewrite (mbind_run _ _ _ _ _ _ Hr).
Qed.

(** The promise jobs after [sendCmd]: the callback given to the promise of
    [_send] runs. *)
Lemma drain_after_send (cmd id : string) (frame : JsValue) (h : Heap) (w : World) :
  idle w ->
  drain 16 (in_flight cmd id frame h w)
  = (([], Normal tt),
     with_jobs []
       (with_promises (promises w ++ [Pending; Pending; Pending; Fulfilled (JBool true);
                                      Fulfilled (JBool true); Pending; Pending])
          (in_flight cmd id frame h w))).
Proof.
  intros (Hj & Hwf & _).
  destruct w as [sub wt tm ts ps rs jb ck wf ob us hp]. cbn in Hj, Hwf. subst jb.
  erewrite drain_job; [|reflexivity|].
  2:{ unfold run_job, in_flight, on_sent, try_catch, mbind, run_handler, modify, ret, settle.
      cbn. rewrite (lookup_plus ps _ 4). cbn.
      rewrite List.filter_app, (filter_old_reactions _ _ _ Hwf) by lia.
      cbn. rewrite ?eqb_plus, ?eqb_plus_0, ?eqb_0_plus. cbn. rewrite (insert_plus ps _ 4). cbn.
      reflexivity. }
  rewrite preceded_nil. now rewrite drain_done.
Qed.

Lemma awaits_own (id : string) (t p : nat) :
  awaits (ret_name id) {| w_cmdId := id; w_timer := t; w_promise := p |} = true.
Proof. unfold awaits. cbn [w_cmdId]. apply String.eqb_refl. Qed.

(** The reply to a command in flight: the frame is handed to the listener
    of [getCmdRecv], which clears the timer and resolves its promise. *)
Lemma reply_wakes (cmd id : string) (frame data : JsValue) (h : Heap) (w : World) :
  idle w ->
  existsb (awaits (ret_name id)) (waiters w) = false ->
  member data "cmdId" = Normal (JStr id) -> id <> "" ->
  on_reply data
    (with_jobs []
       (with_promises (promises w ++ [Pending; Pending; Pending; Fulfilled (JBool true);
                                      Fulfilled (JBool true); Pending; Pending])
          (in_flight cmd id frame h w)))
  = (([(ret_name id, [PValue data])], Normal tt),
     with_jobs [(on_received w, Fulfilled data)]
       (with_promises (promises w ++ [Pending; Fulfilled data; Pending; Fulfilled (JBool true);
                                      Fulfilled (JBool true); Pending; Pending])
          (with_waiters (waiters w)
             (with_timers (timers w) (S (timer_seq w)) (in_flight cmd id frame h w))))).
Proof.
  intros (Hj & Hwf & Htm) Hnone Hc Hid.
  pose proof (existsb_none _ _ Hnone) as Hno.
  destruct w as [sub wt tm ts ps rs jb ck wf ob us hp]. cbn in Hj, Hwf, Htm.
  cbn [waiters] in Hno. subst jb.
  apply String.eqb_neq in Hid.
  unfold on_reply. rewrite Hc, mbind_liftC_Normal. cbn [truthy]. rewrite Hid. cbn [negb ret_event].
  rewrite mbind_liftC_Normal.
  unfold emit at 1, mbind at 1. rewrite ret_name_not_error. cbn [andb].
  unfold in_flight, waiter_of, timer_of, on_received, on_sent, on_result, rethrow, listens,
    subscribes.
  cbn -[ret_name awaits String.eqb].
  rewrite !List.filter_app, (filter_none _ _ Hno), (filter_all _ _ Hno).
  cbn -[ret_name awaits String.eqb]. rewrite awaits_own. cbn -[ret_name awaits String.eqb].
  rewrite existsb_app. cbn -[ret_name awaits String.eqb]. rewrite awaits_own.
  rewrite !orb_true_r. cbn -[ret_name awaits String.eqb].
  unfold wake, clearTimeout, settle. cbn -[ret_name awaits String.eqb].
  rewrite (lookup_plus ps _ 1). cbn -[ret_name awaits String.eqb].
  rewrite !List.filter_app, (filter_old_reactions _ _ _ Hwf) by lia.
  rewrite (filter_old_timers _ _ Htm).
  cbn -[ret_name awaits String.eqb]. rewrite ?eqb_plus, ?eqb_plus_0, ?eqb_0_plus, Nat.eqb_refl.
  cbn -[ret_name awaits String.eqb]. rewrite (insert_plus ps _ 1), ?Nat.eqb_refl.
  cbn [negb]. rewrite ?app_nil_r. reflexivity.
Qed.

Lemma emit_then_ret {A : Type} (name : string) (args : list Payload) (v : A) (w : World) :
  (forall c, (ret_name c =? name)%string = false) ->
  (name =? "error")%string = false ->
  (let* _ := emit name args in ret v) w = (([(name, args)], Normal v), w).
Proof. intros H He. now rewrite (mbind_run _ _ _ _ _ _ (emit_plain name args w H He)). Qed.

Ltac crunch Hwf :=
  repeat (progress (cbn -[PushItem.field ret_name awaits String.eqb];
                    rewrite ?insert_plus, ?insert_plus_0, ?lookup_plus, ?lookup_plus_0,
                      ?List.filter_app;
                    rewrite ?(filter_old_reactions _ _ _ Hwf) by lia;
                    rewrite ?eqb_plus, ?eqb_plus_0, ?eqb_0_plus, ?Nat.eqb_refl, ?app_nil_r)).

(** The three promise jobs that follow a reply, one at a time, on an
    instance given by its fields. *)
Section Jobs.

Variable cmd : string.
Variable frame : JsValue.
Variable props : Props.
Variable h : Heap.
Variable sub : list string.
Variable wt : list Waiter.
Variable tm : list Timer.
Variable ts : nat.
Variable ps : list PState.
Variable rs : list Reaction.
Variable ck : Z.
Variable wf : option string.
Variable ob : list JsValue.
Variable us : nat.
Hypothesis Hwf : Forall (fun r => r_source r < length ps) rs.

Local Abbreviation n := (length ps).
Local Abbreviation r1 :=
  {| r_source := n + 1; r_onFulfilled := Some (ResolveWithData n);
     r_onRejected := false; r_derived := n + 2 |}.
Local Abbreviation r2 :=
  {| r_source := n + 3; r_onFulfilled := Some PassThrough;
     r_onRejected := false; r_derived := n + 4 |}.
Local Abbreviation r3 :=
  {| r_source := n; r_onFulfilled := Some (EmitCmdRet cmd);
     r_onRejected := false; r_derived := n + 5 |}.
Local Abbreviation r4 :=
  {| r_source := n + 5; r_onFulfilled := None; r_onRejected := true; r_derived := n + 6 |}.
Local Abbreviation dd := (PushItem.field "data" (JObj props)).

(** The instance with the promises [l] and the jobs [j]. *)
Local Abbreviation at_ l j :=
  ({| subscribed := sub; waiters := wt; timers := tm; timer_seq := S ts;
     promises := ps ++ l; reactions := rs ++ [r1; r2; r3; r4]; jobs := j;
     clock := ck; ws_fault := wf; outbox := ob ++ [frame]; uuid_seq := S us; heap := h |}).

Lemma job_received :
  run_job (r1, Fulfilled (JObj props))
    (at_ [Pending; Fulfilled (JObj props); Pending; Fulfilled (JBool true);
          Fulfilled (JBool true); Pending; Pending] [])
  = (([], Normal tt),
     at_ [Fulfilled dd; Fulfilled (JObj props); Fulfilled JUndefined; Fulfilled (JBool true);
          Fulfilled (JBool true); Pending; Pending] [(r3, Fulfilled dd)]).
Proof.
  unfold run_job, try_catch, mbind, run_handler, modify, ret, liftC, settle.
  crunch Hwf. reflexivity.
Qed.

Lemma job_result :
  run_job (r3, Fulfilled dd)
    (at_ [Fulfilled dd; Fulfilled (JObj props); Fulfilled JUndefined; Fulfilled (JBool true);
          Fulfilled (JBool true); Pending; Pending] [])
  = (([("cmdRet", [PValue (JStr cmd); PValue dd])], Normal tt),
     at_ [Fulfilled dd; Fulfilled (JObj props); Fulfilled JUndefined; Fulfilled (JBool true);
          Fulfilled (JBool true); Fulfilled dd; Pending] [(r4, Fulfilled dd)]).
Proof.
  unfold run_job, try_catch. cbn [fst snd r_onFulfilled r_derived]. unfold run_handler.
  rewrite (mbind_run _ _ _ _ _ _
             (emit_then_ret "cmdRet" _ _ _ ltac:(intros; reflexivity) eq_refl)).
  unfold preceded, mbind, modify, ret, settle.
  crunch Hwf. reflexivity.
Qed.

Lemma job_rethrow :
  run_job (r4, Fulfilled dd)
    (at_ [Fulfilled dd; Fulfilled (JObj props); Fulfilled JUndefined; Fulfilled (JBool true);
          Fulfilled (JBool true); Fulfilled dd; Pending] [])
  = (([], Normal tt),
     at_ [Fulfilled dd; Fulfilled (JObj props); Fulfilled JUndefined; Fulfilled (JBool true);
          Fulfilled (JBool true); Fulfilled dd; Fulfilled dd] []).
Proof.
  unfold run_job, modify, settle. crunch Hwf. reflexivity.
Qed.

Local Abbreviation p0 :=
  [Pending; Fulfilled (JObj props); Pending; Fulfilled (JBool true);
   Fulfilled (JBool true); Pending; Pending].
Local Abbreviation p1 :=
  [Fulfilled dd; Fulfilled (JObj props); Fulfilled JUndefined; Fulfilled (JBool true);
   Fulfilled (JBool true); Pending; Pending].
Local Abbreviation p2 :=
  [Fulfilled dd; Fulfilled (JObj props); Fulfilled JUndefined; Fulfilled (JBool true);
   Fulfilled (JBool true); Fulfilled dd; Pending].
Local Abbreviation p3 :=
  [Fulfilled dd; Fulfilled (JObj props); Fulfilled JUndefined; Fulfilled (JBool true);
   Fulfilled (JBool true); Fulfilled dd; Fulfilled dd].

Lemma drain_jobs :
  drain 16 (at_ p0 [(r1, Fulfilled (JObj props))])
  = (([("cmdRet", [PValue (JStr cmd); PValue dd])], Normal tt), at_ p3 []).
Proof.
  rewrite (drain_job 15 (at_ p0 [(r1, Fulfilled (JObj props))]) (at_ p1 [(r3, Fulfilled dd)])
             (r1, Fulfilled (JObj props)) [] [] eq_refl job_received), preceded_nil.
  rewrite (drain_job 14 (at_ p1 [(r3, Fulfilled dd)]) (at_ p2 [(r4, Fulfilled dd)])
             (r3, Fulfilled dd) [] [("cmdRet", [PValue (JStr cmd); PValue dd])]
             eq_refl job_result).
  rewrite (drain_job 13 (at_ p2 [(r4, Fulfilled dd)]) (at_ p3 [])
             (r4, Fulfilled dd) [] [] eq_refl job_rethrow), preceded_nil.
  now rewrite (drain_done 12 (at_ p3 []) eq_refl).
Qed.

End Jobs.

(** The promise jobs after the reply: the promise of [asyncSend] is
    resolved with the [data] of the reply, ['cmdRet'] is emitted, and the
    promise handed to the caller is resolved. *)
Lemma drain_after_reply (cmd id : string) (frame : JsValue) (props : Props) (h : Heap)
    (w : World) :
  idle w ->
  drain 16
    (with_jobs [(on_received w, Fulfilled (JObj props))]
       (with_promises (promises w ++ [Pending; Fulfilled (JObj props); Pending;
                                      Fulfilled (JBool true);
                                      Fulfilled (JBool true); Pending; Pending])
          (with_waiters (waiters w)
             (with_timers (timers w) (S (timer_seq w)) (in_flight cmd id frame h w)))))
  = (([("cmdRet", [PValue (JStr cmd); PValue (PushItem.field "data" (JObj props))])],
      Normal tt),
     completed cmd frame (JObj props) h w).
Proof.
  intros (Hj & Hwf & Htm).
  destruct w as [sub wt tm ts ps rs jb ck wf ob us hp]. cbn in Hj, Hwf, Htm. subst jb.
  exact (drain_jobs cmd frame props h sub wt tm ts ps rs ck wf ob us Hwf).
Qed.

Section Answered.

Variable js : Platform.
Variable cmd : string.
Variable ld : nat.
Variable dprops : list (string * Val).
Variable d : JsValue.
Variable s : string.
Variable data : JsValue.
Variable w : World.
Hypothesis Hidle : idle w.
Hypothesis Hf : ws_fault w = None.
Hypothesis Hid : UUID_v1 js (uuid_seq w) <> "".
Hypothesis Hnone : existsb (awaits (ret_name (UUID_v1 js (uuid_seq w)))) (waiters w) = false.
Hypothesis Hl : heap w !! ld = Some (CObj dprops).
Hypothesis Hraw : Obj.get "rawMsgData" dprops = None.
Hypothesis Hd : stringify (heap w) (VRef ld) = Normal d.
Hypothesis Hp : JSON_parse js s = Parsed_ok data.
Hypothesis Hty : member data "type" = Normal (JStr "cmdRet").
Hypothesis Hc : member data "cmdId" = Normal (JStr (UUID_v1 js (uuid_seq w))).

Local Abbreviation id := (UUID_v1 js (uuid_seq w)).
Local Abbreviation frame := (envelope cmd d id).
Local Abbreviation store :=
  (heap w ++ [CObj [("type", VStr "user"); ("cmd", VStr cmd); ("data", VRef ld);
                    ("cmdId", VStr id)]]).
Local Abbreviation trace :=
  (fun reply : JsValue =>
     [("msg", [PValue reply]); (ret_name id, [PValue reply]);
      ("cmdRet", [PValue (JStr cmd); PValue (PushItem.field "data" reply)])]).

Lemma answered_run_A (dataA : JsValue) :
  IndexA.camel_payload data = Normal dataA ->
  answered IndexA.sendCmd IndexA.onWsMsg js cmd (VRef ld) (WsText s) w
  = ((trace dataA, Normal (length (promises w) + 6)), completed cmd frame dataA store w).
Proof.
  intros HA. destruct Hidle as (Hj & Hwf & Htm). unfold answered.
  rewrite (mbind_run _ _ _ _ _ _ (sendCmd_run_A js cmd ld dprops d w Hl Hraw Hd Hid Hf Hwf)),
    preceded_nil.
  rewrite (mbind_run _ _ _ _ _ _ (drain_after_send cmd id frame store w Hidle)), preceded_nil.
  pose proof (camel_payload_A_member _ _ "type" HA ltac:(discriminate)) as Ety.
  pose proof (camel_payload_A_member _ _ "cmdId" HA ltac:(discriminate)) as Ec.
  rewrite Hty in Ety. rewrite Hc in Ec.
  destruct (member_type_mapping _ _ _ Ety) as [props ->].
  erewrite mbind_run.
  2:{ route_start IndexA.onWsMsg camel_payload_A_member Hp HA.
      rewrite Ety, mbind_liftC_Normal. cbn [is_str String.eqb Ascii.eqb Bool.eqb].
      rewrite (reply_wakes cmd id frame (JObj props) store w Hidle Hnone Ec Hid).
      reflexivity. }
  rewrite (mbind_run _ _ _ _ _ _ (drain_after_reply cmd id frame props store w Hidle)).
  reflexivity.
Qed.

Lemma answered_run_B (dataB : JsValue) :
  IndexB.camel_payload data = Normal dataB ->
  answered IndexB.sendCmd IndexB.onWsMsg js cmd (VRef ld) (WsText s) w
  = ((trace dataB, Normal (length (promises w) + 6)), completed cmd frame dataB store w).
Proof.
  intros HB. destruct Hidle as (Hj & Hwf & Htm). unfold answered.
  rewrite (mbind_run _ _ _ _ _ _ (sendCmd_run_B js cmd ld dprops d w Hl Hraw Hd Hid Hf Hwf)),
    preceded_nil.
  rewrite (mbind_run _ _ _ _ _ _ (drain_after_send cmd id frame store w Hidle)), preceded_nil.
  pose proof (camel_payload_B_member _ _ "type" HB ltac:(discriminate)) as Ety.
  pose proof (camel_payload_B_member _ _ "cmdId" HB ltac:(discriminate)) as Ec.
  rewrite Hty in Ety. rewrite Hc in Ec.
  destruct (member_type_mapping _ _ _ Ety) as [props ->].
  erewrite mbind_run.
  2:{ route_start IndexB.onWsMsg camel_payload_B_member Hp HB.
      rewrite Ety, mbind_liftC_Normal. cbn [is_str String.eqb Ascii.eqb Bool.eqb].
      rewrite (reply_wakes cmd id frame (JObj props) store w Hidle Hnone Ec Hid).
      reflexivity. }
  rewrite (mbind_run _ _ _ _ _ _ (drain_after_reply cmd id frame props store w Hidle)).
  reflexivity.
Qed.

(** Once the command has completed nobody listens for its reply. *)
Lemma completed_deaf (reply : JsValue) :
  subscribes (ret_name id) w = false ->
  listens (ret_name id) (completed cmd frame reply store w) = false.
Proof. intros Hs. unfold listens, subscribes in *. cbn [completed subscribed waiters]. now rewrite Hs, Hnone. Qed.

End Answered.

End DispatchFacts.

(** X16.  On an open socket, [asyncSend] of an object without [cmdId]
    draws one identifier, writes it into that very object, sends the JSON
    of the object as one frame, and registers one listener and one timer
    for the identifier.  The timer is due [timeout * 1000] ms later when
    that delay lies between 1 and 2^31 - 1, and 1 ms later otherwise (the
    platform sets such a delay to 1).  The call returns a pending promise
    and throws nothing. *)
Theorem asyncSend_assigns_id_and_sends
    (js : Platform) (le : nat) (eprops : list (string * Val)) (timeout : Z)
    (frame : JsValue) (w : World) :
  heap w !! le = Some (CObj eprops) ->
  Obj.get "cmdId" eprops = None ->
  UUID_v1 js (uuid_seq w) <> "" ->
  ws_fault w = None ->
  Forall (fun r => r_source r < length (promises w)) (reactions w) ->
  stringify (<[le := CObj (Obj.set "cmdId" (VStr (UUID_v1 js (uuid_seq w))) eprops)]> (heap w))
    (VRef le) = Normal frame ->
  asyncSend js (VRef le) timeout w
  = (([], Normal (length (promises w))),
     Scenario.awaiting (UUID_v1 js (uuid_seq w)) timeout frame
       (<[le := CObj (Obj.set "cmdId" (VStr (UUID_v1 js (uuid_seq w))) eprops)]> (heap w)) w)
  /\ t_due (Scenario.timer_of (UUID_v1 js (uuid_seq w)) timeout w)
     = (clock w + (if ((1 <=? timeout * 1000) && (timeout * 1000 <=? 2147483647))%Z
                   then timeout * 1000 else 1))%Z.
Proof.
  intros Hl Hc Hid Hf Hwf Hs. split.
  - exact (asyncSend_run js le eprops timeout frame w Hl Hc Hid Hf Hwf Hs).
  - reflexivity.
Qed.

Lemma asyncSend_assigns_id_and_sends_witness :
  asyncSend Sample2.platform (VRef 0) 3000000 Sample.ready
  = (([], Normal 0),
     Scenario.awaiting "uuid-0" 3000000 (JObj [("a_b", JNum 1); ("cmdId", JStr "uuid-0")])
       [CObj [("a_b", VNum 1); ("cmdId", VStr "uuid-0")]] Sample.ready)
  /\ t_due (Scenario.timer_of "uuid-0" 3000000 Sample.ready) = 1%Z.
Proof.
  refine (asyncSend_assigns_id_and_sends Sample2.platform 0 [("a_b", VNum 1)] 3000000
            (JObj [("a_b", JNum 1); ("cmdId", JStr "uuid-0")]) Sample.ready
            eq_refl eq_refl _ eq_refl _ eq_refl).
  - discriminate.
  - constructor.
Defined.

(** X17.  On an open socket, [sendCmd(cmd, data)] with an object [data]
    that has no [rawMsgData] sends exactly one frame,
    [{type: 'user', cmd, data, cmdId}], with [data] as JSON and a fresh
    identifier; it changes no object of the caller, emits nothing, and
    returns a pending promise.  Both revisions. *)
Theorem sendCmd_sends_one_frame
    (js : Platform) (cmd : string) (ld : nat) (dprops : list (string * Val)) (d : JsValue)
    (w : World) :
  heap w !! ld = Some (CObj dprops) ->
  Obj.get "rawMsgData" dprops = None ->
  stringify (heap w) (VRef ld) = Normal d ->
  UUID_v1 js (uuid_seq w) <> "" ->
  ws_fault w = None ->
  Forall (fun r => r_source r < length (promises w)) (reactions w) ->
  let id := UUID_v1 js (uuid_seq w) in
  let sent :=
    Scenario.in_flight cmd id (Scenario.envelope cmd d id)
      (heap w ++ [CObj [("type", VStr "user"); ("cmd", VStr cmd); ("data", VRef ld);
                        ("cmdId", VStr id)]]) w in
  IndexA.sendCmd js cmd (VRef ld) w = (([], Normal (length (promises w) + 6)), sent)
  /\ IndexB.sendCmd js cmd (VRef ld) w = (([], Normal (length (promises w) + 6)), sent)
  /\ outbox sent = outbox w ++ [Scenario.envelope cmd d id]
  /\ promises sent !! (length (promises w) + 6) = Some Pending.
Proof.
  intros Hl Hraw Hd Hid Hf Hwf id sent.
  split; [now apply (sendCmd_run_A js cmd ld dprops)|].
  split; [now apply (sendCmd_run_B js cmd ld dprops)|].
  split; [reflexivity|].
  unfold sent, Scenario.in_flight. cbn [promises]. now rewrite lookup_plus.
Qed.

Lemma sendCmd_sends_one_frame_witness :
  let frame := Scenario.envelope "echo" (JObj [("a_b", JNum 1)]) "uuid-0" in
  let sent :=
    Scenario.in_flight "echo" "uuid-0" frame
      (heap Sample.ready ++ [CObj [("type", VStr "user"); ("cmd", VStr "echo");
                                   ("data", VRef 0); ("cmdId", VStr "uuid-0")]])
      Sample.ready in
  IndexA.sendCmd Sample2.platform "echo" (VRef 0) Sample.ready = (([], Normal 6), sent)
  /\ IndexB.sendCmd Sample2.platform "echo" (VRef 0) Sample.ready = (([], Normal 6), sent)
  /\ outbox sent = [frame]
  /\ promises sent !! 6 = Some Pending.
Proof.
  refine (sendCmd_sends_one_frame Sample2.platform "echo" 0 [("a_b", VNum 1)]
            (JObj [("a_b", JNum 1)]) Sample.ready eq_refl eq_refl eq_refl _ eq_refl _).
  - discriminate.
  - constructor.
Defined.

(** X18.  A command and its reply.  On an idle instance with an open
    socket, [sendCmd(cmd, data)] followed by the [cmdRet] frame that carries
    the identifier of the command emits ['msg'], the reply under its reply
    name, and ['cmdRet'] with the command and the [data] of the reply; no
    ['warn'].  The promise handed to the caller is fulfilled with the
    normalized [data] of the reply, and the listener and the timer of the
    command are gone.  Both revisions.  Stated for a [data] without
    [rawMsgData] that [JSON.stringify] accepts, an identifier that is not
    empty and that no listener waits for yet, and a reply whose payload
    [toCamelCase] returns on. *)
Theorem reply_fulfils_command
    (js : Platform) (cmd : string) (ld : nat) (dprops : list (string * Val)) (d : JsValue)
    (s : string) (data dataA dataB : JsValue) (w : World) :
  Instance.idle w ->
  ws_fault w = None ->
  UUID_v1 js (uuid_seq w) <> "" ->
  existsb (awaits (ret_name (UUID_v1 js (uuid_seq w)))) (waiters w) = false ->
  heap w !! ld = Some (CObj dprops) ->
  Obj.get "rawMsgData" dprops = None ->
  stringify (heap w) (VRef ld) = Normal d ->
  JSON_parse js s = Parsed_ok data ->
  member data "type" = Normal (JStr "cmdRet") ->
  member data "cmdId" = Normal (JStr (UUID_v1 js (uuid_seq w))) ->
  IndexA.camel_payload data = Normal dataA ->
  IndexB.camel_payload data = Normal dataB ->
  let id := UUID_v1 js (uuid_seq w) in
  let store := heap w ++ [CObj [("type", VStr "user"); ("cmd", VStr cmd); ("data", VRef ld);
                                ("cmdId", VStr id)]] in
  let trace reply :=
    [("msg", [PValue reply]); (ret_name id, [PValue reply]);
     ("cmdRet", [PValue (JStr cmd); PValue (PushItem.field "data" reply)])] in
  let done reply := Scenario.completed cmd (Scenario.envelope cmd d id) reply store w in
  Scenario.answered IndexA.sendCmd IndexA.onWsMsg js cmd (VRef ld) (WsText s) w
  = ((trace dataA, Normal (length (promises w) + 6)), done dataA)
  /\ Scenario.answered IndexB.sendCmd IndexB.onWsMsg js cmd (VRef ld) (WsText s) w
     = ((trace dataB, Normal (length (promises w) + 6)), done dataB)
  /\ (forall reply,
        promises (done reply) !! (length (promises w) + 6)
        = Some (Fulfilled (PushItem.field "data" reply))
        /\ waiters (done reply) = waiters w /\ timers (done reply) = timers w).
Proof.
  intros Hidle Hf Hid Hnone Hl Hraw Hd Hp Hty Hc HA HB id store trace done.
  split; [now apply (answered_run_A js cmd ld dprops d s data w)|].
  split; [now apply (answered_run_B js cmd ld dprops d s data w)|].
  intros reply. unfold done, Scenario.completed. cbn [promises waiters timers].
  now rewrite lookup_plus.
Qed.

Lemma reply_fulfils_command_witness :
  let reply inner :=
    JObj [("type", JStr "cmdRet"); ("cmdId", JStr "uuid-0"); ("taskId", JStr "5");
          ("data", JObj [("success", JBool true); ("data", JObj inner)])] in
  let replyA := reply [("status", JNum 0); ("msgId", JStr "1284778244346778513")] in
  let replyB := reply [("msgId", JStr "1284778244346778513"); ("status", JNum 0)] in
  let store := heap Sample.ready ++ [CObj [("type", VStr "user"); ("cmd", VStr "echo");
                                           ("data", VRef 0); ("cmdId", VStr "uuid-0")]] in
  let trace r :=
    [("msg", [PValue r]); (ret_name "uuid-0", [PValue r]);
     ("cmdRet", [PValue (JStr "echo"); PValue (PushItem.field "data" r)])] in
  let done r :=
    Scenario.completed "echo" (Scenario.envelope "echo" (JObj [("a_b", JNum 1)]) "uuid-0") r
      store Sample.ready in
  Scenario.answered IndexA.sendCmd IndexA.onWsMsg Sample2.platform "echo" (VRef 0)
    (WsText "reply to uuid-0") Sample.ready
  = ((trace replyA, Normal 6), done replyA)
  /\ Scenario.answered IndexB.sendCmd IndexB.onWsMsg Sample2.platform "echo" (VRef 0)
       (WsText "reply to uuid-0") Sample.ready
     = ((trace replyB, Normal 6), done replyB)
  /\ (forall r,
        promises (done r) !! 6 = Some (Fulfilled (PushItem.field "data" r))
        /\ waiters (done r) = [] /\ timers (done r) = []).
Proof.
  refine (reply_fulfils_command Sample2.platform "echo" 0 [("a_b", VNum 1)]
            (JObj [("a_b", JNum 1)]) "reply to uuid-0" Sample2.reply _ _ Sample.ready
            _ eq_refl _ eq_refl eq_refl eq_refl eq_refl eq_refl eq_refl eq_refl
            eq_refl eq_refl).
  - repeat split; constructor.
  - discriminate.
Defined.

(** X19.  A reply is taken once.  After the command has completed, a
    second copy of its reply wakes nobody: it is emitted as ['msg'] and under
    the reply name, then reported with one ['warn'], and the instance, with
    the promise the caller holds, stays as it was.  Both revisions.  Stated
    under the conditions of the property before. *)
Theorem second_reply_is_unmonitored
    (js : Platform) (cmd : string) (ld : nat) (dprops : list (string * Val)) (d : JsValue)
    (s : string) (data dataA dataB : JsValue) (w : World) :
  Instance.idle w ->
  ws_fault w = None ->
  UUID_v1 js (uuid_seq w) <> "" ->
  listens (ret_name (UUID_v1 js (uuid_seq w))) w = false ->
  heap w !! ld = Some (CObj dprops) ->
  Obj.get "rawMsgData" dprops = None ->
  stringify (heap w) (VRef ld) = Normal d ->
  JSON_parse js s = Parsed_ok data ->
  member data "type" = Normal (JStr "cmdRet") ->
  member data "cmdId" = Normal (JStr (UUID_v1 js (uuid_seq w))) ->
  IndexA.camel_payload data = Normal dataA ->
  IndexB.camel_payload data = Normal dataB ->
  let id := UUID_v1 js (uuid_seq w) in
  let warning := ("warn", [PError (Error "返回执行结果没有被监听！指令ID:" (Some (JStr id)))]) in
  let afterA :=
    snd (Scenario.answered IndexA.sendCmd IndexA.onWsMsg js cmd (VRef ld) (WsText s) w) in
  let afterB :=
    snd (Scenario.answered IndexB.sendCmd IndexB.onWsMsg js cmd (VRef ld) (WsText s) w) in
  IndexA.onWsMsg js (WsText s) afterA
  = (([("msg", [PValue dataA]); (ret_name id, [PValue dataA]); warning], Normal tt), afterA)
  /\ IndexB.onWsMsg js (WsText s) afterB
     = (([("msg", [PValue dataB]); (ret_name id, [PValue dataB]); warning], Normal tt), afterB).
Proof.
  intros Hidle Hf Hid Hdeaf Hl Hraw Hd Hp Hty Hc HA HB id warning afterA afterB.
  unfold listens in Hdeaf. apply orb_false_iff in Hdeaf as [Hsub Hnone].
  split.
  - unfold afterA.
    rewrite (answered_run_A js cmd ld dprops d s data w Hidle Hf Hid Hnone Hl Hraw Hd Hp Hty Hc
               dataA HA).
    cbn [snd]. route_start IndexA.onWsMsg camel_payload_A_member Hp HA.
    rewrite (camel_payload_A_member _ _ "type" HA) by discriminate.
    rewrite Hty, mbind_liftC_Normal. cbn [is_str String.eqb Ascii.eqb Bool.eqb].
    rewrite (on_reply_unmonitored dataA id); auto.
    + rewrite (camel_payload_A_member _ _ "cmdId" HA) by discriminate. exact Hc.
    + now apply completed_deaf.
  - unfold afterB.
    rewrite (answered_run_B js cmd ld dprops d s data w Hidle Hf Hid Hnone Hl Hraw Hd Hp Hty Hc
               dataB HB).
    cbn [snd]. route_start IndexB.onWsMsg camel_payload_B_member Hp HB.
    rewrite (camel_payload_B_member _ _ "type" HB) by discriminate.
    rewrite Hty, mbind_liftC_Normal. cbn [is_str String.eqb Ascii.eqb Bool.eqb].
    rewrite (on_reply_unmonitored dataB id); auto.
    + rewrite (camel_payload_B_member _ _ "cmdId" HB) by discriminate. exact Hc.
    + now apply completed_deaf.
Qed.

Lemma second_reply_is_unmonitored_witness :
  let reply inner :=
    JObj [("type", JStr "cmdRet"); ("cmdId", JStr "uuid-0"); ("taskId", JStr "5");
          ("data", JObj [("success", JBool true); ("data", JObj inner)])] in
  let replyA := reply [("status", JNum 0); ("msgId", JStr "1284778244346778513")] in
  let replyB := reply [("msgId", JStr "1284778244346778513"); ("status", JNum 0)] in
  let warning :=
    ("warn", [PError (Error "返回执行结果没有被监听！指令ID:" (Some (JStr "uuid-0")))]) in
  let afterA :=
    snd (Scenario.answered IndexA.sendCmd IndexA.onWsMsg Sample2.platform "echo" (VRef 0)
           (WsText "reply to uuid-0") Sample.ready) in
  let afterB :=
    snd (Scenario.answered IndexB.sendCmd IndexB.onWsMsg Sample2.platform "echo" (VRef 0)
           (WsText "reply to uuid-0") Sample.ready) in
  IndexA.onWsMsg Sample2.platform (WsText "reply to uuid-0") afterA
  = (([("msg", [PValue replyA]); (ret_name "uuid-0", [PValue replyA]); warning], Normal tt),
     afterA)
  /\ IndexB.onWsMsg Sample2.platform (WsText "reply to uuid-0") afterB
     = (([("msg", [PValue replyB]); (ret_name "uuid-0", [PValue replyB]); warning], Normal tt),
        afterB).
Proof.
  refine (second_reply_is_unmonitored Sample2.platform "echo" 0 [("a_b", VNum 1)]
            (JObj [("a_b", JNum 1)]) "reply to uuid-0" Sample2.reply _ _ Sample.ready
            _ eq_refl _ eq_refl eq_refl eq_refl eq_refl eq_refl eq_refl eq_refl
            eq_refl eq_refl).
  - repeat split; constructor.
  - discriminate.
Defined.

(** X20.  [sendAppMsg] without a description of the link ([undefined] or
    [null]) returns a promise that is already rejected with the TypeError
    of [structureXml]: [sendCmd] is not called and nothing is sent. *)
Theorem sendAppMsg_rejects_without_object
    (sendCmd : Platform -> string -> Val -> M nat) (js : Platform)
    (toUserName object : Val) (w : World) :
  object = VUndefined \/ object = VNull ->
  Api.sendAppMsg sendCmd js toUserName object w
  = (([], Normal (length (promises w))),
     with_promises
       (promises w ++ [Rejected (TypeError "Cannot destructure property of undefined or null")])
       w).
Proof. intros [-> | ->]; reflexivity. Qed.

Lemma sendAppMsg_rejects_without_object_witness :
  Api.sendAppMsg IndexA.sendCmd Sample2.platform (VStr "filehelper") VUndefined Sample.ready
  = (([], Normal 0),
     with_promises [Rejected (TypeError "Cannot destructure property of undefined or null")]
       Sample.ready).
Proof.
  exact (sendAppMsg_rejects_without_object IndexA.sendCmd Sample2.platform (VStr "filehelper")
           VUndefined Sample.ready (or_introl eq_refl)).
Defined.

(** ** What [sendCmd] makes of [data.rawMsgData] *)

Section RawMsgFacts.

Lemma hset_obj (l : nat) (props : list (string * Val)) (k : string) (x : Val) (w : World) :
  heap w !! l = Some (CObj props) ->
  hset (VRef l) k x w
  = (([], Normal tt), with_heap (<[l := CObj (Obj.set k x props)]> (heap w)) w).
Proof. intros H. unfold hset. now rewrite H. Qed.

Lemma clearRawMsg_obj (l : nat) (props : list (string * Val)) (w : World) :
  heap w !! l = Some (CObj props) ->
  clearRawMsg (VRef l) w
  = (([], Normal (VRef l)), with_heap (<[l := CObj (Obj.delete "data" props)]> (heap w)) w).
Proof. intros H. unfold clearRawMsg, mbind, hdelete, ret. cbn [typeof_object]. now rewrite H. Qed.

Lemma set_present {V : Type} (k : string) (x y : V) (o : list (string * V)) :
  Obj.get k o = Some y -> Obj.set k x o = Obj.replace k x o.
Proof. intros H. unfold Obj.set, Obj.has. now rewrite H. Qed.

Lemma replace_replace {V : Type} (k : string) (x y : V) (o : list (string * V)) :
  Obj.replace k x (Obj.replace k y o) = Obj.replace k x o.
Proof.
  induction o as [|[k' v] o IH]; [reflexivity|]. cbn.
  destruct (k' =? k)%string eqn:E; cbn; rewrite E; [reflexivity | now rewrite IH].
Qed.

Variable js : Platform.
Variables ld lr : nat.
Variables dprops rprops : list (string * Val).
Variable w : World.
Hypothesis Hdata : heap w !! ld = Some (CObj dprops).
Hypothesis Hraw : Obj.get "rawMsgData" dprops = Some (VRef lr).
Hypothesis Hitem : heap w !! lr = Some (CObj rprops).
Hypothesis Hne : ld <> lr.
Hypothesis Hown : Obj.has "hasOwnProperty" (Obj.delete "data" rprops) = false.
Hypothesis Hnd : List.NoDup (map (underKey js) (Obj.keys (Obj.delete "data" rprops))).
Hypothesis Hproto :
  Forall (fun p => underKey js (fst p) <> "__proto__") (Obj.delete "data" rprops).

Local Abbreviation cleared := (Obj.delete "data" rprops).
Local Abbreviation h2 := (<[ld := CObj dprops]> (<[lr := CObj cleared]> (heap w))).

Lemma h2_data : h2 !! ld = Some (CObj dprops).
Proof.
  apply list_lookup_insert_eq. rewrite length_insert. now apply lookup_lt_Some in Hdata.
Qed.

Lemma h2_item : h2 !! lr = Some (CObj cleared).
Proof.
  rewrite list_lookup_insert_ne by exact Hne.
  apply list_lookup_insert_eq. now apply lookup_lt_Some in Hitem.
Qed.

Lemma h2_length : length h2 = length (heap w).
Proof. now rewrite !length_insert. Qed.

Lemma cleaned_store :
  exists r,
    toUnderLine js (VRef lr) (with_heap h2 w)
    = (([], Normal (VRef (length (heap w)))), with_heap (h2 ++ [CObj r]) w)
    /\ (forall k v, In (k, v) cleared -> Obj.get (underKey js k) r = Some v)
    /\ (forall k' v', In (k', v') r -> exists k, In (k, v') cleared /\ k' = underKey js k).
Proof.
  destruct (toUnderLine_run js lr cleared (with_heap h2 w) h2_item Hown Hnd Hproto)
    as (r & Hr & H1 & H2).
  exists r. cbn [heap with_heap] in Hr. rewrite h2_length in Hr.
  split; [|auto]. rewrite Hr. now destruct w.
Qed.

(** The start of both revisions: the cleaned object is stored back under
    [rawMsgData] and read again. *)
Lemma cleaning_start :
  clearRawMsg (VRef lr) w
  = (([], Normal (VRef lr)), with_heap (<[lr := CObj cleared]> (heap w)) w)
  /\ hset (VRef ld) "rawMsgData" (VRef lr) (with_heap (<[lr := CObj cleared]> (heap w)) w)
     = (([], Normal tt), with_heap h2 w)
  /\ hget (VRef ld) "rawMsgData" (with_heap h2 w) = (([], Normal (VRef lr)), with_heap h2 w).
Proof.
  split; [now apply clearRawMsg_obj|]. split.
  - rewrite (hset_obj ld dprops); [|cbn [heap with_heap]; now rewrite list_lookup_insert_ne].
    rewrite (set_present _ _ _ _ Hraw), (replace_get_id _ _ _ Hraw). now destruct w.
  - rewrite (hget_obj ld dprops); [|exact h2_data]. now rewrite Hraw.
Qed.

Lemma sanitize_run_B :
  exists r,
    IndexB.sanitize js (VRef ld) w = (([], Normal tt), with_heap (h2 ++ [CObj r]) w)
    /\ (forall k v, In (k, v) cleared -> Obj.get (underKey js k) r = Some v).
Proof.
  destruct cleaned_store as (r & Hr & H1 & _). destruct cleaning_start as (Hc & Hs & Hg).
  exists r. split; [|exact H1]. unfold IndexB.sanitize.
  rewrite (mbind_run _ _ _ _ _ _ (hget_obj ld dprops "rawMsgData" w Hdata)), preceded_nil, Hraw.
  cbn [vtruthy].
  rewrite (mbind_run _ _ _ _ _ _ Hc), preceded_nil.
  rewrite (mbind_run _ _ _ _ _ _ Hs), preceded_nil.
  rewrite (mbind_run _ _ _ _ _ _ Hg), preceded_nil.
  now rewrite (mbind_run _ _ _ _ _ _ Hr).
Qed.

Lemma sanitize_run_A :
  exists r,
    IndexA.sanitize js (VRef ld) w
    = (([], Normal tt),
       with_heap (<[ld := CObj (Obj.replace "rawMsgData" (VRef (length (heap w))) dprops)]>
                    (h2 ++ [CObj r])) w)
    /\ (forall k v, In (k, v) cleared -> Obj.get (underKey js k) r = Some v).
Proof.
  destruct cleaned_store as (r & Hr & H1 & _). destruct cleaning_start as (Hc & Hs & Hg).
  exists r. split; [|exact H1]. unfold IndexA.sanitize.
  rewrite (mbind_run _ _ _ _ _ _ (hget_obj ld dprops "rawMsgData" w Hdata)), preceded_nil, Hraw.
  cbn [vtruthy].
  rewrite (mbind_run _ _ _ _ _ _ Hc), preceded_nil.
  rewrite (mbind_run _ _ _ _ _ _ Hs), preceded_nil.
  rewrite (mbind_run _ _ _ _ _ _ Hg), preceded_nil.
  rewrite (mbind_run _ _ _ _ _ _ Hr), preceded_nil.
  rewrite (hset_obj ld dprops);
    [|cbn [heap with_heap]; apply lookup_old, h2_data].
  rewrite (set_present _ _ _ _ Hraw). now destruct w.
Qed.

End RawMsgFacts.

(** X21.  The two revisions of [sendCmd] differ in what they make of an
    object under [data.rawMsgData].  Both delete its [data] property.  Lines
    1-1764 then put a new object in its place, holding the same values
    under names rewritten with underscores; lines 1765-2999 drop the result
    of [toUnderLine], so that [data.rawMsgData] is still the object of the
    caller, with the names it had.  Stated for [data] and [data.rawMsgData]
    being two objects, the latter (its [data] apart) without a property
    [hasOwnProperty], with names that stay distinct when rewritten and none
    rewritten to [__proto__]. *)
Theorem rawMsgData_is_replaced_in_first_revision_only
    (js : Platform) (ld lr : nat) (dprops rprops : list (string * Val)) (w : World) :
  heap w !! ld = Some (CObj dprops) ->
  Obj.get "rawMsgData" dprops = Some (VRef lr) ->
  heap w !! lr = Some (CObj rprops) ->
  ld <> lr ->
  Obj.has "hasOwnProperty" (Obj.delete "data" rprops) = false ->
  List.NoDup (map (underKey js) (Obj.keys (Obj.delete "data" rprops))) ->
  Forall (fun p => underKey js (fst p) <> "__proto__") (Obj.delete "data" rprops) ->
  (exists wA r,
     IndexA.sanitize js (VRef ld) w = (([], Normal tt), wA)
     /\ heap wA !! ld
        = Some (CObj (Obj.replace "rawMsgData" (VRef (length (heap w))) dprops))
     /\ heap wA !! length (heap w) = Some (CObj r)
     /\ (forall k v, In (k, v) (Obj.delete "data" rprops) ->
           Obj.get (underKey js k) r = Some v)
     /\ heap wA !! lr = Some (CObj (Obj.delete "data" rprops)))
  /\ (exists wB,
        IndexB.sanitize js (VRef ld) w = (([], Normal tt), wB)
        /\ heap wB !! ld = Some (CObj dprops)
        /\ heap wB !! lr = Some (CObj (Obj.delete "data" rprops))).
Proof.
  intros Hdata Hraw Hitem Hne Hown Hnd Hproto.
  pose proof (h2_data ld lr dprops rprops w Hdata) as H2d.
  pose proof (h2_item ld lr dprops rprops w Hitem Hne) as H2i.
  pose proof (h2_length ld lr dprops rprops w) as H2l.
  split.
  - destruct (sanitize_run_A js ld lr dprops rprops w Hdata Hraw Hitem Hne Hown Hnd Hproto)
      as (r & Hr & H1).
    eexists _, r. split; [exact Hr|]. cbn [heap with_heap].
    assert (Hlt : ld < length (heap w)) by now apply lookup_lt_Some in Hdata.
    split; [|split; [|split; [exact H1|]]].
    + apply list_lookup_insert_eq. rewrite length_app, H2l. lia.
    + rewrite list_lookup_insert_ne by lia. rewrite <- H2l. now apply list_lookup_middle.
    + rewrite list_lookup_insert_ne by exact Hne. now apply lookup_old.
  - destruct (sanitize_run_B js ld lr dprops rprops w Hdata Hraw Hitem Hne Hown Hnd Hproto)
      as (r & Hr & _).
    eexists. split; [exact Hr|]. cbn [heap with_heap].
    split; now apply lookup_old.
Qed.

Lemma rawMsgData_is_replaced_in_first_revision_only_witness :
  let item := [("msgId", VStr "4032724472820776289"); ("mType", VNum 3)] in
  (exists wA r,
     IndexA.sanitize Sample2.platform (VRef 1) Sample.holding_push = (([], Normal tt), wA)
     /\ heap wA !! 1 = Some (CObj (Obj.replace "rawMsgData" (VRef 2) [("rawMsgData", VRef 0)]))
     /\ heap wA !! 2 = Some (CObj r)
     /\ (forall k v, In (k, v) item -> Obj.get (underKey Sample2.platform k) r = Some v)
     /\ heap wA !! 0 = Some (CObj item))
  /\ (exists wB,
        IndexB.sanitize Sample2.platform (VRef 1) Sample.holding_push = (([], Normal tt), wB)
        /\ heap wB !! 1 = Some (CObj [("rawMsgData", VRef 0)])
        /\ heap wB !! 0 = Some (CObj item)).
Proof.
  refine (rawMsgData_is_replaced_in_first_revision_only Sample2.platform 1 0
            [("rawMsgData", VRef 0)]
            [("msgId", VStr "4032724472820776289"); ("data", VStr "base64 of the thumbnail");
             ("mType", VNum 3)]
            Sample.holding_push eq_refl eq_refl eq_refl _ eq_refl _ _).
  - discriminate.
  - repeat constructor; cbn; intuition discriminate.
  - repeat constructor; discriminate.
Defined.

(** ** [toUnderLine] after [toCamelCase], object by object *)

Section RoundTripFacts.

Import Obj.

Variable f : string -> string.

(** The loop of either function of src/helper.js, [f] being the rewriting
    of the names: the properties are copied one by one into [newObj]. *)
Lemma renaming_lookup (own : list (string * Val)) :
  has "hasOwnProperty" own = false ->
  forall (todo done newObj : list (string * Val)),
    List.NoDup (map f (keys (done ++ todo))) ->
    Forall (fun p => f (fst p) <> "__proto__") todo ->
    (forall k v, In (k, v) done -> get (f k) newObj = Some v) ->
    (forall k' v', In (k', v') newObj -> exists k, In (k, v') done /\ k' = f k) ->
    Permutation (keys newObj) (map f (keys done)) ->
    exists r,
      cfold (fun newObj p =>
               if has "hasOwnProperty" own then Throw Helper.hasOwnProperty_shadowed
               else hassign (f (fst p)) (snd p) newObj) todo newObj = Normal r
      /\ (forall k v, In (k, v) (done ++ todo) -> get (f k) r = Some v)
      /\ (forall k' v', In (k', v') r -> exists k, In (k, v') (done ++ todo) /\ k' = f k)
      /\ Permutation (keys r) (map f (keys (done ++ todo))).
Proof.
  intros Hown. destruct (has "hasOwnProperty" own); [discriminate|]. clear Hown.
  induction todo as [|[k v] todo IH]; intros done newObj Hnd Hproto Hget Hin Hperm.
  - exists newObj. rewrite app_nil_r. repeat split; auto.
  - inversion Hproto as [|? ? Hk Hproto']; subst. cbn [fst] in Hk.
    cbn [cfold fst snd].
    assert (Hfresh : ~ In (f k) (map f (keys done))).
    { rewrite keys_app, map_app in Hnd. cbn in Hnd. apply NoDup_remove_2 in Hnd.
      intros H. apply Hnd. apply in_or_app. now left. }
    assert (Hhas : has (f k) newObj = false).
    { destruct (has (f k) newObj) eqn:E; [|reflexivity].
      apply has_true_get in E as [v0 E]. apply get_In in E.
      destruct (Hin _ _ E) as (k0 & Hk0 & Heq). exfalso. apply Hfresh.
      rewrite Heq. apply in_map. change k0 with (fst (k0, v0)). now apply in_map. }
    rewrite (hassign_fresh _ _ _ Hhas Hk). cbn [cbind].
    destruct (IH (done ++ [(k, v)]) (insert_new (f k) v newObj)) as (r & Hr & H1 & H2 & H3).
    + now rewrite <- app_assoc.
    + exact Hproto'.
    + intros k1 v1 H. apply in_app_or in H as [H|[H|[]]].
      * rewrite get_insert_new_ne; [now apply Hget|].
        intros Heq. apply Hfresh. rewrite <- Heq. apply in_map.
        change k1 with (fst (k1, v1)). now apply in_map.
      * injection H as <- <-. now apply get_insert_new_eq.
    + intros k' v' H.
      apply (Permutation_in _ (insert_new_perm (f k) v newObj)) in H.
      destruct H as [H|H].
      * injection H as <- <-. exists k. split; [|reflexivity]. apply in_or_app. right. now left.
      * destruct (Hin _ _ H) as (k0 & Hk0 & Heq). exists k0. split; [|exact Heq].
        apply in_or_app. now left.
    + rewrite keys_insert_new_perm, keys_app, map_app. cbn [keys map fst].
      rewrite Hperm. apply Permutation_cons_append.
    + exists r. rewrite <- app_assoc in H1, H2, H3. cbn [app] in H1, H2, H3.
      repeat split; auto.
Qed.

End RoundTripFacts.

Section RoundTrip.

Import Obj.

Variable js : Platform.
Hypothesis Hjs : Case.lowers_words js.

Lemma toCamelCase_copy_run (l : nat) (props r : list (string * Val)) (big : bool) (w : World) :
  heap w !! l = Some (CObj props) ->
  cfold (OnStore.copy_step big props) props [] = Normal r ->
  OnStore.toCamelCase_copy (VRef l) big w
  = (([], Normal (VRef (length (heap w)))), with_heap (heap w ++ [CObj r]) w).
Proof.
  intros Hl Hr.
  unfold OnStore.toCamelCase_copy, mbind, alloc, read, write, modify, liftC, ret.
  destruct w as [sub wt tm ts ps rs jb ck wf ob us hp]. cbn in Hl |- *.
  rewrite Hl. cbn [hentries]. rewrite Hr. cbn. now rewrite insert_last.
Qed.

Lemma toUnderLine_fold_run (l : nat) (props r : list (string * Val)) (w : World) :
  heap w !! l = Some (CObj props) ->
  cfold (under_step js props) props [] = Normal r ->
  toUnderLine js (VRef l) w
  = (([], Normal (VRef (length (heap w)))), with_heap (heap w ++ [CObj r]) w).
Proof.
  intros Hl Hr.
  unfold toUnderLine, mbind, alloc, read, write, modify, liftC, ret.
  destruct w as [sub wt tm ts ps rs jb ck wf ob us hp]. cbn in Hl |- *.
  rewrite (lookup_old _ _ _ _ Hl). cbn [hentries]. rewrite Hr. cbn. now rewrite insert_last.
Qed.

Lemma camel_not_proto (k : string) : Case.snake k = true -> Key.camel k <> "__proto__".
Proof.
  intros Hk Heq. pose proof (snake_comes_back js k Hjs Hk) as Hback.
  rewrite Heq in Hback. unfold underKey in Hback.
  rewrite Hjs in Hback by reflexivity. subst k. discriminate.
Qed.

Lemma camel_not_hasOwnProperty (k : string) :
  Case.snake k = true -> k <> "has_own_property" -> Key.camel k <> "hasOwnProperty".
Proof.
  intros Hk Hne Heq. pose proof (snake_comes_back js k Hjs Hk) as Hback.
  rewrite Heq in Hback. unfold underKey in Hback.
  rewrite Hjs in Hback by reflexivity. apply Hne. now subst k.
Qed.

Lemma snake_not_hasOwnProperty (k : string) : Case.snake k = true -> k <> "hasOwnProperty".
Proof. intros Hk ->. discriminate. Qed.

Lemma map_comes_back (ks : list string) :
  Forall (fun k => Case.snake k = true) ks ->
  map (underKey js) (map Key.camel ks) = ks.
Proof.
  induction 1 as [|k ks Hk _ IH]; [reflexivity|]. cbn [map].
  now rewrite (snake_comes_back js k Hjs Hk), IH.
Qed.

End RoundTrip.

(** X22.  A round trip through src/helper.js.  For an object whose names
    are in snake case (and none is [has_own_property]), [toCamelCase]
    followed by [toUnderLine] builds two new objects, the second with
    exactly the properties of the first argument, names and values; the
    argument itself is not changed. *)
Theorem toUnderLine_after_toCamelCase_restores
    (js : Platform) (l : nat) (props : list (string * Val)) (w : World) :
  Case.lowers_words js ->
  heap w !! l = Some (CObj props) ->
  List.NoDup (Obj.keys props) ->
  Forall (fun p => Case.snake (fst p) = true /\ fst p <> "has_own_property") props ->
  exists camel under,
    (let* c := OnStore.toCamelCase_copy (VRef l) false in toUnderLine js c) w
    = (([], Normal (VRef (S (length (heap w))))),
       with_heap (heap w ++ [CObj camel; CObj under]) w)
    /\ (forall k v, In (k, v) camel <-> exists k0, In (k0, v) props /\ k = Key.camel k0)
    /\ (forall k v, In (k, v) under <-> In (k, v) props).
Proof.
  intros Hjs Hl Hnd Hshape.
  assert (Hsnake : Forall (fun k => Case.snake k = true) (Obj.keys props)).
  { unfold Obj.keys. apply Forall_map. eapply List.Forall_impl; [|exact Hshape].
    now intros p [H _]. }
  (* first pass *)
  destruct (renaming_lookup Key.camel props) with (todo := props)
    (done := @nil (string * Val)) (newObj := @nil (string * Val))
    as (camel & Hc & Hc1 & Hc2 & Hc3).
  { apply (no_hasOwnProperty (fun k => Case.snake k = true)).
    - intros k. apply snake_not_hasOwnProperty.
    - eapply List.Forall_impl; [|exact Hshape]. now intros p [H _]. }
  { cbn [app]. apply (NoDup_map_inv (underKey js)).
    rewrite (map_comes_back js Hjs _ Hsnake). exact Hnd. }
  { eapply List.Forall_impl; [|exact Hshape]. intros p [H _]. now apply (camel_not_proto js Hjs). }
  { intros k v []. }
  { intros k v []. }
  { reflexivity. }
  cbn [app] in Hc1, Hc2, Hc3.
  assert (Hkeys : map (underKey js) (Obj.keys camel) ≡ₚ Obj.keys props).
  { rewrite Hc3. now rewrite (map_comes_back js Hjs _ Hsnake). }
  (* second pass *)
  destruct (renaming_lookup (underKey js) camel) with (todo := camel)
    (done := @nil (string * Val)) (newObj := @nil (string * Val))
    as (under & Hu & Hu1 & Hu2 & _).
  { apply has_false_keys. rewrite Hc3. intros Hin. apply in_map_iff in Hin as (k & Hk & Hin).
    apply in_map_iff in Hin as (p & <- & Hp).
    rewrite List.Forall_forall in Hshape. destruct (Hshape p Hp) as [H1 H2].
    now apply (camel_not_hasOwnProperty js Hjs (fst p)). }
  { cbn [app]. eapply Permutation_NoDup; [symmetry; exact Hkeys | exact Hnd]. }
  { apply List.Forall_forall. intros [k v] Hin. cbn [fst].
    destruct (Hc2 _ _ Hin) as (k0 & Hk0 & ->).
    rewrite List.Forall_forall in Hshape. destruct (Hshape _ Hk0) as [H1 _]. cbn [fst] in H1.
    rewrite (snake_comes_back js k0 Hjs H1). intros ->. discriminate. }
  { intros k v []. }
  { intros k v []. }
  { reflexivity. }
  cbn [app] in Hu1, Hu2.
  exists camel, under. split; [|split].
  - rewrite (mbind_run _ _ _ _ _ _ (toCamelCase_copy_run l props camel false w Hl Hc)),
      preceded_nil.
    assert (Hnew : heap (with_heap (heap w ++ [CObj camel]) w) !! length (heap w)
                   = Some (CObj camel))
      by (cbn [heap with_heap]; now apply list_lookup_middle).
    rewrite (toUnderLine_fold_run js (length (heap w)) camel under _ Hnew Hu).
    cbn [heap with_heap]. rewrite length_app, <- app_assoc. cbn [length app].
    rewrite Nat.add_1_r. now destruct w.
  - intros k v. split.
    + intros Hin. destruct (Hc2 _ _ Hin) as (k0 & Hk0 & ->). eauto.
    + intros (k0 & Hk0 & ->). apply get_In. now apply Hc1.
  - intros k v. split.
    + intros Hin. destruct (Hu2 _ _ Hin) as (k1 & Hk1 & ->).
      destruct (Hc2 _ _ Hk1) as (k0 & Hk0 & ->).
      rewrite List.Forall_forall in Hshape. destruct (Hshape _ Hk0) as [H1 _]. cbn [fst] in H1.
      now rewrite (snake_comes_back js k0 Hjs H1).
    + intros Hin. apply get_In.
      rewrite List.Forall_forall in Hshape. destruct (Hshape _ Hin) as [H1 _]. cbn [fst] in H1.
      rewrite <- (snake_comes_back js k Hjs H1). apply Hu1. apply get_In. now apply Hc1.
Qed.

Lemma toUnderLine_after_toCamelCase_restores_witness :
  let item := [("msg_id", VStr "4032724472820776289"); ("from_user", VStr "wxid_001")] in
  let w := with_heap [CObj item] Sample.attended in
  exists camel under,
    (let* c := OnStore.toCamelCase_copy (VRef 0) false in toUnderLine Sample2.platform c) w
    = (([], Normal (VRef 2)), with_heap (heap w ++ [CObj camel; CObj under]) w)
    /\ (forall k v, In (k, v) camel <-> exists k0, In (k0, v) item /\ k = Key.camel k0)
    /\ (forall k v, In (k, v) under <-> In (k, v) item).
Proof.
  refine (toUnderLine_after_toCamelCase_restores Sample2.platform 0
            [("msg_id", VStr "4032724472820776289"); ("from_user", VStr "wxid_001")]
            (with_heap [CObj [("msg_id", VStr "4032724472820776289");
                              ("from_user", VStr "wxid_001")]] Sample.attended)
            _ eq_refl _ _).
  - intros s _. reflexivity.
  - repeat constructor; cbn; intuition discriminate.
  - repeat constructor; discriminate.
Defined.

(** ** A command without reply *)

Section TimeoutFacts.

Import Scenario Instance.

Lemma filter_not_named (name : string) (l : list string) :
  existsb (String.eqb name) l = false ->
  List.filter (fun n => negb (n =? name)%string) l = l.
Proof.
  intros H. apply filter_all. intros n Hn.
  rewrite String.eqb_sym. exact (existsb_none _ _ H n Hn).
Qed.

Lemma filter_not_due (now : Z) (tm : list Timer) :
  Forall (fun t => (now < t_due t)%Z) tm ->
  List.filter (fun t => (t_due t <=? now)%Z) tm = []
  /\ List.filter (fun t => negb (t_due t <=? now)%Z) tm = tm.
Proof.
  intros H. rewrite List.Forall_forall in H. split.
  - apply filter_none. intros t Ht. apply Z.leb_gt. now apply H.
  - apply filter_all. intros t Ht. apply Z.leb_gt. now apply H.
Qed.

(** The timer of a command in flight fires. *)
Lemma timer_fires (cmd id : string) (frame : JsValue) (h : Heap) (now : Z) (w : World) :
  idle w ->
  existsb (awaits (ret_name id)) (waiters w) = false ->
  subscribes (ret_name id) w = false ->
  Forall (fun t => (now < t_due t)%Z) (timers w) ->
  (clock w + 30000 * 1000 <= now)%Z ->
  advance now
    (with_jobs []
       (with_promises (promises w ++ [Pending; Pending; Pending; Fulfilled (JBool true);
                                      Fulfilled (JBool true); Pending; Pending])
          (in_flight cmd id frame h w)))
  = (([], Normal tt),
     with_jobs [(on_received w, Rejected (timed_out 30000))]
       (with_promises (promises w ++ [Pending; Rejected (timed_out 30000); Pending;
                                      Fulfilled (JBool true); Fulfilled (JBool true);
                                      Pending; Pending])
          (expired cmd frame h now w))).
Proof.
  intros (Hj & Hwf & Htm) Hnone Hsub Hlate Hdue.
  pose proof (existsb_none _ _ Hnone) as Hno.
  destruct (filter_not_due now _ Hlate) as [Hd1 Hd2].
  unfold subscribes in Hsub. pose proof (filter_not_named _ _ Hsub) as Hsubs.
  apply Z.leb_le in Hdue.
  destruct w as [sub wt tm ts ps rs jb ck wf ob us hp].
  cbn [jobs reactions promises timers timer_seq waiters subscribed clock] in *. subst jb.
  unfold advance, modify, in_flight, expired, waiter_of, timer_of, on_received, on_sent,
    on_result, rethrow.
  change (timer_delay (30000 * 1000)) with (30000 * 1000)%Z.
  cbn -[ret_name awaits String.eqb Z.leb Z.add Z.mul Z.max timed_out].
  rewrite !List.filter_app, Hd1, Hd2.
  cbn -[ret_name awaits String.eqb Z.leb Z.add Z.mul Z.max timed_out].
  rewrite Hdue.
  cbn -[ret_name awaits String.eqb Z.leb Z.add Z.mul Z.max timed_out].
  unfold fire, removeAllListeners, settle.
  cbn -[ret_name awaits String.eqb Z.leb Z.add Z.mul Z.max timed_out].
  rewrite (lookup_plus ps _ 1).
  cbn -[ret_name awaits String.eqb Z.leb Z.add Z.mul Z.max timed_out].
  rewrite !List.filter_app, (filter_all _ _ Hno), (filter_old_reactions _ _ _ Hwf) by lia.
  rewrite Hsubs.
  cbn -[ret_name awaits String.eqb Z.leb Z.add Z.mul Z.max timed_out].
  rewrite awaits_own, ?eqb_plus, ?eqb_plus_0, ?eqb_0_plus, ?Nat.eqb_refl.
  cbn -[ret_name awaits String.eqb Z.leb Z.add Z.mul Z.max timed_out].
  rewrite (insert_plus ps _ 1), ?app_nil_r.
  reflexivity.
Qed.

(** The promise jobs after the timer: the rejection reaches the promise
    returned by [then] and goes no further. *)
Lemma drain_after_timer (cmd : string) (frame : JsValue) (h : Heap) (now : Z) (w : World) :
  idle w ->
  drain 16
    (with_jobs [(on_received w, Rejected (timed_out 30000))]
       (with_promises (promises w ++ [Pending; Rejected (timed_out 30000); Pending;
                                      Fulfilled (JBool true); Fulfilled (JBool true);
                                      Pending; Pending])
          (expired cmd frame h now w)))
  = (([], Normal tt), expired cmd frame h now w).
Proof.
  intros (Hj & Hwf & Htm).
  destruct w as [sub wt tm ts ps rs jb ck wf ob us hp]. cbn in Hj, Hwf, Htm. subst jb.
  erewrite drain_job; [|reflexivity|].
  2:{ unfold run_job, expired, on_received, on_sent, on_result, rethrow, modify, settle.
      cbn -[Z.max timed_out]. rewrite (lookup_plus ps _ 2). cbn -[Z.max timed_out].
      rewrite !List.filter_app, (filter_old_reactions _ _ _ Hwf) by lia.
      cbn -[Z.max timed_out]. rewrite ?eqb_plus, ?eqb_plus_0, ?eqb_0_plus, ?Nat.eqb_refl.
      cbn -[Z.max timed_out]. rewrite (insert_plus ps _ 2), ?app_nil_r.
      cbn -[Z.max timed_out]. reflexivity. }
  rewrite preceded_nil. now rewrite drain_done.
Qed.

End TimeoutFacts.

(** X23.  A command without reply.  On an idle instance with an open
    socket, when the timer of [sendCmd] has fired (30000 * 1000 ms after the
    call) the listener of the command is removed and the promise of
    [getCmdRecv] is rejected with the timeout error, and the rejection stops
    at the promise returned by its [then]: the promise handed to the caller
    is still pending, and nothing was emitted.  Both revisions. *)
Theorem timeout_is_not_passed_on
    (js : Platform) (cmd : string) (ld : nat) (dprops : list (string * Val)) (d : JsValue)
    (now : Z) (w : World) :
  Instance.idle w ->
  ws_fault w = None ->
  UUID_v1 js (uuid_seq w) <> "" ->
  listens (ret_name (UUID_v1 js (uuid_seq w))) w = false ->
  heap w !! ld = Some (CObj dprops) ->
  Obj.get "rawMsgData" dprops = None ->
  stringify (heap w) (VRef ld) = Normal d ->
  Forall (fun t => (now < t_due t)%Z) (timers w) ->
  (clock w + 30000 * 1000 <= now)%Z ->
  let id := UUID_v1 js (uuid_seq w) in
  let store := heap w ++ [CObj [("type", VStr "user"); ("cmd", VStr cmd); ("data", VRef ld);
                                ("cmdId", VStr id)]] in
  let after := Scenario.expired cmd (Scenario.envelope cmd d id) store now w in
  Scenario.unanswered IndexA.sendCmd js cmd (VRef ld) now w
  = (([], Normal (length (promises w) + 6)), after)
  /\ Scenario.unanswered IndexB.sendCmd js cmd (VRef ld) now w
     = (([], Normal (length (promises w) + 6)), after)
  /\ promises after !! (length (promises w) + 1) = Some (Rejected (timed_out 30000))
  /\ promises after !! (length (promises w) + 6) = Some Pending
  /\ listens (ret_name id) after = false.
Proof.
  intros Hidle Hf Hid Hdeaf Hl Hraw Hd Hlate Hdue id store after.
  pose proof Hidle as (Hj & Hwf & Htm).
  pose proof Hdeaf as Hdeaf'. unfold listens in Hdeaf'.
  apply orb_false_iff in Hdeaf' as [Hsub Hnone].
  split; [|split; [|split; [|split]]].
  - unfold Scenario.unanswered.
    rewrite (mbind_run _ _ _ _ _ _ (sendCmd_run_A js cmd ld dprops d w Hl Hraw Hd Hid Hf Hwf)),
      preceded_nil.
    rewrite (mbind_run _ _ _ _ _ _
               (drain_after_send cmd id (Scenario.envelope cmd d id) store w Hidle)),
      preceded_nil.
    rewrite (mbind_run _ _ _ _ _ _
               (timer_fires cmd id (Scenario.envelope cmd d id) store now w
                  Hidle Hnone Hsub Hlate Hdue)), preceded_nil.
    now rewrite (mbind_run _ _ _ _ _ _
                   (drain_after_timer cmd (Scenario.envelope cmd d id) store now w Hidle)).
  - unfold Scenario.unanswered.
    rewrite (mbind_run _ _ _ _ _ _ (sendCmd_run_B js cmd ld dprops d w Hl Hraw Hd Hid Hf Hwf)),
      preceded_nil.
    rewrite (mbind_run _ _ _ _ _ _
               (drain_after_send cmd id (Scenario.envelope cmd d id) store w Hidle)),
      preceded_nil.
    rewrite (mbind_run _ _ _ _ _ _
               (timer_fires cmd id (Scenario.envelope cmd d id) store now w
                  Hidle Hnone Hsub Hlate Hdue)), preceded_nil.
    now rewrite (mbind_run _ _ _ _ _ _
                   (drain_after_timer cmd (Scenario.envelope cmd d id) store now w Hidle)).
  - unfold after, Scenario.expired. cbn [promises]. now rewrite lookup_plus.
  - unfold after, Scenario.expired. cbn [promises]. now rewrite lookup_plus.
  - exact Hdeaf.
Qed.

Lemma timeout_is_not_passed_on_witness :
  let store := heap Sample.ready ++ [CObj [("type", VStr "user"); ("cmd", VStr "echo");
                                           ("data", VRef 0); ("cmdId", VStr "uuid-0")]] in
  let after :=
    Scenario.expired "echo" (Scenario.envelope "echo" (JObj [("a_b", JNum 1)]) "uuid-0")
      store 30000000 Sample.ready in
  Scenario.unanswered IndexA.sendCmd Sample2.platform "echo" (VRef 0) 30000000 Sample.ready
  = (([], Normal 6), after)
  /\ Scenario.unanswered IndexB.sendCmd Sample2.platform "echo" (VRef 0) 30000000 Sample.ready
     = (([], Normal 6), after)
  /\ promises after !! 1 = Some (Rejected (timed_out 30000))
  /\ promises after !! 6 = Some Pending
  /\ listens (ret_name "uuid-0") after = false.
Proof.
  refine (timeout_is_not_passed_on Sample2.platform "echo" 0 [("a_b", VNum 1)]
            (JObj [("a_b", JNum 1)]) 30000000 Sample.ready
            _ eq_refl _ eq_refl eq_refl eq_refl eq_refl _ _).
  - repeat split; constructor.
  - discriminate.
  - constructor.
  - cbn. lia.
Defined.
